(** * ThreeTilemap: the quad-batching tile renderer of the Three.js backend

    A shallow embedding of [ThreeTilemapRectLayer] (ThreeTilemap.js): the
    rect accumulator ([addRect], [clear]), the array-texture scan
    ([_ensureArrayTexture]), the classifier and sorter of [_flush], the
    unified, shadow and water mesh builders and the animation fast path
    ([_updateAnimUVs]); and of the two classes that hold the rect layer,
    [ThreeTilemapCompositeLayer] and [ThreeTilemapZLayer], with their child
    management, [clear], [setBitmaps] and [updateTransform].

    JavaScript numbers are IEEE 754 binary64 values: they are Rocq's primitive
    floats.  A [Float32Array] is a list of floats whose element store rounds
    to binary32.  Set numbers, kinds, draw layers and texture versions are
    integers in the caller's contract and are kept in [Z]. *)

From Stdlib Require Import ZArith Floats List Lia Bool.
From Stdlib Require Import Sorting.Sorted Sorting.Permutation.
From Stdlib Require Lists.Finite.
From stdpp Require Import base list.

Set Default Proof Using "Type*".

(** ** JavaScript numbers *)

Module Num.

(** [Math.fround]: the rounding a [Float32Array] applies to a stored
    element (round to nearest even in binary32, overflow to infinity). *)
Definition fround (x : float) : float :=
  match Prim2SF x with
  | S754_finite s m e => SF2Prim (binary_round 24 128 s m e)
  | _ => x
  end.

(** Truthiness of a number: [0], [-0] and [NaN] are falsy. *)
Definition truthy (x : float) : bool := negb (is_zero x || is_nan x).

(** [x || 0] for an argument that may be [undefined]. *)
Definition orZero (o : option float) : float :=
  match o with
  | Some x => if truthy x then x else 0%float
  | None => 0%float
  end.

(** [x !== y] on numbers. *)
Definition strict_ne (x y : float) : bool := negb (PrimFloat.eqb x y).

(** An integer as a number ([parseInt] of an integer key, a draw layer,
    an image dimension). *)
Definition of_Z (z : Z) : float :=
  match z with
  | Zneg p => PrimFloat.opp (PrimFloat.of_uint63 (Uint63.of_Z (Zpos p)))
  | _ => PrimFloat.of_uint63 (Uint63.of_Z z)
  end.

End Num.

(** ** Typed arrays *)

Module F32.

(** [new Float32Array(n)] *)
Definition make (n : nat) : list float := replicate n 0%float.

(** [a[i] = v]: rounds to binary32; a store past the end is ignored. *)
Definition store (a : list float) (i : nat) (v : float) : list float :=
  <[i := Num.fround v]> a.

(** [a[i]]: a read past the end gives [undefined], which is [NaN] in the
    arithmetic that follows every read of the source. *)
Definition load (a : list float) (i : nat) : float := default nan (a !! i).

(** A run of element stores, in program order. *)
Definition stores (a : list float) (ws : list (nat * float)) : list float :=
  foldl (fun acc w => store acc (fst w) (snd w)) a ws.

(** Stores of [vals] at consecutive indices from [off]. *)
Definition block (off : nat) (vals : list float) : list (nat * float) :=
  zip (seq off (length vals)) vals.

(** [dst.set(src)]: copies [src] over the start of [dst].  (The call throws
    when [src] is longer than [dst]; the buffers of a rect set never are.) *)
Definition set (dst src : list float) : list float :=
  src ++ drop (length src) dst.

End F32.

(** ** Objects used as maps

    [_rectData] is keyed by the set number.  [for (k in obj)] enumerates
    the keys that are array indices (the integers from 0 to 2^32 - 2) first,
    in ascending order, and the other keys (["-1"], or a set number from
    2^32 - 1 up) after them in creation order; the association list is kept
    in that order. *)

Module Obj.

(** The largest array index is 2^32 - 2. *)
Definition is_index (k : Z) : bool := (0 <=? k)%Z && (k <? 4294967295)%Z.

Fixpoint get {V} (k : Z) (o : list (Z * V)) : option V :=
  match o with
  | [] => None
  | (k', v) :: o' => if (k =? k')%Z then Some v else get k o'
  end.

Fixpoint set {V} (k : Z) (v : V) (o : list (Z * V)) : list (Z * V) :=
  match o with
  | [] => [(k, v)]
  | (k', v') :: o' =>
      if (k =? k')%Z then (k, v) :: o'
      else if is_index k && (negb (is_index k') || (k <? k')%Z)
           then (k, v) :: o
           else (k', v') :: set k v o'
  end.

End Obj.

(** ** Data model *)

Definition TILESET_TEX_SIZE : Z := 768.
Definition TILESET_LAYER_COUNT : nat := 9.

(** One entry of [_rectData] together with the entries of [_animData],
    [_kindData] and [_drawZData] under the same key: [addRect] creates the
    four together, [clear] resets the four together and nothing removes one
    of them alone. *)
Record RectSet := mkRectSet {
  positions : list float;     (* Float32Array, 12 per rect *)
  uvs : list float;           (* Float32Array, 12 per rect *)
  count : nat;
  capacity : nat;
  animData : list float;      (* animX, animY per rect *)
  kindData : list Z;          (* kind per rect, -1 = not A1 *)
  drawZData : list Z          (* z layer per rect *)
}.

Record Image := mkImage {
  width : Z;
  height : Z;
  pixels : nat                (* the picture, by identity *)
}.

(** A [THREE.Texture] as the layer reads and writes it.  The texture is an
    object that the caller, the bitmaps and the materials share: [tex_id]
    names the object, and what is done to it shows in every bitmap that holds
    it (see [touchBitmaps]). *)
Record Texture := mkTexture {
  image : option Image;
  version : Z;
  nearestFilter : bool;       (* minFilter === THREE.NearestFilter *)
  tex_id : nat                (* the object, by identity *)
}.

(** A bitmap as [_extractThreeTexture] looks at it. *)
Record Bitmap := mkBitmap {
  baseTexture_threeTexture : option Texture;  (* bmp.baseTexture._threeTexture *)
  own_threeTexture : option Texture;          (* bmp._threeTexture *)
  as_texture : option Texture                 (* bmp instanceof THREE.Texture *)
}.

(** The array texture with its per-layer bookkeeping.  A layer holds the
    picture last copied into it, or nothing (all zero). *)
Record ArrayTexture := mkArrayTexture {
  layers : list (option nat);
  needsUpdate : bool;
  layerLoaded : list bool;
  layerImageVersions : list Z
}.

(** Keys of [_meshes]: ["-1"] for the shadow mesh and
    [setNumber + "_" + ("wf" | "w") + "_" + kind] for a water mesh. *)
Inductive MeshKey :=
| ShadowKey
| WaterKey (setNumber : Z) (isWaterfall : bool) (kind : Z).

Definition MeshKey_eqb (a b : MeshKey) : bool :=
  match a, b with
  | ShadowKey, ShadowKey => true
  | WaterKey s w k, WaterKey s' w' k' => (s =? s')%Z && Bool.eqb w w' && (k =? k')%Z
  | _, _ => false
  end.

(** A mesh: its geometry attributes, its visibility and what the fast path
    reads back from it.  Materials and shader wiring are left out.
    [material_map] is the texture as it was when the mesh was built; the
    layer reads only its [image] through the mesh, which nothing changes. *)
Record Mesh := mkMesh {
  position : list float;
  normal : option (list float);
  uv : option (list float);
  aUvBounds : option (list float);
  visible : bool;
  material_map : option Texture;   (* material.map, or uniforms.map.value *)
  isWaterMesh : bool;
  isWaterfall : bool;
  a1Kinds : list Z;
  maxDrawZ : Z
}.

Record UnifiedMesh := mkUnifiedMesh {
  u_position : list float;
  u_normal : list float;
  u_uv : list float;
  u_aTextureLayer : list float;
  u_visible : bool;
  u_maxDrawZ : Z
}.

(** [{setNumber, setNumberStr, index, drawZ}]; the string is the key again. *)
Record UnifiedRect := mkUnifiedRect {
  r_setNumber : Z;
  r_index : nat;
  r_drawZ : Z
}.

Record Layer := mkLayer {
  _rectData : list (Z * RectSet);
  _bitmaps : list (option Bitmap);
  _meshes : list (MeshKey * Mesh);
  _needsRebuild : bool;
  _tileAnimX : float;
  _tileAnimY : float;
  _lastTileAnimX : float;
  _lastTileAnimY : float;
  _currentDrawZ : Z;
  _arrayTexture : option ArrayTexture;
  _unifiedMesh : option UnifiedMesh;
  _unifiedRects : option (list UnifiedRect)
}.

(** The constructor. *)
Definition init : Layer :=
  {| _rectData := []; _bitmaps := []; _meshes := []; _needsRebuild := false;
     _tileAnimX := 0; _tileAnimY := 0; _lastTileAnimX := 0; _lastTileAnimY := 0;
     _currentDrawZ := 0; _arrayTexture := None; _unifiedMesh := None;
     _unifiedRects := None |}.

Definition with_rectData (rd : list (Z * RectSet)) (this : Layer) : Layer :=
  mkLayer rd (_bitmaps this) (_meshes this) (_needsRebuild this)
    (_tileAnimX this) (_tileAnimY this) (_lastTileAnimX this) (_lastTileAnimY this)
    (_currentDrawZ this) (_arrayTexture this) (_unifiedMesh this) (_unifiedRects this).

Definition with_needsRebuild (b : bool) (this : Layer) : Layer :=
  mkLayer (_rectData this) (_bitmaps this) (_meshes this) b
    (_tileAnimX this) (_tileAnimY this) (_lastTileAnimX this) (_lastTileAnimY this)
    (_currentDrawZ this) (_arrayTexture this) (_unifiedMesh this) (_unifiedRects this).

(** The two fields the callers assign directly. *)
Definition setCurrentDrawZ (z : Z) (this : Layer) : Layer :=
  mkLayer (_rectData this) (_bitmaps this) (_meshes this) (_needsRebuild this)
    (_tileAnimX this) (_tileAnimY this) (_lastTileAnimX this) (_lastTileAnimY this)
    z (_arrayTexture this) (_unifiedMesh this) (_unifiedRects this).

Definition setAnimationOffset (ax ay : float) (this : Layer) : Layer :=
  mkLayer (_rectData this) (_bitmaps this) (_meshes this) (_needsRebuild this)
    ax ay (_lastTileAnimX this) (_lastTileAnimY this)
    (_currentDrawZ this) (_arrayTexture this) (_unifiedMesh this) (_unifiedRects this).

(** ** Rect accumulator *)

Definition INITIAL_CAPACITY : nat := 1000.

Definition newRectSet : RectSet :=
  {| positions := F32.make (INITIAL_CAPACITY * 12);
     uvs := F32.make (INITIAL_CAPACITY * 12);
     count := 0; capacity := INITIAL_CAPACITY;
     animData := []; kindData := []; drawZData := [] |}.

(** The capacity check of [addRect]: [if (idx >= data.capacity) ...]. *)
Definition grow (data : RectSet) : RectSet :=
  if capacity data <=? count data then
    let newCapacity := capacity data * 2 in
    {| positions := F32.set (F32.make (newCapacity * 6 * 2)) (positions data);
       uvs := F32.set (F32.make (newCapacity * 6 * 2)) (uvs data);
       count := count data; capacity := newCapacity;
       animData := animData data; kindData := kindData data;
       drawZData := drawZData data |}
  else data.

(** The twelve numbers of a quad, as [addRect] writes them:
    TL, TR, BL, TR, BR, BL. *)
Definition quad (a b w h : float) : list float :=
  [ a; b; (a + w)%float; b; a; (b + h)%float;
    (a + w)%float; b; (a + w)%float; (b + h)%float; a; (b + h)%float ].

Definition addRect (setNumber : Z) (u v x y w h : float)
    (animX animY : option float) (a1Kind : option Z) (this : Layer) : Layer :=
  let data0 := default newRectSet (Obj.get setNumber (_rectData this)) in
  let idx := count data0 in
  let data := grow data0 in
  let pi := idx * 12 in
  let data' :=
    {| positions := F32.stores (positions data) (F32.block pi (quad x y w h));
       uvs := F32.stores (uvs data) (F32.block pi (quad u v w h));
       count := S idx;
       capacity := capacity data;
       animData := animData data ++ [Num.orZero animX; Num.orZero animY];
       kindData := kindData data ++ [default (-1)%Z a1Kind];
       drawZData := drawZData data ++ [_currentDrawZ this] |} in
  with_needsRebuild true (with_rectData (Obj.set setNumber data' (_rectData this)) this).

Definition clearRectSet (data : RectSet) : RectSet :=
  {| positions := positions data; uvs := uvs data; count := 0;
     capacity := capacity data;
     animData := []; kindData := []; drawZData := [] |}.

Definition clear (this : Layer) : Layer :=
  mkLayer (List.map (fun kv => (fst kv, clearRectSet (snd kv))) (_rectData this))
    (_bitmaps this) (_meshes this) true
    (_tileAnimX this) (_tileAnimY this) (_lastTileAnimX this) (_lastTileAnimY this)
    (_currentDrawZ this) (_arrayTexture this) (_unifiedMesh this) None.

Definition setBitmaps (bitmaps : list (option Bitmap)) (this : Layer) : Layer :=
  let tex :=
    match _arrayTexture this with
    | Some t => Some {| layers := List.map (fun _ => None) (layers t);
                        needsUpdate := true;
                        layerLoaded := List.map (fun _ => false) (layerLoaded t);
                        layerImageVersions := layerImageVersions t |}
    | None => None
    end in
  mkLayer (_rectData this) bitmaps (_meshes this) true
    (_tileAnimX this) (_tileAnimY this) (_lastTileAnimX this) (_lastTileAnimY this)
    (_currentDrawZ this) tex (_unifiedMesh this) (_unifiedRects this).

(** ** Texture array manager *)

Definition _extractThreeTexture (bmp : option Bitmap) : option Texture :=
  match bmp with
  | None => None
  | Some b =>
      match baseTexture_threeTexture b with
      | Some t => Some t
      | None =>
          match own_threeTexture b with
          | Some t => Some t
          | None => as_texture b
          end
      end
  end.

(** [_copyImageToLayer]: the picture, drawn on the blank offscreen canvas,
    replaces the contents of one layer. *)
Definition _copyImageToLayer (img : Image) (layerIndex : nat) (t : ArrayTexture)
    : ArrayTexture :=
  {| layers := <[layerIndex := Some (pixels img)]> (layers t);
     needsUpdate := needsUpdate t;
     layerLoaded := layerLoaded t;
     layerImageVersions := layerImageVersions t |}.

Definition newArrayTexture : ArrayTexture :=
  {| layers := replicate TILESET_LAYER_COUNT None;
     needsUpdate := true;
     layerLoaded := replicate TILESET_LAYER_COUNT false;
     layerImageVersions := replicate TILESET_LAYER_COUNT 0%Z |}.

(** The state of the scan loop: the texture, the [updated] flag and the
    copies made so far (layer index and picture). *)
Record Scan := mkScan {
  s_tex : ArrayTexture;
  s_updated : bool;
  s_copies : list (nat * nat)
}.

(** One turn of [for (i = 0; i < TILESET_LAYER_COUNT; i++)]. *)
Definition scanLayer (bitmaps : list (option Bitmap)) (st : Scan) (i : nat) : Scan :=
  match bitmaps !! i with
  | Some (Some bmp) =>
      match _extractThreeTexture (Some bmp) with
      | Some tex =>
          match image tex with
          | Some img =>
              if (width img =? 0)%Z || (height img =? 0)%Z then st
              else
                let t := s_tex st in
                if default false (layerLoaded t !! i)
                   && (default 0%Z (layerImageVersions t !! i) =? version tex)%Z
                then st
                else
                  let t1 := _copyImageToLayer img i t in
                  {| s_tex :=
                       {| layers := layers t1;
                          needsUpdate := needsUpdate t1;
                          layerLoaded := <[i := true]> (layerLoaded t1);
                          layerImageVersions :=
                            <[i := version tex]> (layerImageVersions t1) |};
                     s_updated := true;
                     s_copies := s_copies st ++ [(i, pixels img)] |}
          | None => st
          end
      | None => st
      end
  | _ => st
  end.

Definition scanLayers (bitmaps : list (option Bitmap)) (t : ArrayTexture) : Scan :=
  foldl (scanLayer bitmaps) (mkScan t false []) (seq 0 TILESET_LAYER_COUNT).

(** [if (updated) this._arrayTexture.needsUpdate = true] *)
Definition markUpdated (sc : Scan) : ArrayTexture :=
  if s_updated sc
  then mkArrayTexture (layers (s_tex sc)) true (layerLoaded (s_tex sc))
         (layerImageVersions (s_tex sc))
  else s_tex sc.

(** The texture [_ensureArrayTexture] leaves: created when missing, scanned,
    and marked for upload when a layer was copied. *)
Definition scannedTexture (this : Layer) : ArrayTexture :=
  markUpdated (scanLayers (_bitmaps this)
                 (default newArrayTexture (_arrayTexture this))).

(** [_ensureArrayTexture], with the copies it made. *)
Definition _ensureArrayTexture (this : Layer) : Layer * list (nat * nat) :=
  (mkLayer (_rectData this) (_bitmaps this) (_meshes this) (_needsRebuild this)
     (_tileAnimX this) (_tileAnimY this) (_lastTileAnimX this) (_lastTileAnimY this)
     (_currentDrawZ this) (Some (scannedTexture this)) (_unifiedMesh this)
     (_unifiedRects this),
   s_copies (scanLayers (_bitmaps this)
               (default newArrayTexture (_arrayTexture this)))).

(** ** What the layer reads from its surroundings *)

(** The water module ([ThreeWaterShader]), an opaque classifier. *)
Record WaterShader := mkWaterShader {
  isWaterRect : float -> float -> bool;
  isWaterfallRect : float -> float -> bool;
  isKindEnabled : Z -> bool
}.

(** [waterShader] is [None] when [typeof ThreeWaterShader] is ['undefined'];
    [mode3d] is [typeof ConfigManager !== 'undefined' && ConfigManager.mode3d];
    [tileLayerElevation] is [$dataMap && $dataMap.tileLayerElevation]. *)
Record Env := mkEnv {
  waterShader : option WaterShader;
  mode3d : bool;
  tileLayerElevation : bool
}.

(** ** Mesh builders *)

Definition mesh_get (k : MeshKey) (ms : list (MeshKey * Mesh)) : option Mesh :=
  snd <$> List.find (fun kv => MeshKey_eqb k (fst kv)) ms.

(** [this._meshes[k] = m]: a new key goes last. *)
Fixpoint mesh_set (k : MeshKey) (m : Mesh) (ms : list (MeshKey * Mesh))
    : list (MeshKey * Mesh) :=
  match ms with
  | [] => [(k, m)]
  | (k', m') :: ms' =>
      if MeshKey_eqb k k' then (k, m) :: ms' else (k', m') :: mesh_set k m ms'
  end.

(** Reading [this._rectData[key]] of a key that is there.  (The builders
    only do so for keys they took from [_rectData] itself.) *)
Definition noRectSet : RectSet := mkRectSet [] [] 0 0 [] [] [].

Definition setOf (rectData : list (Z * RectSet)) (setNumber : Z) : RectSet :=
  default noRectSet (Obj.get setNumber rectData).

Definition rectSetOf (this : Layer) (setNumber : Z) : RectSet :=
  setOf (_rectData this) setNumber.

(** [elevationEnabled ? -drawZ * 0.01 : 0] *)
Definition zOffset (elevationEnabled : bool) (drawZ : Z) : float :=
  if elevationEnabled then (- (Num.of_Z drawZ) * 0x1.47ae147ae147bp-7)%float
  else 0%float.

(** The 18 position components of rect [i]: x, y of the stored quad and
    the z offset, for each of the 6 vertices. *)
Definition posBlock (data : RectSet) (i : nat) (z : float) : list float :=
  flat_map (fun j => [ F32.load (positions data) (i * 12 + j * 2);
                       F32.load (positions data) (i * 12 + j * 2 + 1);
                       z ]) (seq 0 6).

Definition normalBlock : list float :=
  flat_map (fun _ => [0; 0; -1]%float) (seq 0 6).

Definition drawZOf (data : RectSet) (i : nat) : Z := default 0%Z (drawZData data !! i).

Definition animXOf (data : RectSet) (i : nat) : float := Num.orZero (animData data !! (i * 2)).
Definition animYOf (data : RectSet) (i : nat) : float := Num.orZero (animData data !! (i * 2 + 1)).

(** [kindArr[ci] != null ? kindArr[ci] : -1] *)
Definition kindOf (data : RectSet) (i : nat) : Z := default (-1)%Z (kindData data !! i).

(** The stores of [for (ri = 0; ri < count; ri++)] into one array whose
    rects are [stride] apart ([rects] is the rect list of the unified mesh
    or the index list of a water mesh). *)
Definition perRect {A} (stride : nat) (blk : A -> list float)
    (rects : list A) : list (nat * float) :=
  concat (imap (fun ri rect => F32.block (ri * stride) (blk rect)) rects).

(** *** Shadow mesh *)

Definition shadowPositions (env : Env) (data : RectSet) : list float :=
  let elevationEnabled := negb (mode3d env) && tileLayerElevation env in
  F32.stores (F32.make (count data * 6 * 3))
    (perRect 18 (fun i => posBlock data i (zOffset elevationEnabled (drawZOf data i)))
       (seq 0 (count data))).

Definition _buildShadowMesh (env : Env) (data : RectSet) (this : Layer) : Layer :=
  let posArray := shadowPositions env data in
  let mesh :=
    match mesh_get ShadowKey (_meshes this) with
    | Some m => mkMesh posArray (normal m) (uv m) (aUvBounds m) true
                  (material_map m) (isWaterMesh m) (isWaterfall m) (a1Kinds m) 0
    | None => mkMesh posArray None None None true None false false [] 0
    end in
  mkLayer (_rectData this) (_bitmaps this) (mesh_set ShadowKey mesh (_meshes this))
    (_needsRebuild this)
    (_tileAnimX this) (_tileAnimY this) (_lastTileAnimX this) (_lastTileAnimY this)
    (_currentDrawZ this) (_arrayTexture this) (_unifiedMesh this) (_unifiedRects this).

(** *** Unified mesh *)

(** The 12 UV components of a rect of the unified mesh. *)
Definition unifiedUvBlock (data : RectSet) (i : nat) (tileAnimX tileAnimY : float)
    : list float :=
  let ax := (animXOf data i * tileAnimX)%float in
  let ay := (animYOf data i * tileAnimY)%float in
  flat_map (fun j =>
    [ ((F32.load (uvs data) (i * 12 + j * 2) + ax) / Num.of_Z TILESET_TEX_SIZE)%float;
      ((F32.load (uvs data) (i * 12 + j * 2 + 1) + ay) / Num.of_Z TILESET_TEX_SIZE)%float ])
    (seq 0 6).

Definition layerBlock (sn : Z) : list float :=
  List.map (fun _ => Num.of_Z sn) (seq 0 6).

Definition unifiedUvStores (this : Layer) (rects : list UnifiedRect)
    (tileAnimX tileAnimY : float) : list (nat * float) :=
  perRect 12 (fun rect => unifiedUvBlock (rectSetOf this (r_setNumber rect))
                            (r_index rect) tileAnimX tileAnimY) rects.

Definition _buildUnifiedMesh (env : Env) (allRects : list UnifiedRect)
    (tileAnimX tileAnimY : float) (this : Layer) : Layer :=
  let count := length allRects in
  let mesh :=
    if count =? 0 then
      match _unifiedMesh this with
      | Some m => Some (mkUnifiedMesh (u_position m) (u_normal m) (u_uv m)
                          (u_aTextureLayer m) false (u_maxDrawZ m))
      | None => None
      end
    else
      let vertCount := count * 6 in
      let is3DMode := mode3d env in
      let elevationEnabled := negb is3DMode && tileLayerElevation env in
      let dataOf rect := rectSetOf this (r_setNumber rect) in
      let posArray :=
        F32.stores (F32.make (vertCount * 3))
          (perRect 18 (fun rect =>
             posBlock (dataOf rect) (r_index rect)
               (zOffset elevationEnabled (drawZOf (dataOf rect) (r_index rect))))
             allRects) in
      let normalArray :=
        F32.stores (F32.make (vertCount * 3)) (perRect 18 (fun _ => normalBlock) allRects) in
      let uvArray :=
        F32.stores (F32.make (vertCount * 2))
          (unifiedUvStores this allRects tileAnimX tileAnimY) in
      let layerArray :=
        F32.stores (F32.make vertCount)
          (perRect 6 (fun rect => layerBlock (r_setNumber rect)) allRects) in
      let maxDrawZ :=
        foldl (fun m rect => let drawZ := drawZOf (dataOf rect) (r_index rect) in
                             if (m <? drawZ)%Z then drawZ else m) 0%Z allRects in
      Some (mkUnifiedMesh posArray normalArray uvArray layerArray true maxDrawZ) in
  mkLayer (_rectData this) (_bitmaps this) (_meshes this) (_needsRebuild this)
    (_tileAnimX this) (_tileAnimY this) (_lastTileAnimX this) (_lastTileAnimY this)
    (_currentDrawZ this) (_arrayTexture this) mesh (Some allRects).

(** *** Water meshes *)

(** [uMin], [uMax], [vMin], [vMax] of the bounds loop. *)
Record Bounds := mkBounds { uMin : float; uMax : float; vMin : float; vMax : float }.

(** The UV of vertex [j] of water rect [i], in the texture's own pixel
    space, flipped to a bottom origin. *)
Definition waterUV (data : RectSet) (i : nat) (texW texH tileAnimX tileAnimY : float)
    (j : nat) : float * float :=
  let ax := (animXOf data i * tileAnimX)%float in
  let ay := (animYOf data i * tileAnimY)%float in
  ( ((F32.load (uvs data) (i * 12 + j * 2) + ax) / texW)%float,
    (1 - (F32.load (uvs data) (i * 12 + j * 2 + 1) + ay) / texH)%float ).

Definition waterUVs (data : RectSet) (i : nat) (texW texH tileAnimX tileAnimY : float)
    : list (float * float) :=
  List.map (waterUV data i texW texH tileAnimX tileAnimY) (seq 0 6).

Definition waterUvBlock (data : RectSet) (i : nat) (texW texH tileAnimX tileAnimY : float)
    : list float :=
  flat_map (fun p => [fst p; snd p]) (waterUVs data i texW texH tileAnimX tileAnimY).

(** One turn of the min/max loop over the 6 vertices. *)
Definition boundsStep (b : Bounds) (p : float * float) : Bounds :=
  {| uMin := if (fst p <? uMin b)%float then fst p else uMin b;
     uMax := if (uMax b <? fst p)%float then fst p else uMax b;
     vMin := if (snd p <? vMin b)%float then snd p else vMin b;
     vMax := if (vMax b <? snd p)%float then snd p else vMax b |}.

Definition rawBounds (ps : list (float * float)) : Bounds :=
  foldl boundsStep (mkBounds infinity neg_infinity infinity neg_infinity) ps.

(** Half a texel inwards on each side. *)
Definition insetBounds (texW texH : float) (b : Bounds) : Bounds :=
  let halfTexelU := (0.5 / texW)%float in
  let halfTexelV := (0.5 / texH)%float in
  {| uMin := (uMin b + halfTexelU)%float; uMax := (uMax b - halfTexelU)%float;
     vMin := (vMin b + halfTexelV)%float; vMax := (vMax b - halfTexelV)%float |}.

Definition boundsBlock (b : Bounds) : list float :=
  flat_map (fun _ => [uMin b; vMin b; uMax b; vMax b]) (seq 0 6).

Definition waterBoundsBlock (data : RectSet) (i : nat)
    (texW texH tileAnimX tileAnimY : float) : list float :=
  boundsBlock (insetBounds texW texH
                 (rawBounds (waterUVs data i texW texH tileAnimX tileAnimY))).

(** [image.width || 1] as a number *)
Definition dimOr1 (d : Z) : float := Num.of_Z (if (d =? 0)%Z then 1%Z else d).

Definition _buildWaterTypeMesh (env : Env) (setNumber : Z) (meshKey : MeshKey)
    (indices : list nat) (data : RectSet) (texture : Texture) (texW texH : float)
    (tileAnimX tileAnimY : float) (isWaterfall : bool) (a1Kinds : list Z)
    (this : Layer) : Layer :=
  let count := length indices in
  let vertCount := count * 6 in
  let elevationEnabled := tileLayerElevation env in
  let posArray :=
    F32.stores (F32.make (vertCount * 3))
      (perRect 18 (fun i => posBlock data i (zOffset elevationEnabled (drawZOf data i)))
         indices) in
  let normalArray :=
    F32.stores (F32.make (vertCount * 3)) (perRect 18 (fun _ => normalBlock) indices) in
  let uvArray :=
    F32.stores (F32.make (vertCount * 2))
      (perRect 12 (fun i => waterUvBlock data i texW texH tileAnimX tileAnimY) indices) in
  let uvBoundsArray :=
    F32.stores (F32.make (vertCount * 4))
      (perRect 24 (fun i => waterBoundsBlock data i texW texH tileAnimX tileAnimY)
         indices) in
  let mesh :=
    mkMesh posArray (Some normalArray) (Some uvArray) (Some uvBoundsArray) true
      (Some texture) true isWaterfall a1Kinds
      (match mesh_get meshKey (_meshes this) with Some m => maxDrawZ m | None => 0%Z end) in
  mkLayer (_rectData this) (_bitmaps this) (mesh_set meshKey mesh (_meshes this))
    (_needsRebuild this)
    (_tileAnimX this) (_tileAnimY this) (_lastTileAnimX this) (_lastTileAnimY this)
    (_currentDrawZ this) (_arrayTexture this) (_unifiedMesh this) (_unifiedRects this).

(** An entry of [kindGroups], keyed by [("wf" | "w") + "_" + kind]. *)
Record KindGroup := mkKindGroup {
  g_indices : list nat;
  g_isWaterfall : bool;
  g_kinds : list Z
}.

Definition groupKey_eqb (a b : bool * Z) : bool :=
  Bool.eqb (fst a) (fst b) && (snd a =? snd b)%Z.

Definition group_get (k : bool * Z) (gs : list ((bool * Z) * KindGroup))
    : option KindGroup :=
  snd <$> List.find (fun kv => groupKey_eqb k (fst kv)) gs.

Fixpoint group_set (k : bool * Z) (g : KindGroup) (gs : list ((bool * Z) * KindGroup))
    : list ((bool * Z) * KindGroup) :=
  match gs with
  | [] => [(k, g)]
  | (k', g') :: gs' =>
      if groupKey_eqb k k' then (k, g) :: gs' else (k', g') :: group_set k g gs'
  end.

(** One turn of the grouping loop of [_buildWaterMesh]. *)
Definition groupStep (ws : WaterShader) (data : RectSet)
    (kindGroups : list ((bool * Z) * KindGroup)) (ci : nat)
    : list ((bool * Z) * KindGroup) :=
  let cAnimX := animXOf data ci in
  let cAnimY := animYOf data ci in
  if negb (isWaterRect ws cAnimX cAnimY) then kindGroups
  else
    let kind := kindOf data ci in
    if (0 <=? kind)%Z && negb (isKindEnabled ws kind) then kindGroups
    else
      let isWaterfall := isWaterfallRect ws cAnimX cAnimY in
      let groupKey := (isWaterfall, kind) in
      let g0 := default (mkKindGroup [] isWaterfall (if (0 <=? kind)%Z then [kind] else []))
                        (group_get groupKey kindGroups) in
      let kinds1 :=
        if (0 <=? kind)%Z && negb (existsb (Z.eqb kind) (g_kinds g0))
        then g_kinds g0 ++ [kind] else g_kinds g0 in
      group_set groupKey (mkKindGroup (g_indices g0 ++ [ci]) (g_isWaterfall g0) kinds1)
        kindGroups.

Definition waterGroups (ws : WaterShader) (data : RectSet)
    : list ((bool * Z) * KindGroup) :=
  foldl (groupStep ws data) [] (seq 0 (count data)).

Definition _buildWaterMesh (env : Env) (ws : WaterShader) (setNumber : Z)
    (data : RectSet) (texture : Texture) (texW texH tileAnimX tileAnimY : float)
    (this : Layer) : Layer :=
  foldl (fun acc kg =>
           let group := snd kg in
           if 0 <? length (g_indices group) then
             _buildWaterTypeMesh env setNumber
               (WaterKey setNumber (fst (fst kg)) (snd (fst kg)))
               (g_indices group) data texture texW texH tileAnimX tileAnimY
               (g_isWaterfall group) (g_kinds group) acc
           else acc)
        this (waterGroups ws data).

(** ** Animation fast path *)

(** The test that sends a rect of set 0 to the water meshes. *)
Definition waterTest (ws : WaterShader) (data : RectSet) (ci : nat) : bool :=
  let ck := kindOf data ci in
  isWaterRect ws (animXOf data ci) (animYOf data ci)
  && ((ck <? 0)%Z || isKindEnabled ws ck).

(** The rects the fast path writes into the water mesh [wMesh], in order. *)
Definition fastPathRects (ws : WaterShader) (data : RectSet) (wMesh : Mesh) : list nat :=
  let meshKinds := a1Kinds wMesh in
  let meshIsWF := isWaterfall wMesh in
  List.filter (fun i =>
      let cAx := animXOf data i in
      let cAy := animYOf data i in
      isWaterRect ws cAx cAy
      && Bool.eqb (isWaterfallRect ws cAx cAy) meshIsWF
      && negb ((0 <? length meshKinds) && negb (existsb (Z.eqb (kindOf data i)) meshKinds)))
    (seq 0 (count data)).

(** The body of [for (var mkey in this._meshes)] for a key that passed the
    prefix test, with the texture size carried by the loop. *)
Definition fastPathMesh (ws : WaterShader) (data : RectSet) (tileAnimX tileAnimY : float)
    (tex : float * float) (wMesh : Mesh) : (float * float) * Mesh :=
  match uv wMesh with
  | None => (tex, wMesh)
  | Some wUvArray =>
      let tex1 :=
        match material_map wMesh with
        | Some wTex =>
            match image wTex with
            | Some img => (dimOr1 (width img), dimOr1 (height img))
            | None => tex
            end
        | None => tex
        end in
      let texW := fst tex1 in
      let texH := snd tex1 in
      let sel := fastPathRects ws data wMesh in
      let uv1 :=
        F32.stores wUvArray
          (perRect 12 (fun i => waterUvBlock data i texW texH tileAnimX tileAnimY) sel) in
      let bounds1 :=
        match aUvBounds wMesh with
        | Some wBoundsArray =>
            Some (F32.stores wBoundsArray
                    (perRect 24 (fun i => waterBoundsBlock data i texW texH
                                            tileAnimX tileAnimY) sel))
        | None => None
        end in
      (tex1, mkMesh (position wMesh) (normal wMesh) (Some uv1) bounds1 (visible wMesh)
               (material_map wMesh) (isWaterMesh wMesh) (isWaterfall wMesh)
               (a1Kinds wMesh) (maxDrawZ wMesh))
  end.

(** [mkey] starts with [setNumber + "_w_"] or [setNumber + "_wf_"]. *)
Definition hasWaterPrefix (setNumber : Z) (mkey : MeshKey) : bool :=
  match mkey with
  | WaterKey sn _ _ => (sn =? setNumber)%Z
  | ShadowKey => false
  end.

Fixpoint fastPathMeshes (ws : WaterShader) (setNumber : Z) (data : RectSet)
    (tileAnimX tileAnimY : float) (tex : float * float) (ms : list (MeshKey * Mesh))
    : list (MeshKey * Mesh) :=
  match ms with
  | [] => []
  | (mkey, wMesh) :: ms' =>
      if hasWaterPrefix setNumber mkey then
        let r := fastPathMesh ws data tileAnimX tileAnimY tex wMesh in
        (mkey, snd r) :: fastPathMeshes ws setNumber data tileAnimX tileAnimY (fst r) ms'
      else (mkey, wMesh) :: fastPathMeshes ws setNumber data tileAnimX tileAnimY tex ms'
  end.

(** One turn of [for (var setNumber in this._rectData)] of the fast path. *)
Definition fastPathSet (env : Env) (tileAnimX tileAnimY : float)
    (ms : list (MeshKey * Mesh)) (entry : Z * RectSet) : list (MeshKey * Mesh) :=
  let sn := fst entry in
  let data := snd entry in
  if negb (sn =? 0)%Z then ms
  else
    match waterShader env with
    | None => ms
    | Some ws =>
        if count data =? 0 then ms
        else if negb (existsb (waterTest ws data) (seq 0 (count data))) then ms
        else fastPathMeshes ws sn data tileAnimX tileAnimY (1%float, 1%float) ms
    end.

Definition fastPathUnified (this : Layer) (tileAnimX tileAnimY : float)
    : option UnifiedMesh :=
  match _unifiedMesh this, _unifiedRects this with
  | Some m, Some rects =>
      if u_visible m then
        Some (mkUnifiedMesh (u_position m) (u_normal m)
                (F32.stores (u_uv m) (unifiedUvStores this rects tileAnimX tileAnimY))
                (u_aTextureLayer m) (u_visible m) (u_maxDrawZ m))
      else Some m
  | m, _ => m
  end.

Definition _updateAnimUVs (env : Env) (tileAnimX tileAnimY : float) (this : Layer)
    : Layer :=
  mkLayer (_rectData this) (_bitmaps this)
    (foldl (fastPathSet env tileAnimX tileAnimY) (_meshes this) (_rectData this))
    (_needsRebuild this)
    (_tileAnimX this) (_tileAnimY this) (_lastTileAnimX this) (_lastTileAnimY this)
    (_currentDrawZ this) (_arrayTexture this)
    (fastPathUnified this tileAnimX tileAnimY) (_unifiedRects this).

(** ** Classifier, sorter and [_flush] *)

(** [allRects.sort(function(a, b) { return a.drawZ - b.drawZ; })].
    [Array.prototype.sort] is stable; it is modelled by insertion from the
    right, an element going before the first one that is not below it. *)
Fixpoint insertByDrawZ (x : UnifiedRect) (l : list UnifiedRect) : list UnifiedRect :=
  match l with
  | [] => [x]
  | y :: l' => if (r_drawZ y <? r_drawZ x)%Z then y :: insertByDrawZ x l' else x :: l
  end.

Definition sortByDrawZ (l : list UnifiedRect) : list UnifiedRect :=
  foldr insertByDrawZ [] l.

(** The water check of the classifier loop, with its guard on the set. *)
Definition isWaterClassified (env : Env) (sn : Z) (data : RectSet) (ci : nat) : bool :=
  (sn =? 0)%Z
  && match waterShader env with
     | Some ws => waterTest ws data ci
     | None => false
     end.

(** The state of the classifier loop. *)
Record Classified := mkClassified {
  c_this : Layer;
  c_allRects : list UnifiedRect;
  c_hasWaterBySet : list (Z * bool)
}.

Definition classifyRect (env : Env) (sn : Z) (data : RectSet)
    (acc : list UnifiedRect * list (Z * bool)) (ci : nat)
    : list UnifiedRect * list (Z * bool) :=
  if isWaterClassified env sn data ci
  then (fst acc, Obj.set sn true (snd acc))
  else (fst acc ++ [mkUnifiedRect sn ci (drawZOf data ci)], snd acc).

(** One turn of [for (var setNumber in this._rectData)] of the rebuild. *)
Definition classifySet (env : Env) (acc : Classified) (entry : Z * RectSet) : Classified :=
  let sn := fst entry in
  let data := snd entry in
  if count data =? 0 then acc
  else if (sn =? -1)%Z then
    mkClassified (_buildShadowMesh env data (c_this acc)) (c_allRects acc)
      (c_hasWaterBySet acc)
  else
    let r := foldl (classifyRect env sn data) (c_allRects acc, c_hasWaterBySet acc)
               (seq 0 (count data)) in
    mkClassified (c_this acc) (fst r) (snd r).

Definition bitmapAt (bitmaps : list (option Bitmap)) (sn : Z) : option Bitmap :=
  if (sn <? 0)%Z then None else mjoin (bitmaps !! Z.to_nat sn).

(** [wTex.minFilter = wTex.magFilter = THREE.NearestFilter;
    wTex.generateMipmaps = false; wTex.anisotropy = 1; wTex.needsUpdate = true].
    The setter of [needsUpdate] raises [version]; the other three fields are
    read nowhere. *)
Definition setNearest (t : Texture) : Texture :=
  mkTexture (image t) (version t + 1) true (tex_id t).

(** The texture [id] made nearest, wherever a bitmap holds it. *)
Definition touchTexture (id : nat) (t : Texture) : Texture :=
  if tex_id t =? id then setNearest t else t.

Definition touchBitmap (id : nat) (b : Bitmap) : Bitmap :=
  mkBitmap (touchTexture id <$> baseTexture_threeTexture b)
    (touchTexture id <$> own_threeTexture b)
    (touchTexture id <$> as_texture b).

Definition touchBitmaps (id : nat) (bitmaps : list (option Bitmap))
    : list (option Bitmap) :=
  (fun b : option Bitmap => touchBitmap id <$> b) <$> bitmaps.

Definition with_bitmaps (bitmaps : list (option Bitmap)) (this : Layer) : Layer :=
  mkLayer (_rectData this) bitmaps (_meshes this) (_needsRebuild this)
    (_tileAnimX this) (_tileAnimY this) (_lastTileAnimX this) (_lastTileAnimY this)
    (_currentDrawZ this) (_arrayTexture this) (_unifiedMesh this) (_unifiedRects this).

(** [if (wTex.minFilter !== THREE.NearestFilter) { ... }]: the texture of the
    water meshes is made nearest the first time a water mesh is built from
    it. *)
Definition nearestOf (wTex : Texture) : Texture :=
  if nearestFilter wTex then wTex else setNearest wTex.

Definition makeNearest (wTex : Texture) (this : Layer) : Layer :=
  if nearestFilter wTex then this
  else with_bitmaps (touchBitmaps (tex_id wTex) (_bitmaps this)) this.

(** One turn of [for (var wSn in hasWaterBySet)]. *)
Definition buildWaterOfSet (env : Env) (tileAnimX tileAnimY : float)
    (this : Layer) (entry : Z * bool) : Layer :=
  let wSn := fst entry in
  match waterShader env, _extractThreeTexture (bitmapAt (_bitmaps this) wSn) with
  | Some ws, Some wTex =>
      match image wTex with
      | Some img =>
          _buildWaterMesh env ws wSn (rectSetOf this wSn) (nearestOf wTex)
            (dimOr1 (width img)) (dimOr1 (height img)) tileAnimX tileAnimY
            (makeNearest wTex this)
      | None => this
      end
  | _, _ => this
  end.

Definition hideMesh (m : Mesh) : Mesh :=
  mkMesh (position m) (normal m) (uv m) (aUvBounds m) false (material_map m)
    (isWaterMesh m) (isWaterfall m) (a1Kinds m) (maxDrawZ m).

Definition hideUnified (m : UnifiedMesh) : UnifiedMesh :=
  mkUnifiedMesh (u_position m) (u_normal m) (u_uv m) (u_aTextureLayer m) false
    (u_maxDrawZ m).

(** The rebuild branch of [_flush], after the texture scan. *)
Definition rebuild (env : Env) (this : Layer) : Layer :=
  let tileAnimX := _tileAnimX this in
  let tileAnimY := _tileAnimY this in
  let this1 :=
    mkLayer (_rectData this) (_bitmaps this)
      (List.map (fun kv => (fst kv, hideMesh (snd kv))) (_meshes this))
      false tileAnimX tileAnimY tileAnimX tileAnimY
      (_currentDrawZ this) (_arrayTexture this)
      (hideUnified <$> _unifiedMesh this) (_unifiedRects this) in
  let c := foldl (classifySet env) (mkClassified this1 [] []) (_rectData this1) in
  let allRects := sortByDrawZ (c_allRects c) in
  let this2 := _buildUnifiedMesh env allRects tileAnimX tileAnimY (c_this c) in
  foldl (buildWaterOfSet env tileAnimX tileAnimY) this2 (c_hasWaterBySet c).

Definition setLastTileAnim (ax ay : float) (this : Layer) : Layer :=
  mkLayer (_rectData this) (_bitmaps this) (_meshes this) (_needsRebuild this)
    (_tileAnimX this) (_tileAnimY this) ax ay
    (_currentDrawZ this) (_arrayTexture this) (_unifiedMesh this) (_unifiedRects this).

Definition _flush (env : Env) (this : Layer) : Layer :=
  let tileAnimX := _tileAnimX this in
  let tileAnimY := _tileAnimY this in
  let animChanged := Num.strict_ne tileAnimX (_lastTileAnimX this)
                     || Num.strict_ne tileAnimY (_lastTileAnimY this) in
  let this1 := fst (_ensureArrayTexture this) in
  if negb (_needsRebuild this1) && animChanged then
    _updateAnimUVs env tileAnimX tileAnimY (setLastTileAnim tileAnimX tileAnimY this1)
  else if negb (_needsRebuild this1) then this1
  else rebuild env this1.

(** ** Notions used in the statements *)

(** The enumeration order of the keys of an object: distinct keys, the
    array indices first and ascending. *)
Definition keyBefore (k k' : Z) : Prop :=
  k ≠ k' ∧ (Obj.is_index k' = true → Obj.is_index k = true ∧ (k < k')%Z).

Definition Obj_ordered {V} (o : list (Z * V)) : Prop :=
  StronglySorted keyBefore (List.map fst o).

(** The accumulated rects and what the callers set. *)
Definition inputs (this : Layer) :=
  (_rectData this, _bitmaps this, _tileAnimX this, _tileAnimY this, _currentDrawZ this).

(** The same without the bitmaps, whose textures a rebuild may touch. *)
Definition accumulated (this : Layer) :=
  (_rectData this, _tileAnimX this, _tileAnimY this, _currentDrawZ this).

(** The dirty flag and the phase of the last build. *)
Definition marks (this : Layer) :=
  (_needsRebuild this, _lastTileAnimX this, _lastTileAnimY this, _arrayTexture this).

Definition unified (this : Layer) := (_unifiedMesh this, _unifiedRects this).

(** The classifier loop, seen from its three results. *)
Definition classified (env : Env) (this : Layer) : Classified :=
  foldl (classifySet env) (mkClassified this [] []) (_rectData this).

(** The state the rebuild starts from: flags cleared, everything hidden. *)
Definition hidden (this : Layer) : Layer :=
  mkLayer (_rectData this) (_bitmaps this)
    (List.map (fun kv => (fst kv, hideMesh (snd kv))) (_meshes this))
    false (_tileAnimX this) (_tileAnimY this) (_tileAnimX this) (_tileAnimY this)
    (_currentDrawZ this) (_arrayTexture this)
    (hideUnified <$> _unifiedMesh this) (_unifiedRects this).

(** The shape every rect set has: buffers of [capacity] quads, at most
    [capacity] of them in use, side arrays in step with [count]. *)
Record wfRectSet (d : RectSet) : Prop := mkWf {
  wf_positions : length (positions d) = capacity d * 12;
  wf_uvs : length (uvs d) = capacity d * 12;
  wf_count : count d ≤ capacity d;
  wf_capacity : 0 < capacity d;
  wf_animData : length (animData d) = count d * 2;
  wf_kindData : length (kindData d) = count d;
  wf_drawZData : length (drawZData d) = count d
}.

Definition wfLayer (this : Layer) : Prop :=
  Obj_ordered (_rectData this)
  ∧ List.Forall (fun kv => wfRectSet (snd kv)) (_rectData this).

(** The twelve numbers of the quad stored for rect [i]. *)
Definition quadAt (a : list float) (i : nat) : list float := take 12 (drop (i * 12) a).

(** The rect set [addRect] leaves under its key. *)
Definition addedTo (d0 : RectSet) (u v x y w h : float)
    (animX animY : option float) (a1Kind : option Z) (z : Z) : RectSet :=
  let data := grow d0 in
  let pi := count d0 * 12 in
  {| positions := F32.stores (positions data) (F32.block pi (quad x y w h));
     uvs := F32.stores (uvs data) (F32.block pi (quad u v w h));
     count := S (count d0);
     capacity := capacity data;
     animData := animData data ++ [Num.orZero animX; Num.orZero animY];
     kindData := kindData data ++ [default (-1)%Z a1Kind];
     drawZData := drawZData data ++ [z] |}.

(** The operations of the layer, as the callers use them. *)
Inductive Op :=
| OpAddRect (setNumber : Z) (u v x y w h : float) (animX animY : option float)
    (a1Kind : option Z)
| OpClear
| OpSetBitmaps (bitmaps : list (option Bitmap))
| OpSetCurrentDrawZ (z : Z)
| OpSetAnimationOffset (ax ay : float)
| OpFlush (env : Env).

Definition run (op : Op) (this : Layer) : Layer :=
  match op with
  | OpAddRect sn u v x y w h animX animY a1Kind =>
      addRect sn u v x y w h animX animY a1Kind this
  | OpClear => clear this
  | OpSetBitmaps bitmaps => setBitmaps bitmaps this
  | OpSetCurrentDrawZ z => setCurrentDrawZ z this
  | OpSetAnimationOffset ax ay => setAnimationOffset ax ay this
  | OpFlush env => _flush env this
  end.

Inductive reachable : Layer → Prop :=
| reach_init : reachable init
| reach_run op this : reachable this → reachable (run op this).

(** Layer [i] is bound to a source image that is ready: [tex] is its
    texture.  (The conditions under which the scan loop does not [continue]
    before the version test.) *)
Definition boundReady (bitmaps : list (option Bitmap)) (i : nat) (tex : Texture) : Prop :=
  ∃ bmp img, bitmaps !! i = Some (Some bmp)
    ∧ _extractThreeTexture (Some bmp) = Some tex
    ∧ image tex = Some img
    ∧ width img ≠ 0%Z ∧ height img ≠ 0%Z.

(** Layer [i] is recorded as loaded from version [v]. *)
Definition recorded (t : ArrayTexture) (i : nat) (v : Z) : Prop :=
  layerLoaded t !! i = Some true ∧ layerImageVersions t !! i = Some v.

(** Every bound, ready image is recorded at its current version. *)
Definition upToDate (bitmaps : list (option Bitmap)) (t : ArrayTexture) : Prop :=
  ∀ i tex, i < TILESET_LAYER_COUNT → boundReady bitmaps i tex → recorded t i (version tex).

Definition wfArrayTexture (t : ArrayTexture) : Prop :=
  length (layers t) = TILESET_LAYER_COUNT
  ∧ length (layerLoaded t) = TILESET_LAYER_COUNT
  ∧ length (layerImageVersions t) = TILESET_LAYER_COUNT.

(** ** Sample values for the examples *)

(** A 64×64 tileset image, as a bare texture at version 1. *)
Definition sampleTexture : Texture := mkTexture (Some (mkImage 64 64 7)) 1 false 0.
Definition sampleBitmap : Bitmap := mkBitmap None None (Some sampleTexture).

(** No water module, 2D mode, no layer elevation. *)
Definition plainEnv : Env := mkEnv None false false.

(** A water module for which a rect is water when its [animX] is set, no
    rect is a waterfall and every kind is enabled. *)
Definition sampleWater : WaterShader :=
  mkWaterShader (fun ax _ => Num.truthy ax) (fun _ _ => false) (fun _ => true).
Definition waterEnv : Env := mkEnv (Some sampleWater) false false.

Global Arguments scanLayers : simpl never.
Global Arguments _ensureArrayTexture : simpl never.
Global Arguments addRect : simpl never.
Global Arguments rebuild : simpl never.
Global Arguments _flush : simpl never.
Global Arguments _updateAnimUVs : simpl never.
Global Arguments classified : simpl never.

(** The state after one texture scan with one bound bitmap. *)
Definition scannedSample : Layer :=
  fst (_ensureArrayTexture (setBitmaps [Some sampleBitmap] init)).

(** Three rects of set 0 added at draw layers 2, 1 and 1. *)
Definition threeLayered : Layer :=
  addRect 0 0 0 64 0 32 32 None None None
    (addRect 0 0 0 32 0 32 32 None None None
       (setCurrentDrawZ 1
          (addRect 0 0 0 0 0 32 32 None None None (setCurrentDrawZ 2 init)))).

(** The rects of one set that the classifier appends to the flat list. *)
Definition flatOfSet (env : Env) (entry : Z * RectSet) : list UnifiedRect :=
  let sn := fst entry in
  let data := snd entry in
  if (sn =? -1)%Z then []
  else List.map (fun ci => mkUnifiedRect sn ci (drawZOf data ci))
         (List.filter (fun ci => negb (isWaterClassified env sn data ci))
            (seq 0 (count data))).

(** The flat list of the rebuild before sorting: set by set in enumeration
    order, index by index. *)
Definition flatRects (env : Env) (rectData : list (Z * RectSet)) : list UnifiedRect :=
  flat_map (flatOfSet env) rectData.

Definition drawZ_le (a b : UnifiedRect) : Prop := (r_drawZ a ≤ r_drawZ b)%Z.

(** The rects of a list that are on draw layer [z], in the order of the list. *)
Definition onLayer (z : Z) (l : list UnifiedRect) : list UnifiedRect :=
  List.filter (fun r => (r_drawZ r =? z)%Z) l.

(** The elevation flag of the unified and shadow builders. *)
Definition elevation2D (env : Env) : bool := negb (mode3d env) && tileLayerElevation env.

(** The unified mesh of a rebuild, rect by rect: what [_buildUnifiedMesh]
    leaves for a rect list that is not empty. *)
Definition unifiedMeshOf (env : Env) (rectData : list (Z * RectSet))
    (rects : list UnifiedRect) (tileAnimX tileAnimY : float) : UnifiedMesh :=
  let dataOf rect := setOf rectData (r_setNumber rect) in
  mkUnifiedMesh
    (flat_map (fun rect => List.map Num.fround
                 (posBlock (dataOf rect) (r_index rect)
                    (zOffset (elevation2D env) (drawZOf (dataOf rect) (r_index rect)))))
       rects)
    (flat_map (fun _ => List.map Num.fround normalBlock) rects)
    (flat_map (fun rect => List.map Num.fround
                 (unifiedUvBlock (dataOf rect) (r_index rect) tileAnimX tileAnimY))
       rects)
    (flat_map (fun rect => List.map Num.fround (layerBlock (r_setNumber rect))) rects)
    true
    (foldl (fun m rect => let drawZ := drawZOf (dataOf rect) (r_index rect) in
                          if (m <? drawZ)%Z then drawZ else m) 0%Z rects).

(** The scenario [addRect(0, 0,0, 32,32, 32,32)] on a fresh layer. *)
Definition oneTile : Layer := addRect 0 0 0 32 32 32 32 None None None init.

(** The same surroundings with the water module absent. *)
Definition withoutWater (env : Env) : Env :=
  mkEnv None (mode3d env) (tileLayerElevation env).

(** The keys of [hasWaterBySet] are all the key of set 0. *)
Definition onlyZero (h : list (Z * bool)) : Prop := ∀ k, In k (List.map fst h) → k = 0%Z.

(** One [addRect] call with the draw layer the z cursor has at the call. *)
Record Call := mkCall {
  c_setNumber : Z;
  c_u : float; c_v : float; c_x : float; c_y : float; c_w : float; c_h : float;
  c_animX : option float; c_animY : option float;
  c_kind : option Z;
  c_drawZ : Z
}.

Definition addCall (this : Layer) (c : Call) : Layer :=
  addRect (c_setNumber c) (c_u c) (c_v c) (c_x c) (c_y c) (c_w c) (c_h c)
    (c_animX c) (c_animY c) (c_kind c) (setCurrentDrawZ (c_drawZ c) this).

Definition addCalls (calls : list Call) (this : Layer) : Layer := foldl addCall this calls.

(** A new layer after 1000 calls of [addRect(0, 0,0, 32,32, 32,32)]: set 0
    is full. *)
Definition fullSet : Layer :=
  addCalls (replicate 1000 (mkCall 0 0 0 32 32 32 32 None None None 0)) init.

(** The calls for one set, in call order. *)
Definition callsTo (sn : Z) (calls : list Call) : list Call :=
  List.filter (fun c => (c_setNumber c =? sn)%Z) calls.

(** The classifier's verdict on a call. *)
Definition callIsWater (env : Env) (c : Call) : bool :=
  (c_setNumber c =? 0)%Z
  && match waterShader env with
     | Some ws =>
         let kind := default (-1)%Z (c_kind c) in
         isWaterRect ws (Num.orZero (c_animX c)) (Num.orZero (c_animY c))
         && ((kind <? 0)%Z || isKindEnabled ws kind)
     | None => false
     end.

(** The water module's waterfall test on a call. *)
Definition callIsWaterfall (env : Env) (c : Call) : bool :=
  match waterShader env with
  | Some ws => isWaterfallRect ws (Num.orZero (c_animX c)) (Num.orZero (c_animY c))
  | None => false
  end.

(** The calls that go to the water mesh of kind [k], waterfall or not: the
    calls for set 0 that the classifier takes for water, of that waterfall
    flag and kind, in call order. *)
Definition waterCallsOf (env : Env) (wf : bool) (k : Z) (calls : list Call) : list Call :=
  List.filter (fun c =>
      callIsWater env c
      && Bool.eqb (callIsWaterfall env c) wf
      && (default (-1)%Z (c_kind c) =? k)%Z)
    (callsTo 0 calls).

(** The rect sets hold the calls: rect [i] of set [sn] is the [i]-th call
    for [sn]. *)
Definition holdsCalls (rectData : list (Z * RectSet)) (calls : list Call) : Prop :=
  ∀ sn,
    let d := setOf rectData sn in
    count d = length (callsTo sn calls)
    ∧ ∀ i c, callsTo sn calls !! i = Some c →
        quadAt (positions d) i
        = List.map Num.fround (quad (c_x c) (c_y c) (c_w c) (c_h c))
        ∧ quadAt (uvs d) i
          = List.map Num.fround (quad (c_u c) (c_v c) (c_w c) (c_h c))
        ∧ animData d !! (i * 2) = Some (Num.orZero (c_animX c))
        ∧ animData d !! (i * 2 + 1) = Some (Num.orZero (c_animY c))
        ∧ kindData d !! i = Some (default (-1)%Z (c_kind c))
        ∧ drawZData d !! i = Some (c_drawZ c).

(** The 18 position components of a quad at elevation offset [z]. *)
Definition vertices3 (q : list float) (z : float) : list float :=
  flat_map (fun j => [default nan (q !! (j * 2)); default nan (q !! (j * 2 + 1)); z])
    (seq 0 6).

(** The water module's verdict on rect [ci] of a set, whatever the set. *)
Definition waterVerdict (env : Env) (data : RectSet) (ci : nat) : bool :=
  match waterShader env with
  | Some ws => waterTest ws data ci
  | None => false
  end.

(** A rect with a water signature added to set 1. *)
Definition waterSignedInSetOne : Layer :=
  addRect 1 0 0 0 0 32 32 (Some 1%float) None None init.

(** A new layer bound to the sample tileset, and calls for a shadow rect, a
    plain rect of set 0, a water rect of set 0 and a rect of set 1. *)
Definition boundLayer : Layer := setBitmaps [Some sampleBitmap] init.

Definition mixedCalls : list Call :=
  [ mkCall (-1) 0 0 0 0 32 32 None None None 0;
    mkCall 0 0 0 32 32 32 32 None None None 0;
    mkCall 0 0 0 64 0 32 32 (Some 1%float) None None 0;
    mkCall 1 0 0 96 0 32 32 (Some 1%float) None None 0 ].

(** The running minimum and maximum of the bounds loop, one bound at a time. *)
Definition scanMin (m : float) (l : list float) : float :=
  foldl (fun m x => if (x <? m)%float then x else m) m l.

Definition scanMax (m : float) (l : list float) : float :=
  foldl (fun m x => if (m <? x)%float then x else m) m l.

(** Two water rects of set 0 on a layer bound to the sample tileset: the
    first of kind 3, the second without a kind. *)
Definition twoWaterRects : Layer :=
  addRect 0 32 0 32 0 32 32 (Some 1%float) None None
    (addRect 0 0 0 0 0 32 32 (Some 1%float) None (Some 3%Z)
       (setBitmaps [Some sampleBitmap] init)).

(** Everything a flush builds or reads back: the accumulated rect buffers
    and the meshes with their attributes and visibility. *)
Definition geometry (this : Layer) :=
  (_rectData this, _meshes this, _unifiedMesh this, _unifiedRects this).

(** [_flush] sees the phase as changed: [tileAnimX !== _lastTileAnimX ||
    tileAnimY !== _lastTileAnimY]. *)
Definition animChanged (this : Layer) : bool :=
  Num.strict_ne (_tileAnimX this) (_lastTileAnimX this)
  || Num.strict_ne (_tileAnimY this) (_lastTileAnimY this).

(** The two water rects at phase (16, NaN), and what two flushes make of
    the mesh of the rect without a kind. *)
Definition twoWaterRectsNaN : Layer := setAnimationOffset 16 nan twoWaterRects.

Definition firstUOf (key : MeshKey) (ms : list (MeshKey * Mesh)) : option float :=
  match mesh_get key ms with
  | Some m => match uv m with Some a => a !! 0 | None => None end
  | None => None
  end.

Definition firstU (key : MeshKey) (this : Layer) : option float :=
  firstUOf key (_meshes this).

(** The two water rects built at phase (0, 0); then the phase moved to
    (16, 0) and patched by the fast path, or rebuilt in full. *)
Definition builtWater : Layer := _flush waterEnv twoWaterRects.
Definition fastWater : Layer := _flush waterEnv (setAnimationOffset 16 0 builtWater).
Definition fullWater : Layer := rebuild waterEnv (setAnimationOffset 16 0 builtWater).

Definition uvOf (key : MeshKey) (this : Layer) : option (list float) :=
  match mesh_get key (_meshes this) with
  | Some m => uv m
  | None => None
  end.

Definition boundsOf (key : MeshKey) (this : Layer) : option (list float) :=
  match mesh_get key (_meshes this) with
  | Some m => aUvBounds m
  | None => None
  end.

(** What the fast path has no business with: everything of a mesh but the
    contents of its [uv] and [aUvBounds] arrays. *)
Definition meshFrame (m : Mesh) :=
  (position m, normal m, visible m, material_map m, isWaterMesh m, isWaterfall m,
   a1Kinds m, maxDrawZ m, length <$> uv m, length <$> aUvBounds m).

Definition unifiedFrame (m : UnifiedMesh) :=
  (u_position m, u_normal m, u_aTextureLayer m, u_visible m, u_maxDrawZ m,
   length (u_uv m)).

Definition meshFrames (this : Layer) :=
  (List.map (fun kv => (fst kv, meshFrame (snd kv))) (_meshes this),
   unifiedFrame <$> _unifiedMesh this).

(** [a] stands before [b] in [l]. *)
Definition before {A} (l : list A) (a b : A) : Prop :=
  ∃ i j, i < j ∧ l !! i = Some a ∧ l !! j = Some b.

(** Rects of sets 2, 0 and 0 again, added in that order on one draw layer,
    then one on the layer below. *)
Definition twoSets : Layer :=
  addCalls [ mkCall 2 0 0 0 0 32 32 None None None 1;
             mkCall 0 0 0 0 0 32 32 None None None 1;
             mkCall 0 0 0 32 0 32 32 None None None 1;
             mkCall 2 0 0 32 0 32 32 None None None 0 ] init.

(** Layer [i], one of the first [n], is bound to a ready image with picture
    [px] that the texture [t0] does not record at its version: the layers a
    scan of the first [n] layers has to copy. *)
Definition staleIn (bitmaps : list (option Bitmap)) (t0 : ArrayTexture) (n i px : nat)
    : Prop :=
  i < n ∧ ∃ tex img, boundReady bitmaps i tex ∧ image tex = Some img
                     ∧ pixels img = px ∧ ¬ recorded t0 i (version tex).

(** What a texture holds and records for layer [i]. *)
Definition layerState (t : ArrayTexture) (i : nat) :=
  (layers t !! i, layerLoaded t !! i, layerImageVersions t !! i).

(** The rects of a set that a rebuild puts in the water mesh of kind [k],
    waterfall or not: those the water test accepts, of that kind and that
    waterfall flag, by ascending index. *)
Definition waterRectsOf (ws : WaterShader) (data : RectSet) (wf : bool) (k : Z)
    : list nat :=
  List.filter (fun ci =>
      waterTest ws data ci
      && Bool.eqb (isWaterfallRect ws (animXOf data ci) (animYOf data ci)) wf
      && (kindOf data ci =? k)%Z)
    (seq 0 (count data)).

(** [userData.a1Kinds] of the water mesh of kind [k]. *)
Definition kindsOf (k : Z) : list Z := if (0 <=? k)%Z then [k] else [].

(** The water mesh [_buildWaterTypeMesh] leaves under its key, rect by rect
    of [sel]; [z] is the [maxDrawZ] of the mesh that was under the key. *)
Definition waterMeshOf (env : Env) (data : RectSet) (tex : Texture)
    (texW texH tileAnimX tileAnimY : float) (sel : list nat) (wf : bool)
    (kinds : list Z) (z : Z) : Mesh :=
  mkMesh
    (flat_map (fun i => List.map Num.fround
                 (posBlock data i (zOffset (tileLayerElevation env) (drawZOf data i)))) sel)
    (Some (flat_map (fun _ => List.map Num.fround normalBlock) sel))
    (Some (flat_map (fun i => List.map Num.fround
                       (waterUvBlock data i texW texH tileAnimX tileAnimY)) sel))
    (Some (flat_map (fun i => List.map Num.fround
                       (waterBoundsBlock data i texW texH tileAnimX tileAnimY)) sel))
    true (Some tex) true wf kinds z.

(** [maxDrawZ] of the mesh under a key, 0 when there is none. *)
Definition maxDrawZAt (key : MeshKey) (ms : list (MeshKey * Mesh)) : Z :=
  match mesh_get key ms with Some m => maxDrawZ m | None => 0%Z end.

(** The attribute arrays of a mesh agree on a number of quads: 18 position
    and normal components, 12 UV components and 24 UV-bound components per
    quad.  The shadow mesh has positions only. *)
Definition meshSized (kv : MeshKey * Mesh) : Prop :=
  ∃ n, length (position (snd kv)) = n * 18
       ∧ match fst kv with
         | ShadowKey =>
             normal (snd kv) = None ∧ uv (snd kv) = None ∧ aUvBounds (snd kv) = None
         | WaterKey _ _ _ =>
             length <$> normal (snd kv) = Some (n * 18)
             ∧ length <$> uv (snd kv) = Some (n * 12)
             ∧ length <$> aUvBounds (snd kv) = Some (n * 24)
         end.

Definition unifiedSized (m : UnifiedMesh) : Prop :=
  ∃ n, length (u_position m) = n * 18 ∧ length (u_normal m) = n * 18
       ∧ length (u_uv m) = n * 12 ∧ length (u_aTextureLayer m) = n * 6.

Definition meshesSized (this : Layer) : Prop :=
  List.Forall meshSized (_meshes this)
  ∧ ∀ m, _unifiedMesh this = Some m → unifiedSized m.

(** ** The layer tree

    [ThreeTilemapZLayer] holds a [ThreeTilemapCompositeLayer], which holds
    the [ThreeTilemapRectLayer].  The three classes are objects with
    identity that point at each other through [parent] and [children]: they
    live in a store and are named by their index in it.  The store is closed:
    it holds objects of these three classes only.

    [_threeObj] is the [THREE.Group] of a wrapper, as far as the wrappers
    write to it; the group's own parent and children, which [add] and
    [remove] maintain inside THREE, are left out, and so is [destroy], the
    only function that sets [_threeObj] to [null]. *)

Module Scene.

Abbreviation layer_clear := clear (only parsing).
Abbreviation layer_setBitmaps := setBitmaps (only parsing).
Abbreviation layer_run := run (only parsing).
Abbreviation LayerOp := Op (only parsing).

(** Objects are named by their index in the store. *)
Abbreviation Ref := nat (only parsing).

(** The outcome of a call: it returns, it throws a [TypeError] (a property
    of [undefined], or a method the class does not have), or it does not
    return within the fuel given. *)
Inductive Result (A : Type) : Type :=
| Ok (a : A)
| Throws
| OutOfFuel.

Global Arguments Ok {A} a.
Global Arguments Throws {A}.
Global Arguments OutOfFuel {A}.

Definition bind {A B} (r : Result A) (f : A → Result B) : Result B :=
  match r with
  | Ok a => f a
  | Throws => Throws
  | OutOfFuel => OutOfFuel
  end.

Record Group := mkGroup {
  position_x : float;
  position_y : float;
  position_z : float;
  scale_x : float;
  scale_y : float;
  rotation_z : float;
  g_visible : bool
}.

(** [new THREE.Group()] *)
Definition newGroup : Group := mkGroup 0 0 0 1 1 0 true.

(** The fields only a [ThreeTilemapZLayer] reads. *)
Record ZFields := mkZFields {
  _scaleX : float;
  _scaleY : float;
  _rotation : float;
  _pivotX : float;
  _pivotY : float;
  z : float;
  _compositeLayer : Ref
}.

Inductive Own :=
| RectLayer (layer : Layer)
| CompositeLayer
| ZLayer (zf : ZFields).

Record Node := mkNode {
  _x : float;
  _y : float;
  _alpha : float;
  _visible : bool;
  _zIndex : float;
  worldAlpha : float;
  worldVisible : bool;
  parent : option Ref;
  children : list Ref;
  _transformDirty : bool;
  _threeObj : Group;
  own : Own
}.

Abbreviation Store := (list Node) (only parsing).

Definition with_parent (p : option Ref) (n : Node) : Node :=
  mkNode (_x n) (_y n) (_alpha n) (_visible n) (_zIndex n) (worldAlpha n)
    (worldVisible n) p (children n) (_transformDirty n) (_threeObj n) (own n).

Definition with_children (l : list Ref) (n : Node) : Node :=
  mkNode (_x n) (_y n) (_alpha n) (_visible n) (_zIndex n) (worldAlpha n)
    (worldVisible n) (parent n) l (_transformDirty n) (_threeObj n) (own n).

Definition with_world (a : float) (v : bool) (n : Node) : Node :=
  mkNode (_x n) (_y n) (_alpha n) (_visible n) (_zIndex n) a v
    (parent n) (children n) (_transformDirty n) (_threeObj n) (own n).

Definition with_threeObj (g : Group) (n : Node) : Node :=
  mkNode (_x n) (_y n) (_alpha n) (_visible n) (_zIndex n) (worldAlpha n)
    (worldVisible n) (parent n) (children n) (_transformDirty n) g (own n).

Definition with_own (o : Own) (n : Node) : Node :=
  mkNode (_x n) (_y n) (_alpha n) (_visible n) (_zIndex n) (worldAlpha n)
    (worldVisible n) (parent n) (children n) (_transformDirty n) (_threeObj n) o.

(** *** Constructors *)

Definition newNode (zIndex : float) (o : Own) : Node :=
  mkNode 0 0 1 true zIndex 1 true None [] true newGroup o.

Definition newRectLayer (s : Store) : Ref * Store :=
  (length s, s ++ [newNode 0 (RectLayer init)]).

(** The composite layer at [this] and its rect layer, [children[0]], at the
    next index. *)
Definition compositeNodes (this : Ref) : list Node :=
  [with_children [S this] (newNode 0 CompositeLayer);
   with_parent (Some this) (newNode 0 (RectLayer init))].

Definition newCompositeLayer (s : Store) : Ref * Store :=
  (length s, s ++ compositeNodes (length s)).

(** *** Child management *)

(** [children.indexOf(child)]: the first position, by identity. *)
Fixpoint indexOf (child : Ref) (l : list Ref) : option nat :=
  match l with
  | [] => None
  | c :: l' => if Nat.eqb child c then Some 0 else S <$> indexOf child l'
  end.

(** Where [splice(index, ...)] starts in an array of length [len]: a negative
    [index] counts from the end, and the start is clamped to the array. *)
Definition spliceStart (index : Z) (len : nat) : nat :=
  if (index <? 0)%Z then Z.to_nat (Z.max (Z.of_nat len + index) 0)
  else Z.to_nat (Z.min index (Z.of_nat len)).

(** [l.splice(index, 0, x)] *)
Definition spliceIn (index : Z) (x : Ref) (l : list Ref) : list Ref :=
  take (spliceStart index (length l)) l ++ x :: drop (spliceStart index (length l)) l.

Definition detach (this child : Ref) (t : Node) (s : Store) : Store :=
  match indexOf child (children t) with
  | Some idx =>
      alter (with_parent None) child
        (alter (with_children (delete idx (children t))) this s)
  | None => s
  end.

Definition removeChild (this child : Ref) (s : Store) : Result Store :=
  match s !! this with
  | None => Throws
  | Some t =>
      match own t with
      | RectLayer _ => Ok s
      | CompositeLayer | ZLayer _ => Ok (detach this child t s)
      end
  end.

Definition push (child : Ref) (n : Node) : Node :=
  with_children (children n ++ [child]) n.

(** [if (child.parent) child.parent.removeChild(child)] *)
Definition leaveParent (child : Ref) (c : Node) (s : Store) : Result Store :=
  match parent c with
  | Some p => removeChild p child s
  | None => Ok s
  end.

Definition addChild (this child : Ref) (s : Store) : Result Store :=
  match s !! this, s !! child with
  | Some t, Some c =>
      match own t with
      | RectLayer _ => Ok s
      | CompositeLayer =>
          Ok (alter (push child) this (alter (with_parent (Some this)) child s))
      | ZLayer _ =>
          bind (leaveParent child c s) (fun s1 =>
            Ok (alter (push child) this (alter (with_parent (Some this)) child s1)))
      end
  | Some t, None =>
      match own t with
      | RectLayer _ => Ok s
      | _ => Throws
      end
  | None, _ => Throws
  end.

Definition addChildAt (this child : Ref) (index : Z) (s : Store) : Result Store :=
  match s !! this, s !! child with
  | Some t, Some c =>
      match own t with
      | ZLayer _ =>
          bind (leaveParent child c s) (fun s1 =>
            Ok (alter (fun n => with_children (spliceIn index child (children n)) n) this
                  (alter (with_parent (Some this)) child s1)))
      | _ => Throws
      end
  | _, _ => Throws
  end.

Definition removeChildren (this : Ref) (s : Store) : Result (list Ref * Store) :=
  match s !! this with
  | None => Throws
  | Some t =>
      match own t with
      | RectLayer _ => Ok ([], s)
      | CompositeLayer | ZLayer _ =>
          let removed := children t in
          Ok (removed,
              alter (with_children []) this
                (foldl (fun s' c => alter (with_parent None) c s') s removed))
      end
  end.

(** [-1] when [child] is not among the children. *)
Definition getChildIndex (this child : Ref) (s : Store) : Result Z :=
  match s !! this with
  | Some t =>
      match own t with
      | ZLayer _ =>
          Ok (match indexOf child (children t) with
              | Some i => Z.of_nat i
              | None => (-1)%Z
              end)
      | _ => Throws
      end
  | None => Throws
  end.

Definition setChildIndex (this child : Ref) (index : Z) (s : Store) : Result Store :=
  match s !! this with
  | Some t =>
      match own t with
      | ZLayer _ =>
          match indexOf child (children t) with
          | Some cur =>
              Ok (alter (with_children
                           (spliceIn index child (delete cur (children t)))) this s)
          | None => Ok s
          end
      | _ => Throws
      end
  | None => Throws
  end.

(** [new ThreeTilemapZLayer(zIndex)]: the z layer at the next free index,
    its composite layer and the rect layer after it. *)
Definition newZLayer (zIndex : option float) (s : Store) : Result (Ref * Store) :=
  let this := length s in
  let zi := Num.orZero zIndex in
  bind (addChild this (S this)
          (s ++ newNode zi (ZLayer (mkZFields 1 1 0 0 0 zi (S this)))
               :: compositeNodes (S this)))
    (fun s' => Ok (this, s')).

(** *** Property setters *)

Inductive Field :=
| Fx (v : float)
| Fy (v : float)
| Falpha (v : float)
| Fvisible (v : bool)
| FzIndex (v : float)
| Frotation (v : float).

Definition isZLayer (n : Node) : bool :=
  match own n with
  | ZLayer _ => true
  | _ => false
  end.

(** The setters of [x], [y], [alpha], [visible] and [zIndex] of the three
    classes and of [rotation] of the z layer.  The z layer's setters of [x],
    [y], [rotation] and [zIndex] also raise [_transformDirty]. *)
Definition assign (f : Field) (n : Node) : Node :=
  let dirty := isZLayer n || _transformDirty n in
  match f with
  | Fx v =>
      mkNode v (_y n) (_alpha n) (_visible n) (_zIndex n) (worldAlpha n)
        (worldVisible n) (parent n) (children n) dirty (_threeObj n) (own n)
  | Fy v =>
      mkNode (_x n) v (_alpha n) (_visible n) (_zIndex n) (worldAlpha n)
        (worldVisible n) (parent n) (children n) dirty (_threeObj n) (own n)
  | Falpha v =>
      mkNode (_x n) (_y n) v (_visible n) (_zIndex n) (worldAlpha n)
        (worldVisible n) (parent n) (children n) (_transformDirty n) (_threeObj n) (own n)
  | Fvisible v =>
      let g := _threeObj n in
      mkNode (_x n) (_y n) (_alpha n) v (_zIndex n) (worldAlpha n)
        (worldVisible n) (parent n) (children n) (_transformDirty n)
        (mkGroup (position_x g) (position_y g) (position_z g) (scale_x g) (scale_y g)
           (rotation_z g) v)
        (own n)
  | FzIndex v =>
      mkNode (_x n) (_y n) (_alpha n) (_visible n) v (worldAlpha n)
        (worldVisible n) (parent n) (children n) dirty (_threeObj n) (own n)
  | Frotation v =>
      match own n with
      | ZLayer zf =>
          mkNode (_x n) (_y n) (_alpha n) (_visible n) (_zIndex n) (worldAlpha n)
            (worldVisible n) (parent n) (children n) true (_threeObj n)
            (ZLayer (mkZFields (_scaleX zf) (_scaleY zf) v (_pivotX zf) (_pivotY zf)
                       (z zf) (_compositeLayer zf)))
      | _ => n
      end
  end.

(** *** The rect layer from outside *)

(** A method of the rect layer ([addRect], an assignment to [_tileAnimX],
    ...) called on the object at [this]. *)
Definition onRectLayer (f : Layer → Layer) (this : Ref) (s : Store) : Result Store :=
  match s !! this with
  | Some t =>
      match own t with
      | RectLayer l => Ok (<[this := with_own (RectLayer (f l)) t]> s)
      | _ => Throws
      end
  | None => Throws
  end.

Fixpoint clear (fuel : nat) (this : Ref) (s : Store) : Result Store :=
  match fuel with
  | 0 => OutOfFuel
  | S fuel =>
      match s !! this with
      | None => Throws
      | Some t =>
          match own t with
          | RectLayer l => Ok (<[this := with_own (RectLayer (layer_clear l)) t]> s)
          | CompositeLayer =>
              match children t with
              | [] => Throws
              | c :: _ => clear fuel c s
              end
          | ZLayer zf => clear fuel (_compositeLayer zf) s
          end
      end
  end.

Fixpoint setBitmaps (fuel : nat) (this : Ref) (bitmaps : list (option Bitmap))
    (s : Store) : Result Store :=
  match fuel with
  | 0 => OutOfFuel
  | S fuel =>
      match s !! this with
      | None => Throws
      | Some t =>
          match own t with
          | RectLayer l =>
              Ok (<[this := with_own (RectLayer (layer_setBitmaps bitmaps l)) t]> s)
          | CompositeLayer =>
              match children t with
              | [] => Throws
              | c :: _ => setBitmaps fuel c bitmaps s
              end
          | ZLayer _ => Throws
          end
      end
  end.

(** *** Transforms *)

Definition place (x y zpos : float) (v : bool) (g : Group) : Group :=
  mkGroup x y zpos (scale_x g) (scale_y g) (rotation_z g) v.

Definition syncTransform (env : Env) (n : Node) : Node :=
  match own n with
  | RectLayer l =>
      with_own (RectLayer (_flush env l))
        (with_threeObj (place (_x n) (_y n) (_zIndex n) (_visible n) (_threeObj n)) n)
  | CompositeLayer =>
      with_threeObj (place (_x n) (_y n) (_zIndex n) (_visible n) (_threeObj n)) n
  | ZLayer zf =>
      with_threeObj
        (mkGroup (_x n - _pivotX zf) (_y n - _pivotY zf)
           (if tileLayerElevation env then _zIndex n else 0)
           (_scaleX zf) (_scaleY zf) (- _rotation zf) (_visible n)) n
  end.

(** [updateTransform(parentAlpha)].  The loop passes [this.worldAlpha] as it
    is when each child is called; no function called from here assigns
    [children], so the loop runs over the children read on entry. *)
Fixpoint updateTransform (fuel : nat) (env : Env) (this : Ref)
    (parentAlpha : option float) (s : Store) : Result Store :=
  match fuel with
  | 0 => OutOfFuel
  | S fuel =>
      match s !! this with
      | None => Throws
      | Some t =>
          let parentAlpha := default 1%float parentAlpha in
          let s1 :=
            <[this := syncTransform env
                        (with_world (_alpha t * parentAlpha) (_visible t) t)]> s in
          match own t with
          | RectLayer _ => Ok s1
          | CompositeLayer | ZLayer _ =>
              foldl (fun acc child =>
                       bind acc (fun s' =>
                         match s' !! this with
                         | Some t' =>
                             updateTransform fuel env child (Some (worldAlpha t')) s'
                         | None => Throws
                         end))
                (Ok s1) (children t)
          end
      end
  end.

(** *** The calls a user of the tree makes *)

Inductive Step :=
| NewRectLayer
| NewCompositeLayer
| NewZLayer (zIndex : option float)
| AddChild (this child : Ref)
| AddChildAt (this child : Ref) (index : Z)
| RemoveChild (this child : Ref)
| RemoveChildren (this : Ref)
| SetChildIndex (this child : Ref) (index : Z)
| Assign (this : Ref) (f : Field)
| OnRectLayer (this : Ref) (op : LayerOp)
| Clear (fuel : nat) (this : Ref)
| SetBitmaps (fuel : nat) (this : Ref) (bitmaps : list (option Bitmap))
| UpdateTransform (fuel : nat) (env : Env) (this : Ref) (parentAlpha : option float).

Definition step (c : Step) (s : Store) : Result Store :=
  match c with
  | NewRectLayer => Ok (snd (newRectLayer s))
  | NewCompositeLayer => Ok (snd (newCompositeLayer s))
  | NewZLayer zIndex => bind (newZLayer zIndex s) (fun r => Ok (snd r))
  | AddChild this child => addChild this child s
  | AddChildAt this child index => addChildAt this child index s
  | RemoveChild this child => removeChild this child s
  | RemoveChildren this => bind (removeChildren this s) (fun r => Ok (snd r))
  | SetChildIndex this child index => setChildIndex this child index s
  | Assign this f =>
      match s !! this with
      | Some _ => Ok (alter (assign f) this s)
      | None => Throws
      end
  | OnRectLayer this op => onRectLayer (layer_run op) this s
  | Clear fuel this => clear fuel this s
  | SetBitmaps fuel this bitmaps => setBitmaps fuel this bitmaps s
  | UpdateTransform fuel env this parentAlpha => updateTransform fuel env this parentAlpha s
  end.

(** The stores the calls build, starting with no object. *)
Inductive built : Store → Prop :=
| built_nil : built []
| built_step c s s' : built s → step c s = Ok s' → built s'.

Definition isRectLayer (n : Node) : bool :=
  match own n with
  | RectLayer _ => true
  | _ => false
  end.

(** [l] without the first [child] in it. *)
Definition without (child : Ref) (l : list Ref) : list Ref :=
  match indexOf child l with
  | Some idx => delete idx l
  | None => l
  end.

(** What each object is, and for a rect layer the state it is in. *)
Definition owns (s : Store) : list Own := own <$> s.

(** What [parent] and [children] say, object by object, and which objects
    are rect layers. *)
Definition links (s : Store) : list (option Ref * list Ref * bool) :=
  (fun n => (parent n, children n, isRectLayer n)) <$> s.

(** A rect layer has no children. *)
Definition leaves (s : Store) : Prop :=
  ∀ r n, s !! r = Some n → isRectLayer n = true → children n = [].

(** Every object that has a parent is among the children of that parent. *)
Definition linked (s : Store) : Prop :=
  ∀ c n p, s !! c = Some n → parent n = Some p →
    ∃ pn, s !! p = Some pn ∧ c ∈ children pn.

(** Every child is an object of the store. *)
Definition closed (s : Store) : Prop :=
  ∀ p pn c, s !! p = Some pn → c ∈ children pn → c < length s.

Definition wellLinked (s : Store) : Prop := linked s ∧ closed s ∧ leaves s.

(** Every rect layer is in a state its own operations reach. *)
Definition rectsReachable (s : Store) : Prop :=
  ∀ r n l, s !! r = Some n → own n = RectLayer l → reachable l.

(** [new ThreeTilemapZLayer()] with no object before it: the z layer is
    object 0, its composite layer object 1 and the rect layer object 2. *)
Definition freshZLayer : Store :=
  match newZLayer None [] with
  | Ok r => snd r
  | _ => []
  end.

(** [z] is a z layer as its constructor leaves the three objects related:
    its only child is its composite layer [c], whose only child is the rect
    layer [r] holding [l]. *)
Definition isTower (s : Store) (z c r : Ref) (zn cn rn : Node) (l : Layer) : Prop :=
  s !! z = Some zn ∧ s !! c = Some cn ∧ s !! r = Some rn
  ∧ (∃ zf, own zn = ZLayer zf ∧ _compositeLayer zf = c)
  ∧ children zn = [c]
  ∧ own cn = CompositeLayer ∧ children cn = [r]
  ∧ own rn = RectLayer l.

End Scene.

(** Two z layers side by side: objects 0 to 2 and 3 to 5. *)
Definition twoZLayers : list Scene.Node :=
  match Scene.newZLayer None Scene.freshZLayer with
  | Scene.Ok r => snd r
  | _ => []
  end.

(** A z layer (object 0) with two more rect layers (objects 3 and 4) added
    after its composite layer: its children are [[1; 3; 4]]. *)
Definition threeChildren : list Scene.Node :=
  match Scene.addChild 0 3 (snd (Scene.newRectLayer (snd (Scene.newRectLayer
                                                      Scene.freshZLayer)))) with
  | Scene.Ok s =>
      match Scene.addChild 0 4 s with
      | Scene.Ok s' => s'
      | _ => []
      end
  | _ => []
  end.

(** A z layer on its own after [clear()] and [updateTransform()]. *)
Definition usedZLayer : list Scene.Node :=
  match Scene.clear 3 0 Scene.freshZLayer with
  | Scene.Ok s =>
      match Scene.updateTransform 3 plainEnv 0 None s with
      | Scene.Ok s' => s'
      | _ => []
      end
  | _ => []
  end.

(** * Properties *)

(** ** Objects *)

(** Keys created in the order -1, 5000000000, 4294967295, 3: the array
    index comes first, the others in creation order. *)
Example Obj_keys_in_enumeration_order :
  List.map fst (Obj.set 3 tt (Obj.set 4294967295 tt (Obj.set 5000000000 tt
                  (Obj.set (-1) tt []))))
  = [3; -1; 5000000000; 4294967295]%Z.
Proof. reflexivity. Qed.

Lemma Obj_get_set_eq {V} (k : Z) (v : V) (o : list (Z * V)) :
  Obj.get k (Obj.set k v o) = Some v.
Proof.
  induction o as [|[k' v'] o IH]; simpl.
  - by rewrite Z.eqb_refl.
  - destruct (k =? k')%Z eqn:E; simpl.
    + by rewrite Z.eqb_refl.
    + destruct (Obj.is_index k && _); simpl.
      * by rewrite Z.eqb_refl.
      * by rewrite E.
Qed.

Lemma Obj_get_set_ne {V} (k k0 : Z) (v : V) (o : list (Z * V)) :
  k0 ≠ k → Obj.get k0 (Obj.set k v o) = Obj.get k0 o.
Proof.
  intros Hne. induction o as [|[k' v'] o IH]; simpl.
  - destruct (Z.eqb_spec k0 k); [done | reflexivity].
  - destruct (Z.eqb_spec k k') as [->|Hk]; simpl.
    + destruct (Z.eqb_spec k0 k'); [done | reflexivity].
    + destruct (Obj.is_index k && _); simpl.
      * destruct (Z.eqb_spec k0 k); [done | reflexivity].
      * by rewrite IH.
Qed.

Lemma Obj_keys_set {V} (k : Z) (v : V) (o : list (Z * V)) (k0 : Z) :
  In k0 (List.map fst (Obj.set k v o)) ↔ k0 = k ∨ In k0 (List.map fst o).
Proof.
  induction o as [|[k' v'] o IH]; simpl.
  - intuition.
  - destruct (Z.eqb_spec k k') as [->|Hk]; simpl.
    + intuition.
    + destruct (Obj.is_index k && _); simpl.
      * intuition.
      * rewrite IH. intuition.
Qed.

Lemma Obj_get_Some_In {V} (k : Z) (v : V) (o : list (Z * V)) :
  Obj.get k o = Some v → In (k, v) o.
Proof.
  induction o as [|[k' v'] o IH]; simpl; [done|].
  destruct (Z.eqb_spec k k') as [->|Hk].
  - intros [= ->]. by left.
  - intros H. right. auto.
Qed.

Lemma Obj_get_None {V} (k : Z) (o : list (Z * V)) :
  Obj.get k o = None ↔ ¬ In k (List.map fst o).
Proof.
  induction o as [|[k' v'] o IH]; simpl.
  - intuition.
  - destruct (Z.eqb_spec k k') as [->|Hk].
    + split; [done | intros H; exfalso; apply H; by left].
    + rewrite IH. intuition.
Qed.

Lemma Obj_In_get {V} (k : Z) (v : V) (o : list (Z * V)) :
  NoDup (List.map fst o) → In (k, v) o → Obj.get k o = Some v.
Proof.
  induction o as [|[k' v'] o IH]; simpl; intros Hnd Hin; [done|].
  apply NoDup_cons in Hnd as [Hk' Hnd].
  destruct Hin as [[= -> ->]|Hin].
  - by rewrite Z.eqb_refl.
  - destruct (Z.eqb_spec k k') as [->|Hk]; [|auto].
    exfalso. apply Hk'. apply list_elem_of_In, in_map_iff. by exists (k', v).
Qed.

Lemma Obj_ordered_NoDup {V} (o : list (Z * V)) :
  Obj_ordered o → NoDup (List.map fst o).
Proof.
  unfold Obj_ordered. induction (List.map fst o) as [|k ks IH]; intros H.
  - constructor.
  - apply StronglySorted_inv in H as [Hs Hall]. constructor; [|auto].
    intros Hin%list_elem_of_In. rewrite List.Forall_forall in Hall.
    apply Hall in Hin. by destruct Hin.
Qed.

Lemma Obj_set_ordered {V} (k : Z) (v : V) (o : list (Z * V)) :
  Obj_ordered o → Obj_ordered (Obj.set k v o).
Proof.
  unfold Obj_ordered. induction o as [|[k' v'] o IH]; simpl; intros H.
  - repeat constructor.
  - apply StronglySorted_inv in H as [Hs Hall].
    destruct (Z.eqb_spec k k') as [->|Hk]; simpl.
    + by constructor.
    + destruct (Obj.is_index k && _) eqn:E; simpl.
      * constructor; [by constructor|].
        apply andb_true_iff in E as [Hidx E]. apply orb_true_iff in E.
        assert (Hkk' : keyBefore k k').
        { split; [done|]. intros Hk'. split; [done|].
          destruct E as [E|E]; [by rewrite Hk' in E | by apply Z.ltb_lt]. }
        constructor; [done|].
        rewrite List.Forall_forall in *. intros x Hx. specialize (Hall x Hx).
        destruct Hall as [Hne Hx']. split.
        -- intros ->. unfold Obj.is_index in *.
           destruct Hkk' as [_ Hkk']. destruct (Hx' Hidx) as [Hi Hlt].
           destruct (Hkk' Hi). lia.
        -- intros Hix. destruct (Hx' Hix) as [Hi Hlt]. split; [done|].
           destruct Hkk' as [_ Hkk']. destruct (Hkk' Hi). lia.
      * constructor; [auto|].
        rewrite List.Forall_forall in *. intros x Hx.
        apply Obj_keys_set in Hx as [->|Hx]; [|auto].
        split; [done|]. intros Hidx. rewrite Hidx in E. simpl in E.
        apply orb_false_iff in E as [E1 E2]. apply negb_false_iff in E1.
        split; [done|]. apply Z.ltb_ge in E2. lia.
Qed.

Lemma Obj_map_keys {V W} (f : V → W) (o : list (Z * V)) :
  List.map fst (List.map (fun kv => (fst kv, f (snd kv))) o) = List.map fst o.
Proof. rewrite List.map_map. simpl. reflexivity. Qed.

Lemma Obj_get_map {V W} (f : V → W) (k : Z) (o : list (Z * V)) :
  Obj.get k (List.map (fun kv => (fst kv, f (snd kv))) o) = f <$> Obj.get k o.
Proof.
  induction o as [|[k' v'] o IH]; simpl; [done|].
  by destruct (k =? k')%Z.
Qed.

(** ** Typed arrays *)

Lemma stores_length (a : list float) ws : length (F32.stores a ws) = length a.
Proof.
  revert a. induction ws as [|[i v] ws IH]; intros a; simpl; [done|].
  rewrite IH. unfold F32.store. apply length_insert.
Qed.

Lemma stores_app (a : list float) ws1 ws2 :
  F32.stores a (ws1 ++ ws2) = F32.stores (F32.stores a ws1) ws2.
Proof. apply foldl_app. Qed.

(** Outside the indices written, the array keeps its contents. *)
Lemma stores_lookup_other (a : list float) ws (i : nat) :
  ¬ In i (List.map fst ws) → F32.stores a ws !! i = a !! i.
Proof.
  revert a. induction ws as [|[k v] ws IH]; intros a Hni; simpl; [done|].
  simpl in Hni. rewrite IH by tauto. unfold F32.store. simpl.
  apply list_lookup_insert_ne. intros ->. tauto.
Qed.

Lemma block_indices (off : nat) vals (i : nat) :
  In i (List.map fst (F32.block off vals)) → off ≤ i < off + length vals.
Proof.
  unfold F32.block. revert off. induction vals as [|v vs IH]; intros off; simpl; [done|].
  intros [<-|H]; [lia|]. apply IH in H. lia.
Qed.

(** A block of stores over a slice of the array replaces the slice by the
    rounded values. *)
Lemma stores_block (pre old post vals : list float) :
  length old = length vals →
  F32.stores (pre ++ old ++ post) (F32.block (length pre) vals)
  = pre ++ List.map Num.fround vals ++ post.
Proof.
  revert pre old. induction vals as [|v vs IH]; intros pre old Hlen.
  - destruct old; [done | simpl in Hlen; lia].
  - destruct old as [|o old]; simpl in Hlen; [lia|].
    change (F32.block (length pre) (v :: vs))
      with ((length pre, v) :: F32.block (S (length pre)) vs).
    simpl. unfold F32.store.
    rewrite insert_app_r_alt by lia. rewrite Nat.sub_diag. simpl.
    replace (S (length pre)) with (length (pre ++ [Num.fround v]))
      by (rewrite length_app; simpl; lia).
    rewrite (cons_middle (Num.fround v) pre (old ++ post)), app_assoc.
    rewrite IH by lia. by rewrite <- app_assoc.
Qed.

Lemma stores_perRect_from {A} (k : nat) (blk : A → list float) (items : list A) :
  (∀ x, length (blk x) = k) →
  ∀ (b : nat) (pre old post : list float),
    length pre = b * k → length old = length items * k →
    F32.stores (pre ++ old ++ post)
      (concat (imap (fun ri rect => F32.block ((b + ri) * k) (blk rect)) items))
    = pre ++ flat_map (fun x => List.map Num.fround (blk x)) items ++ post.
Proof.
  intros Hk. induction items as [|x items IH]; intros b pre old post Hpre Hold.
  - simpl in *. destruct old; [done | simpl in Hold; lia].
  - rewrite imap_cons. simpl concat. rewrite stores_app.
    simpl length in Hold.
    rewrite <- (take_drop k old), <- app_assoc.
    replace ((b + 0) * k) with (length pre) by lia.
    rewrite stores_block by (rewrite length_take, Hk; lia).
    rewrite (imap_ext _ (fun ri rect => F32.block ((S b + ri) * k) (blk rect)))
      by (intros; simpl; f_equal; lia).
    rewrite app_assoc.
    rewrite IH.
    + simpl. by rewrite <- !app_assoc.
    + rewrite length_app, length_map, Hk. lia.
    + rewrite length_drop. lia.
Qed.

(** The stores of a per-rect loop over an array of exactly the right
    length leave the rounded blocks, one after the other. *)
Lemma stores_perRect {A} (k : nat) (blk : A → list float) (items : list A)
    (arr : list float) :
  (∀ x, length (blk x) = k) →
  length arr = length items * k →
  F32.stores arr (perRect k blk items)
  = flat_map (fun x => List.map Num.fround (blk x)) items.
Proof.
  intros Hk Hlen.
  pose proof (stores_perRect_from k blk items Hk 0 [] arr [] eq_refl Hlen) as H.
  simpl in H. rewrite !app_nil_r in H. exact H.
Qed.

(** ** What the builders leave alone *)

Lemma foldl_preserves {A B C} (f : A → B → A) (g : A → C) (l : list B) (a : A) :
  (∀ a x, g (f a x) = g a) → g (foldl f a l) = g a.
Proof.
  intros H. revert a. induction l as [|x l IH]; intros a; simpl; [done|].
  by rewrite IH.
Qed.

Lemma buildShadowMesh_frame env data this :
  inputs (_buildShadowMesh env data this) = inputs this
  ∧ marks (_buildShadowMesh env data this) = marks this
  ∧ unified (_buildShadowMesh env data this) = unified this.
Proof. done. Qed.

Lemma buildUnifiedMesh_frame env rects ax ay this :
  inputs (_buildUnifiedMesh env rects ax ay this) = inputs this
  ∧ marks (_buildUnifiedMesh env rects ax ay this) = marks this
  ∧ _meshes (_buildUnifiedMesh env rects ax ay this) = _meshes this.
Proof. done. Qed.

Lemma buildWaterTypeMesh_frame env sn key idx data tex tw th ax ay wf ks this :
  let this' := _buildWaterTypeMesh env sn key idx data tex tw th ax ay wf ks this in
  inputs this' = inputs this ∧ marks this' = marks this ∧ unified this' = unified this.
Proof. done. Qed.

Lemma buildWaterMesh_frame env ws sn data tex tw th ax ay this :
  let this' := _buildWaterMesh env ws sn data tex tw th ax ay this in
  inputs this' = inputs this ∧ marks this' = marks this ∧ unified this' = unified this.
Proof.
  unfold _buildWaterMesh.
  split; [|split]; apply foldl_preserves; intros a x; by destruct (0 <? _).
Qed.

Lemma inputs_accumulated this this' :
  inputs this' = inputs this → accumulated this' = accumulated this.
Proof. unfold inputs, accumulated. intros H. by inversion H. Qed.

Lemma makeNearest_frame wTex this :
  accumulated (makeNearest wTex this) = accumulated this
  ∧ marks (makeNearest wTex this) = marks this
  ∧ unified (makeNearest wTex this) = unified this
  ∧ _meshes (makeNearest wTex this) = _meshes this.
Proof. unfold makeNearest. by destruct (nearestFilter wTex). Qed.

Lemma nearestOf_image (tex : Texture) : image (nearestOf tex) = image tex.
Proof. unfold nearestOf. by destruct (nearestFilter tex). Qed.

Lemma buildWaterOfSet_frame env ax ay this entry :
  let this' := buildWaterOfSet env ax ay this entry in
  accumulated this' = accumulated this ∧ marks this' = marks this
  ∧ unified this' = unified this.
Proof.
  unfold buildWaterOfSet.
  destruct (waterShader env); [|done].
  destruct (_extractThreeTexture _) as [wTex|]; [|done].
  destruct (image wTex); [|done].
  cbv zeta.
  destruct (buildWaterMesh_frame env w (fst entry) (rectSetOf this (fst entry))
              (nearestOf wTex) (dimOr1 (width i)) (dimOr1 (height i)) ax ay
              (makeNearest wTex this)) as (H1 & H2 & H3).
  destruct (makeNearest_frame wTex this) as (H4 & H5 & H6 & _).
  rewrite (inputs_accumulated _ _ H1), H2, H3. done.
Qed.

Lemma classifySet_frame env acc entry :
  inputs (c_this (classifySet env acc entry)) = inputs (c_this acc)
  ∧ marks (c_this (classifySet env acc entry)) = marks (c_this acc)
  ∧ unified (c_this (classifySet env acc entry)) = unified (c_this acc).
Proof.
  unfold classifySet. destruct (count _ =? 0); [done|].
  destruct (_ =? -1)%Z; done.
Qed.

Lemma updateAnimUVs_frame env ax ay this :
  inputs (_updateAnimUVs env ax ay this) = inputs this
  ∧ marks (_updateAnimUVs env ax ay this) = marks this
  ∧ _unifiedRects (_updateAnimUVs env ax ay this) = _unifiedRects this.
Proof. done. Qed.

Lemma ensureArrayTexture_frame this :
  let this' := fst (_ensureArrayTexture this) in
  inputs this' = inputs this ∧ unified this' = unified this
  ∧ _meshes this' = _meshes this
  ∧ _needsRebuild this' = _needsRebuild this
  ∧ _lastTileAnimX this' = _lastTileAnimX this
  ∧ _lastTileAnimY this' = _lastTileAnimY this.
Proof. done. Qed.

Lemma classified_frame env this :
  inputs (c_this (classified env this)) = inputs this
  ∧ marks (c_this (classified env this)) = marks this
  ∧ unified (c_this (classified env this)) = unified this.
Proof.
  unfold classified.
  split; [|split].
  - apply (foldl_preserves _ (fun c => inputs (c_this c))). intros. apply classifySet_frame.
  - apply (foldl_preserves _ (fun c => marks (c_this c))). intros. apply classifySet_frame.
  - apply (foldl_preserves _ (fun c => unified (c_this c))). intros. apply classifySet_frame.
Qed.

Lemma rebuild_unfold env this :
  rebuild env this
  = foldl (buildWaterOfSet env (_tileAnimX this) (_tileAnimY this))
      (_buildUnifiedMesh env (sortByDrawZ (c_allRects (classified env (hidden this))))
         (_tileAnimX this) (_tileAnimY this) (c_this (classified env (hidden this))))
      (c_hasWaterBySet (classified env (hidden this))).
Proof. reflexivity. Qed.

Lemma rebuild_accumulated env this : accumulated (rebuild env this) = accumulated this.
Proof.
  rewrite rebuild_unfold.
  rewrite (foldl_preserves _ accumulated) by (intros; apply buildWaterOfSet_frame).
  destruct (buildUnifiedMesh_frame env
              (sortByDrawZ (c_allRects (classified env (hidden this))))
              (_tileAnimX this) (_tileAnimY this)
              (c_this (classified env (hidden this)))) as [H _].
  rewrite (inputs_accumulated _ _ H).
  destruct (classified_frame env (hidden this)) as [H' _].
  by rewrite (inputs_accumulated _ _ H').
Qed.

Lemma rebuild_marks env this :
  _needsRebuild (rebuild env this) = false
  ∧ _lastTileAnimX (rebuild env this) = _tileAnimX this
  ∧ _lastTileAnimY (rebuild env this) = _tileAnimY this.
Proof.
  assert (marks (rebuild env this)
          = (false, _tileAnimX this, _tileAnimY this, _arrayTexture this)) as H.
  { rewrite rebuild_unfold.
    rewrite (foldl_preserves _ marks) by (intros; apply buildWaterOfSet_frame).
    destruct (buildUnifiedMesh_frame env
                (sortByDrawZ (c_allRects (classified env (hidden this))))
                (_tileAnimX this) (_tileAnimY this)
                (c_this (classified env (hidden this)))) as (_ & -> & _).
    by destruct (classified_frame env (hidden this)) as (_ & -> & _). }
  unfold marks in H. by inversion H.
Qed.

Lemma rebuild_unified env this :
  unified (rebuild env this)
  = unified (_buildUnifiedMesh env (sortByDrawZ (c_allRects (classified env (hidden this))))
               (_tileAnimX this) (_tileAnimY this) (c_this (classified env (hidden this)))).
Proof.
  rewrite rebuild_unfold.
  by rewrite (foldl_preserves _ unified) by (intros; apply buildWaterOfSet_frame).
Qed.

Lemma flush_accumulated env this : accumulated (_flush env this) = accumulated this.
Proof.
  unfold _flush.
  destruct (negb _ && _); [done|].
  destruct (negb _); [done|].
  by rewrite rebuild_accumulated.
Qed.

Lemma flush_rectData env this : _rectData (_flush env this) = _rectData this.
Proof.
  pose proof (flush_accumulated env this) as H. unfold accumulated in H. by inversion H.
Qed.

(** ** Rect accumulator *)

(** [addRect(0, 0, 0, 32, 32, 32, 32)] on a fresh layer. *)
Example addRect_first :
  let s := addRect 0 0 0 32 32 32 32 None None None init in
  option_map (fun d => (take 12 (positions d), take 12 (uvs d), count d,
                        animData d, kindData d, drawZData d))
             (Obj.get 0%Z (_rectData s))
  = Some ([32; 32; 64; 32; 32; 64; 64; 32; 64; 64; 32; 64]%float,
          [0; 0; 32; 0; 0; 32; 32; 0; 32; 32; 0; 32]%float, 1,
          [0; 0]%float, [(-1)%Z], [0%Z]).
Proof. vm_compute. reflexivity. Qed.

Lemma wf_newRectSet : wfRectSet newRectSet.
Proof.
  constructor; cbn [positions uvs count capacity animData kindData drawZData newRectSet];
    unfold F32.make; rewrite ?length_replicate; try done.
  - apply Nat.le_0_l.
  - apply Nat.lt_0_succ.
Qed.

Lemma wfLayer_get this sn d :
  wfLayer this → Obj.get sn (_rectData this) = Some d → wfRectSet d.
Proof.
  intros [_ Hall] Hget. apply Obj_get_Some_In in Hget.
  rewrite List.Forall_forall in Hall. apply (Hall _ Hget).
Qed.

Lemma wfLayer_default this sn :
  wfLayer this → wfRectSet (default newRectSet (Obj.get sn (_rectData this))).
Proof.
  intros Hwf. destruct (Obj.get sn (_rectData this)) eqn:E; simpl.
  - eapply wfLayer_get; eauto.
  - apply wf_newRectSet.
Qed.

Lemma Forall_Obj_set {V} (P : Z * V → Prop) k v (o : list (Z * V)) :
  (∀ k', P (k', v)) → List.Forall P o → List.Forall P (Obj.set k v o).
Proof.
  intros Hv. induction 1 as [|[k' v'] o Hx Hall IH]; simpl.
  - by constructor.
  - destruct (k =? k')%Z; [by constructor|].
    destruct (Obj.is_index k && _); by repeat constructor.
Qed.

Lemma set_make_prefix (n : nat) (src : list float) :
  length src ≤ n → F32.set (F32.make n) src = src ++ replicate (n - length src) 0%float.
Proof.
  intros H. unfold F32.set, F32.make. f_equal. by rewrite drop_replicate.
Qed.

(** Growth: the old buffer, then zeros. *)
Lemma grow_spec d :
  wfRectSet d →
  wfRectSet (grow d)
  ∧ count (grow d) = count d
  ∧ count (grow d) < capacity (grow d)
  ∧ capacity d ≤ capacity (grow d)
  ∧ (count d = capacity d → capacity (grow d) = capacity d * 2)
  ∧ (count d < capacity d → grow d = d)
  ∧ take (length (positions d)) (positions (grow d)) = positions d
  ∧ take (length (uvs d)) (uvs (grow d)) = uvs d
  ∧ animData (grow d) = animData d
  ∧ kindData (grow d) = kindData d
  ∧ drawZData (grow d) = drawZData d.
Proof.
  intros [Hp Hu Hc Hcap Ha Hk Hz]. unfold grow.
  destruct (Nat.leb_spec (capacity d) (count d)) as [Hge|Hlt]; simpl.
  - rewrite !set_make_prefix by lia.
    repeat split; simpl; try lia; try done.
    + rewrite length_app, length_replicate. lia.
    + rewrite length_app, length_replicate. lia.
    + by rewrite take_app_length.
    + by rewrite take_app_length.
  - repeat split; try lia; try done; by rewrite firstn_all.
Qed.

(** A block of stores at quad [c] of a buffer that has room for it. *)
Lemma stores_quad (p vals : list float) (c : nat) :
  (c + 1) * 12 ≤ length p → length vals = 12 →
  F32.stores p (F32.block (c * 12) vals)
  = take (c * 12) p ++ List.map Num.fround vals ++ drop (c * 12 + 12) p.
Proof.
  intros Hp Hv.
  pose proof (stores_block (take (c * 12) p) (take 12 (drop (c * 12) p))
                (drop (c * 12 + 12) p) vals) as H.
  rewrite (length_take_le p) in H by lia.
  rewrite <- drop_drop, !take_drop in H.
  rewrite <- drop_drop.
  apply H. rewrite length_take, length_drop. lia.
Qed.

Lemma quadAt_stores_quad (p vals : list float) (c : nat) :
  (c + 1) * 12 ≤ length p → length vals = 12 →
  quadAt (F32.stores p (F32.block (c * 12) vals)) c = List.map Num.fround vals.
Proof.
  intros Hp Hv. rewrite stores_quad by done. unfold quadAt.
  rewrite drop_app_length' by (rewrite length_take; lia).
  rewrite take_app_length' by (by rewrite length_map). done.
Qed.

Lemma prefix_stores_quad (p vals : list float) (c : nat) :
  (c + 1) * 12 ≤ length p → length vals = 12 →
  take (c * 12) (F32.stores p (F32.block (c * 12) vals)) = take (c * 12) p.
Proof.
  intros Hp Hv. rewrite stores_quad by done.
  by rewrite take_app_length' by (rewrite length_take; lia).
Qed.

Lemma addRect_rectData sn u v x y w h animX animY a1Kind this :
  _rectData (addRect sn u v x y w h animX animY a1Kind this)
  = Obj.set sn (addedTo (default newRectSet (Obj.get sn (_rectData this)))
                  u v x y w h animX animY a1Kind (_currentDrawZ this))
      (_rectData this).
Proof. reflexivity. Qed.

Lemma addedTo_wf d0 u v x y w h animX animY a1Kind z :
  wfRectSet d0 → wfRectSet (addedTo d0 u v x y w h animX animY a1Kind z).
Proof.
  intros Hwf. destruct (grow_spec d0 Hwf) as
    ([Hp Hu Hc Hcap Ha Hk Hz] & Hcnt & Hlt & _ & _ & _ & _ & _ & Han & Hkd & Hdz).
  constructor; unfold addedTo;
    cbn [positions uvs count capacity animData kindData drawZData].
  - by rewrite stores_length.
  - by rewrite stores_length.
  - lia.
  - done.
  - rewrite length_app. simpl. lia.
  - rewrite length_app. simpl. lia.
  - rewrite length_app. simpl. lia.
Qed.

Lemma addRect_wf sn u v x y w h animX animY a1Kind this :
  wfLayer this → wfLayer (addRect sn u v x y w h animX animY a1Kind this).
Proof.
  intros Hwf. pose proof (wfLayer_default this sn Hwf) as Hd.
  destruct Hwf as [Hord Hall]. split; rewrite addRect_rectData.
  - by apply Obj_set_ordered.
  - apply Forall_Obj_set; [|done]. intros k'. cbn [snd]. by apply addedTo_wf.
Qed.

Lemma clear_wf this : wfLayer this → wfLayer (clear this).
Proof.
  intros [Hord Hall]. split; simpl.
  - unfold Obj_ordered in *. by rewrite Obj_map_keys.
  - rewrite List.Forall_forall in *. intros kv Hin.
    apply in_map_iff in Hin as ([k d] & <- & Hin). simpl.
    destruct (Hall _ Hin). constructor; simpl in *; try done; lia.
Qed.

Lemma run_wf op this : wfLayer this → wfLayer (run op this).
Proof.
  destruct op; simpl; intros Hwf.
  - by apply addRect_wf.
  - by apply clear_wf.
  - exact Hwf.
  - exact Hwf.
  - exact Hwf.
  - unfold wfLayer. rewrite flush_rectData. exact Hwf.
Qed.

Lemma reachable_wf this : reachable this → wfLayer this.
Proof.
  induction 1 as [|op this _ IH].
  - split; simpl; constructor.
  - by apply run_wf.
Qed.

Lemma addRect_get_eq sn u v x y w h animX animY a1Kind this :
  Obj.get sn (_rectData (addRect sn u v x y w h animX animY a1Kind this))
  = Some (addedTo (default newRectSet (Obj.get sn (_rectData this)))
            u v x y w h animX animY a1Kind (_currentDrawZ this)).
Proof. rewrite addRect_rectData. apply Obj_get_set_eq. Qed.

Lemma addRect_get_ne sn k u v x y w h animX animY a1Kind this :
  k ≠ sn →
  Obj.get k (_rectData (addRect sn u v x y w h animX animY a1Kind this))
  = Obj.get k (_rectData this).
Proof. intros H. rewrite addRect_rectData. by apply Obj_get_set_ne. Qed.

(** What [addRect] stores: the new quad at index [count], everything below
    it as it was. *)
Lemma addedTo_spec d0 u v x y w h animX animY a1Kind z :
  wfRectSet d0 →
  let d' := addedTo d0 u v x y w h animX animY a1Kind z in
  quadAt (positions d') (count d0) = List.map Num.fround (quad x y w h)
  ∧ quadAt (uvs d') (count d0) = List.map Num.fround (quad u v w h)
  ∧ take (count d0 * 12) (positions d') = take (count d0 * 12) (positions d0)
  ∧ take (count d0 * 12) (uvs d') = take (count d0 * 12) (uvs d0).
Proof.
  intros Hwf d'. destruct (grow_spec d0 Hwf) as
    ([Hp Hu Hc Hcap Ha Hk Hz] & Hcnt & Hlt & _ & _ & _ & Hpp & Hpu & _).
  destruct Hwf as [Hp0 Hu0 Hc0 _ _ _ _].
  assert (Hroom : (count d0 + 1) * 12 ≤ capacity (grow d0) * 12) by lia.
  unfold d', addedTo; cbn [positions uvs].
  repeat split.
  - apply quadAt_stores_quad; [lia | done].
  - apply quadAt_stores_quad; [lia | done].
  - rewrite prefix_stores_quad by (done || lia).
    rewrite <- Hpp at 1. rewrite take_take. f_equal. lia.
  - rewrite prefix_stores_quad by (done || lia).
    rewrite <- Hpu at 1. rewrite take_take. f_equal. lia.
Qed.

Lemma run_capacity op this sn d :
  wfLayer this → Obj.get sn (_rectData this) = Some d →
  ∃ d', Obj.get sn (_rectData (run op this)) = Some d' ∧ capacity d ≤ capacity d'.
Proof.
  intros Hwf Hget. destruct op; cbn [run].
  - destruct (Z.eq_dec sn setNumber) as [->|Hne].
    + rewrite addRect_get_eq, Hget. change (default newRectSet (Some d)) with d.
      eexists; split; [done|]. cbn [capacity addedTo].
      by destruct (grow_spec d (wfLayer_get _ _ _ Hwf Hget)) as (_ & _ & _ & H & _).
    + rewrite addRect_get_ne by done. eauto.
  - unfold clear; cbn [_rectData]. rewrite Obj_get_map, Hget. simpl. eauto.
  - eauto.
  - eauto.
  - eauto.
  - rewrite flush_rectData. eauto.
Qed.

(** C5. Every [addRect(setNumber, u, v, x, y, w, h, animX, animY, kind)]
    appends exactly one quad to the rect set of [setNumber]: [count] goes up
    by one; the six vertices TL, TR, BL, TR, BR, BL are stored at the new
    index, positions from [(x, y)], [w], [h] and pixel UVs from [(u, v)], [w],
    [h] (as the [Float32Array] holds them); one anim pair (0, 0 when left
    out), one kind (-1 when left out) and the current draw layer go to the
    side arrays; the quads below the new index and the other sets are
    untouched. *)
Theorem addRect_appends_one_quad (this : Layer) (sn : Z) (u v x y w h : float)
    (animX animY : option float) (a1Kind : option Z) :
  wfLayer this →
  let d0 := default newRectSet (Obj.get sn (_rectData this)) in
  let this' := addRect sn u v x y w h animX animY a1Kind this in
  let x1 := (x + w)%float in let y1 := (y + h)%float in
  let u1 := (u + w)%float in let v1 := (v + h)%float in
  ∃ d', Obj.get sn (_rectData this') = Some d'
    ∧ count d' = S (count d0)
    ∧ quadAt (positions d') (count d0)
      = List.map Num.fround [x; y; x1; y; x; y1; x1; y; x1; y1; x; y1]
    ∧ quadAt (uvs d') (count d0)
      = List.map Num.fround [u; v; u1; v; u; v1; u1; v; u1; v1; u; v1]
    ∧ animData d' = animData d0 ++ [Num.orZero animX; Num.orZero animY]
    ∧ kindData d' = kindData d0 ++ [default (-1)%Z a1Kind]
    ∧ drawZData d' = drawZData d0 ++ [_currentDrawZ this]
    ∧ (animX = None → animY = None → animData d' = animData d0 ++ [0%float; 0%float])
    ∧ (a1Kind = None → kindData d' = kindData d0 ++ [(-1)%Z])
    ∧ length (animData d') = count d' * 2
    ∧ length (kindData d') = count d'
    ∧ length (drawZData d') = count d'
    ∧ take (count d0 * 12) (positions d') = take (count d0 * 12) (positions d0)
    ∧ take (count d0 * 12) (uvs d') = take (count d0 * 12) (uvs d0)
    ∧ (∀ k, k ≠ sn → Obj.get k (_rectData this') = Obj.get k (_rectData this)).
Proof.
  intros Hwf d0 this' x1 y1 u1 v1.
  pose proof (wfLayer_default this sn Hwf) as Hd0. fold d0 in Hd0.
  exists (addedTo d0 u v x y w h animX animY a1Kind (_currentDrawZ this)).
  destruct (addedTo_spec d0 u v x y w h animX animY a1Kind (_currentDrawZ this) Hd0)
    as (Hq & Hquv & Hpre & Hpreuv).
  destruct (addedTo_wf d0 u v x y w h animX animY a1Kind (_currentDrawZ this) Hd0)
    as [_ _ _ _ Ha Hk Hz].
  destruct (grow_spec d0 Hd0) as (_ & _ & _ & _ & _ & _ & _ & _ & Han & Hkd & Hdz).
  split; [apply addRect_get_eq|].
  split; [done|]. split; [exact Hq|]. split; [exact Hquv|].
  unfold addedTo at 1 2 3 4 5; cbn [animData kindData drawZData].
  rewrite Han, Hkd, Hdz.
  split; [done|]. split; [done|]. split; [done|].
  split; [by intros -> ->|]. split; [by intros ->|].
  split; [exact Ha|]. split; [exact Hk|]. split; [exact Hz|].
  split; [exact Hpre|]. split; [exact Hpreuv|].
  intros k Hk'. by apply addRect_get_ne.
Qed.

Lemma addRect_appends_one_quad_witness :
  wfLayer init
  ∧ ∃ d', Obj.get 0%Z (_rectData (addRect 0 0 0 32 32 32 32 None None None init)) = Some d'
      ∧ count d' = 1
      ∧ quadAt (positions d') 0
        = List.map Num.fround [32; 32; 32 + 32; 32; 32; 32 + 32;
                               32 + 32; 32; 32 + 32; 32 + 32; 32; 32 + 32]%float
      ∧ animData d' = [0; 0]%float ∧ kindData d' = [(-1)%Z] ∧ drawZData d' = [0%Z].
Proof.
  assert (Hwf : wfLayer init) by (split; constructor).
  split; [exact Hwf|].
  destruct (addRect_appends_one_quad init 0 0 0 32 32 32 32 None None None Hwf)
    as (d' & Hget & Hc & Hq & _ & Ha & Hk & Hz & _).
  exists d'. repeat split; assumption.
Defined.

Lemma grow_capacity d :
  grow d = d ∨ (capacity (grow d) = capacity d * 2 ∧ capacity d ≤ count d).
Proof.
  unfold grow. destruct (Nat.leb_spec (capacity d) (count d)); [right | left]; done.
Qed.

(** C4. In every state the operations can reach, a rect set has
    [count ≤ capacity], before and after the next operation; no operation
    lowers the capacity of a set; an [addRect] that finds
    [count = capacity] doubles the capacity and the two buffers, whose old
    contents are the start of the new ones, entry for entry; and every
    [addRect] leaves its set with one rect more, in buffers of the capacity
    it found or of twice that. *)
Theorem rectSet_capacity (this : Layer) (op : Op) :
  reachable this →
  (∀ sn d, Obj.get sn (_rectData this) = Some d → count d ≤ capacity d)
  ∧ (∀ sn d', Obj.get sn (_rectData (run op this)) = Some d' → count d' ≤ capacity d')
  ∧ (∀ sn d, Obj.get sn (_rectData this) = Some d →
       ∃ d', Obj.get sn (_rectData (run op this)) = Some d' ∧ capacity d ≤ capacity d')
  ∧ (∀ sn u v x y w h animX animY a1Kind d,
       op = OpAddRect sn u v x y w h animX animY a1Kind →
       Obj.get sn (_rectData this) = Some d → count d = capacity d →
       ∃ d', Obj.get sn (_rectData (run op this)) = Some d'
         ∧ capacity d' = capacity d * 2
         ∧ count d' = S (count d)
         ∧ length (positions d') = length (positions d) * 2
         ∧ length (uvs d') = length (uvs d) * 2
         ∧ take (length (positions d)) (positions d') = positions d
         ∧ take (length (uvs d)) (uvs d') = uvs d)
  ∧ (∀ sn u v x y w h animX animY a1Kind,
       op = OpAddRect sn u v x y w h animX animY a1Kind →
       let d0 := default newRectSet (Obj.get sn (_rectData this)) in
       ∃ d', Obj.get sn (_rectData (run op this)) = Some d'
         ∧ count d' = S (count d0)
         ∧ (capacity d' = capacity d0 ∨ capacity d' = capacity d0 * 2)).
Proof.
  intros Hreach. pose proof (reachable_wf _ Hreach) as Hwf.
  pose proof (run_wf op _ Hwf) as Hwf'.
  split; [|split; [|split; [|split]]].
  - intros sn d Hget. by destruct (wfLayer_get _ _ _ Hwf Hget).
  - intros sn d Hget. by destruct (wfLayer_get _ _ _ Hwf' Hget).
  - intros sn d Hget. by apply run_capacity.
  - intros sn u v x y w h animX animY a1Kind d -> Hget Hfull. cbn [run].
    rewrite addRect_get_eq, Hget. change (default newRectSet (Some d)) with d.
    eexists; split; [done|].
    pose proof (wfLayer_get _ _ _ Hwf Hget) as Hd.
    destruct (grow_spec d Hd) as
      ([Hp Hu _ _ _ _ _] & _ & _ & _ & Hdbl & _ & Hpp & Hpu & _).
    destruct (addedTo_spec d u v x y w h animX animY a1Kind (_currentDrawZ this) Hd)
      as (_ & _ & Hpre & Hpreuv).
    destruct Hd as [Hp0 Hu0 _ _ _ _ _].
    specialize (Hdbl Hfull).
    unfold addedTo in *; cbn [positions uvs count capacity] in *.
    rewrite !stores_length, Hp, Hu, Hdbl.
    rewrite Hfull in Hpre, Hpreuv. rewrite <- Hp0 in Hpre. rewrite <- Hu0 in Hpreuv.
    rewrite firstn_all in Hpre, Hpreuv.
    repeat split; try lia.
    + rewrite Hfull, <- Hp0. exact Hpre.
    + rewrite Hfull, <- Hu0. exact Hpreuv.
  - intros sn u v x y w h animX animY a1Kind -> d0. cbn [run].
    rewrite addRect_get_eq. fold d0. eexists. split; [done|].
    cbn [addedTo count capacity]. split; [done|].
    destruct (grow_capacity d0) as [->|[H _]]; [by left | by right].
Qed.

(** The first [INITIAL_CAPACITY] calls for a set of a new layer fill the
    buffers it was given: the set is then full. *)
Lemma fill_new_set (c : Call) (n : nat) :
  n < INITIAL_CAPACITY →
  reachable (addCalls (replicate (S n) c) init)
  ∧ ∃ d, Obj.get (c_setNumber c) (_rectData (addCalls (replicate (S n) c) init)) = Some d
      ∧ count d = S n ∧ capacity d = INITIAL_CAPACITY.
Proof.
  assert (Hstep : ∀ this, reachable this → reachable (addCall this c)).
  { intros this Hr. unfold addCall.
    apply (reach_run (OpAddRect (c_setNumber c) (c_u c) (c_v c) (c_x c) (c_y c) (c_w c)
                        (c_h c) (c_animX c) (c_animY c) (c_kind c))).
    apply (reach_run (OpSetCurrentDrawZ (c_drawZ c))). exact Hr. }
  induction n as [|n IH]; intros Hn.
  - cbn [replicate addCalls foldl]. split; [apply Hstep, reach_init|].
    unfold addCall. rewrite addRect_get_eq. eexists. split; [done|].
    cbn [addedTo count capacity]. split; [done|].
    change (Obj.get (c_setNumber c) (_rectData (setCurrentDrawZ (c_drawZ c) init)))
      with (@None RectSet).
    cbn [default]. by destruct (grow_capacity newRectSet) as [->|[_ H]]; [|cbn in H; lia].
  - destruct (IH ltac:(lia)) as (Hr & d & Hget & Hc & Hcap).
    replace (replicate (S (S n)) c) with (replicate (S n) c ++ [c])
      by (by rewrite <- replicate_S_end).
    unfold addCalls in *. rewrite foldl_app. cbn [foldl].
    set (this := foldl addCall init (replicate (S n) c)) in *.
    split; [by apply Hstep|].
    unfold addCall. rewrite addRect_get_eq.
    change (_rectData (setCurrentDrawZ (c_drawZ c) this)) with (_rectData this).
    rewrite Hget. cbn [default id]. eexists. split; [done|].
    cbn [addedTo count capacity]. split; [by rewrite Hc|].
    destruct (grow_capacity d) as [->|[_ H]]; [done|lia].
Qed.

Lemma rectSet_capacity_witness :
  reachable fullSet
  ∧ ∃ d d', Obj.get 0%Z (_rectData fullSet) = Some d
      ∧ count d = capacity d ∧ capacity d = 1000
      ∧ Obj.get 0%Z (_rectData (run (OpAddRect 0 0 0 32 32 32 32 None None None) fullSet))
        = Some d'
      ∧ capacity d' = 2000 ∧ count d' = 1001
      ∧ take (length (positions d)) (positions d') = positions d
      ∧ take (length (uvs d)) (uvs d') = uvs d.
Proof.
  destruct (fill_new_set (mkCall 0 0 0 32 32 32 32 None None None 0) 999 ltac:(unfold INITIAL_CAPACITY; lia))
    as (Hr & d & Hget & Hc & Hcap).
  change (addCalls (replicate 1000 (mkCall 0 0 0 32 32 32 32 None None None 0)) init)
    with fullSet in Hr, Hget.
  cbn [c_setNumber] in Hget. unfold INITIAL_CAPACITY in Hcap.
  assert (Hfull : count d = capacity d) by lia.
  split; [exact Hr|].
  destruct (proj1 (proj2 (proj2 (proj2
              (rectSet_capacity fullSet (OpAddRect 0 0 0 32 32 32 32 None None None) Hr))))
              0%Z 0%float 0%float 32%float 32%float 32%float 32%float None None None d
              eq_refl Hget Hfull)
    as (d' & Hget' & Hcap' & Hc' & _ & _ & Hp & Hu).
  exists d, d'. split; [exact Hget|]. split; [exact Hfull|]. split; [exact Hcap|].
  split; [exact Hget'|]. split; [lia|]. split; [lia|]. split; [exact Hp|exact Hu].
Defined.

(** ** Texture scan *)

Lemma scanLayer_recorded bitmaps st i tex :
  boundReady bitmaps i tex → recorded (s_tex st) i (version tex) →
  scanLayer bitmaps st i = st.
Proof.
  intros (bmp & img & Hb & Hx & Himg & Hw & Hh) [Hl Hv]. unfold scanLayer.
  rewrite Hb, Hx, Himg.
  destruct (Z.eqb_spec (width img) 0); [done|].
  destruct (Z.eqb_spec (height img) 0); [done|]. simpl.
  by rewrite Hl, Hv, Z.eqb_refl.
Qed.

Lemma scanLayer_not_ready bitmaps st i :
  (∀ tex, ¬ boundReady bitmaps i tex) → scanLayer bitmaps st i = st.
Proof.
  intros Hno. unfold scanLayer.
  destruct (bitmaps !! i) as [[bmp|]|] eqn:Hb; [|done|done].
  destruct (_extractThreeTexture (Some bmp)) as [tex|] eqn:Hx; [|done].
  destruct (image tex) as [img|] eqn:Himg; [|done].
  destruct (Z.eqb_spec (width img) 0); [done|].
  destruct (Z.eqb_spec (height img) 0); [done|].
  exfalso. apply (Hno tex). by exists bmp, img.
Qed.

Lemma boundReady_dec bitmaps i :
  (∃ tex, boundReady bitmaps i tex) ∨ (∀ tex, ¬ boundReady bitmaps i tex).
Proof.
  unfold boundReady.
  destruct (bitmaps !! i) as [[bmp|]|] eqn:Hb;
    [|right; intros tex (? & ? & ? & _); congruence ..].
  destruct (_extractThreeTexture (Some bmp)) as [tex|] eqn:Hx;
    [|right; intros tex (? & ? & ? & ? & _); congruence].
  destruct (image tex) as [img|] eqn:Himg;
    [|right; intros tex' (? & ? & ? & ? & ? & _); congruence].
  destruct (Z.eq_dec (width img) 0%Z) as [Hw|Hw];
    [right; intros tex' (? & ? & ? & ? & ? & ? & _); congruence|].
  destruct (Z.eq_dec (height img) 0%Z) as [Hh|Hh];
    [right; intros tex' (? & ? & ? & ? & ? & ? & ?); congruence|].
  left. exists tex, bmp, img. done.
Qed.

Lemma boundReady_fun bitmaps i tex tex' :
  boundReady bitmaps i tex → boundReady bitmaps i tex' → tex = tex'.
Proof. intros (? & ? & ? & ? & _) (? & ? & ? & ? & _). congruence. Qed.

Lemma scanLayers_upToDate bitmaps t (l : list nat) st :
  upToDate bitmaps t → s_tex st = t →
  (∀ i, In i l → i < TILESET_LAYER_COUNT) →
  foldl (scanLayer bitmaps) st l = st.
Proof.
  intros Hup Ht. induction l as [|i l IH]; intros Hl; simpl; [done|].
  assert (scanLayer bitmaps st i = st) as ->.
  { destruct (boundReady_dec bitmaps i) as [[tex Hr]|Hno].
    - apply (scanLayer_recorded _ _ _ tex Hr). rewrite Ht. apply Hup; [|done].
      apply Hl. by left.
    - by apply scanLayer_not_ready. }
  apply IH. intros j Hj. apply Hl. by right.
Qed.

(** One turn of the scan: the other layers keep their records, and layer
    [i], when bound and ready, is recorded at the version of its image. *)
Lemma scanLayer_spec bitmaps st i :
  wfArrayTexture (s_tex st) → i < TILESET_LAYER_COUNT →
  let st' := scanLayer bitmaps st i in
  wfArrayTexture (s_tex st')
  ∧ (∀ j, j ≠ i → layerLoaded (s_tex st') !! j = layerLoaded (s_tex st) !! j
               ∧ layerImageVersions (s_tex st') !! j
                 = layerImageVersions (s_tex st) !! j)
  ∧ (∀ tex, boundReady bitmaps i tex → recorded (s_tex st') i (version tex)).
Proof.
  intros (Hl1 & Hl2 & Hl3) Hi st'. subst st'.
  destruct (boundReady_dec bitmaps i) as [[tex Hr]|Hno].
  2:{ rewrite scanLayer_not_ready by done.
      split; [by repeat split|]. split; [done|].
      intros tex' Hr'. by destruct (Hno tex'). }
  pose proof Hr as (bmp & img & Hb & Hx & Himg & Hw & Hh).
  unfold scanLayer. rewrite Hb, Hx, Himg.
  destruct (Z.eqb_spec (width img) 0); [done|].
  destruct (Z.eqb_spec (height img) 0); [done|]. cbn [orb].
  destruct (default false (layerLoaded (s_tex st) !! i)
            && (default 0%Z (layerImageVersions (s_tex st) !! i) =? version tex)%Z)
    eqn:E.
  - split; [by repeat split|]. split; [done|]. intros tex' Hr'.
    rewrite <- (boundReady_fun _ _ _ _ Hr Hr').
    apply andb_true_iff in E as [E1 E2]. apply Z.eqb_eq in E2.
    destruct (layerLoaded (s_tex st) !! i) as [[]|] eqn:EL; try done.
    destruct (layerImageVersions (s_tex st) !! i) as [v|] eqn:EV.
    + simpl in E2. subst v. done.
    + apply lookup_ge_None in EV. lia.
  - cbn [s_tex _copyImageToLayer layers needsUpdate layerLoaded layerImageVersions].
    split; [|split].
    + unfold wfArrayTexture; cbn [layers layerLoaded layerImageVersions].
      by rewrite !length_insert.
    + intros j Hj. by rewrite !list_lookup_insert_ne.
    + intros tex' Hr'. rewrite <- (boundReady_fun _ _ _ _ Hr Hr').
      split; apply list_lookup_insert_eq; lia.
Qed.

Lemma scanLayers_records bitmaps (n : nat) st :
  wfArrayTexture (s_tex st) → n ≤ TILESET_LAYER_COUNT →
  let st' := foldl (scanLayer bitmaps) st (seq 0 n) in
  wfArrayTexture (s_tex st')
  ∧ (∀ j, n ≤ j → layerLoaded (s_tex st') !! j = layerLoaded (s_tex st) !! j
               ∧ layerImageVersions (s_tex st') !! j
                 = layerImageVersions (s_tex st) !! j)
  ∧ (∀ i tex, i < n → boundReady bitmaps i tex → recorded (s_tex st') i (version tex)).
Proof.
  intros Hwf. induction n as [|n IH]; intros Hn st'; subst st'.
  - simpl. split; [done|]. split; [done|]. intros i tex Hi. lia.
  - rewrite seq_S, foldl_app. cbn [foldl Nat.add].
    specialize (IH ltac:(lia)). cbv zeta in IH. destruct IH as (Hwf' & Hother & Hrec).
    pose proof (scanLayer_spec bitmaps (foldl (scanLayer bitmaps) st (seq 0 n)) n Hwf'
                  ltac:(lia)) as Hs.
    cbv zeta in Hs. destruct Hs as (Hwf'' & Hother' & Hrec').
    split; [done|]. split.
    + intros j Hj. destruct (Hother' j) as [-> ->]; [lia|]. apply Hother. lia.
    + intros i tex Hi Hr. destruct (Nat.eq_dec i n) as [->|Hne]; [by apply Hrec'|].
      destruct (Hrec i tex) as [H1 H2]; [lia | done |].
      destruct (Hother' i) as [H3 H4]; [done|].
      split; congruence.
Qed.

Lemma scanLayers_spec bitmaps t :
  wfArrayTexture t →
  wfArrayTexture (s_tex (scanLayers bitmaps t))
  ∧ (∀ i tex, i < TILESET_LAYER_COUNT → boundReady bitmaps i tex →
       recorded (s_tex (scanLayers bitmaps t)) i (version tex)).
Proof.
  intros Hwf.
  pose proof (scanLayers_records bitmaps TILESET_LAYER_COUNT (mkScan t false [])
                Hwf (Nat.le_refl _)) as H.
  cbv zeta in H. destruct H as (H1 & _ & H3).
  unfold scanLayers. split; [exact H1 | exact H3].
Qed.

Lemma ensureArrayTexture_texture this :
  _arrayTexture (fst (_ensureArrayTexture this)) = Some (scannedTexture this).
Proof. reflexivity. Qed.

Lemma markUpdated_records (sc : Scan) :
  wfArrayTexture (s_tex sc) →
  wfArrayTexture (markUpdated sc)
  ∧ ∀ i v, recorded (s_tex sc) i v → recorded (markUpdated sc) i v.
Proof. intros Hwf. unfold markUpdated. by destruct (s_updated sc). Qed.

Lemma ensureArrayTexture_upToDate this :
  (∀ t, _arrayTexture this = Some t → wfArrayTexture t) →
  wfArrayTexture (scannedTexture this) ∧ upToDate (_bitmaps this) (scannedTexture this).
Proof.
  intros Hwf.
  assert (Hwf0 : wfArrayTexture (default newArrayTexture (_arrayTexture this))).
  { destruct (_arrayTexture this) as [t|]; simpl; [by apply Hwf|].
    repeat split. }
  destruct (scanLayers_spec (_bitmaps this) _ Hwf0) as [Hwf' Hrec].
  destruct (markUpdated_records _ Hwf') as [Hwf'' Hrec'].
  split; [exact Hwf''|].
  intros i tex Hi Hr. apply Hrec'. by apply Hrec.
Qed.

(** C8. When every bound, ready source image is recorded as loaded at its
    current version, the scan copies nothing into the array texture and
    leaves the texture, its dirty flag included, as it was.  In particular a
    scan that follows a scan is such a scan. *)
Theorem scan_without_changes_is_noop (this : Layer) (t : ArrayTexture) :
  _arrayTexture this = Some t →
  upToDate (_bitmaps this) t →
  snd (_ensureArrayTexture this) = []
  ∧ s_updated (scanLayers (_bitmaps this) t) = false
  ∧ _arrayTexture (fst (_ensureArrayTexture this)) = Some t
  ∧ fst (_ensureArrayTexture this) = this
  ∧ (∀ this0 : Layer,
       (∀ t0, _arrayTexture this0 = Some t0 → wfArrayTexture t0) →
       let this1 := fst (_ensureArrayTexture this0) in
       snd (_ensureArrayTexture this1) = []
       ∧ fst (_ensureArrayTexture this1) = this1).
Proof.
  assert (Hnoop : ∀ (s : Layer) (ts : ArrayTexture),
            _arrayTexture s = Some ts → upToDate (_bitmaps s) ts →
            scanLayers (_bitmaps s) ts = mkScan ts false []
            ∧ _ensureArrayTexture s = (s, [])).
  { intros s ts Hs Hup.
    assert (Hscan : scanLayers (_bitmaps s) ts = mkScan ts false []).
    { unfold scanLayers. apply (scanLayers_upToDate _ ts); [done | done |].
      intros i Hi. apply in_seq in Hi. lia. }
    split; [done|].
    unfold _ensureArrayTexture, scannedTexture. rewrite Hs.
    change (default newArrayTexture (Some ts)) with ts.
    rewrite Hscan. unfold markUpdated. cbn [s_tex s_updated s_copies].
    destruct s; cbn in *. by subst. }
  intros Ht Hup. destruct (Hnoop this t Ht Hup) as [Hscan Hens].
  rewrite Hens, Hscan. cbn [fst snd s_updated].
  split; [done|]. split; [done|]. split; [done|]. split; [done|].
  intros this0 Hwf0.
  destruct (ensureArrayTexture_upToDate this0 Hwf0) as [_ Hup'].
  destruct (Hnoop (fst (_ensureArrayTexture this0)) _ (ensureArrayTexture_texture this0))
    as [_ Heq]; [exact Hup'|].
  split; [exact (f_equal snd Heq) | exact (f_equal fst Heq)].
Qed.

Lemma scan_without_changes_is_noop_witness :
  _arrayTexture scannedSample = Some (scannedTexture (setBitmaps [Some sampleBitmap] init))
  ∧ upToDate (_bitmaps scannedSample) (scannedTexture (setBitmaps [Some sampleBitmap] init))
  ∧ snd (_ensureArrayTexture scannedSample) = []
  ∧ fst (_ensureArrayTexture scannedSample) = scannedSample.
Proof.
  assert (Hwf : ∀ t, _arrayTexture (setBitmaps [Some sampleBitmap] init) = Some t →
                     wfArrayTexture t) by (intros t [=]).
  pose proof (ensureArrayTexture_texture (setBitmaps [Some sampleBitmap] init)) as Ht.
  destruct (ensureArrayTexture_upToDate _ Hwf) as [_ Hup].
  destruct (scan_without_changes_is_noop scannedSample _ Ht Hup) as (H1 & _ & _ & H4 & _).
  exact (conj Ht (conj Hup (conj H1 H4))).
Defined.

(** ** Sorting by draw layer *)

Lemma insertByDrawZ_perm x l : Permutation (x :: l) (insertByDrawZ x l).
Proof.
  induction l as [|y l IH]; simpl; [done|].
  destruct (r_drawZ y <? r_drawZ x)%Z; [|done].
  rewrite perm_swap. by apply perm_skip.
Qed.

Lemma sortByDrawZ_perm l : Permutation l (sortByDrawZ l).
Proof.
  induction l as [|x l IH]; simpl; [done|].
  rewrite <- insertByDrawZ_perm. by apply perm_skip.
Qed.

Lemma insertByDrawZ_sorted x l :
  StronglySorted drawZ_le l → StronglySorted drawZ_le (insertByDrawZ x l).
Proof.
  induction l as [|y l IH]; simpl; intros Hs.
  - repeat constructor.
  - apply StronglySorted_inv in Hs as [Hs Hall].
    destruct (Z.ltb_spec (r_drawZ y) (r_drawZ x)) as [Hlt|Hge].
    + constructor; [auto|].
      rewrite List.Forall_forall in *. intros z Hz.
      apply (Permutation_in _ (Permutation_sym (insertByDrawZ_perm x l))) in Hz.
      destruct Hz as [<-|Hz]; [unfold drawZ_le; lia | auto].
    + constructor; [by constructor|].
      constructor; [done|].
      rewrite List.Forall_forall in *. intros z Hz. specialize (Hall z Hz).
      unfold drawZ_le in *. lia.
Qed.

Lemma sortByDrawZ_sorted l : StronglySorted drawZ_le (sortByDrawZ l).
Proof.
  induction l as [|x l IH]; simpl; [constructor|]. by apply insertByDrawZ_sorted.
Qed.

(** Insertion puts the new rect in front of the rects of its own layer. *)
Lemma onLayer_insertByDrawZ z x l :
  onLayer z (insertByDrawZ x l) = onLayer z (x :: l).
Proof.
  unfold onLayer. induction l as [|y l IH]; [done|].
  cbn [insertByDrawZ]. destruct (Z.ltb_spec (r_drawZ y) (r_drawZ x)) as [Hlt|Hge]; [|done].
  cbn [List.filter] in *. rewrite IH.
  destruct (Z.eqb_spec (r_drawZ x) z), (Z.eqb_spec (r_drawZ y) z); try done. lia.
Qed.

Lemma onLayer_sortByDrawZ z l : onLayer z (sortByDrawZ l) = onLayer z l.
Proof.
  induction l as [|x l IH]; [done|].
  cbn [sortByDrawZ foldr]. rewrite onLayer_insertByDrawZ.
  unfold onLayer in *. cbn [List.filter]. fold (sortByDrawZ l). by rewrite IH.
Qed.

(** ** The classifier loop *)

Lemma classifyRect_fold env sn data (l : list nat) a h :
  fst (foldl (classifyRect env sn data) (a, h) l)
  = a ++ List.map (fun ci => mkUnifiedRect sn ci (drawZOf data ci))
           (List.filter (fun ci => negb (isWaterClassified env sn data ci)) l).
Proof.
  revert a h. induction l as [|ci l IH]; intros a h; simpl.
  - by rewrite app_nil_r.
  - unfold classifyRect at 2. destruct (isWaterClassified env sn data ci); simpl.
    + by rewrite IH.
    + rewrite IH. by rewrite <- app_assoc.
Qed.

Lemma classifySet_allRects env acc entry :
  c_allRects (classifySet env acc entry) = c_allRects acc ++ flatOfSet env entry.
Proof.
  unfold classifySet, flatOfSet. destruct entry as [sn data]. cbn [fst snd].
  destruct (Nat.eqb_spec (count data) 0) as [H0|Hn0].
  - rewrite H0. simpl. destruct (sn =? -1)%Z; by rewrite app_nil_r.
  - destruct (sn =? -1)%Z; cbn [c_allRects]; [by rewrite app_nil_r|].
    apply classifyRect_fold.
Qed.

Lemma classify_allRects env acc entries :
  c_allRects (foldl (classifySet env) acc entries)
  = c_allRects acc ++ flatRects env entries.
Proof.
  revert acc. induction entries as [|e entries IH]; intros acc; simpl.
  - by rewrite app_nil_r.
  - rewrite IH, classifySet_allRects. by rewrite <- app_assoc.
Qed.

Lemma classified_allRects env this :
  c_allRects (classified env this) = flatRects env (_rectData this).
Proof. unfold classified. by rewrite classify_allRects. Qed.

Lemma flush_dirty env this :
  _needsRebuild this = true →
  _flush env this = rebuild env (fst (_ensureArrayTexture this)).
Proof.
  intros H. unfold _flush.
  change (_needsRebuild (fst (_ensureArrayTexture this))) with (_needsRebuild this).
  by rewrite H.
Qed.

Lemma rebuild_unifiedRects env this :
  _unifiedRects (rebuild env this) = Some (sortByDrawZ (flatRects env (_rectData this))).
Proof.
  pose proof (rebuild_unified env this) as H. unfold unified in H.
  apply (f_equal snd) in H. cbn [snd] in H. rewrite H.
  rewrite classified_allRects. reflexivity.
Qed.

Lemma flush_dirty_unifiedRects env this :
  _needsRebuild this = true →
  _unifiedRects (_flush env this) = Some (sortByDrawZ (flatRects env (_rectData this))).
Proof.
  intros H. rewrite flush_dirty by done. by rewrite rebuild_unifiedRects.
Qed.

(** Two elements kept by a filter stand in the filtered list in the order
    they have in the list, and conversely. *)
Lemma filter_keeps_order {A} (f : A → bool) (l : list A) (i j : nat) (a b : A) :
  i < j → l !! i = Some a → l !! j = Some b → f a = true → f b = true →
  ∃ p q, p < q ∧ List.filter f l !! p = Some a ∧ List.filter f l !! q = Some b.
Proof.
  revert i j. induction l as [|x l IH]; intros i j Hij Hi Hj Ha Hb; [done|].
  destruct i as [|i].
  - simpl in Hi. injection Hi as ->. destruct j as [|j]; [lia|]. simpl in Hj.
    cbn [List.filter]. rewrite Ha.
    assert (∃ q, List.filter f l !! q = Some b) as [q Hq].
    { clear -Hj Hb. revert j Hj. induction l as [|y l IH]; intros j Hj; [done|].
      cbn [List.filter]. destruct j as [|j].
      - simpl in Hj. injection Hj as ->. rewrite Hb. by exists 0.
      - simpl in Hj. destruct (IH j Hj) as [q Hq].
        destruct (f y); [by exists (S q) | by exists q]. }
    exists 0, (S q). split; [lia|]. done.
  - destruct j as [|j]; [lia|]. simpl in Hi, Hj.
    destruct (IH i j) as (p & q & Hpq & Hp & Hq); [lia | done..|].
    cbn [List.filter]. destruct (f x).
    + exists (S p), (S q). split; [lia|]. done.
    + by exists p, q.
Qed.

Lemma filter_order_back {A} (f : A → bool) (l : list A) (p q : nat) (a b : A) :
  p < q → List.filter f l !! p = Some a → List.filter f l !! q = Some b →
  ∃ i j, i < j ∧ l !! i = Some a ∧ l !! j = Some b.
Proof.
  revert p q. induction l as [|x l IH]; intros p q Hpq Hp Hq; [done|].
  cbn [List.filter] in Hp, Hq. destruct (f x).
  - destruct p as [|p].
    + simpl in Hp. injection Hp as ->. destruct q as [|q]; [lia|]. simpl in Hq.
      assert (∃ j, l !! j = Some b) as [j Hj].
      { apply list_elem_of_lookup, list_elem_of_In.
        apply list_elem_of_lookup_2, list_elem_of_In, filter_In in Hq. tauto. }
      exists 0, (S j). split; [lia|]. done.
    + destruct q as [|q]; [lia|]. simpl in Hp, Hq.
      destruct (IH p q) as (i & j & Hij & Hi & Hj); [lia | done..|].
      exists (S i), (S j). split; [lia|]. done.
  - destruct (IH p q) as (i & j & Hij & Hi & Hj); [lia | done..|].
    exists (S i), (S j). split; [lia|]. done.
Qed.

(** C3. The flat rect list of a full rebuild is sorted by [drawZ],
    ascending and stably: the unified batch holds the rects of the flat list,
    in ascending draw layers, and the rects of one draw layer stand in the
    order they have in the flat list (as a whole, and pair by pair).  Rects
    on layers 2, 1, 1 come out as second, third, first. *)
Theorem unified_rects_stable_sort (env : Env) (this : Layer) :
  _needsRebuild this = true →
  let flat := flatRects env (_rectData this) in
  ∃ sorted,
    _unifiedRects (_flush env this) = Some sorted
    ∧ Permutation flat sorted
    ∧ StronglySorted drawZ_le sorted
    ∧ (∀ z, onLayer z sorted = onLayer z flat)
    ∧ (∀ i j a b, i < j → flat !! i = Some a → flat !! j = Some b →
         r_drawZ a = r_drawZ b →
         ∃ i' j', i' < j' ∧ sorted !! i' = Some a ∧ sorted !! j' = Some b)
    ∧ (∀ a b c : UnifiedRect,
         r_drawZ a = 2%Z → r_drawZ b = 1%Z → r_drawZ c = 1%Z →
         sortByDrawZ [a; b; c] = [b; c; a]).
Proof.
  intros Hdirty flat. exists (sortByDrawZ flat).
  split; [by apply flush_dirty_unifiedRects|].
  split; [apply sortByDrawZ_perm|].
  split; [apply sortByDrawZ_sorted|].
  split; [intros z; apply onLayer_sortByDrawZ|].
  split.
  - intros i j a b Hij Hi Hj Hz.
    destruct (filter_keeps_order (fun r => (r_drawZ r =? r_drawZ a)%Z) flat i j a b)
      as (p & q & Hpq & Hp & Hq); try done.
    { apply Z.eqb_refl. }
    { rewrite Hz. apply Z.eqb_refl. }
    pose proof (onLayer_sortByDrawZ (r_drawZ a) flat) as Heq. unfold onLayer in Heq.
    rewrite <- Heq in Hp, Hq.
    exact (filter_order_back _ _ p q a b Hpq Hp Hq).
  - intros a b c Ha Hb Hc. unfold sortByDrawZ. cbn [foldr insertByDrawZ].
    rewrite Hb, Hc. cbn [Z.ltb Z.compare Pos.compare Pos.compare_cont insertByDrawZ].
    rewrite Ha, Hb, Hc. reflexivity.
Qed.

Lemma unified_rects_stable_sort_witness :
  _needsRebuild threeLayered = true
  ∧ _unifiedRects (_flush plainEnv threeLayered)
    = Some [mkUnifiedRect 0 1 1; mkUnifiedRect 0 2 1; mkUnifiedRect 0 0 2].
Proof.
  assert (Hdirty : _needsRebuild threeLayered = true) by reflexivity.
  split; [exact Hdirty|].
  destruct (unified_rects_stable_sort plainEnv threeLayered Hdirty) as (sorted & Hs & _).
  rewrite Hs.
  assert (Hc : _unifiedRects (_flush plainEnv threeLayered)
               = Some [mkUnifiedRect 0 1 1; mkUnifiedRect 0 2 1; mkUnifiedRect 0 0 2])
    by (vm_compute; reflexivity).
  rewrite Hs in Hc. exact Hc.
Defined.

(** ** Unified mesh *)

Lemma flat_map_length_blocks {A B} (k : nat) (f : A → list B) (items : list A) :
  (∀ x, length (f x) = k) → length (flat_map f items) = length items * k.
Proof.
  intros Hk. induction items as [|x items IH]; simpl; [done|].
  rewrite length_app, Hk, IH. lia.
Qed.

(** Element [t] of block [ri] of a list made of blocks of [k] elements. *)
Lemma lookup_flat_map_blocks {A B} (k : nat) (f : A → list B) (items : list A)
    (ri t : nat) (x : A) :
  (∀ x, length (f x) = k) → items !! ri = Some x → t < k →
  flat_map f items !! (ri * k + t) = f x !! t.
Proof.
  intros Hk. revert ri. induction items as [|y items IH]; intros ri Hri Ht; [done|].
  destruct ri as [|ri]; simpl in Hri.
  - injection Hri as ->. simpl. rewrite lookup_app_l by (rewrite Hk; lia). done.
  - cbn [flat_map]. rewrite lookup_app_r by (rewrite Hk; lia).
    rewrite Hk. replace (S ri * k + t - k) with (ri * k + t) by lia. by apply IH.
Qed.

Lemma posBlock_length data i z : length (posBlock data i z) = 18.
Proof. reflexivity. Qed.

Lemma normalBlock_length : length normalBlock = 18.
Proof. reflexivity. Qed.

Lemma unifiedUvBlock_length data i ax ay : length (unifiedUvBlock data i ax ay) = 12.
Proof. reflexivity. Qed.

Lemma layerBlock_length sn : length (layerBlock sn) = 6.
Proof. reflexivity. Qed.

Lemma make_length n : length (F32.make n) = n.
Proof. apply length_replicate. Qed.

Lemma buildUnifiedMesh_unifiedMesh env rects ax ay this :
  rects ≠ [] →
  _unifiedMesh (_buildUnifiedMesh env rects ax ay this)
  = Some (unifiedMeshOf env (_rectData this) rects ax ay).
Proof.
  intros Hne. unfold _buildUnifiedMesh. cbn [_unifiedMesh].
  destruct (Nat.eqb_spec (length rects) 0) as [H0|_].
  { destruct rects; [done | simpl in H0; lia]. }
  unfold unifiedMeshOf, unifiedUvStores, rectSetOf, elevation2D. f_equal. f_equal.
  - apply stores_perRect; [intros; apply posBlock_length | rewrite make_length; lia].
  - apply (stores_perRect 18 (fun _ => normalBlock));
      [intros; apply normalBlock_length | rewrite make_length; lia].
  - apply stores_perRect; [intros; apply unifiedUvBlock_length | rewrite make_length; lia].
  - apply stores_perRect; [intros; apply layerBlock_length | rewrite make_length; lia].
Qed.

Lemma buildUnifiedMesh_empty env ax ay this :
  _unifiedMesh (_buildUnifiedMesh env [] ax ay this) = hideUnified <$> _unifiedMesh this.
Proof. unfold _buildUnifiedMesh. simpl. by destruct (_unifiedMesh this). Qed.

Lemma classified_rectData env this :
  _rectData (c_this (classified env this)) = _rectData this.
Proof.
  destruct (classified_frame env this) as [H _]. unfold inputs in H. by inversion H.
Qed.

Lemma rebuild_unifiedMesh env this :
  let rects := sortByDrawZ (flatRects env (_rectData this)) in
  rects ≠ [] →
  _unifiedMesh (rebuild env this)
  = Some (unifiedMeshOf env (_rectData this) rects (_tileAnimX this) (_tileAnimY this)).
Proof.
  intros rects Hne.
  pose proof (rebuild_unified env this) as H. unfold unified in H.
  apply (f_equal fst) in H. cbn [fst] in H. rewrite H.
  rewrite classified_allRects. cbn [hidden _rectData].
  rewrite buildUnifiedMesh_unifiedMesh by exact Hne.
  by rewrite classified_rectData.
Qed.

Lemma flush_dirty_unifiedMesh env this :
  _needsRebuild this = true →
  let rects := sortByDrawZ (flatRects env (_rectData this)) in
  rects ≠ [] →
  _unifiedMesh (_flush env this)
  = Some (unifiedMeshOf env (_rectData this) rects (_tileAnimX this) (_tileAnimY this)).
Proof.
  intros Hd rects Hne. rewrite flush_dirty by exact Hd.
  exact (rebuild_unifiedMesh env (fst (_ensureArrayTexture this)) Hne).
Qed.

Lemma unifiedUvBlock_lookup data i ax ay (j : nat) :
  j < 6 →
  List.map Num.fround (unifiedUvBlock data i ax ay) !! (j * 2)
  = Some (Num.fround ((F32.load (uvs data) (i * 12 + j * 2) + animXOf data i * ax)
                      / Num.of_Z TILESET_TEX_SIZE))
  ∧ List.map Num.fround (unifiedUvBlock data i ax ay) !! (j * 2 + 1)
    = Some (Num.fround ((F32.load (uvs data) (i * 12 + j * 2 + 1) + animYOf data i * ay)
                        / Num.of_Z TILESET_TEX_SIZE)).
Proof.
  intros Hj. destruct j as [|[|[|[|[|[|j]]]]]]; try lia; split; reflexivity.
Qed.

Lemma layerBlock_lookup sn (j : nat) :
  j < 6 → List.map Num.fround (layerBlock sn) !! j = Some (Num.fround (Num.of_Z sn)).
Proof.
  intros Hj. destruct j as [|[|[|[|[|[|j]]]]]]; try lia; reflexivity.
Qed.

(** ** Surroundings without water *)

Lemma foldl_ext_in {A B} (f g : A → B → A) (l : list B) (a : A) :
  (∀ a x, In x l → f a x = g a x) → foldl f a l = foldl g a l.
Proof.
  revert a. induction l as [|x l IH]; intros a H; simpl; [done|].
  rewrite H by (by left). apply IH. intros a' y Hy. apply H. by right.
Qed.

Lemma classifyRect_no_water env sn data acc (l : list nat) :
  (∀ ci, In ci l → isWaterClassified env sn data ci = false) →
  foldl (classifyRect env sn data) acc l
  = foldl (classifyRect (withoutWater env) sn data) acc l.
Proof.
  intros H. apply foldl_ext_in. intros a ci Hci. unfold classifyRect.
  rewrite (H ci Hci). unfold isWaterClassified, withoutWater. cbn [waterShader].
  by rewrite andb_false_r.
Qed.

Lemma classifySet_no_water env acc entry :
  (∀ ci, ci < count (snd entry) → isWaterClassified env (fst entry) (snd entry) ci = false) →
  classifySet env acc entry = classifySet (withoutWater env) acc entry.
Proof.
  intros H. unfold classifySet. destruct (count (snd entry) =? 0); [done|].
  destruct (fst entry =? -1)%Z; [done|].
  rewrite classifyRect_no_water; [done|].
  intros ci Hci. apply H. apply in_seq in Hci. lia.
Qed.

Lemma classifyRect_without_water env sn data a h (l : list nat) :
  snd (foldl (classifyRect (withoutWater env) sn data) (a, h) l) = h.
Proof.
  revert a. induction l as [|ci l IH]; intros a; simpl; [done|].
  unfold classifyRect at 2, isWaterClassified, withoutWater. cbn [waterShader].
  rewrite andb_false_r. cbn [fst snd]. apply IH.
Qed.

Lemma classifySet_without_water env acc entry :
  c_hasWaterBySet (classifySet (withoutWater env) acc entry) = c_hasWaterBySet acc.
Proof.
  unfold classifySet. destruct (count (snd entry) =? 0); [done|].
  destruct (fst entry =? -1)%Z; [done|]. cbn [c_hasWaterBySet].
  apply classifyRect_without_water.
Qed.

(** When no accumulated rect is water-classified, the rebuild is the one
    of the same surroundings without a water module. *)
Lemma rebuild_no_water env this :
  (∀ sn data ci, In (sn, data) (_rectData this) → ci < count data →
     isWaterClassified env sn data ci = false) →
  rebuild env this = rebuild (withoutWater env) this.
Proof.
  intros H. rewrite !rebuild_unfold.
  assert (Hc : classified env (hidden this) = classified (withoutWater env) (hidden this)).
  { unfold classified. cbn [hidden _rectData]. apply foldl_ext_in.
    intros acc [sn data] Hin. apply classifySet_no_water. cbn [fst snd].
    intros ci Hci. by apply (H sn data ci). }
  rewrite Hc.
  assert (Hw : c_hasWaterBySet (classified (withoutWater env) (hidden this)) = []).
  { unfold classified.
    apply (foldl_preserves (classifySet (withoutWater env)) c_hasWaterBySet).
    intros. apply classifySet_without_water. }
  rewrite Hw. reflexivity.
Qed.

(** C6. In the unified mesh of a rebuild, vertex [j] of the rect at place
    [ri] has the UV (stored pixel UV + anim offset of the rect × global
    phase) / fixed layer size, with no vertical flip, and the texture-layer
    attribute of the rect's set number (both as the [Float32Array] holds
    them).  After [addRect(0, 0,0, 32,32, 32,32)] on a fresh layer, for any
    surroundings in which the signature (0, 0) is not water, the unified
    batch is one quad over the pixels (32,32)-(64,64) on layer 0 with UVs
    over (0,0)-(32/S, 32/S). *)
Theorem unified_mesh_uv_and_layer (env : Env) (this : Layer) (rects : list UnifiedRect) :
  _needsRebuild this = true →
  _unifiedRects (_flush env this) = Some rects →
  rects ≠ [] →
  (∃ m, _unifiedMesh (_flush env this) = Some m
     ∧ u_visible m = true
     ∧ length (u_uv m) = length rects * 12
     ∧ length (u_aTextureLayer m) = length rects * 6
     ∧ ∀ ri rect j, rects !! ri = Some rect → j < 6 →
         let data := rectSetOf this (r_setNumber rect) in
         let i := r_index rect in
         let size := Num.of_Z TILESET_TEX_SIZE in
         u_uv m !! (ri * 12 + j * 2)
         = Some (Num.fround ((F32.load (uvs data) (i * 12 + j * 2)
                              + animXOf data i * _tileAnimX this) / size))
         ∧ u_uv m !! (ri * 12 + j * 2 + 1)
           = Some (Num.fround ((F32.load (uvs data) (i * 12 + j * 2 + 1)
                                + animYOf data i * _tileAnimY this) / size))
         ∧ u_aTextureLayer m !! (ri * 6 + j)
           = Some (Num.fround (Num.of_Z (r_setNumber rect))))
  ∧ (∀ env' : Env,
       (∀ ws, waterShader env' = Some ws → isWaterRect ws 0 0 = false) →
       let size := Num.of_Z TILESET_TEX_SIZE in
       let z := Num.fround (zOffset (elevation2D env') 0) in
       let uvMax := Num.fround (32 / size) in
       _unifiedRects (_flush env' oneTile) = Some [mkUnifiedRect 0 0 0]
       ∧ ∃ m, _unifiedMesh (_flush env' oneTile) = Some m
           ∧ u_visible m = true
           ∧ u_position m = [32; 32; z; 64; 32; z; 32; 64; z;
                             64; 32; z; 64; 64; z; 32; 64; z]%float
           ∧ u_aTextureLayer m = [0; 0; 0; 0; 0; 0]%float
           ∧ u_uv m = [0; 0; uvMax; 0; 0; uvMax; uvMax; 0; uvMax; uvMax; 0; uvMax]%float).
Proof.
  intros Hdirty Hrects Hne. split.
  - rewrite flush_dirty_unifiedRects in Hrects by exact Hdirty.
    injection Hrects as <-.
    eexists. split; [by apply flush_dirty_unifiedMesh|].
    unfold unifiedMeshOf; cbn [u_visible u_uv u_aTextureLayer].
    split; [done|].
    split; [apply flat_map_length_blocks; intros; by rewrite length_map|].
    split; [apply flat_map_length_blocks; intros; by rewrite length_map|].
    intros ri rect j Hri Hj. rewrite <- (Nat.add_assoc (ri * 12)).
    rewrite !(lookup_flat_map_blocks 12 _ _ ri _ rect)
      by (try done; try lia; intros; by rewrite length_map).
    rewrite (lookup_flat_map_blocks 6 _ _ ri _ rect)
      by (try done; intros; by rewrite length_map).
    destruct (unifiedUvBlock_lookup (setOf (_rectData this) (r_setNumber rect))
                (r_index rect) (_tileAnimX this) (_tileAnimY this) j Hj) as [Hu Hv].
    split; [exact Hu|]. split; [exact Hv|]. by apply layerBlock_lookup.
  - intros env' Hnw size z uvMax. subst size z uvMax.
    assert (Hflush : _flush env' oneTile = _flush (withoutWater env') oneTile).
    { rewrite !flush_dirty by reflexivity. apply rebuild_no_water.
      intros sn data ci [[= <- <-]|[]] Hci.
      assert (ci = 0) as -> by (cbn [count addedTo] in Hci; lia).
      unfold isWaterClassified. destruct (waterShader env') as [ws|] eqn:Ews; [|done].
      unfold waterTest.
      replace (animXOf _ 0) with 0%float by (vm_compute; reflexivity).
      replace (animYOf _ 0) with 0%float by (vm_compute; reflexivity).
      by rewrite (Hnw ws). }
    rewrite Hflush.
    destruct env' as [ws m3 el]. unfold withoutWater, elevation2D. cbn [mode3d tileLayerElevation].
    destruct m3, el; (split; [vm_compute; reflexivity|]);
      (eexists; split; [vm_compute; reflexivity|]); done.
Qed.

Lemma unified_mesh_uv_and_layer_witness :
  _needsRebuild oneTile = true
  ∧ _unifiedRects (_flush plainEnv oneTile) = Some [mkUnifiedRect 0 0 0]
  ∧ [mkUnifiedRect 0 0 0] ≠ []
  ∧ ∃ m, _unifiedMesh (_flush plainEnv oneTile) = Some m
      ∧ u_visible m = true
      ∧ length (u_uv m) = 12
      ∧ length (u_aTextureLayer m) = 6.
Proof.
  assert (H1 : _needsRebuild oneTile = true) by reflexivity.
  assert (H2 : _unifiedRects (_flush plainEnv oneTile) = Some [mkUnifiedRect 0 0 0])
    by (vm_compute; reflexivity).
  assert (H3 : [mkUnifiedRect 0 0 0] ≠ []) by discriminate.
  destruct (unified_mesh_uv_and_layer plainEnv oneTile _ H1 H2 H3)
    as [(m & Hm & Hv & Hl1 & Hl2 & _) _].
  split; [exact H1|]. split; [exact H2|]. split; [exact H3|].
  exists m. split; [exact Hm|]. split; [exact Hv|]. split; [exact Hl1 | exact Hl2].
Defined.

(** ** The flat list, rect by rect *)

Lemma In_flatOfSet env sn data r :
  In r (flatOfSet env (sn, data)) ↔
  sn ≠ (-1)%Z ∧ r_setNumber r = sn ∧ r_index r < count data
  ∧ isWaterClassified env sn data (r_index r) = false
  ∧ r_drawZ r = drawZOf data (r_index r).
Proof.
  unfold flatOfSet. cbn [fst snd]. destruct (Z.eqb_spec sn (-1)) as [->|Hne].
  - simpl. split; [done | by intros [? _]].
  - rewrite in_map_iff. split.
    + intros (ci & <- & Hci). apply filter_In in Hci as [Hci Hw].
      apply in_seq in Hci. apply negb_true_iff in Hw. cbn. repeat split; try done. lia.
    + intros (_ & Hsn & Hi & Hw & Hz). exists (r_index r). split.
      * destruct r as [s i z]. cbn in *. by subst.
      * apply filter_In. split; [apply in_seq; lia | by rewrite Hw].
Qed.

Lemma In_flatRects env rectData r :
  NoDup (List.map fst rectData) →
  In r (flatRects env rectData) ↔
  ∃ data, Obj.get (r_setNumber r) rectData = Some data
    ∧ r_setNumber r ≠ (-1)%Z ∧ r_index r < count data
    ∧ isWaterClassified env (r_setNumber r) data (r_index r) = false
    ∧ r_drawZ r = drawZOf data (r_index r).
Proof.
  intros Hnd. unfold flatRects. rewrite in_flat_map. split.
  - intros ([sn data] & Hin & Hr). apply In_flatOfSet in Hr as (Hne & Hsn & Hi & Hw & Hz).
    subst sn. exists data. split; [by apply Obj_In_get|]. done.
  - intros (data & Hget & Hne & Hi & Hw & Hz). exists (r_setNumber r, data).
    split; [by apply Obj_get_Some_In|]. by apply In_flatOfSet.
Qed.

Lemma NoDup_flatOfSet env entry : NoDup (flatOfSet env entry).
Proof.
  unfold flatOfSet. destruct (fst entry =? -1)%Z; [constructor|].
  apply NoDup_ListNoDup, Finite.Injective_map_NoDup.
  - intros a b [=]. done.
  - apply List.NoDup_filter, seq_NoDup.
Qed.

Lemma NoDup_flatRects env rectData :
  NoDup (List.map fst rectData) → NoDup (flatRects env rectData).
Proof.
  unfold flatRects. induction rectData as [|[sn data] rd IH]; intros Hnd; simpl.
  - constructor.
  - apply NoDup_cons in Hnd as [Hsn Hnd]. apply NoDup_app. split; [|split].
    + apply NoDup_flatOfSet.
    + intros r Hr%list_elem_of_In Hr'%list_elem_of_In.
      apply In_flatOfSet in Hr as (_ & Hs & _).
      apply in_flat_map in Hr' as ([sn' data'] & Hin & Hr').
      apply In_flatOfSet in Hr' as (_ & Hs' & _).
      apply Hsn. apply list_elem_of_In, in_map_iff. exists (sn', data').
      split; [cbn; congruence | done].
    + by apply IH.
Qed.
(** ** Meshes by key *)

Lemma MeshKey_eqb_eq a b : MeshKey_eqb a b = true ↔ a = b.
Proof.
  destruct a as [|s w k], b as [|s' w' k']; simpl; try (split; done).
  rewrite !andb_true_iff, !Z.eqb_eq, Bool.eqb_true_iff.
  split; [intros [[-> ->] ->] | intros [= -> -> ->]]; done.
Qed.

Lemma MeshKey_eqb_refl a : MeshKey_eqb a a = true.
Proof. by apply MeshKey_eqb_eq. Qed.

Lemma MeshKey_eqb_ne a b : a ≠ b → MeshKey_eqb a b = false.
Proof.
  intros H. destruct (MeshKey_eqb a b) eqn:E; [|done]. by apply MeshKey_eqb_eq in E.
Qed.

Lemma mesh_get_set_eq k m ms : mesh_get k (mesh_set k m ms) = Some m.
Proof.
  unfold mesh_get. induction ms as [|[k' m'] ms IH]; simpl.
  - by rewrite MeshKey_eqb_refl.
  - destruct (MeshKey_eqb k k') eqn:E; simpl.
    + by rewrite MeshKey_eqb_refl.
    + by rewrite E.
Qed.

Lemma mesh_get_set_ne k0 k m ms :
  k0 ≠ k → mesh_get k0 (mesh_set k m ms) = mesh_get k0 ms.
Proof.
  intros Hne. unfold mesh_get. induction ms as [|[k' m'] ms IH]; simpl.
  - by rewrite MeshKey_eqb_ne.
  - destruct (MeshKey_eqb k k') eqn:E; simpl.
    + apply MeshKey_eqb_eq in E as <-. by rewrite !MeshKey_eqb_ne.
    + destruct (MeshKey_eqb k0 k'); [done | exact IH].
Qed.

Lemma mesh_get_hidden k ms :
  mesh_get k (List.map (fun kv => (fst kv, hideMesh (snd kv))) ms)
  = hideMesh <$> mesh_get k ms.
Proof.
  unfold mesh_get. induction ms as [|[k' m'] ms IH]; simpl; [done|].
  by destruct (MeshKey_eqb k k').
Qed.

(** ** The shadow mesh of a rebuild *)

Lemma buildShadowMesh_meshes env data this k :
  k ≠ ShadowKey →
  mesh_get k (_meshes (_buildShadowMesh env data this)) = mesh_get k (_meshes this).
Proof. intros H. unfold _buildShadowMesh. cbn [_meshes]. by apply mesh_get_set_ne. Qed.

Lemma buildShadowMesh_shadow env data this :
  ∃ m, mesh_get ShadowKey (_meshes (_buildShadowMesh env data this)) = Some m
       ∧ position m = shadowPositions env data ∧ visible m = true.
Proof.
  unfold _buildShadowMesh. cbn [_meshes]. rewrite mesh_get_set_eq.
  eexists. split; [done|]. by destruct (mesh_get ShadowKey (_meshes this)).
Qed.

Lemma classifySet_meshes_other env acc entry k :
  k ≠ ShadowKey →
  mesh_get k (_meshes (c_this (classifySet env acc entry)))
  = mesh_get k (_meshes (c_this acc)).
Proof.
  intros Hk. unfold classifySet. destruct (count (snd entry) =? 0); [done|].
  destruct (fst entry =? -1)%Z; [|done]. cbn [c_this].
  by apply buildShadowMesh_meshes.
Qed.

Lemma classifySet_meshes_not_shadow env acc entry :
  fst entry ≠ (-1)%Z →
  _meshes (c_this (classifySet env acc entry)) = _meshes (c_this acc).
Proof.
  intros Hk. unfold classifySet. destruct (count (snd entry) =? 0); [done|].
  destruct (Z.eqb_spec (fst entry) (-1)); done.
Qed.

Lemma classify_meshes_no_shadow env acc entries :
  ¬ In (-1)%Z (List.map fst entries) →
  _meshes (c_this (foldl (classifySet env) acc entries)) = _meshes (c_this acc).
Proof.
  revert acc. induction entries as [|e entries IH]; intros acc Hni; simpl; [done|].
  simpl in Hni. rewrite IH by tauto. apply classifySet_meshes_not_shadow. tauto.
Qed.

(** The shadow mesh after the classifier loop: built from the rects of set
    -1 when there are any, left as it was otherwise. *)
Lemma classify_shadow env acc entries :
  NoDup (List.map fst entries) →
  match Obj.get (-1)%Z entries with
  | Some data =>
      if count data =? 0
      then mesh_get ShadowKey (_meshes (c_this (foldl (classifySet env) acc entries)))
           = mesh_get ShadowKey (_meshes (c_this acc))
      else ∃ m, mesh_get ShadowKey (_meshes (c_this (foldl (classifySet env) acc entries)))
                = Some m
                ∧ position m = shadowPositions env data ∧ visible m = true
  | None => mesh_get ShadowKey (_meshes (c_this (foldl (classifySet env) acc entries)))
            = mesh_get ShadowKey (_meshes (c_this acc))
  end.
Proof.
  revert acc. induction entries as [|[sn data] entries IH]; intros acc Hnd; [done|].
  apply NoDup_cons in Hnd as [Hsn Hnd]. cbn [Obj.get foldl].
  destruct (Z.eqb_spec (-1) sn) as [<-|Hne].
  - assert (Hni : ¬ In (-1)%Z (List.map fst entries))
      by (intros H; by apply Hsn, list_elem_of_In).
    rewrite (classify_meshes_no_shadow env _ entries Hni).
    unfold classifySet. cbn [fst snd]. destruct (count data =? 0); [done|].
    cbn [Z.eqb Pos.eqb c_this]. apply buildShadowMesh_shadow.
  - specialize (IH (classifySet env acc (sn, data)) Hnd).
    rewrite (classifySet_meshes_not_shadow env acc (sn, data)) in IH by (cbn; lia).
    exact IH.
Qed.

(** ** Water is for set 0 *)

Lemma isWaterClassified_set env sn data ci :
  isWaterClassified env sn data ci = true → sn = 0%Z.
Proof. unfold isWaterClassified. intros [H _]%andb_true_iff. by apply Z.eqb_eq. Qed.

Lemma isWaterClassified_other env sn data ci :
  sn ≠ 0%Z → isWaterClassified env sn data ci = false.
Proof.
  intros H. destruct (isWaterClassified env sn data ci) eqn:E; [|done].
  by apply isWaterClassified_set in E.
Qed.

Lemma classifyRect_onlyZero env sn data a h (l : list nat) :
  onlyZero h → onlyZero (snd (foldl (classifyRect env sn data) (a, h) l)).
Proof.
  revert a h. induction l as [|ci l IH]; intros a h Hh; simpl; [done|].
  unfold classifyRect at 2. destruct (isWaterClassified env sn data ci) eqn:E; cbn [fst snd].
  - apply IH. intros k Hk. apply Obj_keys_set in Hk as [->|Hk]; [|by apply Hh].
    by apply isWaterClassified_set in E.
  - by apply IH.
Qed.

Lemma classifySet_onlyZero env acc entry :
  onlyZero (c_hasWaterBySet acc) → onlyZero (c_hasWaterBySet (classifySet env acc entry)).
Proof.
  intros H. unfold classifySet. destruct (count (snd entry) =? 0); [done|].
  destruct (fst entry =? -1)%Z; [done|]. cbn [c_hasWaterBySet].
  by apply classifyRect_onlyZero.
Qed.

Lemma classified_onlyZero env this : onlyZero (c_hasWaterBySet (classified env this)).
Proof.
  unfold classified.
  assert (∀ entries acc, onlyZero (c_hasWaterBySet acc) →
            onlyZero (c_hasWaterBySet (foldl (classifySet env) acc entries))) as H.
  { induction entries as [|e entries IH]; intros acc Hacc; simpl; [done|].
    by apply IH, classifySet_onlyZero. }
  apply H. intros k [].
Qed.

Lemma buildWaterTypeMesh_meshes env sn key idx data tex tw th ax ay wf ks this k :
  k ≠ key →
  mesh_get k (_meshes (_buildWaterTypeMesh env sn key idx data tex tw th ax ay wf ks this))
  = mesh_get k (_meshes this).
Proof. intros H. unfold _buildWaterTypeMesh. cbn [_meshes]. by apply mesh_get_set_ne. Qed.

(** A water build of set [sn] leaves the meshes of the other keys alone. *)
Lemma buildWaterMesh_meshes env ws sn data tex tw th ax ay this k :
  hasWaterPrefix sn k = false →
  mesh_get k (_meshes (_buildWaterMesh env ws sn data tex tw th ax ay this))
  = mesh_get k (_meshes this).
Proof.
  intros Hk. unfold _buildWaterMesh.
  apply (foldl_preserves _ (fun s => mesh_get k (_meshes s))).
  intros a [[wf kind] g]. cbn [fst snd]. destruct (0 <? _); [|done].
  apply buildWaterTypeMesh_meshes. intros ->. cbn in Hk. by rewrite Z.eqb_refl in Hk.
Qed.

Lemma buildWaterOfSet_meshes env ax ay this entry k :
  hasWaterPrefix (fst entry) k = false →
  mesh_get k (_meshes (buildWaterOfSet env ax ay this entry)) = mesh_get k (_meshes this).
Proof.
  intros Hk. unfold buildWaterOfSet.
  destruct (waterShader env); [|done].
  destruct (_extractThreeTexture _) as [wTex|]; [|done].
  destruct (image wTex); [|done].
  rewrite buildWaterMesh_meshes by done.
  by rewrite (proj2 (proj2 (proj2 (makeNearest_frame wTex this)))).
Qed.

Lemma buildWater_fold_meshes env ax ay this (h : list (Z * bool)) k :
  onlyZero h → hasWaterPrefix 0 k = false →
  mesh_get k (_meshes (foldl (buildWaterOfSet env ax ay) this h)) = mesh_get k (_meshes this).
Proof.
  revert this. induction h as [|e h IH]; intros this Hz Hk; simpl; [done|].
  rewrite IH; [| intros k' Hk'; apply Hz; by right | done].
  apply buildWaterOfSet_meshes. rewrite (Hz (fst e)); [done | by left].
Qed.

(** The meshes a rebuild does not build: hidden, otherwise as they were. *)
Lemma rebuild_meshes_other env this k :
  k ≠ ShadowKey → hasWaterPrefix 0 k = false →
  mesh_get k (_meshes (rebuild env this)) = hideMesh <$> mesh_get k (_meshes this).
Proof.
  intros Hs Hk. rewrite rebuild_unfold.
  rewrite buildWater_fold_meshes by (apply classified_onlyZero || done).
  destruct (buildUnifiedMesh_frame env
              (sortByDrawZ (c_allRects (classified env (hidden this))))
              (_tileAnimX this) (_tileAnimY this)
              (c_this (classified env (hidden this)))) as (_ & _ & ->).
  unfold classified.
  rewrite (foldl_preserves (classifySet env) (fun c => mesh_get k (_meshes (c_this c))))
    by (intros; by apply classifySet_meshes_other).
  cbn [c_this hidden _meshes]. apply mesh_get_hidden.
Qed.

(** The shadow mesh of a rebuild. *)
Lemma rebuild_shadow env this :
  NoDup (List.map fst (_rectData this)) →
  match Obj.get (-1)%Z (_rectData this) with
  | Some data =>
      if count data =? 0
      then mesh_get ShadowKey (_meshes (rebuild env this))
           = hideMesh <$> mesh_get ShadowKey (_meshes this)
      else ∃ m, mesh_get ShadowKey (_meshes (rebuild env this)) = Some m
                ∧ position m = shadowPositions env data ∧ visible m = true
  | None => mesh_get ShadowKey (_meshes (rebuild env this))
            = hideMesh <$> mesh_get ShadowKey (_meshes this)
  end.
Proof.
  intros Hnd.
  assert (Hsame : mesh_get ShadowKey (_meshes (rebuild env this))
                  = mesh_get ShadowKey (_meshes (c_this (classified env (hidden this))))).
  { rewrite rebuild_unfold.
    rewrite buildWater_fold_meshes by (apply classified_onlyZero || done).
    by destruct (buildUnifiedMesh_frame env
              (sortByDrawZ (c_allRects (classified env (hidden this))))
              (_tileAnimX this) (_tileAnimY this)
              (c_this (classified env (hidden this)))) as (_ & _ & ->). }
  rewrite Hsame. unfold classified.
  pose proof (classify_shadow env (mkClassified (hidden this) [] []) (_rectData this) Hnd)
    as H.
  cbn [hidden _rectData].
  destruct (Obj.get (-1)%Z (_rectData this)) as [data|].
  - destruct (count data =? 0); [|exact H].
    rewrite H. cbn [c_this hidden _meshes]. apply mesh_get_hidden.
  - rewrite H. cbn [c_this hidden _meshes]. apply mesh_get_hidden.
Qed.

(** ** The rect sets hold the calls since [clear] *)

Lemma orZero_idem o : Num.orZero (Some (Num.orZero o)) = Num.orZero o.
Proof.
  destruct o as [x|]; simpl; [|reflexivity].
  destruct (Num.truthy x) eqn:E; [by rewrite E | reflexivity].
Qed.

Lemma quadAt_lookup (a : list float) (i t : nat) :
  t < 12 → quadAt a i !! t = a !! (i * 12 + t).
Proof. intros H. unfold quadAt. by rewrite lookup_take_lt, lookup_drop. Qed.

Lemma quadAt_prefix (a b : list float) (n i : nat) :
  i < n → take (n * 12) a = take (n * 12) b → quadAt a i = quadAt b i.
Proof.
  intros Hi Hab. apply list_eq. intros t.
  destruct (Nat.lt_ge_cases t 12) as [Ht|Ht].
  - rewrite !quadAt_lookup by done.
    rewrite <- (lookup_take_lt a (n * 12)), <- (lookup_take_lt b (n * 12)) by lia.
    by rewrite Hab.
  - unfold quadAt. by rewrite !lookup_take_ge.
Qed.

Lemma callsTo_snoc sn calls c :
  callsTo sn (calls ++ [c])
  = callsTo sn calls ++ (if (c_setNumber c =? sn)%Z then [c] else []).
Proof. unfold callsTo. rewrite List.filter_app. simpl. by destruct (_ =? _)%Z. Qed.

Lemma setOf_clear rectData sn :
  count (setOf (List.map (fun kv => (fst kv, clearRectSet (snd kv))) rectData) sn) = 0.
Proof.
  unfold setOf. rewrite Obj_get_map. by destruct (Obj.get sn rectData).
Qed.

Lemma holdsCalls_clear this : holdsCalls (_rectData (clear this)) [].
Proof.
  intros sn d. subst d. split; [|done].
  unfold clear; cbn [_rectData]. apply setOf_clear.
Qed.

Lemma holdsCalls_addCall this calls c :
  wfLayer this → holdsCalls (_rectData this) calls →
  holdsCalls (_rectData (addCall this c)) (calls ++ [c]).
Proof.
  intros Hwf Hold sn d. subst d. unfold addCall.
  destruct (Hold sn) as [Hcnt Hrect]. rewrite callsTo_snoc, length_app.
  destruct (Z.eqb_spec (c_setNumber c) sn) as [<-|Hne].
  - unfold setOf in *. rewrite addRect_get_eq.
    match goal with |- context [default noRectSet (Some ?x)] =>
      change (default noRectSet (Some x)) with x end.
    change (_rectData (setCurrentDrawZ (c_drawZ c) this)) with (_rectData this).
    change (_currentDrawZ (setCurrentDrawZ (c_drawZ c) this)) with (c_drawZ c).
    set (d0 := default newRectSet (Obj.get (c_setNumber c) (_rectData this))).
    pose proof (wfLayer_default this (c_setNumber c) Hwf) as Hd0. fold d0 in Hd0.
    assert (Hsame : Obj.get (c_setNumber c) (_rectData this) = None
                    ∨ default noRectSet (Obj.get (c_setNumber c) (_rectData this)) = d0).
    { unfold d0. destruct (Obj.get _ _); [by right | by left]. }
    assert (Hcnt0 : count d0 = length (callsTo (c_setNumber c) calls)).
    { rewrite <- Hcnt. unfold d0. by destruct (Obj.get _ _). }
    clearbody d0.
    destruct (addedTo_spec d0 (c_u c) (c_v c) (c_x c) (c_y c) (c_w c) (c_h c)
                (c_animX c) (c_animY c) (c_kind c) (c_drawZ c) Hd0)
      as (Hq & Hquv & Hpre & Hpreuv).
    destruct (grow_spec d0 Hd0) as (_ & _ & _ & _ & _ & _ & _ & _ & Han & Hkd & Hdz).
    destruct Hd0 as [_ _ _ _ Hla Hlk Hlz].
    split; [cbn [count addedTo length]; lia|].
    intros i c' Hi.
    destruct (Nat.lt_ge_cases i (length (callsTo (c_setNumber c) calls))) as [Hlt|Hge].
    + rewrite lookup_app_l in Hi by done.
      assert (Hd : default noRectSet (Obj.get (c_setNumber c) (_rectData this)) = d0).
      { destruct Hsame as [Hnone|Hs]; [|done]. rewrite Hnone in Hcnt. simpl in Hcnt. lia. }
      rewrite Hd in Hrect. destruct (Hrect i c' Hi) as (H1 & H2 & H3 & H4 & H5 & H6).
      split; [rewrite (quadAt_prefix _ (positions d0) (count d0));
              [exact H1 | lia | exact Hpre]|].
      split; [rewrite (quadAt_prefix _ (uvs d0) (count d0));
              [exact H2 | lia | exact Hpreuv]|].
      unfold addedTo; cbn [animData kindData drawZData]. rewrite Han, Hkd, Hdz.
      rewrite !lookup_app_l by lia. done.
    + rewrite lookup_app_r in Hi by done.
      destruct (i - length (callsTo (c_setNumber c) calls)) as [|n] eqn:En; [|done].
      simpl in Hi. injection Hi as <-.
      assert (i = count d0) as -> by lia.
      split; [exact Hq|]. split; [exact Hquv|].
      unfold addedTo; cbn [animData kindData drawZData]. rewrite Han, Hkd, Hdz.
      rewrite !lookup_app_r by lia.
      replace (count d0 * 2 - length (animData d0)) with 0 by lia.
      replace (count d0 * 2 + 1 - length (animData d0)) with 1 by lia.
      replace (count d0 - length (kindData d0)) with 0 by lia.
      replace (count d0 - length (drawZData d0)) with 0 by lia.
      done.
  - unfold setOf in *. rewrite addRect_get_ne by done.
    change (_rectData (setCurrentDrawZ (c_drawZ c) this)) with (_rectData this).
    simpl length. rewrite Nat.add_0_r, app_nil_r. by split.
Qed.

Lemma addCall_wf this c : wfLayer this → wfLayer (addCall this c).
Proof. intros H. unfold addCall. by apply addRect_wf. Qed.

Lemma addCalls_holds calls this :
  wfLayer this → holdsCalls (_rectData this) [] →
  wfLayer (addCalls calls this) ∧ holdsCalls (_rectData (addCalls calls this)) calls.
Proof.
  intros Hwf H0. induction calls as [|c calls IH] using rev_ind.
  - done.
  - destruct IH as [IHwf IHh]. unfold addCalls in *. rewrite foldl_app. cbn [foldl].
    split; [by apply addCall_wf | by apply holdsCalls_addCall].
Qed.

Lemma addCalls_dirty calls this :
  _needsRebuild this = true → _needsRebuild (addCalls calls this) = true.
Proof.
  intros H. induction calls as [|c calls IH] using rev_ind; [done|].
  unfold addCalls. by rewrite foldl_app.
Qed.

Lemma take_drop_flat_map_blocks {A B} (k : nat) (f : A → list B) (items : list A)
    (ri : nat) (x : A) :
  (∀ x, length (f x) = k) → items !! ri = Some x →
  take k (drop (ri * k) (flat_map f items)) = f x.
Proof.
  intros Hk. revert ri. induction items as [|y items IH]; intros ri Hri; [done|].
  destruct ri as [|ri]; simpl in Hri.
  - injection Hri as ->. cbn [flat_map Nat.mul]. rewrite drop_0.
    by rewrite take_app_length' by (by rewrite Hk).
  - cbn [flat_map]. replace (S ri * k) with (length (f y) + ri * k) by (rewrite Hk; lia).
    rewrite drop_app_add. by apply IH.
Qed.

Lemma flat_map_seq_lookup {A B} (g : nat → list B) (h : A → list B) (cs : list A) :
  (∀ i c, cs !! i = Some c → g i = h c) →
  flat_map g (seq 0 (length cs)) = flat_map h cs.
Proof.
  induction cs as [|c cs IH] using rev_ind; intros H; [done|].
  rewrite length_app. simpl. rewrite Nat.add_1_r, seq_S, !flat_map_app. simpl.
  rewrite !app_nil_r. f_equal.
  - apply IH. intros i c' Hi. apply H. by apply lookup_app_l_Some.
  - apply H. rewrite lookup_app_r by lia. by rewrite Nat.sub_diag.
Qed.

Lemma flat_map_ext_In {A B} (f g : A → list B) (l : list A) :
  (∀ x, In x l → f x = g x) → flat_map f l = flat_map g l.
Proof.
  induction l as [|x l IH]; intros H; simpl; [done|].
  rewrite H by (by left). f_equal. apply IH. intros y Hy. apply H. by right.
Qed.

Lemma posBlock_quadAt data i z :
  posBlock data i z = vertices3 (quadAt (positions data) i) z.
Proof.
  unfold posBlock, vertices3, F32.load.
  apply flat_map_ext_In. intros j Hj. apply in_seq in Hj.
  rewrite !quadAt_lookup by lia. by rewrite Nat.add_assoc.
Qed.

Lemma shadowPositions_spec env data :
  shadowPositions env data
  = flat_map (fun i => List.map Num.fround
                (posBlock data i (zOffset (elevation2D env) (drawZOf data i))))
      (seq 0 (count data)).
Proof.
  unfold shadowPositions. apply stores_perRect; [intros; apply posBlock_length|].
  rewrite make_length, length_seq. lia.
Qed.

(** What the rect sets say about the [i]-th call for a set. *)
Lemma holdsCalls_rect env rectData calls sn i c z :
  holdsCalls rectData calls → callsTo sn calls !! i = Some c →
  let d := setOf rectData sn in
  c_setNumber c = sn
  ∧ i < count d
  ∧ drawZOf d i = c_drawZ c
  ∧ isWaterClassified env sn d i = callIsWater env c
  ∧ posBlock d i z
    = vertices3 (List.map Num.fround (quad (c_x c) (c_y c) (c_w c) (c_h c))) z.
Proof.
  intros Hold Hi d. destruct (Hold sn) as [Hcnt Hrect]. fold d in Hcnt, Hrect.
  destruct (Hrect i c Hi) as (Hq & _ & Hax & Hay & Hk & Hz).
  assert (Hsn : c_setNumber c = sn).
  { apply list_elem_of_lookup_2, list_elem_of_In, filter_In in Hi as [_ Hi].
    by apply Z.eqb_eq. }
  split; [done|]. split; [rewrite Hcnt; by apply lookup_lt_Some in Hi|].
  split; [unfold drawZOf; by rewrite Hz|].
  split.
  - unfold isWaterClassified, callIsWater, waterTest, animXOf, animYOf, kindOf.
    rewrite Hsn, Hax, Hay, Hk, !orZero_idem. done.
  - by rewrite posBlock_quadAt, Hq.
Qed.

Lemma holdsCalls_In_flatRects env rectData calls r :
  NoDup (List.map fst rectData) → holdsCalls rectData calls →
  In r (flatRects env rectData) ↔
  ∃ c, callsTo (r_setNumber r) calls !! r_index r = Some c
    ∧ r_setNumber r ≠ (-1)%Z ∧ callIsWater env c = false ∧ r_drawZ r = c_drawZ c.
Proof.
  intros Hnd Hold. rewrite In_flatRects by done. split.
  - intros (data & Hget & Hne & Hi & Hw & Hz).
    assert (Hd : setOf rectData (r_setNumber r) = data) by (unfold setOf; by rewrite Hget).
    destruct (Hold (r_setNumber r)) as [Hcnt _]. rewrite Hd in Hcnt.
    destruct (lookup_lt_is_Some_2 (callsTo (r_setNumber r) calls) (r_index r)) as [c Hc];
      [lia|].
    exists c. split; [done|]. split; [done|].
    destruct (holdsCalls_rect env rectData calls _ _ c 0%float Hold Hc)
      as (_ & _ & Hdz & Hcw & _).
    rewrite Hd in Hdz, Hcw. split; congruence.
  - intros (c & Hc & Hne & Hw & Hz).
    destruct (holdsCalls_rect env rectData calls _ _ c 0%float Hold Hc)
      as (_ & Hi & Hdz & Hcw & _).
    unfold setOf in *.
    destruct (Obj.get (r_setNumber r) rectData) as [data|] eqn:Hget;
      [|simpl in Hi; lia].
    exists data. simpl in *. split; [done|]. split; [done|]. split; [done|].
    split; congruence.
Qed.

Lemma rebuild_unifiedMesh_empty env this :
  sortByDrawZ (flatRects env (_rectData this)) = [] →
  u_visible <$> _unifiedMesh (rebuild env this) ≠ Some true.
Proof.
  intros Hnil.
  pose proof (rebuild_unified env this) as H. unfold unified in H.
  apply (f_equal fst) in H. cbn [fst] in H. rewrite H.
  rewrite classified_allRects. cbn [hidden _rectData]. rewrite Hnil.
  rewrite buildUnifiedMesh_empty.
  by destruct (_unifiedMesh (c_this (classified env (hidden this)))).
Qed.

(** The unified and the shadow batch of a flush after calls of [addRect]:
    the unified batch holds, once each and tagged
    [{setNumber, index, drawZ}], exactly the added rects that are neither of
    set -1 nor water-classified; its mesh holds their quads; the shadow
    batch holds exactly the quads of the rects of set -1, in call order; an
    empty batch is not visible. *)
Lemma flush_unified_and_shadow (env : Env) (this0 : Layer) (calls : list Call) :
  wfLayer this0 →
  let this' := _flush env (addCalls calls (clear this0)) in
  let quadOf c :=
    List.map Num.fround
      (vertices3 (List.map Num.fround (quad (c_x c) (c_y c) (c_w c) (c_h c)))
         (zOffset (elevation2D env) (c_drawZ c))) in
  ∃ rects,
    _unifiedRects this' = Some rects
    ∧ NoDup rects
    ∧ (∀ r, In r rects ↔
         ∃ c, callsTo (r_setNumber r) calls !! r_index r = Some c
           ∧ r_setNumber r ≠ (-1)%Z ∧ callIsWater env c = false
           ∧ r_drawZ r = c_drawZ c)
    ∧ (∀ c, callIsWater env c = true → c_setNumber c = 0%Z)
    ∧ (rects = [] → u_visible <$> _unifiedMesh this' ≠ Some true)
    ∧ (rects ≠ [] →
         ∃ m, _unifiedMesh this' = Some m ∧ u_visible m = true
           ∧ length (u_position m) = length rects * 18
           ∧ ∀ ri r c, rects !! ri = Some r →
               callsTo (r_setNumber r) calls !! r_index r = Some c →
               take 18 (drop (ri * 18) (u_position m)) = quadOf c)
    ∧ (callsTo (-1) calls = [] →
         visible <$> mesh_get ShadowKey (_meshes this') ≠ Some true)
    ∧ (callsTo (-1) calls ≠ [] →
         ∃ m, mesh_get ShadowKey (_meshes this') = Some m ∧ visible m = true
           ∧ position m = flat_map quadOf (callsTo (-1) calls)).
Proof.
  intros Hwf0 this' quadOf.
  set (this := addCalls calls (clear this0)) in *.
  destruct (addCalls_holds calls (clear this0) (clear_wf _ Hwf0) (holdsCalls_clear this0))
    as [Hwf Hold]. fold this in Hwf, Hold.
  assert (Hdirty : _needsRebuild this = true) by (by apply addCalls_dirty).
  assert (Hnd : NoDup (List.map fst (_rectData this)))
    by (apply Obj_ordered_NoDup, Hwf).
  set (rd := _rectData this) in *.
  assert (Hflush : this' = rebuild env (fst (_ensureArrayTexture this)))
    by (by apply flush_dirty).
  exists (sortByDrawZ (flatRects env rd)).
  split; [by apply flush_dirty_unifiedRects|].
  split; [rewrite <- sortByDrawZ_perm; by apply NoDup_flatRects|].
  split.
  { intros r. rewrite <- (holdsCalls_In_flatRects env rd calls r Hnd Hold).
    split; apply Permutation_in; [symmetry|]; apply sortByDrawZ_perm. }
  split.
  { intros c Hc. unfold callIsWater in Hc. apply andb_true_iff in Hc as [Hc _].
    by apply Z.eqb_eq. }
  split.
  { intros Hnil. rewrite Hflush. by apply rebuild_unifiedMesh_empty. }
  split.
  { intros Hne. eexists. split; [by apply flush_dirty_unifiedMesh|].
    unfold unifiedMeshOf; cbn [u_visible u_position]. split; [done|].
    split; [apply flat_map_length_blocks; intros; by rewrite length_map|].
    intros ri r c Hri Hc.
    rewrite (take_drop_flat_map_blocks 18 _ _ ri r)
      by (done || intros; by rewrite length_map).
    destruct (holdsCalls_rect env rd calls _ _ c
                (zOffset (elevation2D env) (c_drawZ c)) Hold Hc)
      as (_ & _ & Hdz & _ & Hpos).
    fold rd. rewrite Hdz. unfold quadOf. by rewrite Hpos. }
  pose proof (rebuild_shadow env (fst (_ensureArrayTexture this)) Hnd) as Hsh.
  change (_rectData (fst (_ensureArrayTexture this))) with rd in Hsh.
  change (_meshes (fst (_ensureArrayTexture this))) with (_meshes this) in Hsh.
  rewrite <- Hflush in Hsh.
  destruct (Hold (-1)%Z) as [Hcnt Hrect]. fold rd in Hcnt, Hrect.
  unfold setOf in Hcnt, Hrect.
  split.
  - intros Hnil. rewrite Hnil in Hcnt. simpl in Hcnt.
    destruct (Obj.get (-1)%Z rd) as [data|]; simpl in Hcnt.
    + rewrite Hcnt in Hsh. simpl in Hsh. rewrite Hsh.
      by destruct (mesh_get ShadowKey (_meshes this)).
    + rewrite Hsh. by destruct (mesh_get ShadowKey (_meshes this)).
  - intros Hne.
    assert (Hlen : 0 < length (callsTo (-1) calls))
      by (destruct (callsTo (-1) calls); [done | simpl; lia]).
    destruct (Obj.get (-1)%Z rd) as [data|] eqn:Hget; simpl in Hcnt; [|lia].
    destruct (Nat.eqb_spec (count data) 0) as [H0|_]; [lia|].
    destruct Hsh as (m & Hm & Hp & Hv). exists m. split; [done|]. split; [done|].
    rewrite Hp, shadowPositions_spec, Hcnt.
    apply flat_map_seq_lookup. intros i c Hc.
    destruct (holdsCalls_rect env rd calls _ _ c
                (zOffset (elevation2D env) (c_drawZ c)) Hold Hc)
      as (_ & _ & Hdz & _ & Hpos).
    unfold setOf in Hdz, Hpos. rewrite Hget in Hdz, Hpos. simpl in Hdz, Hpos.
    rewrite Hdz. unfold quadOf. by rewrite Hpos.
Qed.

(** ** The fast path and the meshes of other keys *)

Lemma fastPathMeshes_other ws sn data ax ay tex ms k :
  hasWaterPrefix sn k = false →
  mesh_get k (fastPathMeshes ws sn data ax ay tex ms) = mesh_get k ms.
Proof.
  intros Hk. unfold mesh_get. revert tex.
  induction ms as [|[mkey wMesh] ms IH]; intros tex; [done|].
  cbn [fastPathMeshes]. destruct (hasWaterPrefix sn mkey) eqn:E.
  - cbn [List.find fst snd]. rewrite (MeshKey_eqb_ne k mkey) by congruence. apply IH.
  - cbn [List.find fst snd]. destruct (MeshKey_eqb k mkey); [done | apply IH].
Qed.

Lemma fastPathSet_other env ax ay ms entry k :
  hasWaterPrefix 0 k = false →
  mesh_get k (fastPathSet env ax ay ms entry) = mesh_get k ms.
Proof.
  intros Hk. unfold fastPathSet.
  destruct (Z.eqb_spec (fst entry) 0) as [H0|_]; [|done]. cbn [negb].
  destruct (waterShader env); [|done].
  destruct (count (snd entry) =? 0); [done|].
  destruct (negb _); [done|].
  apply fastPathMeshes_other. by rewrite H0.
Qed.

Lemma updateAnimUVs_meshes_other env ax ay this k :
  hasWaterPrefix 0 k = false →
  mesh_get k (_meshes (_updateAnimUVs env ax ay this)) = mesh_get k (_meshes this).
Proof.
  intros Hk. unfold _updateAnimUVs. cbn [_meshes].
  apply (foldl_preserves _ (mesh_get k)). intros. by apply fastPathSet_other.
Qed.

Lemma flush_meshes_other env this k :
  k ≠ ShadowKey → hasWaterPrefix 0 k = false →
  mesh_get k (_meshes this) = None → mesh_get k (_meshes (_flush env this)) = None.
Proof.
  intros Hs Hk Hnone. unfold _flush.
  destruct (negb _ && _).
  - by rewrite updateAnimUVs_meshes_other.
  - destruct (negb _); [done|].
    rewrite rebuild_meshes_other by done.
    change (_meshes (fst (_ensureArrayTexture this))) with (_meshes this).
    by rewrite Hnone.
Qed.

(** No state the operations reach has a water mesh for a set other than 0. *)
Lemma reachable_water_keys this sn wf k :
  reachable this → sn ≠ 0%Z → mesh_get (WaterKey sn wf k) (_meshes this) = None.
Proof.
  intros Hr Hsn. induction Hr as [|op this Hr IH]; [done|].
  destruct op; try exact IH.
  cbn [run]. apply flush_meshes_other; [done | | exact IH].
  cbn. by apply Z.eqb_neq.
Qed.

(** C10. Only rects of set 0 are ever tested for water.  A rect of another
    tileset (1..8, indeed any set but 0 and -1) goes to the unified batch of
    a rebuild whatever its signature and kind; no reachable state, before or
    after [flush], has a water mesh for such a set; and the fast path leaves
    every mesh alone that is not a water mesh of set 0. *)
Theorem water_only_for_set_zero (env : Env) (this : Layer) (sn : Z) :
  reachable this → sn ≠ 0%Z →
  (∀ data ci, isWaterClassified env sn data ci = false)
  ∧ (_needsRebuild this = true → sn ≠ (-1)%Z →
     ∀ data i, Obj.get sn (_rectData this) = Some data → i < count data →
       ∃ rects, _unifiedRects (_flush env this) = Some rects
                ∧ In (mkUnifiedRect sn i (drawZOf data i)) rects)
  ∧ (∀ wf k, mesh_get (WaterKey sn wf k) (_meshes this) = None
             ∧ mesh_get (WaterKey sn wf k) (_meshes (_flush env this)) = None)
  ∧ (∀ ax ay key, hasWaterPrefix 0 key = false →
       mesh_get key (_meshes (_updateAnimUVs env ax ay this)) = mesh_get key (_meshes this)).
Proof.
  intros Hr Hsn. split; [intros; by apply isWaterClassified_other|].
  split.
  - intros Hdirty Hns data i Hget Hi. eexists.
    split; [by apply flush_dirty_unifiedRects|].
    apply (Permutation_in _ (sortByDrawZ_perm _)).
    apply In_flatRects; [apply Obj_ordered_NoDup, (reachable_wf _ Hr)|].
    exists data. cbn. repeat split; try done. by apply isWaterClassified_other.
  - split.
    + intros wf k. split; [by apply reachable_water_keys|].
      apply (reachable_water_keys (run (OpFlush env) this)); [|done].
      by constructor.
    + intros ax ay key Hk. by apply updateAnimUVs_meshes_other.
Qed.

Lemma water_only_for_set_zero_witness :
  reachable waterSignedInSetOne ∧ 1%Z ≠ 0%Z
  ∧ (∀ data ci, isWaterClassified waterEnv 1 data ci = false)
  ∧ (∀ wf k, mesh_get (WaterKey 1 wf k) (_meshes (_flush waterEnv waterSignedInSetOne))
             = None).
Proof.
  assert (Hr : reachable waterSignedInSetOne)
    by exact (reach_run (OpAddRect 1 0 0 0 0 32 32 (Some 1%float) None None) init
                reach_init).
  assert (Hne : 1%Z ≠ 0%Z) by discriminate.
  destruct (water_only_for_set_zero waterEnv waterSignedInSetOne 1 Hr Hne)
    as (H1 & _ & H3 & _).
  split; [exact Hr|]. split; [exact Hne|]. split; [exact H1|].
  intros wf k. exact (proj2 (H3 wf k)).
Defined.

(** ** Order of numbers *)

Lemma SFltb_irrefl f : SFltb f f = false.
Proof.
  unfold SFltb, SFcompare. destruct f as [s|s| |s m e]; try done.
  - by destruct s.
  - destruct s; rewrite Z.compare_refl; fold (Pos.compare m m);
      by rewrite Pos.compare_refl.
Qed.

Lemma SFltb_trans f1 f2 f3 :
  SFltb f1 f2 = true → SFltb f2 f3 = true → SFltb f1 f3 = true.
Proof.
  unfold SFltb, SFcompare.
  destruct f1 as [s1|s1| |s1 m1 e1], f2 as [s2|s2| |s2 m2 e2], f3 as [s3|s3| |s3 m3 e3];
    try done; try (by destruct s1, s2, s3).
  destruct s1, s2, s3; try done;
    fold (Pos.compare m1 m2); fold (Pos.compare m2 m3); fold (Pos.compare m1 m3);
    destruct (Z.compare_spec e1 e2), (Z.compare_spec e2 e3), (Z.compare_spec e1 e3);
    try done; try lia;
    destruct (Pos.compare_spec m1 m2), (Pos.compare_spec m2 m3), (Pos.compare_spec m1 m3);
    try done; try lia.
Qed.

Lemma ltb_irrefl (x : float) : (x <? x)%float = false.
Proof. rewrite ltb_spec. apply SFltb_irrefl. Qed.

Lemma ltb_trans (x y z : float) :
  (x <? y)%float = true → (y <? z)%float = true → (x <? z)%float = true.
Proof. rewrite !ltb_spec. apply SFltb_trans. Qed.

Lemma scanMin_spec (l : list float) (m : float) :
  (scanMin m l = m ∨ (scanMin m l <? m)%float = true)
  ∧ (∀ x, In x l → (x <? scanMin m l)%float = false)
  ∧ (scanMin m l = m ∨ In (scanMin m l) l).
Proof.
  unfold scanMin. revert m. induction l as [|x l IH]; intros m; cbn [foldl].
  - split; [by left|]. split; [intros x []|by left].
  - destruct (IH (if (x <? m)%float then x else m)) as (Hle & Hlow & Hin).
    set (r := foldl _ _ l) in *. clearbody r.
    destruct (x <? m)%float eqn:Exm.
    + split; [|split].
      * right. destruct Hle as [->|Hle]; [done|]. by apply (ltb_trans r x m).
      * intros y [<-|Hy]; [|by apply Hlow].
        destruct Hle as [->|Hle]; [apply ltb_irrefl|].
        destruct (x <? r)%float eqn:E; [|done].
        pose proof (ltb_trans x r x E Hle) as H. by rewrite ltb_irrefl in H.
      * right. destruct Hin as [->|Hin]; [by left | by right].
    + split; [done|]. split.
      * intros y [<-|Hy]; [|by apply Hlow].
        destruct (x <? r)%float eqn:E; [|done].
        destruct Hle as [->|Hle]; [congruence|].
        pose proof (ltb_trans x r m E Hle). congruence.
      * destruct Hin as [->|Hin]; [by left | right; by right].
Qed.

Lemma scanMax_spec (l : list float) (m : float) :
  (scanMax m l = m ∨ (m <? scanMax m l)%float = true)
  ∧ (∀ x, In x l → (scanMax m l <? x)%float = false)
  ∧ (scanMax m l = m ∨ In (scanMax m l) l).
Proof.
  unfold scanMax. revert m. induction l as [|x l IH]; intros m; cbn [foldl].
  - split; [by left|]. split; [intros x []|by left].
  - destruct (IH (if (m <? x)%float then x else m)) as (Hle & Hlow & Hin).
    set (r := foldl _ _ l) in *. clearbody r.
    destruct (m <? x)%float eqn:Exm.
    + split; [|split].
      * right. destruct Hle as [->|Hle]; [done|]. by apply (ltb_trans m x r).
      * intros y [<-|Hy]; [|by apply Hlow].
        destruct Hle as [->|Hle]; [apply ltb_irrefl|].
        destruct (r <? x)%float eqn:E; [|done].
        pose proof (ltb_trans x r x Hle E) as H. by rewrite ltb_irrefl in H.
      * right. destruct Hin as [->|Hin]; [by left | by right].
    + split; [done|]. split.
      * intros y [<-|Hy]; [|by apply Hlow].
        destruct (r <? x)%float eqn:E; [|done].
        destruct Hle as [->|Hle]; [congruence|].
        pose proof (ltb_trans m r x Hle E). congruence.
      * destruct Hin as [->|Hin]; [by left | right; by right].
Qed.

(** The four bounds of the loop are the four scans. *)
Lemma foldl_boundsStep (ps : list (float * float)) (b : Bounds) :
  foldl boundsStep b ps
  = mkBounds (scanMin (uMin b) (List.map fst ps)) (scanMax (uMax b) (List.map fst ps))
      (scanMin (vMin b) (List.map snd ps)) (scanMax (vMax b) (List.map snd ps)).
Proof.
  unfold scanMin, scanMax. revert b. induction ps as [|p ps IH]; intros b; cbn [foldl List.map].
  - by destruct b.
  - by rewrite IH.
Qed.

Lemma rawBounds_scans ps :
  rawBounds ps
  = mkBounds (scanMin infinity (List.map fst ps)) (scanMax neg_infinity (List.map fst ps))
      (scanMin infinity (List.map snd ps)) (scanMax neg_infinity (List.map snd ps)).
Proof. unfold rawBounds. by rewrite foldl_boundsStep. Qed.

(** The raw bounds are the least and greatest U and V of the vertices:
    no vertex lies outside them, and each is the coordinate of a vertex
    (or the start value of the loop, when no vertex compares below or above
    it). *)
Lemma rawBounds_spec (ps : list (float * float)) :
  let b := rawBounds ps in
  (∀ p, In p ps →
     (fst p <? uMin b)%float = false ∧ (uMax b <? fst p)%float = false
     ∧ (snd p <? vMin b)%float = false ∧ (vMax b <? snd p)%float = false)
  ∧ (uMin b = infinity ∨ ∃ p, In p ps ∧ fst p = uMin b)
  ∧ (uMax b = neg_infinity ∨ ∃ p, In p ps ∧ fst p = uMax b)
  ∧ (vMin b = infinity ∨ ∃ p, In p ps ∧ snd p = vMin b)
  ∧ (vMax b = neg_infinity ∨ ∃ p, In p ps ∧ snd p = vMax b).
Proof.
  intros b. subst b. rewrite rawBounds_scans. cbn [uMin uMax vMin vMax].
  destruct (scanMin_spec (List.map fst ps) infinity) as (_ & H1 & H1').
  destruct (scanMax_spec (List.map fst ps) neg_infinity) as (_ & H2 & H2').
  destruct (scanMin_spec (List.map snd ps) infinity) as (_ & H3 & H3').
  destruct (scanMax_spec (List.map snd ps) neg_infinity) as (_ & H4 & H4').
  split.
  { intros p Hp. repeat split.
    - apply H1, in_map_iff. by exists p.
    - apply H2, in_map_iff. by exists p.
    - apply H3, in_map_iff. by exists p.
    - apply H4, in_map_iff. by exists p. }
  repeat split.
  - destruct H1' as [?|H]; [by left|]. right.
    apply in_map_iff in H as (p & ? & ?). by exists p.
  - destruct H2' as [?|H]; [by left|]. right.
    apply in_map_iff in H as (p & ? & ?). by exists p.
  - destruct H3' as [?|H]; [by left|]. right.
    apply in_map_iff in H as (p & ? & ?). by exists p.
  - destruct H4' as [?|H]; [by left|]. right.
    apply in_map_iff in H as (p & ? & ?). by exists p.
Qed.

(** ** Water bounds *)

Lemma waterBoundsBlock_length data i tw th ax ay :
  length (waterBoundsBlock data i tw th ax ay) = 24.
Proof. reflexivity. Qed.

Lemma waterUvBlock_length data i tw th ax ay :
  length (waterUvBlock data i tw th ax ay) = 12.
Proof. reflexivity. Qed.

Lemma boundsBlock_lookup (b : Bounds) (j : nat) :
  j < 6 →
  List.map Num.fround (boundsBlock b) !! (j * 4) = Some (Num.fround (uMin b))
  ∧ List.map Num.fround (boundsBlock b) !! (j * 4 + 1) = Some (Num.fround (vMin b))
  ∧ List.map Num.fround (boundsBlock b) !! (j * 4 + 2) = Some (Num.fround (uMax b))
  ∧ List.map Num.fround (boundsBlock b) !! (j * 4 + 3) = Some (Num.fround (vMax b)).
Proof.
  intros Hj. destruct j as [|[|[|[|[|[|j]]]]]]; try lia; repeat split; reflexivity.
Qed.

Lemma buildWaterTypeMesh_mesh env sn key idx data tex tw th ax ay wf ks this :
  ∃ m, mesh_get key (_meshes (_buildWaterTypeMesh env sn key idx data tex tw th ax ay
                                wf ks this)) = Some m
    ∧ visible m = true
    ∧ uv m = Some (flat_map (fun i => List.map Num.fround
                                        (waterUvBlock data i tw th ax ay)) idx)
    ∧ aUvBounds m = Some (flat_map (fun i => List.map Num.fround
                                               (waterBoundsBlock data i tw th ax ay)) idx)
    ∧ isWaterfall m = wf ∧ a1Kinds m = ks ∧ material_map m = Some tex.
Proof.
  unfold _buildWaterTypeMesh. cbn [_meshes]. rewrite mesh_get_set_eq.
  eexists. split; [reflexivity|]. cbn [visible uv aUvBounds isWaterfall a1Kinds material_map].
  split; [done|]. split; [|split; [|done]].
  - f_equal. apply stores_perRect; [intros; apply waterUvBlock_length|].
    rewrite make_length. lia.
  - f_equal. apply stores_perRect; [intros; apply waterBoundsBlock_length|].
    rewrite make_length. lia.
Qed.

(** C7. In a water mesh as built, the UV-bounds box uploaded with each of
    the six vertices of a quad is the raw box of the quad's six flipped
    (bottom-origin) UVs, its two lower bounds raised and its two upper bounds
    lowered by half a texel ([0.5 / texW], [0.5 / texH]); the raw box is the
    minimum and maximum of those UVs. *)
Theorem water_bounds_inset (env : Env) (sn : Z) (key : MeshKey) (indices : list nat)
    (data : RectSet) (tex : Texture) (texW texH ax ay : float) (wf : bool)
    (ks : list Z) (this : Layer) (ni i j : nat) :
  indices !! ni = Some i → j < 6 →
  let this' := _buildWaterTypeMesh env sn key indices data tex texW texH ax ay wf ks this in
  let flipped :=
    List.map (fun j => (((F32.load (uvs data) (i * 12 + j * 2) + animXOf data i * ax)
                         / texW)%float,
                        (1 - (F32.load (uvs data) (i * 12 + j * 2 + 1)
                              + animYOf data i * ay) / texH)%float))
      (seq 0 6) in
  let raw := rawBounds flipped in
  ∃ m b, mesh_get key (_meshes this') = Some m ∧ aUvBounds m = Some b
    ∧ b !! (ni * 24 + j * 4) = Some (Num.fround (uMin raw + 0.5 / texW))
    ∧ b !! (ni * 24 + j * 4 + 1) = Some (Num.fround (vMin raw + 0.5 / texH))
    ∧ b !! (ni * 24 + j * 4 + 2) = Some (Num.fround (uMax raw - 0.5 / texW))
    ∧ b !! (ni * 24 + j * 4 + 3) = Some (Num.fround (vMax raw - 0.5 / texH))
    ∧ (∀ p, In p flipped →
         (fst p <? uMin raw)%float = false ∧ (uMax raw <? fst p)%float = false
         ∧ (snd p <? vMin raw)%float = false ∧ (vMax raw <? snd p)%float = false)
    ∧ (uMin raw = infinity ∨ ∃ p, In p flipped ∧ fst p = uMin raw)
    ∧ (uMax raw = neg_infinity ∨ ∃ p, In p flipped ∧ fst p = uMax raw)
    ∧ (vMin raw = infinity ∨ ∃ p, In p flipped ∧ snd p = vMin raw)
    ∧ (vMax raw = neg_infinity ∨ ∃ p, In p flipped ∧ snd p = vMax raw).
Proof.
  intros Hni Hj this' flipped raw.
  destruct (buildWaterTypeMesh_mesh env sn key indices data tex texW texH ax ay wf ks this)
    as (m & Hm & _ & _ & Hb & _).
  exists m, (flat_map (fun i => List.map Num.fround
                                  (waterBoundsBlock data i texW texH ax ay)) indices).
  split; [exact Hm|]. split; [exact Hb|].
  rewrite <- !(Nat.add_assoc (ni * 24)).
  rewrite !(lookup_flat_map_blocks 24 _ _ ni _ i)
    by (try done; try lia; intros; by rewrite length_map).
  change (waterUVs data i texW texH ax ay) with flipped.
  unfold waterBoundsBlock. change (waterUVs data i texW texH ax ay) with flipped.
  fold raw.
  destruct (boundsBlock_lookup (insetBounds texW texH raw) j Hj) as (H0 & H1 & H2 & H3).
  split; [exact H0|]. split; [exact H1|]. split; [exact H2|]. split; [exact H3|].
  apply rawBounds_spec.
Qed.

Lemma water_bounds_inset_witness :
  [0] !! 0 = Some 0 ∧ 0 < 6
  ∧ ∃ m b, mesh_get (WaterKey 0 false 3)
             (_meshes (_buildWaterTypeMesh waterEnv 0 (WaterKey 0 false 3) [0]
                         (setOf (_rectData twoWaterRects) 0) sampleTexture 64 64 0 0
                         false [3%Z] twoWaterRects)) = Some m
      ∧ aUvBounds m = Some b
      ∧ b !! 0 = Some 0.0078125%float
      ∧ b !! 1 = Some 0.5078125%float
      ∧ b !! 2 = Some 0.4921875%float
      ∧ b !! 3 = Some 0.9921875%float.
Proof.
  assert (H1 : [0] !! 0 = Some 0) by reflexivity.
  assert (H2 : 0 < 6) by lia.
  split; [exact H1|]. split; [exact H2|].
  destruct (water_bounds_inset waterEnv 0 (WaterKey 0 false 3) [0]
              (setOf (_rectData twoWaterRects) 0) sampleTexture 64 64 0 0
              false [3%Z] twoWaterRects 0 0 0 H1 H2)
    as (m & b & Hm & Hb & B0 & B1 & B2 & B3 & _).
  cbn [Nat.mul Nat.add] in B0, B1, B2, B3.
  exists m, b. split; [exact Hm|]. split; [exact Hb|].
  split; [rewrite B0; vm_compute; reflexivity|].
  split; [rewrite B1; vm_compute; reflexivity|].
  split; [rewrite B2; vm_compute; reflexivity|].
  rewrite B3; vm_compute; reflexivity.
Defined.

(** ** A second flush *)

Lemma flush_clean env this :
  _needsRebuild this = false → animChanged this = false →
  _flush env this = fst (_ensureArrayTexture this).
Proof.
  intros Hn Ha. unfold _flush.
  change (_needsRebuild (fst (_ensureArrayTexture this))) with (_needsRebuild this).
  fold (animChanged this). by rewrite Hn, Ha.
Qed.

Lemma flush_tileAnim env this :
  _tileAnimX (_flush env this) = _tileAnimX this
  ∧ _tileAnimY (_flush env this) = _tileAnimY this.
Proof.
  pose proof (flush_accumulated env this) as H. unfold accumulated in H. by inversion H.
Qed.

(** After a flush the layer is clean, and the phase of the last build is the
    current one unless the flush had nothing to do. *)
Lemma flush_marks env this :
  _needsRebuild (_flush env this) = false
  ∧ ((_lastTileAnimX (_flush env this) = _tileAnimX this
      ∧ _lastTileAnimY (_flush env this) = _tileAnimY this)
     ∨ (animChanged this = false
        ∧ _lastTileAnimX (_flush env this) = _lastTileAnimX this
        ∧ _lastTileAnimY (_flush env this) = _lastTileAnimY this)).
Proof.
  unfold _flush.
  change (_needsRebuild (fst (_ensureArrayTexture this))) with (_needsRebuild this).
  fold (animChanged this).
  destruct (_needsRebuild this) eqn:Hn; cbn [negb andb].
  - destruct (rebuild_marks env (fst (_ensureArrayTexture this))) as (H1 & H2 & H3).
    split; [exact H1|]. left. split; [exact H2 | exact H3].
  - destruct (animChanged this) eqn:Ha.
    + split; [exact Hn|]. left. split; reflexivity.
    + split; [exact Hn|]. right. split; [done|]. split; reflexivity.
Qed.

(** X24. A second flush away from NaN.  When neither component of the
    animation phase is NaN, a second [flush] with no mutation in between
    leaves the rect buffers, every mesh with its attributes and visibility
    and the unified rect list exactly as the first left them: it does
    nothing beyond the texture scan. *)
Theorem second_flush_keeps_geometry (env : Env) (this : Layer) :
  (_tileAnimX this =? _tileAnimX this)%float = true →
  (_tileAnimY this =? _tileAnimY this)%float = true →
  geometry (_flush env (_flush env this)) = geometry (_flush env this)
  ∧ _flush env (_flush env this) = fst (_ensureArrayTexture (_flush env this)).
Proof.
  intros Hx Hy.
  destruct (flush_marks env this) as [Hn Hlast].
  destruct (flush_tileAnim env this) as [Htx Hty].
  assert (Ha : animChanged (_flush env this) = false).
  { unfold animChanged, Num.strict_ne. rewrite Htx, Hty.
    destruct Hlast as [[-> ->]|(Ha & -> & ->)].
    - by rewrite Hx, Hy.
    - exact Ha. }
  set (this1 := _flush env this) in *. clearbody this1.
  rewrite (flush_clean env this1 Hn Ha). split; reflexivity.
Qed.

Lemma second_flush_keeps_geometry_witness :
  (_tileAnimX twoWaterRects =? _tileAnimX twoWaterRects)%float = true
  ∧ (_tileAnimY twoWaterRects =? _tileAnimY twoWaterRects)%float = true
  ∧ geometry (_flush waterEnv (_flush waterEnv twoWaterRects))
    = geometry (_flush waterEnv twoWaterRects).
Proof.
  assert (Hx : (_tileAnimX twoWaterRects =? _tileAnimX twoWaterRects)%float = true)
    by reflexivity.
  assert (Hy : (_tileAnimY twoWaterRects =? _tileAnimY twoWaterRects)%float = true)
    by reflexivity.
  split; [exact Hx|]. split; [exact Hy|].
  exact (proj1 (second_flush_keeps_geometry waterEnv twoWaterRects Hx Hy)).
Defined.

Lemma float_neq_by_ltb (x y c : float) :
  (x <? c)%float = true → (y <? c)%float = false → x ≠ y.
Proof. intros Hx Hy ->. congruence. Qed.

Lemma geometry_firstU (key : MeshKey) (a b : Layer) :
  geometry a = geometry b → firstU key a = firstU key b.
Proof.
  intros H. unfold firstU.
  exact (f_equal (fun g => firstUOf key (snd (fst (fst g)))) H).
Qed.

(** C9. A second [flush] with no mutation in between can change built
    geometry.  At the phase (16, NaN) the layer sees the phase as moved at
    every flush ([NaN !== NaN]), so the second flush of the two water rects
    needs no rebuild and takes the fast path; the fast path writes the UVs
    of the rect of kind 3 into the water mesh of the rect without a kind
    (first U 0.25, where the first flush built 0.75).  A rebuild in the
    state the first flush left would leave all geometry as it is. *)
Theorem second_flush_changes_geometry_at_NaN :
  geometry (_flush waterEnv (_flush waterEnv twoWaterRectsNaN))
  ≠ geometry (_flush waterEnv twoWaterRectsNaN)
  ∧ _needsRebuild (_flush waterEnv twoWaterRectsNaN) = false
  ∧ animChanged (_flush waterEnv twoWaterRectsNaN) = true
  ∧ firstU (WaterKey 0 false (-1)) (_flush waterEnv twoWaterRectsNaN) = Some 0.75%float
  ∧ firstU (WaterKey 0 false (-1)) (_flush waterEnv (_flush waterEnv twoWaterRectsNaN))
    = Some 0.25%float
  ∧ uvOf (WaterKey 0 false (-1)) (_flush waterEnv (_flush waterEnv twoWaterRectsNaN))
    = uvOf (WaterKey 0 false 3) (_flush waterEnv twoWaterRectsNaN)
  ∧ geometry (rebuild waterEnv (_flush waterEnv twoWaterRectsNaN))
    = geometry (_flush waterEnv twoWaterRectsNaN).
Proof.
  assert (H1 : firstU (WaterKey 0 false (-1))
                 (_flush waterEnv (_flush waterEnv twoWaterRectsNaN)) = Some 0.25%float)
    by (vm_compute; reflexivity).
  assert (H2 : firstU (WaterKey 0 false (-1)) (_flush waterEnv twoWaterRectsNaN)
               = Some 0.75%float)
    by (vm_compute; reflexivity).
  split; [|split; [|split; [|split; [|split; [|split]]]]].
  - intros H.
    pose proof (geometry_firstU (WaterKey 0 false (-1)) _ _ H) as Heq.
    rewrite H1, H2 in Heq. apply (inj Some) in Heq.
    exact (float_neq_by_ltb 0.25 0.75 0.5 eq_refl eq_refl Heq).
  - vm_compute; reflexivity.
  - vm_compute; reflexivity.
  - exact H2.
  - exact H1.
  - vm_compute; reflexivity.
  - vm_compute; reflexivity.
Qed.

(** ** The fast path against a rebuild *)

Lemma rebuild_rectData env this : _rectData (rebuild env this) = _rectData this.
Proof.
  pose proof (rebuild_accumulated env this) as H. unfold accumulated in H. by inversion H.
Qed.

Lemma rebuild_unifiedMesh_nil env this :
  sortByDrawZ (flatRects env (_rectData this)) = [] →
  _unifiedMesh (rebuild env this) = hideUnified <$> (hideUnified <$> _unifiedMesh this).
Proof.
  intros Hnil.
  pose proof (rebuild_unified env this) as H. unfold unified in H.
  apply (f_equal fst) in H. cbn [fst] in H. rewrite H.
  rewrite classified_allRects. cbn [hidden _rectData]. rewrite Hnil.
  rewrite buildUnifiedMesh_empty.
  destruct (classified_frame env (hidden this)) as (_ & _ & Hu).
  unfold unified in Hu. apply (f_equal fst) in Hu. cbn [fst] in Hu.
  by rewrite Hu.
Qed.

(** On the unified mesh the fast path at a phase leaves what a rebuild at
    that phase builds: the same rects, the same attributes. *)
Lemma fast_path_unified_as_rebuild env this ax ay :
  unified (_updateAnimUVs env ax ay (rebuild env this))
  = unified (rebuild env (setAnimationOffset ax ay this)).
Proof.
  unfold unified.
  change (_unifiedRects (_updateAnimUVs env ax ay (rebuild env this)))
    with (_unifiedRects (rebuild env this)).
  change (_unifiedMesh (_updateAnimUVs env ax ay (rebuild env this)))
    with (fastPathUnified (rebuild env this) ax ay).
  rewrite !rebuild_unifiedRects.
  change (_rectData (setAnimationOffset ax ay this)) with (_rectData this).
  f_equal.
  unfold fastPathUnified, unifiedUvStores, rectSetOf.
  rewrite rebuild_unifiedRects, rebuild_rectData.
  destruct (sortByDrawZ (flatRects env (_rectData this))) as [|r rects] eqn:E.
  - rewrite !rebuild_unifiedMesh_nil by exact E.
    change (_unifiedMesh (setAnimationOffset ax ay this)) with (_unifiedMesh this).
    by destruct (_unifiedMesh this).
  - assert (Hne : sortByDrawZ (flatRects env (_rectData this)) ≠ []) by by rewrite E.
    rewrite (rebuild_unifiedMesh env this Hne).
    rewrite (rebuild_unifiedMesh env (setAnimationOffset ax ay this) Hne).
    change (_rectData (setAnimationOffset ax ay this)) with (_rectData this).
    change (_tileAnimX (setAnimationOffset ax ay this)) with ax.
    change (_tileAnimY (setAnimationOffset ax ay this)) with ay.
    rewrite E. unfold unifiedMeshOf. cbn [u_visible u_position u_normal u_uv
      u_aTextureLayer u_maxDrawZ].
    f_equal. f_equal.
    apply stores_perRect; [intros; apply unifiedUvBlock_length|].
    apply flat_map_length_blocks. intros. by rewrite length_map.
Qed.

(** The phase move leaves the accumulated geometry alone and takes the fast
    path. *)
Lemma fastWater_is_fast_path :
  _rectData (setAnimationOffset 16 0 builtWater) = _rectData builtWater
  ∧ _needsRebuild (setAnimationOffset 16 0 builtWater) = false
  ∧ animChanged (setAnimationOffset 16 0 builtWater) = true.
Proof. split; [reflexivity|]. split; vm_compute; reflexivity. Qed.

(** C2, at the two water rects. After the phase moves from (0, 0) to
    (16, 0) the fast path and a full rebuild agree on the mesh of kind 3,
    but the fast path writes the UVs and bounds of the rect of kind 3 into
    the mesh of the rect without a kind, where the rebuild has that rect's
    own. *)
Theorem fast_path_takes_foreign_rect :
  uvOf (WaterKey 0 false 3) fastWater = uvOf (WaterKey 0 false 3) fullWater
  ∧ uvOf (WaterKey 0 false (-1)) fastWater
    = Some [0.25; 1; 0.75; 1; 0.25; 0.5; 0.75; 1; 0.75; 0.5; 0.25; 0.5]%float
  ∧ uvOf (WaterKey 0 false (-1)) fullWater
    = Some [0.75; 1; 1.25; 1; 0.75; 0.5; 1.25; 1; 1.25; 0.5; 0.75; 0.5]%float
  ∧ boundsOf (WaterKey 0 false (-1)) fastWater
    = boundsOf (WaterKey 0 false 3) fullWater
  ∧ uvOf (WaterKey 0 false (-1)) fastWater = uvOf (WaterKey 0 false 3) fullWater.
Proof. split; [|split; [|split; [|split]]]; vm_compute; reflexivity. Qed.

(** ** A flush with nothing to draw *)

Lemma classify_empty env acc (entries : list (Z * RectSet)) :
  List.Forall (fun kv => count (snd kv) = 0) entries →
  foldl (classifySet env) acc entries = acc.
Proof.
  intros H. revert acc. induction H as [|[sn d] entries H0 _ IH]; intros acc; [done|].
  cbn [foldl]. unfold classifySet at 2. cbn [fst snd] in *. rewrite H0. cbn [Nat.eqb].
  apply IH.
Qed.

Lemma rebuild_empty env this :
  List.Forall (fun kv => count (snd kv) = 0) (_rectData this) →
  rebuild env this
  = _buildUnifiedMesh env [] (_tileAnimX this) (_tileAnimY this) (hidden this).
Proof.
  intros H. rewrite rebuild_unfold. unfold classified.
  rewrite classify_empty by exact H. reflexivity.
Qed.

Lemma clear_counts this :
  List.Forall (fun kv => count (snd kv) = 0) (_rectData (clear this)).
Proof.
  unfold clear. cbn [_rectData]. apply List.Forall_forall.
  intros kv Hin. apply in_map_iff in Hin as (kv0 & <- & _). reflexivity.
Qed.

(** X1. A [flush] that follows a [clear] with no [addRect] in between
    leaves nothing to draw: the unified batch is empty, the unified mesh and
    every mesh of [_meshes] (shadow and water) are hidden, and no mesh is
    removed. *)
Theorem flush_after_clear_hides_everything (env : Env) (this : Layer) :
  let this' := _flush env (clear this) in
  _unifiedRects this' = Some []
  ∧ (∀ k m, In (k, m) (_meshes this') → visible m = false)
  ∧ (∀ m, _unifiedMesh this' = Some m → u_visible m = false)
  ∧ List.map fst (_meshes this') = List.map fst (_meshes this).
Proof.
  intros this'. subst this'.
  rewrite (flush_dirty env (clear this) eq_refl).
  rewrite rebuild_empty by apply clear_counts.
  split; [reflexivity|]. split; [|split].
  - intros k m Hin. cbn in Hin. apply in_map_iff in Hin as ([k0 m0] & [= <- <-] & _).
    reflexivity.
  - intros m. cbn. destruct (_unifiedMesh _); [|done]. by intros [= <-].
  - cbn. rewrite List.map_map. reflexivity.
Qed.

(** ** What a flush without a rebuild leaves alone *)

Lemma fastPathMesh_frame ws data ax ay tex m :
  meshFrame (snd (fastPathMesh ws data ax ay tex m)) = meshFrame m.
Proof.
  unfold fastPathMesh, meshFrame. destruct (uv m) as [a|] eqn:E; cbn [snd]; [|by rewrite E].
  cbn [position normal visible material_map isWaterMesh isWaterfall a1Kinds maxDrawZ uv
       aUvBounds fmap option_fmap option_map].
  rewrite stores_length.
  destruct (aUvBounds m) as [b|]; cbn [fmap option_fmap option_map]; [|done].
  by rewrite stores_length.
Qed.

Lemma fastPathMeshes_frame ws sn data ax ay tex ms :
  List.map (fun kv => (fst kv, meshFrame (snd kv))) (fastPathMeshes ws sn data ax ay tex ms)
  = List.map (fun kv => (fst kv, meshFrame (snd kv))) ms.
Proof.
  revert tex. induction ms as [|[k m] ms IH]; intros tex; [done|].
  cbn [fastPathMeshes]. destruct (hasWaterPrefix sn k); cbn [List.map fst snd].
  - by rewrite fastPathMesh_frame, IH.
  - by rewrite IH.
Qed.

Lemma fastPathSet_frame env ax ay ms entry :
  List.map (fun kv => (fst kv, meshFrame (snd kv))) (fastPathSet env ax ay ms entry)
  = List.map (fun kv => (fst kv, meshFrame (snd kv))) ms.
Proof.
  unfold fastPathSet. destruct (negb _); [done|].
  destruct (waterShader env); [|done].
  destruct (count (snd entry) =? 0); [done|].
  destruct (negb _); [done|]. apply fastPathMeshes_frame.
Qed.

Lemma fastPathUnified_frame this ax ay :
  unifiedFrame <$> fastPathUnified this ax ay = unifiedFrame <$> _unifiedMesh this.
Proof.
  unfold fastPathUnified. destruct (_unifiedMesh this) as [m|]; [|done].
  destruct (_unifiedRects this) as [rects|]; [|done].
  destruct (u_visible m) eqn:E; [|done].
  cbn. unfold unifiedFrame. cbn. by rewrite stores_length, E.
Qed.

Lemma updateAnimUVs_meshFrames env ax ay this :
  meshFrames (_updateAnimUVs env ax ay this) = meshFrames this.
Proof.
  unfold meshFrames, _updateAnimUVs. cbn [_meshes _unifiedMesh].
  rewrite fastPathUnified_frame. f_equal.
  apply (foldl_preserves _ (List.map (fun kv => (fst kv, meshFrame (snd kv))))).
  intros. apply fastPathSet_frame.
Qed.

(** X2. A [flush] on a layer that needs no rebuild (no [addRect], [clear]
    or [setBitmaps] since the last one) rewrites at most the contents of the
    UV and UV-bounds arrays: the accumulated rects, the unified rect list,
    the keys and order of [_meshes], and of every mesh the positions,
    normals, visibility, texture, water flags, kinds and the lengths of the
    UV arrays stay as they are. *)
Theorem flush_without_rebuild_keeps_frames (env : Env) (this : Layer) :
  _needsRebuild this = false →
  inputs (_flush env this) = inputs this
  ∧ _unifiedRects (_flush env this) = _unifiedRects this
  ∧ meshFrames (_flush env this) = meshFrames this
  ∧ _needsRebuild (_flush env this) = false.
Proof.
  intros Hclean.
  unfold _flush.
  change (_needsRebuild (fst (_ensureArrayTexture this))) with (_needsRebuild this).
  rewrite Hclean. cbn [negb andb].
  destruct (_ || _).
  - split; [reflexivity|]. split; [reflexivity|]. split; [|exact Hclean].
    rewrite updateAnimUVs_meshFrames. reflexivity.
  - split; [reflexivity|]. split; [reflexivity|]. split; [reflexivity | exact Hclean].
Qed.

Lemma flush_without_rebuild_keeps_frames_witness :
  _needsRebuild (setAnimationOffset 16 0 builtWater) = false
  ∧ meshFrames fastWater = meshFrames (setAnimationOffset 16 0 builtWater).
Proof.
  assert (H : _needsRebuild (setAnimationOffset 16 0 builtWater) = false)
    by (vm_compute; reflexivity).
  split; [exact H|].
  exact (proj1 (proj2 (proj2 (flush_without_rebuild_keeps_frames waterEnv _ H)))).
Defined.

(** ** Meshes are kept *)

Lemma mesh_set_keys k m ms :
  List.map fst ms `prefix_of` List.map fst (mesh_set k m ms).
Proof.
  induction ms as [|[k' m'] ms IH]; cbn [mesh_set List.map fst].
  - apply prefix_nil.
  - destruct (MeshKey_eqb k k') eqn:E; cbn [List.map fst].
    + apply MeshKey_eqb_eq in E as ->. done.
    + by apply prefix_cons.
Qed.

Lemma foldl_prefix {A B C} (f : A → B → A) (g : A → list C) (l : list B) (a : A) :
  (∀ a b, g a `prefix_of` g (f a b)) → g a `prefix_of` g (foldl f a l).
Proof.
  intros H. revert a. induction l as [|b l IH]; intros a; simpl; [done|].
  etrans; [apply H | apply IH].
Qed.

Lemma buildWaterOfSet_keys env ax ay this entry :
  List.map fst (_meshes this)
  `prefix_of` List.map fst (_meshes (buildWaterOfSet env ax ay this entry)).
Proof.
  unfold buildWaterOfSet.
  destruct (waterShader env) as [ws|]; [|done].
  destruct (_extractThreeTexture _) as [wTex|]; [|done].
  destruct (image wTex) as [img|]; [|done].
  rewrite <- (proj2 (proj2 (proj2 (makeNearest_frame wTex this)))) at 1.
  unfold _buildWaterMesh.
  apply (foldl_prefix _ (fun s => List.map fst (_meshes s))).
  intros a kg. destruct (0 <? _); [|done].
  unfold _buildWaterTypeMesh. cbn [_meshes]. apply mesh_set_keys.
Qed.

Lemma classifySet_keys env acc entry :
  List.map fst (_meshes (c_this acc))
  `prefix_of` List.map fst (_meshes (c_this (classifySet env acc entry))).
Proof.
  unfold classifySet. destruct (count (snd entry) =? 0); [done|].
  destruct (fst entry =? -1)%Z; [|done]. cbn [c_this].
  unfold _buildShadowMesh. cbn [_meshes]. apply mesh_set_keys.
Qed.

Lemma rebuild_keys env this :
  List.map fst (_meshes this) `prefix_of` List.map fst (_meshes (rebuild env this)).
Proof.
  rewrite rebuild_unfold.
  etrans; [|apply (foldl_prefix _ (fun s => List.map fst (_meshes s)));
            intros; apply buildWaterOfSet_keys].
  destruct (buildUnifiedMesh_frame env
              (sortByDrawZ (c_allRects (classified env (hidden this))))
              (_tileAnimX this) (_tileAnimY this)
              (c_this (classified env (hidden this)))) as (_ & _ & Hm).
  assert (Heq : List.map fst (_meshes this) = List.map fst (_meshes (hidden this))).
  { cbn [hidden _meshes]. by rewrite List.map_map. }
  rewrite Heq.
  etrans; [apply (foldl_prefix (classifySet env) (fun c => List.map fst (_meshes (c_this c)))
                    (_rectData (hidden this)) (mkClassified (hidden this) [] []));
           intros; apply classifySet_keys|].
  fold (classified env (hidden this)).
  by rewrite Hm.
Qed.

Lemma updateAnimUVs_keys env ax ay this :
  List.map fst (_meshes (_updateAnimUVs env ax ay this)) = List.map fst (_meshes this).
Proof.
  pose proof (updateAnimUVs_meshFrames env ax ay this) as H. unfold meshFrames in H.
  apply (f_equal fst) in H. cbn [fst] in H.
  apply (f_equal (List.map fst)) in H. rewrite !List.map_map in H. exact H.
Qed.

Lemma flush_keys env this :
  List.map fst (_meshes this) `prefix_of` List.map fst (_meshes (_flush env this)).
Proof.
  unfold _flush. destruct (negb _ && _).
  - by rewrite updateAnimUVs_keys.
  - destruct (negb _); [done|]. apply (rebuild_keys env (fst (_ensureArrayTexture this))).
Qed.

(** X3. No operation of the layer removes a mesh or reorders the meshes:
    after [addRect], [clear], [setBitmaps], a change of draw layer or phase,
    or [flush], the keys of [_meshes] are the keys before, in the same
    order, followed by the keys of the meshes just created.  (A mesh that is
    no longer needed is hidden, not dropped.) *)
Theorem meshes_are_never_removed (op : Op) (this : Layer) :
  List.map fst (_meshes this) `prefix_of` List.map fst (_meshes (run op this))
  ∧ ∀ k, mesh_get k (_meshes this) ≠ None → mesh_get k (_meshes (run op this)) ≠ None.
Proof.
  assert (Hp : List.map fst (_meshes this) `prefix_of` List.map fst (_meshes (run op this))).
  { destruct op; cbn [run]; try done. apply flush_keys. }
  split; [exact Hp|].
  intros k Hk.
  assert (Hin : ∀ ms, mesh_get k ms ≠ None ↔ In k (List.map fst ms)).
  { intros ms. unfold mesh_get. induction ms as [|[k' m'] ms IH]; cbn; [tauto|].
    destruct (MeshKey_eqb k k') eqn:E.
    - apply MeshKey_eqb_eq in E as ->. cbn. split; [by left | done].
    - rewrite IH. split; [by right|]. intros [->|H]; [|done].
      by rewrite MeshKey_eqb_refl in E. }
  apply Hin. apply Hin in Hk. destruct Hp as [l ->]. apply in_or_app. by left.
Qed.

(** ** Flush, move the phase, flush *)

Lemma flush_moved_unified env built ax ay :
  _needsRebuild built = false →
  Num.strict_ne ax (_lastTileAnimX built) || Num.strict_ne ay (_lastTileAnimY built) = true →
  unified (_flush env (setAnimationOffset ax ay built))
  = unified (_updateAnimUVs env ax ay built).
Proof.
  intros Hn Hmoved. unfold _flush.
  change (_needsRebuild (fst (_ensureArrayTexture (setAnimationOffset ax ay built))))
    with (_needsRebuild built).
  change (_lastTileAnimX (setAnimationOffset ax ay built)) with (_lastTileAnimX built).
  change (_lastTileAnimY (setAnimationOffset ax ay built)) with (_lastTileAnimY built).
  change (_tileAnimX (setAnimationOffset ax ay built)) with ax.
  change (_tileAnimY (setAnimationOffset ax ay built)) with ay.
  rewrite Hn, Hmoved. reflexivity.
Qed.

Lemma ensure_setAnimationOffset ax ay this :
  fst (_ensureArrayTexture (setAnimationOffset ax ay this))
  = setAnimationOffset ax ay (fst (_ensureArrayTexture this)).
Proof.
  unfold _ensureArrayTexture, scannedTexture, setAnimationOffset.
  cbn [fst _rectData _bitmaps _meshes _needsRebuild _tileAnimX _tileAnimY _lastTileAnimX
       _lastTileAnimY _currentDrawZ _arrayTexture _unifiedMesh _unifiedRects].
  reflexivity.
Qed.

(** X4. On the unified mesh the fast path is a full rebuild.  After a
    [flush] that rebuilt, moving the animation phase and flushing again
    (which takes the fast path) leaves the same unified rect list and the
    same unified mesh, bit for bit, as moving the phase first and rebuilding
    in full. *)
Theorem flush_fast_path_unified (env : Env) (this : Layer) (ax ay : float) :
  _needsRebuild this = true →
  Num.strict_ne ax (_tileAnimX this) || Num.strict_ne ay (_tileAnimY this) = true →
  unified (_flush env (setAnimationOffset ax ay (_flush env this)))
  = unified (_flush env (setAnimationOffset ax ay this)).
Proof.
  intros Hdirty Hmoved.
  rewrite (flush_dirty env (setAnimationOffset ax ay this) Hdirty).
  rewrite (flush_dirty env this Hdirty).
  rewrite ensure_setAnimationOffset.
  set (this1 := fst (_ensureArrayTexture this)).
  destruct (rebuild_marks env this1) as (Hn & Hlx & Hly).
  change (_tileAnimX this1) with (_tileAnimX this) in Hlx.
  change (_tileAnimY this1) with (_tileAnimY this) in Hly.
  rewrite <- Hlx, <- Hly in Hmoved.
  rewrite (flush_moved_unified env (rebuild env this1) ax ay Hn Hmoved).
  rewrite (fast_path_unified_as_rebuild env this1 ax ay).
  reflexivity.
Qed.

Lemma flush_fast_path_unified_witness :
  _needsRebuild oneTile = true
  ∧ Num.strict_ne 16 (_tileAnimX oneTile) || Num.strict_ne 0 (_tileAnimY oneTile) = true
  ∧ unified (_flush plainEnv (setAnimationOffset 16 0 (_flush plainEnv oneTile)))
    = unified (_flush plainEnv (setAnimationOffset 16 0 oneTile)).
Proof.
  assert (H1 : _needsRebuild oneTile = true) by reflexivity.
  assert (H2 : Num.strict_ne 16 (_tileAnimX oneTile)
               || Num.strict_ne 0 (_tileAnimY oneTile) = true) by reflexivity.
  split; [exact H1|]. split; [exact H2|].
  exact (flush_fast_path_unified plainEnv oneTile 16 0 H1 H2).
Defined.

(** ** The accumulator over many calls *)

(** X5. The rect sets hold the calls since [clear], set by set and in call
    order: after [clear] and any calls of [addRect], interleaved over the
    sets as they may be, [count] of set [sn] is the number of calls for [sn],
    and rect [i] of the set is the [i]-th of them: its quad, its pixel UVs,
    its anim pair, kind and draw layer.  The layer is marked for a rebuild. *)
Theorem rects_accumulate_in_call_order (this0 : Layer) (calls : list Call) :
  wfLayer this0 →
  let this := addCalls calls (clear this0) in
  _needsRebuild this = true
  ∧ ∀ sn,
      let d := setOf (_rectData this) sn in
      count d = length (callsTo sn calls)
      ∧ ∀ i c, callsTo sn calls !! i = Some c →
          quadAt (positions d) i
          = List.map Num.fround (quad (c_x c) (c_y c) (c_w c) (c_h c))
          ∧ quadAt (uvs d) i
            = List.map Num.fround (quad (c_u c) (c_v c) (c_w c) (c_h c))
          ∧ animXOf d i = Num.orZero (c_animX c)
          ∧ animYOf d i = Num.orZero (c_animY c)
          ∧ kindOf d i = default (-1)%Z (c_kind c)
          ∧ drawZOf d i = c_drawZ c.
Proof.
  intros Hwf this.
  split; [by apply addCalls_dirty|].
  destruct (addCalls_holds calls (clear this0) (clear_wf _ Hwf) (holdsCalls_clear this0))
    as [_ Hold].
  intros sn d. destruct (Hold sn) as [Hc Hr]. split; [exact Hc|].
  intros i c Hi. destruct (Hr i c Hi) as (H1 & H2 & H3 & H4 & H5 & H6).
  split; [exact H1|]. split; [exact H2|].
  unfold animXOf, animYOf, kindOf, drawZOf. subst d this.
  rewrite H3, H4, H5, H6. by rewrite !orZero_idem.
Qed.

Lemma rects_accumulate_in_call_order_witness :
  wfLayer init
  ∧ count (setOf (_rectData (addCalls [mkCall 0 0 0 32 32 32 32 None None None 0]
                               (clear init))) 0) = 1.
Proof.
  assert (Hwf : wfLayer init) by (split; constructor).
  split; [exact Hwf|].
  exact (proj1 (proj2 (rects_accumulate_in_call_order init
                         [mkCall 0 0 0 32 32 32 32 None None None 0] Hwf) 0%Z)).
Defined.

Lemma run_doubled op this :
  wfLayer this →
  List.Forall (fun kv => ∃ k, capacity (snd kv) = INITIAL_CAPACITY * 2 ^ k) (_rectData this) →
  List.Forall (fun kv => ∃ k, capacity (snd kv) = INITIAL_CAPACITY * 2 ^ k)
    (_rectData (run op this)).
Proof.
  intros Hwf H. destruct op; cbn [run]; try exact H.
  - rewrite addRect_rectData. apply Forall_Obj_set; [|exact H].
    intros k'. cbn [snd addedTo capacity].
    set (d0 := default newRectSet (Obj.get setNumber (_rectData this))).
    assert (Hd0 : ∃ k, capacity d0 = INITIAL_CAPACITY * 2 ^ k).
    { unfold d0. destruct (Obj.get setNumber (_rectData this)) as [d|] eqn:E.
      - apply Obj_get_Some_In in E. rewrite List.Forall_forall in H. apply (H _ E).
      - exists 0. reflexivity. }
    destruct Hd0 as [k Hk]. destruct (grow_capacity d0) as [->|[-> _]].
    + by exists k.
    + exists (S k). rewrite Hk, Nat.pow_succ_r'. lia.
  - unfold clear. cbn [_rectData]. apply List.Forall_forall.
    intros kv Hin. apply in_map_iff in Hin as (kv0 & <- & Hin).
    rewrite List.Forall_forall in H. apply (H _ Hin).
  - by rewrite flush_rectData.
Qed.

Lemma addCall_tight this c :
  wfLayer this →
  List.Forall (fun kv => capacity (snd kv) = INITIAL_CAPACITY
                         ∨ capacity (snd kv) < 2 * count (snd kv)) (_rectData this) →
  List.Forall (fun kv => capacity (snd kv) = INITIAL_CAPACITY
                         ∨ capacity (snd kv) < 2 * count (snd kv))
    (_rectData (addCall this c)).
Proof.
  intros Hwf H. unfold addCall. rewrite addRect_rectData.
  change (_rectData (setCurrentDrawZ (c_drawZ c) this)) with (_rectData this).
  apply Forall_Obj_set; [|exact H].
  intros k'. cbn [snd addedTo capacity count].
  set (d0 := default newRectSet (Obj.get (c_setNumber c) (_rectData this))).
  assert (Hd0 : capacity d0 = INITIAL_CAPACITY ∨ capacity d0 < 2 * count d0).
  { unfold d0. destruct (Obj.get (c_setNumber c) (_rectData this)) as [d|] eqn:E.
    - apply Obj_get_Some_In in E. rewrite List.Forall_forall in H. apply (H _ E).
    - by left. }
  destruct (grow_capacity d0) as [->|[-> Hfull]]; [|right; lia].
  destruct Hd0 as [?|?]; [by left | right; lia].
Qed.

(** X6. The capacity of a rect set is the initial 1000 doubled some number
    of times, in every state the operations can reach, and the two buffers
    have 12 numbers per quad of capacity.  While no [clear] intervenes the
    doubling is tight: a set grown past the initial capacity is more than
    half full. *)
Theorem capacity_is_initial_doubled :
  (∀ this sn d, reachable this → Obj.get sn (_rectData this) = Some d →
     ∃ k, capacity d = INITIAL_CAPACITY * 2 ^ k
          ∧ length (positions d) = capacity d * 12
          ∧ length (uvs d) = capacity d * 12)
  ∧ (∀ calls sn d, Obj.get sn (_rectData (addCalls calls init)) = Some d →
       capacity d = INITIAL_CAPACITY ∨ capacity d < 2 * count d).
Proof.
  split.
  - intros this sn d Hr Hget.
    assert (Hall : List.Forall (fun kv => ∃ k, capacity (snd kv) = INITIAL_CAPACITY * 2 ^ k)
                     (_rectData this)).
    { clear Hget. induction Hr as [|op this Hr IH]; [constructor|].
      apply run_doubled; [by apply reachable_wf | exact IH]. }
    destruct (wfLayer_get _ _ _ (reachable_wf _ Hr) Hget) as [Hp Hu _ _ _ _ _].
    apply Obj_get_Some_In in Hget. rewrite List.Forall_forall in Hall.
    destruct (Hall _ Hget) as [k Hk]. exists k. done.
  - intros calls sn d Hget.
    assert (Hall : wfLayer (addCalls calls init)
                   ∧ List.Forall (fun kv => capacity (snd kv) = INITIAL_CAPACITY
                                    ∨ capacity (snd kv) < 2 * count (snd kv))
                       (_rectData (addCalls calls init))).
    { clear Hget. induction calls as [|c calls IH] using rev_ind.
      - split; [split; constructor | constructor].
      - unfold addCalls in *. rewrite foldl_app. cbn [foldl]. destruct IH as [IHw IHt].
        split; [by apply addCall_wf | by apply addCall_tight]. }
    destruct Hall as [_ Hall].
    apply Obj_get_Some_In in Hget. rewrite List.Forall_forall in Hall.
    apply (Hall _ Hget).
Qed.

(** ** The draw order *)

Lemma before_total {A} (l : list A) (a b : A) :
  In a l → In b l → a ≠ b → before l a b ∨ before l b a.
Proof.
  intros Ha%list_elem_of_In Hb%list_elem_of_In Hne.
  apply list_elem_of_lookup in Ha as [i Hi]. apply list_elem_of_lookup in Hb as [j Hj].
  destruct (Nat.lt_trichotomy i j) as [H|[->|H]].
  - left. by exists i, j.
  - congruence.
  - right. by exists j, i.
Qed.

Lemma before_asym {A} (l : list A) (a b : A) :
  NoDup l → before l a b → ¬ before l b a.
Proof.
  intros Hnd (i & j & Hij & Hi & Hj) (i' & j' & Hij' & Hi' & Hj').
  pose proof (NoDup_lookup l i j' a Hnd Hi Hj').
  pose proof (NoDup_lookup l j i' b Hnd Hj Hi'). lia.
Qed.

Lemma before_sorted {A} (R : A → A → Prop) (l : list A) (a b : A) :
  StronglySorted R l → before l a b → R a b.
Proof.
  intros Hs (i & j & Hij & Hi & Hj). revert i j Hij Hi Hj.
  induction Hs as [|x l Hs IH Hall]; intros i j Hij Hi Hj; [done|].
  destruct j as [|j]; [lia|]. simpl in Hj. destruct i as [|i].
  - simpl in Hi. injection Hi as ->. rewrite List.Forall_forall in Hall.
    apply Hall. by apply list_elem_of_lookup_2, list_elem_of_In in Hj.
  - simpl in Hi. apply (IH i j); [lia | done..].
Qed.

Lemma before_filter {A} (f : A → bool) (l : list A) (a b : A) :
  f a = true → f b = true → before (List.filter f l) a b ↔ before l a b.
Proof.
  intros Ha Hb. split.
  - intros (p & q & Hpq & Hp & Hq). by apply (filter_order_back f l p q).
  - intros (i & j & Hij & Hi & Hj). by apply (filter_keeps_order f l i j).
Qed.

Lemma before_In {A} (l : list A) (a b : A) : before l a b → In a l ∧ In b l.
Proof.
  intros (i & j & _ & Hi & Hj).
  split; by eapply list_elem_of_In, list_elem_of_lookup_2.
Qed.

Lemma before_app {A} (l1 l2 : list A) (a b : A) :
  before (l1 ++ l2) a b → before l1 a b ∨ before l2 a b ∨ (In a l1 ∧ In b l2).
Proof.
  intros (i & j & Hij & Hi & Hj).
  destruct (Nat.lt_ge_cases j (length l1)) as [Hj1|Hj1].
  - left. exists i, j. rewrite lookup_app_l in Hi, Hj by lia. done.
  - rewrite lookup_app_r in Hj by lia.
    destruct (Nat.lt_ge_cases i (length l1)) as [Hi1|Hi1].
    + right; right. rewrite lookup_app_l in Hi by lia.
      split; by eapply list_elem_of_In, list_elem_of_lookup_2.
    + right; left. rewrite lookup_app_r in Hi by lia.
      exists (i - length l1), (j - length l1). split; [lia | done].
Qed.

Lemma before_cons {A} (x : A) (l : list A) (a b : A) :
  before (x :: l) a b → (a = x ∧ In b l) ∨ before l a b.
Proof.
  intros H. apply (before_app [x] l) in H as [H|[H|[Ha Hb]]].
  - destruct H as (i & j & Hij & Hi & Hj). destruct j as [|[|j]]; [lia|done..].
  - by right.
  - left. destruct Ha as [->|[]]. done.
Qed.

Lemma before_flat_map {A B} (f : A → list B) (l : list A) (x y : B) :
  before (flat_map f l) x y →
  (∃ e, In e l ∧ before (f e) x y)
  ∨ (∃ e1 e2, before l e1 e2 ∧ In x (f e1) ∧ In y (f e2)).
Proof.
  induction l as [|e l IH]; cbn [flat_map]; intros H.
  - by destruct H as (i & j & _ & Hi & _).
  - apply before_app in H as [H|[H|[Hx Hy]]].
    + left. exists e. split; [by left | done].
    + destruct (IH H) as [(e0 & He0 & Hb)|(e1 & e2 & (i & j & Hij & Hi & Hj) & Hx & Hy)].
      * left. exists e0. split; [by right | done].
      * right. exists e1, e2. split; [|done]. exists (S i), (S j). split; [lia | done].
    + right. apply in_flat_map in Hy as (e2 & He2 & Hy).
      apply list_elem_of_In, list_elem_of_lookup in He2 as [j Hj].
      exists e, e2. split; [|done]. exists 0, (S j). split; [lia | done].
Qed.

Lemma before_map {A B} (g : A → B) (l : list A) (x y : B) :
  before (List.map g l) x y → ∃ a b, before l a b ∧ x = g a ∧ y = g b.
Proof.
  induction l as [|e l IH]; cbn [List.map]; intros H.
  - by destruct H as (i & j & _ & Hi & _).
  - apply before_cons in H as [[-> Hy]|H].
    + apply in_map_iff in Hy as (b & <- & Hb).
      apply list_elem_of_In, list_elem_of_lookup in Hb as [j Hj].
      exists e, b. split; [|done]. exists 0, (S j). split; [lia | done].
    + destruct (IH H) as (a & b & (i & j & Hij & Hi & Hj) & -> & ->).
      exists a, b. split; [|done]. exists (S i), (S j). split; [lia | done].
Qed.

Lemma before_seq (s n a b : nat) : before (seq s n) a b → a < b.
Proof.
  intros (i & j & Hij & Hi & Hj).
  apply lookup_seq in Hi as [-> _]. apply lookup_seq in Hj as [-> _]. lia.
Qed.

Lemma lookup_List_map {A B} (g : A → B) (l : list A) (i : nat) :
  List.map g l !! i = g <$> l !! i.
Proof. revert i. induction l as [|x l IH]; intros [|i]; simpl; auto. Qed.

(** In the flat list a rect stands before another when its set is
    enumerated first, or in the same set at a lower index. *)
Lemma before_flatRects env rectData a b :
  before (flatRects env rectData) a b →
  before (List.map fst rectData) (r_setNumber a) (r_setNumber b)
  ∨ (r_setNumber a = r_setNumber b ∧ r_index a < r_index b).
Proof.
  intros H. unfold flatRects in H.
  apply before_flat_map in H as [([sn data] & He & H)|(e1 & e2 & Hb & Ha & Hb')].
  - right. unfold flatOfSet in H. cbn [fst snd] in H.
    destruct (sn =? -1)%Z; [by destruct H as (i & j & _ & Hi & _)|].
    apply before_map in H as (i & j & H & -> & ->). cbn [r_setNumber r_index].
    split; [done|].
    destruct H as (p & q & Hpq & Hp & Hq).
    destruct (filter_order_back _ _ p q i j Hpq Hp Hq) as (i' & j' & Hij & Hi & Hj).
    by apply (before_seq 0 (count data)); exists i', j'.
  - left. destruct e1 as [s1 d1], e2 as [s2 d2].
    apply In_flatOfSet in Ha as (_ & -> & _). apply In_flatOfSet in Hb' as (_ & -> & _).
    destruct Hb as (i & j & Hij & Hi & Hj). exists i, j. split; [done|].
    by rewrite !lookup_List_map, Hi, Hj.
Qed.

(** X7. The draw order of the unified batch.  After a [flush] that
    rebuilds, of two rects of tilesets whose set numbers are array indices
    (from 0 to 2^32 - 2) the one that comes first in the batch is the one on
    the lower draw layer; on the same draw layer the one of the lower set
    number, whatever the order of the calls; and in the same set the one
    added first. *)
Theorem unified_draw_order (env : Env) (this : Layer) (sorted : list UnifiedRect)
    (i j : nat) (a b : UnifiedRect) :
  wfLayer this → _needsRebuild this = true →
  _unifiedRects (_flush env this) = Some sorted →
  sorted !! i = Some a → sorted !! j = Some b →
  (0 ≤ r_setNumber a < 4294967295)%Z → (0 ≤ r_setNumber b < 4294967295)%Z →
  i < j ↔
  (r_drawZ a < r_drawZ b)%Z
  ∨ (r_drawZ a = r_drawZ b
     ∧ ((r_setNumber a < r_setNumber b)%Z
        ∨ (r_setNumber a = r_setNumber b ∧ r_index a < r_index b))).
Proof.
  intros [Hord _] Hdirty Hs Hi Hj Ha0 Hb0.
  rewrite flush_dirty_unifiedRects in Hs by done. injection Hs as <-.
  set (flat := flatRects env (_rectData this)) in *.
  assert (Hndf : NoDup flat) by (apply NoDup_flatRects, Obj_ordered_NoDup, Hord).
  assert (Hnds : NoDup (sortByDrawZ flat)).
  { eapply NoDup_Permutation_proper; [|exact Hndf]. symmetry. apply sortByDrawZ_perm. }
  set (lex := fun a b : UnifiedRect =>
         (r_drawZ a < r_drawZ b)%Z
         ∨ (r_drawZ a = r_drawZ b
            ∧ ((r_setNumber a < r_setNumber b)%Z
               ∨ (r_setNumber a = r_setNumber b ∧ r_index a < r_index b)))).
  assert (Hin : ∀ x, In x (sortByDrawZ flat) ↔ In x flat).
  { intros x. split; apply Permutation_in;
      [symmetry; apply sortByDrawZ_perm | apply sortByDrawZ_perm]. }
  assert (Hlex_ne : ∀ x y, lex x y → x ≠ y).
  { intros x y Hl ->. unfold lex in Hl. lia. }
  assert (Hback : ∀ x y, In x flat → In y flat →
            (0 ≤ r_setNumber x < 4294967295)%Z → (0 ≤ r_setNumber y < 4294967295)%Z →
            lex x y → before (sortByDrawZ flat) x y).
  { intros x y Hx Hy Hx0 Hy0 Hl. pose proof (Hlex_ne x y Hl) as Hne.
    destruct Hl as [Hlt|[Heq Hrest]].
    - destruct (before_total (sortByDrawZ flat) x y) as [H|H]; [by apply Hin.. | done | done |].
      apply (before_sorted drawZ_le) in H; [|apply sortByDrawZ_sorted].
      unfold drawZ_le in H. lia.
    - assert (Hflat : before flat x y).
      { destruct (before_total flat x y) as [H|H]; [done.. |].
        exfalso. apply before_flatRects in H as [H|[H1 H2]]; [|lia].
        apply (before_sorted keyBefore) in H; [|exact Hord].
        destruct H as [_ H]. destruct H as [_ H]; [|lia].
        unfold Obj.is_index. apply andb_true_iff. split; [apply Z.leb_le|apply Z.ltb_lt]; lia. }
      assert (Hfx : (r_drawZ x =? r_drawZ x)%Z = true) by apply Z.eqb_refl.
      assert (Hfy : (r_drawZ y =? r_drawZ x)%Z = true) by (rewrite Heq; apply Z.eqb_refl).
      apply (proj2 (before_filter (fun r => (r_drawZ r =? r_drawZ x)%Z) _ x y Hfx Hfy))
        in Hflat.
      pose proof (onLayer_sortByDrawZ (r_drawZ x) flat) as Hl. unfold onLayer in Hl.
      rewrite <- Hl in Hflat.
      exact (proj1 (before_filter (fun r => (r_drawZ r =? r_drawZ x)%Z) _ x y Hfx Hfy)
               Hflat). }
  assert (Ha : In a flat)
    by (by apply list_elem_of_lookup_2, list_elem_of_In, Hin in Hi).
  assert (Hb : In b flat)
    by (by apply list_elem_of_lookup_2, list_elem_of_In, Hin in Hj).
  fold (lex a b). split.
  - intros Hij.
    assert (Hne : a ≠ b).
    { intros ->. pose proof (NoDup_lookup _ i j b Hnds Hi Hj). lia. }
    assert (Htot : lex a b ∨ lex b a).
    { assert (Hd : r_setNumber a = r_setNumber b → r_index a = r_index b →
                   r_drawZ a = r_drawZ b → False).
      { intros H1 H2 H3. apply Hne. destruct a, b. cbn in *. by subst. }
      unfold lex. lia. }
    destruct Htot as [H|H]; [done|].
    exfalso. apply (before_asym (sortByDrawZ flat) a b Hnds); [by exists i, j|].
    by apply Hback.
  - intros Hl. destruct (Hback a b Ha Hb Ha0 Hb0 Hl) as (i' & j' & Hij & Hi' & Hj').
    rewrite (NoDup_lookup _ i i' a Hnds Hi Hi'), (NoDup_lookup _ j j' b Hnds Hj Hj'). done.
Qed.

Lemma unified_draw_order_witness :
  wfLayer twoSets ∧ _needsRebuild twoSets = true
  ∧ _unifiedRects (_flush plainEnv twoSets)
    = Some [mkUnifiedRect 2 1 0; mkUnifiedRect 0 0 1; mkUnifiedRect 0 1 1;
            mkUnifiedRect 2 0 1]
  ∧ (1 < 3 ↔ (1 < 1)%Z ∨ (1%Z = 1%Z ∧ ((0 < 2)%Z ∨ (0%Z = 2%Z ∧ 0 < 0)))).
Proof.
  assert (Hwf : wfLayer twoSets).
  { unfold twoSets, addCalls. cbn [foldl]. repeat apply addCall_wf. split; constructor. }
  assert (Hd : _needsRebuild twoSets = true) by reflexivity.
  assert (Hs : _unifiedRects (_flush plainEnv twoSets)
               = Some [mkUnifiedRect 2 1 0; mkUnifiedRect 0 0 1; mkUnifiedRect 0 1 1;
                       mkUnifiedRect 2 0 1]) by (vm_compute; reflexivity).
  split; [exact Hwf|]. split; [exact Hd|]. split; [exact Hs|].
  exact (unified_draw_order plainEnv twoSets _ 1 3 (mkUnifiedRect 0 0 1)
           (mkUnifiedRect 2 0 1) Hwf Hd Hs eq_refl eq_refl
           ltac:(cbn; lia) ltac:(cbn; lia)).
Defined.

(** ** What a scan copies *)

Lemma recorded_test (t : ArrayTexture) (i : nat) (v : Z) :
  default false (layerLoaded t !! i) && (default 0%Z (layerImageVersions t !! i) =? v)%Z = true
  → i < length (layerImageVersions t) → recorded t i v.
Proof.
  intros [E1 E2]%andb_true_iff Hi. apply Z.eqb_eq in E2. unfold recorded.
  destruct (layerLoaded t !! i) as [[]|]; try done.
  destruct (layerImageVersions t !! i) as [v'|] eqn:EV.
  - simpl in E2. by subst.
  - apply lookup_ge_None in EV. lia.
Qed.

(** One turn of the scan either leaves the state alone, the layer being
    unbound, not ready or recorded at the version of its image, or copies the
    image and records it. *)
Lemma scanLayer_cases bitmaps st i :
  wfArrayTexture (s_tex st) → i < TILESET_LAYER_COUNT →
  (scanLayer bitmaps st i = st
   ∧ ∀ tex, boundReady bitmaps i tex → recorded (s_tex st) i (version tex))
  ∨ (∃ tex img, boundReady bitmaps i tex ∧ image tex = Some img
       ∧ ¬ recorded (s_tex st) i (version tex)
       ∧ scanLayer bitmaps st i
         = mkScan (mkArrayTexture (<[i := Some (pixels img)]> (layers (s_tex st)))
                     (needsUpdate (s_tex st))
                     (<[i := true]> (layerLoaded (s_tex st)))
                     (<[i := version tex]> (layerImageVersions (s_tex st))))
             true (s_copies st ++ [(i, pixels img)])).
Proof.
  intros (Hl1 & Hl2 & Hl3) Hi.
  destruct (boundReady_dec bitmaps i) as [[tex Hr]|Hno].
  2:{ left. split; [by apply scanLayer_not_ready|]. intros tex Hr. by destruct (Hno tex). }
  pose proof Hr as (bmp & img & Hb & Hx & Himg & Hw & Hh).
  unfold scanLayer. rewrite Hb, Hx, Himg.
  destruct (Z.eqb_spec (width img) 0); [done|].
  destruct (Z.eqb_spec (height img) 0); [done|]. cbn [orb].
  destruct (default false (layerLoaded (s_tex st) !! i)
            && (default 0%Z (layerImageVersions (s_tex st) !! i) =? version tex)%Z)
    eqn:E.
  - left. split; [done|]. intros tex' Hr'. rewrite <- (boundReady_fun _ _ _ _ Hr Hr').
    apply recorded_test; [done | lia].
  - right. exists tex, img. split; [done|]. split; [done|]. split; [|done].
    intros [H1 H2]. rewrite H1, H2 in E. simpl in E. by rewrite Z.eqb_refl in E.
Qed.

Lemma layerState_recorded t t' i v :
  layerState t i = layerState t' i → recorded t i v → recorded t' i v.
Proof. unfold layerState, recorded. intros [= _ <- <-]. done. Qed.

(** The scan of the first [n] layers, against the texture it started from. *)
Lemma scan_prefix bitmaps t0 (n : nat) :
  wfArrayTexture t0 → n ≤ TILESET_LAYER_COUNT →
  let st := foldl (scanLayer bitmaps) (mkScan t0 false []) (seq 0 n) in
  wfArrayTexture (s_tex st)
  ∧ (∀ i px, In (i, px) (s_copies st) ↔ staleIn bitmaps t0 n i px)
  ∧ StronglySorted lt (List.map fst (s_copies st))
  ∧ (∀ i px, In (i, px) (s_copies st) →
       layers (s_tex st) !! i = Some (Some px)
       ∧ ∀ tex, boundReady bitmaps i tex → recorded (s_tex st) i (version tex))
  ∧ (∀ i, ¬ In i (List.map fst (s_copies st)) → layerState (s_tex st) i = layerState t0 i)
  ∧ needsUpdate (s_tex st) = needsUpdate t0
  ∧ (s_updated st = true ↔ s_copies st ≠ []).
Proof.
  intros Hwf0. induction n as [|n IH]; intros Hn st; subst st.
  - cbn. split; [done|]. split; [|split; [constructor|]].
    + intros i px. split; [done|]. intros [H _]. lia.
    + split; [done|]. split; [done|]. split; [done|]. split; done.
  - rewrite seq_S, foldl_app. cbn [foldl Nat.add].
    specialize (IH ltac:(lia)). cbv zeta in IH.
    set (st := foldl (scanLayer bitmaps) (mkScan t0 false []) (seq 0 n)) in *.
    destruct IH as (Hwf & Hcop & Hsort & Hlay & Hkeep & Hnu & Hupd).
    assert (Hlt : ∀ i, In i (List.map fst (s_copies st)) → i < n).
    { intros i Hi. apply in_map_iff in Hi as ([i' px] & <- & Hi).
      apply Hcop in Hi as [Hi _]. exact Hi. }
    assert (Hn0 : layerState (s_tex st) n = layerState t0 n).
    { apply Hkeep. intros Hi. apply Hlt in Hi. lia. }
    destruct (scanLayer_cases bitmaps st n Hwf ltac:(lia))
      as [[-> Hrec]|(tex & img & Hr & Himg & Hnrec & ->)].
    + split; [done|]. split; [|split; [done|]].
      * intros i px. rewrite Hcop. unfold staleIn. split.
        -- intros [Hi H]. split; [lia | done].
        -- intros [Hi (tex & img & Hr & Himg & Hpx & Hnrec)].
           split; [|by exists tex, img].
           destruct (Nat.eq_dec i n) as [->|]; [|lia].
           exfalso. apply Hnrec. by apply (layerState_recorded (s_tex st)), Hrec.
      * split; [done|]. split; [done|]. split; done.
    + cbn [s_tex s_copies s_updated layers needsUpdate layerLoaded layerImageVersions].
      destruct Hwf as (Hl1 & Hl2 & Hl3).
      split; [|split; [|split; [|split; [|split; [|split]]]]].
      * unfold wfArrayTexture. cbn. by rewrite !length_insert.
      * intros i px. rewrite in_app_iff, Hcop. unfold staleIn. split.
        -- intros [[Hi H]|[[= <- <-]|[]]]; [split; [lia | done]|].
           split; [lia|]. exists tex, img. repeat split; try done.
           intros Hrec. apply Hnrec. by apply (layerState_recorded t0).
        -- intros [Hi (tex' & img' & Hr' & Himg' & Hpx & Hnrec')].
           destruct (Nat.eq_dec i n) as [->|Hne].
           ++ right. left. pose proof (boundReady_fun _ _ _ _ Hr Hr') as <-.
              rewrite Himg in Himg'. injection Himg' as <-. by rewrite Hpx.
           ++ left. split; [lia|]. by exists tex', img'.
      * rewrite List.map_app. cbn [List.map fst].
        clear -Hsort Hlt. induction Hsort as [|x l Hs IHs Hall]; cbn.
        -- repeat constructor.
        -- constructor.
           ++ apply IHs. intros i Hi. apply Hlt. by right.
           ++ rewrite List.Forall_app. split; [done|]. constructor; [|done].
              apply Hlt. by left.
      * intros i px [Hi|[[= <- <-]|[]]]%in_app_iff.
        -- assert (i ≠ n).
           { intros ->. assert (n < n); [|lia]. apply Hlt, in_map_iff.
             by exists (n, px). }
           destruct (Hlay i px Hi) as [H1 H2].
           rewrite list_lookup_insert_ne by done. split; [done|].
           intros tex' Hr'. destruct (H2 tex' Hr') as [H3 H4].
           split; cbn; by rewrite list_lookup_insert_ne.
        -- split; [apply list_lookup_insert_eq; lia|].
           intros tex' Hr'. pose proof (boundReady_fun _ _ _ _ Hr Hr') as <-.
           split; cbn; apply list_lookup_insert_eq; lia.
      * intros i Hi. rewrite List.map_app, in_app_iff in Hi. cbn in Hi.
        assert (i ≠ n) by (intros ->; apply Hi; right; by left).
        rewrite <- Hkeep by tauto. unfold layerState. cbn.
        by rewrite !list_lookup_insert_ne.
      * exact Hnu.
      * split; [|done]. intros _ H. by apply app_eq_nil in H as [_ ?].
Qed.

Lemma scanLayers_prefix bitmaps t0 :
  wfArrayTexture t0 →
  (∀ i px, In (i, px) (s_copies (scanLayers bitmaps t0))
           ↔ staleIn bitmaps t0 TILESET_LAYER_COUNT i px)
  ∧ StronglySorted lt (List.map fst (s_copies (scanLayers bitmaps t0)))
  ∧ (∀ i px, In (i, px) (s_copies (scanLayers bitmaps t0)) →
       layers (s_tex (scanLayers bitmaps t0)) !! i = Some (Some px))
  ∧ (∀ i, ¬ In i (List.map fst (s_copies (scanLayers bitmaps t0))) →
       layerState (s_tex (scanLayers bitmaps t0)) i = layerState t0 i)
  ∧ needsUpdate (s_tex (scanLayers bitmaps t0)) = needsUpdate t0
  ∧ (s_updated (scanLayers bitmaps t0) = true ↔ s_copies (scanLayers bitmaps t0) ≠ []).
Proof.
  intros Hwf.
  pose proof (scan_prefix bitmaps t0 TILESET_LAYER_COUNT Hwf (Nat.le_refl _)) as H.
  cbv zeta in H. destruct H as (_ & H1 & H2 & H3 & H4 & H5 & H6).
  unfold scanLayers.
  split; [exact H1|]. split; [exact H2|].
  split; [intros i px Hi; exact (proj1 (H3 i px Hi))|].
  split; [exact H4|]. split; [exact H5 | exact H6].
Qed.

Lemma markUpdated_layerState sc i : layerState (markUpdated sc) i = layerState (s_tex sc) i.
Proof. unfold markUpdated. by destruct (s_updated sc). Qed.

(** X8. What [_ensureArrayTexture] copies.  The scan copies into the array
    texture exactly the pictures of the layers, among the first 9, that are
    bound to a ready image (a texture with an image of non-zero width and
    height) and not recorded as loaded at that image's version; each such
    layer once, in ascending order.  A copied layer then holds the picture;
    every other layer keeps its contents, flag and version; the texture is
    marked for upload when something was copied, and afterwards every
    bound, ready image is recorded at its version. *)
Theorem scan_copies_the_stale_layers (this : Layer) :
  (∀ t, _arrayTexture this = Some t → wfArrayTexture t) →
  let t0 := default newArrayTexture (_arrayTexture this) in
  let t' := scannedTexture this in
  let copies := snd (_ensureArrayTexture this) in
  _arrayTexture (fst (_ensureArrayTexture this)) = Some t'
  ∧ (∀ i px, In (i, px) copies ↔ staleIn (_bitmaps this) t0 TILESET_LAYER_COUNT i px)
  ∧ StronglySorted lt (List.map fst copies)
  ∧ (∀ i px, In (i, px) copies → layers t' !! i = Some (Some px))
  ∧ (∀ i, ¬ In i (List.map fst copies) → layerState t' i = layerState t0 i)
  ∧ (copies ≠ [] → needsUpdate t' = true)
  ∧ (copies = [] → needsUpdate t' = needsUpdate t0)
  ∧ upToDate (_bitmaps this) t'.
Proof.
  intros Hwf t0 t' copies.
  assert (Hwf0 : wfArrayTexture t0).
  { subst t0. destruct (_arrayTexture this) as [t|]; simpl; [by apply Hwf|].
    repeat split. }
  assert (Hup : upToDate (_bitmaps this) t')
    by exact (proj2 (ensureArrayTexture_upToDate this Hwf)).
  destruct (scanLayers_prefix (_bitmaps this) t0 Hwf0) as (Hcop & Hsort & Hlay & Hkeep & Hnu & Hupd).
  assert (Ht : t' = markUpdated (scanLayers (_bitmaps this) t0)) by reflexivity.
  assert (Hc : copies = s_copies (scanLayers (_bitmaps this) t0)) by reflexivity.
  split; [reflexivity|].
  clearbody t' copies. subst t' copies.
  set (sc := scanLayers (_bitmaps this) t0) in *. clearbody sc.
  split; [exact Hcop|]. split; [exact Hsort|].
  split.
  { intros i px Hi.
    pose proof (markUpdated_layerState sc i) as Hm.
    unfold layerState in Hm. injection Hm as Hm _ _.
    exact (eq_trans Hm (Hlay i px Hi)). }
  split.
  { intros i Hi. exact (eq_trans (markUpdated_layerState _ i) (Hkeep i Hi)). }
  split; [|split].
  - intros Hne. apply Hupd in Hne. unfold markUpdated. by rewrite Hne.
  - intros Heq. unfold markUpdated.
    destruct (s_updated sc); [|exact Hnu]. exfalso. by apply (proj1 Hupd).
  - exact Hup.
Qed.

Lemma scan_copies_the_stale_layers_witness :
  (∀ t, _arrayTexture (setBitmaps [Some sampleBitmap] init) = Some t → wfArrayTexture t)
  ∧ snd (_ensureArrayTexture (setBitmaps [Some sampleBitmap] init)) ≠ []
  ∧ needsUpdate (scannedTexture (setBitmaps [Some sampleBitmap] init)) = true.
Proof.
  assert (Hwf : ∀ t, _arrayTexture (setBitmaps [Some sampleBitmap] init) = Some t →
                     wfArrayTexture t) by (intros t [=]).
  assert (Hne : snd (_ensureArrayTexture (setBitmaps [Some sampleBitmap] init)) ≠ [])
    by (vm_compute; discriminate).
  split; [exact Hwf|]. split; [exact Hne|].
  destruct (scan_copies_the_stale_layers _ Hwf) as (_ & _ & _ & _ & _ & H & _).
  exact (H Hne).
Defined.

(** The texture [setBitmaps] leaves for the next scan: blank, nothing
    recorded as loaded, marked for upload. *)
Lemma setBitmaps_blank bitmaps this :
  (∀ t, _arrayTexture this = Some t → wfArrayTexture t) →
  let t0 := default newArrayTexture (_arrayTexture (setBitmaps bitmaps this)) in
  wfArrayTexture t0 ∧ needsUpdate t0 = true
  ∧ ∀ i, i < TILESET_LAYER_COUNT →
      layers t0 !! i = Some None ∧ layerLoaded t0 !! i = Some false.
Proof.
  intros Hwf t0. subst t0. unfold setBitmaps. cbn [_arrayTexture].
  destruct (_arrayTexture this) as [t|] eqn:E; cbn [default].
  - destruct (Hwf t eq_refl) as (H1 & H2 & H3).
    split; [|split; [done|]].
    + unfold wfArrayTexture. cbn. by rewrite !length_map.
    + intros i Hi. cbn. rewrite !lookup_List_map.
      destruct (lookup_lt_is_Some_2 (layers t) i) as [x ->]; [lia|].
      destruct (lookup_lt_is_Some_2 (layerLoaded t) i) as [y ->]; [lia|]. done.
  - split; [by repeat split|]. split; [done|].
    intros i Hi. unfold newArrayTexture. cbn [layers layerLoaded].
    by rewrite !lookup_replicate_2.
Qed.

(** X9. After [setBitmaps] the next scan loads the new tilesets afresh,
    whatever the texture recorded before: each of the first 9 layers that is
    bound to a ready image is copied and holds that image's picture, every
    other layer is blank, there are 9 layers, and the texture is marked for
    upload.  The layer is marked for a rebuild. *)
Theorem setBitmaps_reloads_every_layer (bitmaps : list (option Bitmap)) (this : Layer) :
  (∀ t, _arrayTexture this = Some t → wfArrayTexture t) →
  let this1 := setBitmaps bitmaps this in
  let t' := scannedTexture this1 in
  _needsRebuild this1 = true
  ∧ (∀ i tex img, i < TILESET_LAYER_COUNT → boundReady bitmaps i tex →
       image tex = Some img →
       In (i, pixels img) (snd (_ensureArrayTexture this1))
       ∧ layers t' !! i = Some (Some (pixels img)))
  ∧ (∀ i, i < TILESET_LAYER_COUNT → (∀ tex, ¬ boundReady bitmaps i tex) →
       layers t' !! i = Some None)
  ∧ length (layers t') = TILESET_LAYER_COUNT
  ∧ needsUpdate t' = true.
Proof.
  intros Hwf this1 t'.
  destruct (setBitmaps_blank bitmaps this Hwf) as (Hwf0 & Hnu0 & Hblank).
  cbv zeta in Hwf0, Hnu0, Hblank. fold this1 in Hwf0, Hnu0, Hblank.
  set (t0 := default newArrayTexture (_arrayTexture this1)) in *.
  destruct (scanLayers_prefix bitmaps t0 Hwf0) as (Hcop & _ & Hlay & Hkeep & Hnu & Hupd).
  assert (Hwf' : wfArrayTexture t').
  { apply (ensureArrayTexture_upToDate this1). intros t Ht.
    unfold t0 in Hwf0. rewrite Ht in Hwf0. exact Hwf0. }
  assert (Ht : t' = markUpdated (scanLayers bitmaps t0)) by reflexivity.
  assert (Hc : snd (_ensureArrayTexture this1) = s_copies (scanLayers bitmaps t0))
    by reflexivity.
  rewrite Hc. clearbody t'. subst t'.
  set (sc := scanLayers bitmaps t0) in *. clearbody sc.
  assert (Hlayers : ∀ i, layers (markUpdated sc) !! i = layers (s_tex sc) !! i).
  { intros i. pose proof (markUpdated_layerState sc i) as Hm.
    unfold layerState in Hm. by injection Hm as Hm _ _. }
  split; [reflexivity|].
  split; [|split; [|split]].
  - intros i tex img Hi Hr Himg.
    assert (Hin : In (i, pixels img) (s_copies sc)).
    { apply Hcop. split; [done|]. exists tex, img. repeat split; try done.
      intros [Hl _]. destruct (Hblank i Hi) as [_ Hf]. congruence. }
    split; [exact Hin|]. rewrite Hlayers. by apply Hlay.
  - intros i Hi Hno. rewrite Hlayers.
    assert (Hni : ¬ In i (List.map fst (s_copies sc))).
    { intros Hin. apply in_map_iff in Hin as ([i' px] & <- & Hin).
      apply Hcop in Hin as [_ (tex & _ & Hr & _)]. by apply (Hno tex). }
    pose proof (Hkeep i Hni) as Hk. unfold layerState in Hk. injection Hk as -> _ _.
    by apply Hblank.
  - apply Hwf'.
  - unfold markUpdated. destruct (s_updated sc); [done|]. by rewrite Hnu.
Qed.

Lemma setBitmaps_reloads_every_layer_witness :
  (∀ t, _arrayTexture init = Some t → wfArrayTexture t)
  ∧ layers (scannedTexture (setBitmaps [Some sampleBitmap] init)) !! 0 = Some (Some 7).
Proof.
  assert (Hwf : ∀ t, _arrayTexture init = Some t → wfArrayTexture t) by (intros t [=]).
  split; [exact Hwf|].
  destruct (setBitmaps_reloads_every_layer [Some sampleBitmap] init Hwf) as (_ & H & _).
  refine (proj2 (H 0 sampleTexture (mkImage 64 64 7) _ _ eq_refl)).
  - unfold TILESET_LAYER_COUNT. lia.
  - exists sampleBitmap, (mkImage 64 64 7). repeat split; done.
Defined.

(** ** The water meshes of a rebuild *)

Lemma buildWaterTypeMesh_eq env sn key idx data tex tw th ax ay wf ks this :
  mesh_get key (_meshes (_buildWaterTypeMesh env sn key idx data tex tw th ax ay wf ks this))
  = Some (waterMeshOf env data tex tw th ax ay idx wf ks (maxDrawZAt key (_meshes this))).
Proof.
  unfold _buildWaterTypeMesh. cbn [_meshes]. rewrite mesh_get_set_eq.
  unfold waterMeshOf, maxDrawZAt. f_equal. f_equal.
  - apply stores_perRect; [intros; apply posBlock_length | rewrite make_length; lia].
  - f_equal. apply (stores_perRect 18 (fun _ => normalBlock));
      [intros; apply normalBlock_length | rewrite make_length; lia].
  - f_equal. apply stores_perRect; [intros; apply waterUvBlock_length|].
    rewrite make_length. lia.
  - f_equal. apply stores_perRect; [intros; apply waterBoundsBlock_length|].
    rewrite make_length. lia.
Qed.

Lemma groupKey_eqb_eq a b : groupKey_eqb a b = true ↔ a = b.
Proof.
  destruct a as [w k], b as [w' k']. unfold groupKey_eqb. cbn [fst snd].
  rewrite andb_true_iff, Bool.eqb_true_iff, Z.eqb_eq. split; [by intros [-> ->] | by intros [= -> ->]].
Qed.

Lemma groupKey_eqb_refl a : groupKey_eqb a a = true.
Proof. by apply groupKey_eqb_eq. Qed.

Lemma groupKey_eqb_ne a b : a ≠ b → groupKey_eqb a b = false.
Proof.
  intros H. destruct (groupKey_eqb a b) eqn:E; [|done]. by apply groupKey_eqb_eq in E.
Qed.

Lemma group_get_set_eq k g gs : group_get k (group_set k g gs) = Some g.
Proof.
  unfold group_get. induction gs as [|[k' g'] gs IH]; simpl.
  - by rewrite groupKey_eqb_refl.
  - destruct (groupKey_eqb k k') eqn:E; simpl.
    + by rewrite groupKey_eqb_refl.
    + by rewrite E.
Qed.

Lemma group_get_set_ne k0 k g gs :
  k0 ≠ k → group_get k0 (group_set k g gs) = group_get k0 gs.
Proof.
  intros Hne. unfold group_get. induction gs as [|[k' g'] gs IH]; simpl.
  - by rewrite groupKey_eqb_ne.
  - destruct (groupKey_eqb k k') eqn:E; simpl.
    + apply groupKey_eqb_eq in E as <-. by rewrite !groupKey_eqb_ne.
    + destruct (groupKey_eqb k0 k'); [done | exact IH].
Qed.

Lemma group_set_keys k g gs :
  NoDup (List.map fst gs) → NoDup (List.map fst (group_set k g gs)).
Proof.
  induction gs as [|[k' g'] gs IH]; cbn [group_set List.map fst]; intros Hnd.
  - apply NoDup_singleton.
  - apply NoDup_cons in Hnd as [Hk' Hnd].
    destruct (groupKey_eqb k k') eqn:E; cbn [List.map fst].
    + apply groupKey_eqb_eq in E as ->. by apply NoDup_cons.
    + apply NoDup_cons. split; [|by apply IH].
      intros Hin. apply Hk'. clear -Hin E.
      induction gs as [|[k1 g1] gs IH]; cbn [group_set List.map fst] in *.
      * apply list_elem_of_In in Hin as [->|[]]. by rewrite groupKey_eqb_refl in E.
      * destruct (groupKey_eqb k k1) eqn:E1; cbn [List.map fst] in *.
        -- apply groupKey_eqb_eq in E1 as ->. done.
        -- apply elem_of_cons in Hin as [->|Hin]; [by left|]. right. by apply IH.
Qed.

Lemma groupStep_eq ws data gs ci :
  groupStep ws data gs ci
  = if waterTest ws data ci then
      let wf := isWaterfallRect ws (animXOf data ci) (animYOf data ci) in
      let k := kindOf data ci in
      let g0 := default (mkKindGroup [] wf (kindsOf k)) (group_get (wf, k) gs) in
      group_set (wf, k)
        (mkKindGroup (g_indices g0 ++ [ci]) (g_isWaterfall g0)
           (if (0 <=? k)%Z && negb (existsb (Z.eqb k) (g_kinds g0))
            then g_kinds g0 ++ [k] else g_kinds g0)) gs
    else gs.
Proof.
  unfold groupStep, waterTest, kindsOf.
  destruct (isWaterRect ws (animXOf data ci) (animYOf data ci)); cbn [negb andb]; [|done].
  destruct (Z.leb_spec 0 (kindOf data ci)) as [Hge|Hlt].
  - assert ((kindOf data ci <? 0)%Z = false) as -> by (apply Z.ltb_ge; lia).
    cbn [andb orb]. by destruct (isKindEnabled ws (kindOf data ci)).
  - assert ((kindOf data ci <? 0)%Z = true) as -> by (apply Z.ltb_lt; lia).
    reflexivity.
Qed.

(** The grouping loop of [_buildWaterMesh] over the rects [l]: one group per
    kind and waterfall flag that occurs among the water rects, holding those
    rects in order. *)
Lemma groups_prefix ws data (l : list nat) :
  let gs := foldl (groupStep ws data) [] l in
  let sel wf k :=
    List.filter (fun ci =>
        waterTest ws data ci
        && Bool.eqb (isWaterfallRect ws (animXOf data ci) (animYOf data ci)) wf
        && (kindOf data ci =? k)%Z) l in
  NoDup (List.map fst gs)
  ∧ ∀ wf k, group_get (wf, k) gs
            = match sel wf k with
              | [] => None
              | _ => Some (mkKindGroup (sel wf k) wf (kindsOf k))
              end.
Proof.
  induction l as [|ci l IH] using rev_ind; intros gs sel; subst gs sel.
  - split; [constructor | done].
  - cbv zeta in IH. destruct IH as [Hnd Hget].
    rewrite foldl_app. cbn [foldl].
    set (gs := foldl (groupStep ws data) [] l) in *.
    rewrite groupStep_eq.
    destruct (waterTest ws data ci) eqn:Ew.
    2:{ split; [done|]. intros wf k. rewrite List.filter_app. cbn [List.filter].
        rewrite Ew. cbn [andb]. rewrite app_nil_r. apply Hget. }
    cbv zeta.
    set (wf0 := isWaterfallRect ws (animXOf data ci) (animYOf data ci)) in *.
    set (k0 := kindOf data ci) in *.
    split; [by apply group_set_keys|].
    assert (Hg0 : default (mkKindGroup [] wf0 (kindsOf k0)) (group_get (wf0, k0) gs)
                  = mkKindGroup
                      (List.filter (fun ci =>
                         waterTest ws data ci
                         && Bool.eqb (isWaterfallRect ws (animXOf data ci) (animYOf data ci)) wf0
                         && (kindOf data ci =? k0)%Z) l)
                      wf0 (kindsOf k0)).
    { rewrite Hget. by destruct (List.filter _ l). }
    rewrite Hg0. cbn [g_indices g_isWaterfall g_kinds].
    assert (Hk1 : (if (0 <=? k0)%Z && negb (existsb (Z.eqb k0) (kindsOf k0))
                   then kindsOf k0 ++ [k0] else kindsOf k0) = kindsOf k0).
    { unfold kindsOf. destruct (0 <=? k0)%Z; [|done]. cbn. by rewrite Z.eqb_refl. }
    rewrite Hk1.
    intros wf k. rewrite List.filter_app. cbn [List.filter].
    rewrite Ew. cbn [andb]. fold wf0 k0.
    destruct (decide ((wf, k) = (wf0, k0))) as [[= -> ->]|Hne].
    + rewrite group_get_set_eq, eqb_reflx, Z.eqb_refl. cbn [andb].
      by destruct (List.filter _ l).
    + rewrite group_get_set_ne by done.
      assert (Bool.eqb wf0 wf && (k0 =? k)%Z = false) as ->.
      { apply andb_false_iff.
        destruct (Bool.eqb wf0 wf) eqn:E1; [|by left]. right.
        apply Bool.eqb_prop in E1 as ->. apply Z.eqb_neq. congruence. }
      rewrite app_nil_r. apply Hget.
Qed.

Lemma buildGroups_other env sn data tex tw th ax ay wf k
    (gs : list ((bool * Z) * KindGroup)) this :
  ¬ In (wf, k) (List.map fst gs) →
  mesh_get (WaterKey sn wf k)
    (_meshes (foldl (fun acc kg =>
                if 0 <? length (g_indices (snd kg)) then
                  _buildWaterTypeMesh env sn (WaterKey sn (fst (fst kg)) (snd (fst kg)))
                    (g_indices (snd kg)) data tex tw th ax ay
                    (g_isWaterfall (snd kg)) (g_kinds (snd kg)) acc
                else acc) this gs))
  = mesh_get (WaterKey sn wf k) (_meshes this).
Proof.
  revert this. induction gs as [|[[wf' k'] g] gs IH]; intros this Hni; [done|].
  cbn [foldl fst snd]. cbn [List.map fst In] in Hni.
  rewrite IH by tauto.
  destruct (0 <? _); [|done]. apply buildWaterTypeMesh_meshes.
  intros [= -> ->]. tauto.
Qed.

Lemma buildGroups_key env sn data tex tw th ax ay wf k
    (gs : list ((bool * Z) * KindGroup)) this :
  NoDup (List.map fst gs) →
  mesh_get (WaterKey sn wf k)
    (_meshes (foldl (fun acc kg =>
                if 0 <? length (g_indices (snd kg)) then
                  _buildWaterTypeMesh env sn (WaterKey sn (fst (fst kg)) (snd (fst kg)))
                    (g_indices (snd kg)) data tex tw th ax ay
                    (g_isWaterfall (snd kg)) (g_kinds (snd kg)) acc
                else acc) this gs))
  = match group_get (wf, k) gs with
    | Some g =>
        if 0 <? length (g_indices g)
        then Some (waterMeshOf env data tex tw th ax ay (g_indices g) (g_isWaterfall g)
                     (g_kinds g) (maxDrawZAt (WaterKey sn wf k) (_meshes this)))
        else mesh_get (WaterKey sn wf k) (_meshes this)
    | None => mesh_get (WaterKey sn wf k) (_meshes this)
    end.
Proof.
  revert this. induction gs as [|[[wf' k'] g] gs IH]; intros this Hnd; [done|].
  cbn [List.map fst] in Hnd. apply NoDup_cons in Hnd as [Hni Hnd].
  cbn [foldl fst snd]. unfold group_get. cbn [List.find fst snd].
  destruct (groupKey_eqb (wf, k) (wf', k')) eqn:E.
  - apply groupKey_eqb_eq in E as [= <- <-]. cbn [fmap option_fmap option_map].
    rewrite buildGroups_other by (intros H; by apply Hni, list_elem_of_In).
    cbn [snd]. destruct (0 <? length (g_indices g)); [|done]. apply buildWaterTypeMesh_eq.
  - fold (group_get (wf, k) gs). rewrite IH by done.
    assert (Hne : WaterKey sn wf k ≠ WaterKey sn wf' k').
    { intros [= -> ->]. by rewrite groupKey_eqb_refl in E. }
    assert (Hsame : mesh_get (WaterKey sn wf k)
                      (_meshes (if 0 <? length (g_indices g)
                                then _buildWaterTypeMesh env sn (WaterKey sn wf' k')
                                       (g_indices g) data tex tw th ax ay
                                       (g_isWaterfall g) (g_kinds g) this
                                else this))
                    = mesh_get (WaterKey sn wf k) (_meshes this)).
    { destruct (0 <? _); [|done]. by apply buildWaterTypeMesh_meshes. }
    unfold maxDrawZAt. by rewrite Hsame.
Qed.

(** The mesh [_buildWaterMesh] leaves under the key of kind [k]: built from
    the water rects of that kind and waterfall flag, or left as it was when
    there are none. *)
Lemma buildWaterMesh_key env ws sn data tex tw th ax ay this wf k :
  mesh_get (WaterKey sn wf k)
    (_meshes (_buildWaterMesh env ws sn data tex tw th ax ay this))
  = match waterRectsOf ws data wf k with
    | [] => mesh_get (WaterKey sn wf k) (_meshes this)
    | _ => Some (waterMeshOf env data tex tw th ax ay (waterRectsOf ws data wf k) wf
                   (kindsOf k) (maxDrawZAt (WaterKey sn wf k) (_meshes this)))
    end.
Proof.
  unfold _buildWaterMesh, waterGroups.
  destruct (groups_prefix ws data (seq 0 (count data))) as [Hnd Hget].
  rewrite buildGroups_key by exact Hnd. rewrite Hget. fold (waterRectsOf ws data wf k).
  destruct (waterRectsOf ws data wf k); [done|]. reflexivity.
Qed.

(** [hasWaterBySet] is empty or holds the one key of set 0, and it is empty
    only if no rect met on the way was water-classified. *)
Lemma classifyRect_hasWater env sn data a h (l : list nat) :
  h = [] ∨ h = [(0%Z, true)] →
  let h' := snd (foldl (classifyRect env sn data) (a, h) l) in
  (h' = [] ∨ h' = [(0%Z, true)])
  ∧ (h ≠ [] → h' ≠ [])
  ∧ (h' = [] → ∀ ci, In ci l → isWaterClassified env sn data ci = false).
Proof.
  revert a h. induction l as [|ci l IH]; intros a h Hh h'; subst h'.
  - cbn. split; [done|]. split; [done|]. by intros _ ci [].
  - cbn [foldl].
    destruct (isWaterClassified env sn data ci) eqn:E.
    + assert (Hc : classifyRect env sn data (a, h) ci = (a, Obj.set sn true h))
        by (unfold classifyRect; by rewrite E).
      rewrite Hc. pose proof (isWaterClassified_set _ _ _ _ E) as ->.
      assert (Hset : Obj.set 0%Z true h = [(0%Z, true)]) by (by destruct Hh as [->| ->]).
      rewrite Hset. destruct (IH a [(0%Z, true)] ltac:(by right)) as (H1 & H2 & H3).
      split; [exact H1|]. split; [intros _; by apply H2|].
      intros H'. exfalso. by apply H2.
    + assert (Hc : classifyRect env sn data (a, h) ci
                   = (a ++ [mkUnifiedRect sn ci (drawZOf data ci)], h))
        by (unfold classifyRect; by rewrite E).
      rewrite Hc.
      destruct (IH (a ++ [mkUnifiedRect sn ci (drawZOf data ci)]) h Hh) as (H1 & H2 & H3).
      split; [exact H1|]. split; [exact H2|].
      intros H' ci' [<-|Hin]; [exact E | by apply H3].
Qed.

Lemma classify_hasWater env acc (entries : list (Z * RectSet)) :
  c_hasWaterBySet acc = [] ∨ c_hasWaterBySet acc = [(0%Z, true)] →
  let h' := c_hasWaterBySet (foldl (classifySet env) acc entries) in
  (h' = [] ∨ h' = [(0%Z, true)])
  ∧ (c_hasWaterBySet acc ≠ [] → h' ≠ [])
  ∧ (h' = [] → ∀ data ci, In (0%Z, data) entries → ci < count data →
                 isWaterClassified env 0 data ci = false).
Proof.
  revert acc. induction entries as [|[sn data] entries IH]; intros acc Hh h'; subst h'.
  - cbn. split; [done|]. split; [done|]. by intros _ data ci [].
  - cbn [foldl].
    assert (Hstep : let h1 := c_hasWaterBySet (classifySet env acc (sn, data)) in
              (h1 = [] ∨ h1 = [(0%Z, true)])
              ∧ (c_hasWaterBySet acc ≠ [] → h1 ≠ [])
              ∧ (h1 = [] → sn = 0%Z → ∀ ci, ci < count data →
                   isWaterClassified env sn data ci = false)).
    { unfold classifySet. cbn [fst snd].
      destruct (Nat.eqb_spec (count data) 0) as [H0|Hn0].
      { split; [done|]. split; [done|]. intros _ _ ci Hci. lia. }
      destruct (Z.eqb_spec sn (-1)) as [->|Hne]; cbn [c_hasWaterBySet].
      { split; [done|]. split; [done|]. intros _ [=]. }
      destruct (classifyRect_hasWater env sn data (c_allRects acc) (c_hasWaterBySet acc)
                  (seq 0 (count data)) Hh) as (H1 & H2 & H3).
      split; [exact H1|]. split; [exact H2|].
      intros H' _ ci Hci. apply H3; [exact H'|]. apply in_seq. lia. }
    cbv zeta in Hstep. destruct Hstep as (S1 & S2 & S3).
    destruct (IH (classifySet env acc (sn, data)) S1) as (H1 & H2 & H3).
    split; [exact H1|]. split; [intros Hne; by apply H2, S2|].
    intros H' data' ci [[= -> ->]|Hin] Hci.
    + apply S3; [|done|done].
      destruct (c_hasWaterBySet (classifySet env acc (0%Z, data'))) eqn:E; [done|].
      exfalso. by apply H2.
    + by apply (H3 H' data' ci).
Qed.

Lemma filter_none {A} (f : A → bool) (l : list A) :
  (∀ x, In x l → f x = false) → List.filter f l = [].
Proof.
  induction l as [|x l IH]; intros H; [done|]. cbn [List.filter].
  rewrite (H x) by (by left). apply IH. intros y Hy. apply H. by right.
Qed.

Lemma maxDrawZAt_hidden key ms :
  maxDrawZAt key (List.map (fun kv => (fst kv, hideMesh (snd kv))) ms) = maxDrawZAt key ms.
Proof. unfold maxDrawZAt. rewrite mesh_get_hidden. by destruct (mesh_get key ms). Qed.

(** The water mesh of kind [k] after a rebuild, when the water module is
    there and tileset 0 has a texture with an image. *)
Lemma rebuild_water_mesh env ws this tex img wf k :
  waterShader env = Some ws →
  _extractThreeTexture (bitmapAt (_bitmaps this) 0) = Some tex → image tex = Some img →
  mesh_get (WaterKey 0 wf k) (_meshes (rebuild env this))
  = match waterRectsOf ws (setOf (_rectData this) 0) wf k with
    | [] => hideMesh <$> mesh_get (WaterKey 0 wf k) (_meshes this)
    | _ => Some (waterMeshOf env (setOf (_rectData this) 0) (nearestOf tex)
                   (dimOr1 (width img)) (dimOr1 (height img))
                   (_tileAnimX this) (_tileAnimY this)
                   (waterRectsOf ws (setOf (_rectData this) 0) wf k) wf (kindsOf k)
                   (maxDrawZAt (WaterKey 0 wf k) (_meshes this)))
    end.
Proof.
  intros Hws Htex Himg. rewrite rebuild_unfold.
  destruct (classify_hasWater env (mkClassified (hidden this) [] [])
              (_rectData (hidden this)) (or_introl eq_refl)) as (Hh & _ & Hnone).
  cbv zeta in Hh, Hnone. fold (classified env (hidden this)) in Hh, Hnone.
  destruct (classified_frame env (hidden this)) as (Hin & _ & _).
  assert (Hm : ∀ key, key ≠ ShadowKey →
            mesh_get key (_meshes (c_this (classified env (hidden this))))
            = hideMesh <$> mesh_get key (_meshes this)).
  { intros key Hk. unfold classified.
    rewrite (foldl_preserves (classifySet env)
               (fun c => mesh_get key (_meshes (c_this c))))
      by (intros; by apply classifySet_meshes_other).
    cbn [c_this hidden _meshes]. apply mesh_get_hidden. }
  set (c := classified env (hidden this)) in *. clearbody c.
  set (this2 := _buildUnifiedMesh env (sortByDrawZ (c_allRects c))
                  (_tileAnimX this) (_tileAnimY this) (c_this c)).
  assert (Hm2 : _meshes this2 = _meshes (c_this c)) by reflexivity.
  assert (Hr2 : _rectData this2 = _rectData this).
  { unfold inputs in Hin. by injection Hin. }
  assert (Hb2 : _bitmaps this2 = _bitmaps this).
  { unfold inputs in Hin. by injection Hin. }
  clearbody this2.
  assert (Hz : maxDrawZAt (WaterKey 0 wf k) (_meshes this2)
               = maxDrawZAt (WaterKey 0 wf k) (_meshes this)).
  { unfold maxDrawZAt. rewrite Hm2, Hm by done. by destruct (mesh_get _ (_meshes this)). }
  destruct Hh as [Hh|Hh]; rewrite Hh; cbn [foldl].
  - rewrite Hm2, Hm by done.
    assert (Hsel : waterRectsOf ws (setOf (_rectData this) 0) wf k = []).
    { unfold waterRectsOf. apply filter_none.
      intros ci Hci%in_seq. unfold setOf in *.
      destruct (Obj.get 0%Z (_rectData this)) as [d|] eqn:Eg; simpl in Hci |- *;
        [|lia].
      apply Obj_get_Some_In in Eg.
      pose proof (Hnone Hh d ci Eg ltac:(lia)) as Hw.
      unfold isWaterClassified in Hw. rewrite Hws in Hw. cbn in Hw. by rewrite Hw. }
    by rewrite Hsel.
  - unfold buildWaterOfSet. cbn [fst]. rewrite Hws, Hb2, Htex, Himg.
    rewrite buildWaterMesh_key. unfold rectSetOf.
    rewrite (proj2 (proj2 (proj2 (makeNearest_frame tex this2)))).
    rewrite Hr2, Hz, Hm2, Hm by done.
    reflexivity.
Qed.

Lemma sorted_filter_seq (f : nat → bool) (s n : nat) :
  StronglySorted lt (List.filter f (seq s n)).
Proof.
  revert s. induction n as [|n IH]; intros s; cbn [seq List.filter]; [constructor|].
  destruct (f s); [|apply IH]. constructor; [apply IH|].
  apply List.Forall_forall. intros x [Hx _]%filter_In. apply in_seq in Hx. lia.
Qed.

Lemma ensure_rebuild_inputs this :
  _rectData (fst (_ensureArrayTexture this)) = _rectData this
  ∧ _bitmaps (fst (_ensureArrayTexture this)) = _bitmaps this
  ∧ _meshes (fst (_ensureArrayTexture this)) = _meshes this
  ∧ _tileAnimX (fst (_ensureArrayTexture this)) = _tileAnimX this
  ∧ _tileAnimY (fst (_ensureArrayTexture this)) = _tileAnimY this.
Proof. repeat split; reflexivity. Qed.

Lemma flush_water_mesh env ws this tex img wf k :
  _needsRebuild this = true → waterShader env = Some ws →
  _extractThreeTexture (bitmapAt (_bitmaps this) 0) = Some tex → image tex = Some img →
  mesh_get (WaterKey 0 wf k) (_meshes (_flush env this))
  = match waterRectsOf ws (setOf (_rectData this) 0) wf k with
    | [] => hideMesh <$> mesh_get (WaterKey 0 wf k) (_meshes this)
    | _ => Some (waterMeshOf env (setOf (_rectData this) 0) (nearestOf tex)
                   (dimOr1 (width img)) (dimOr1 (height img))
                   (_tileAnimX this) (_tileAnimY this)
                   (waterRectsOf ws (setOf (_rectData this) 0) wf k) wf (kindsOf k)
                   (maxDrawZAt (WaterKey 0 wf k) (_meshes this)))
    end.
Proof.
  intros Hd Hws Htex Himg. rewrite (flush_dirty env this Hd).
  destruct (ensure_rebuild_inputs this) as (Hr & Hb & Hm & Hx & Hy).
  set (this1 := fst (_ensureArrayTexture this)) in *. clearbody this1.
  rewrite <- Hb in Htex. rewrite (rebuild_water_mesh env ws this1 tex img wf k Hws Htex Himg).
  by rewrite Hr, Hm, Hx, Hy.
Qed.

(** X10. Where the water rects go.  After a [flush] that rebuilds, with the
    water module present and a texture with an image bound as tileset 0, the
    water mesh of set 0 for kind [k], waterfall or not, is built from exactly
    the rects of set 0 that pass the water test, have that kind and that
    waterfall flag, in ascending index: it is visible, textured with
    tileset 0 and tagged with its kind (no kind when [k] is negative).  When
    there is no such rect the mesh that was under the key is hidden. *)
Theorem water_rects_by_kind (env : Env) (ws : WaterShader) (this : Layer)
    (tex : Texture) (img : Image) (wf : bool) (k : Z) :
  _needsRebuild this = true → waterShader env = Some ws →
  _extractThreeTexture (bitmapAt (_bitmaps this) 0) = Some tex → image tex = Some img →
  let data := setOf (_rectData this) 0 in
  let sel := waterRectsOf ws data wf k in
  let key := WaterKey 0 wf k in
  (∀ ci, In ci sel ↔
         ci < count data ∧ waterTest ws data ci = true
         ∧ isWaterfallRect ws (animXOf data ci) (animYOf data ci) = wf
         ∧ kindOf data ci = k)
  ∧ StronglySorted lt sel
  ∧ (sel = [] →
       mesh_get key (_meshes (_flush env this)) = hideMesh <$> mesh_get key (_meshes this))
  ∧ (sel ≠ [] →
       mesh_get key (_meshes (_flush env this))
       = Some (waterMeshOf env data (nearestOf tex) (dimOr1 (width img))
                 (dimOr1 (height img))
                 (_tileAnimX this) (_tileAnimY this) sel wf (kindsOf k)
                 (maxDrawZAt key (_meshes this)))).
Proof.
  intros Hd Hws Htex Himg data sel key.
  pose proof (flush_water_mesh env ws this tex img wf k Hd Hws Htex Himg) as H.
  fold data sel key in H.
  split; [|split; [apply sorted_filter_seq|]].
  - intros ci. unfold sel, waterRectsOf. rewrite filter_In, in_seq, !andb_true_iff.
    rewrite Bool.eqb_true_iff, Z.eqb_eq. split; [intros [? [[? ?] ?]] | intros (? & ? & ? & ?)];
      repeat split; (done || lia).
  - split.
    + intros Hnil. by rewrite Hnil in H.
    + intros Hne. destruct sel; [done | exact H].
Qed.

Lemma water_rects_by_kind_witness :
  _needsRebuild twoWaterRects = true ∧ waterShader waterEnv = Some sampleWater
  ∧ _extractThreeTexture (bitmapAt (_bitmaps twoWaterRects) 0) = Some sampleTexture
  ∧ image sampleTexture = Some (mkImage 64 64 7)
  ∧ waterRectsOf sampleWater (setOf (_rectData twoWaterRects) 0) false 3 = [0]
  ∧ StronglySorted lt (waterRectsOf sampleWater (setOf (_rectData twoWaterRects) 0) false 3).
Proof.
  assert (H1 : _needsRebuild twoWaterRects = true) by reflexivity.
  assert (H2 : waterShader waterEnv = Some sampleWater) by reflexivity.
  assert (H3 : _extractThreeTexture (bitmapAt (_bitmaps twoWaterRects) 0)
               = Some sampleTexture) by reflexivity.
  assert (H4 : image sampleTexture = Some (mkImage 64 64 7)) by reflexivity.
  split; [exact H1|]. split; [exact H2|]. split; [exact H3|]. split; [exact H4|].
  split; [vm_compute; reflexivity|].
  exact (proj1 (proj2 (water_rects_by_kind waterEnv sampleWater twoWaterRects sampleTexture
                         (mkImage 64 64 7) false 3 H1 H2 H3 H4))).
Defined.

Lemma posBlock_lookup data i z (j : nat) :
  j < 6 →
  List.map Num.fround (posBlock data i z) !! (j * 3)
  = Some (Num.fround (F32.load (positions data) (i * 12 + j * 2)))
  ∧ List.map Num.fround (posBlock data i z) !! (j * 3 + 1)
    = Some (Num.fround (F32.load (positions data) (i * 12 + j * 2 + 1)))
  ∧ List.map Num.fround (posBlock data i z) !! (j * 3 + 2) = Some (Num.fround z).
Proof.
  intros Hj. destruct j as [|[|[|[|[|[|j]]]]]]; try lia; repeat split; reflexivity.
Qed.

Lemma waterUvBlock_lookup data i tw th ax ay (j : nat) :
  j < 6 →
  List.map Num.fround (waterUvBlock data i tw th ax ay) !! (j * 2)
  = Some (Num.fround ((F32.load (uvs data) (i * 12 + j * 2) + animXOf data i * ax) / tw))
  ∧ List.map Num.fround (waterUvBlock data i tw th ax ay) !! (j * 2 + 1)
    = Some (Num.fround (1 - (F32.load (uvs data) (i * 12 + j * 2 + 1)
                             + animYOf data i * ay) / th)).
Proof.
  intros Hj. destruct j as [|[|[|[|[|[|j]]]]]]; try lia; split; reflexivity.
Qed.

(** X11. The vertices of a water mesh.  After a [flush] that rebuilds, vertex
    [j] of the [ni]-th rect of the water mesh of kind [k] carries the stored
    position of rect [i], the [ni]-th water rect of that kind, with
    [z = -drawZ * 0.01] when tile layer elevation is on (in 2D and in 3D
    mode alike) and 0 otherwise, and the UV
    [((u + animX * phaseX) / texW, 1 - (v + animY * phaseY) / texH)], flipped
    to a bottom origin and normalised by the size of tileset 0's own image
    (1 for a dimension of 0), each as the [Float32Array] holds it. *)
Theorem water_mesh_vertices (env : Env) (ws : WaterShader) (this : Layer)
    (tex : Texture) (img : Image) (wf : bool) (k : Z) (ni i j : nat) :
  _needsRebuild this = true → waterShader env = Some ws →
  _extractThreeTexture (bitmapAt (_bitmaps this) 0) = Some tex → image tex = Some img →
  let data := setOf (_rectData this) 0 in
  waterRectsOf ws data wf k !! ni = Some i → j < 6 →
  let texW := Num.of_Z (if (width img =? 0)%Z then 1%Z else width img) in
  let texH := Num.of_Z (if (height img =? 0)%Z then 1%Z else height img) in
  let z := if tileLayerElevation env
           then (- Num.of_Z (drawZOf data i) * 0x1.47ae147ae147bp-7)%float else 0%float in
  ∃ m a, mesh_get (WaterKey 0 wf k) (_meshes (_flush env this)) = Some m
    ∧ visible m = true ∧ uv m = Some a
    ∧ position m !! (ni * 18 + j * 3)
      = Some (Num.fround (F32.load (positions data) (i * 12 + j * 2)))
    ∧ position m !! (ni * 18 + j * 3 + 1)
      = Some (Num.fround (F32.load (positions data) (i * 12 + j * 2 + 1)))
    ∧ position m !! (ni * 18 + j * 3 + 2) = Some (Num.fround z)
    ∧ a !! (ni * 12 + j * 2)
      = Some (Num.fround ((F32.load (uvs data) (i * 12 + j * 2)
                           + animXOf data i * _tileAnimX this) / texW))
    ∧ a !! (ni * 12 + j * 2 + 1)
      = Some (Num.fround (1 - (F32.load (uvs data) (i * 12 + j * 2 + 1)
                               + animYOf data i * _tileAnimY this) / texH)).
Proof.
  intros Hd Hws Htex Himg data Hni Hj texW texH z.
  pose proof (flush_water_mesh env ws this tex img wf k Hd Hws Htex Himg) as H.
  fold data in H.
  destruct (waterRectsOf ws data wf k) as [|i0 sel] eqn:E; [done|].
  rewrite H. eexists _, _. split; [reflexivity|].
  cbn [waterMeshOf visible uv position]. split; [done|]. split; [reflexivity|].
  destruct (posBlock_lookup data i (zOffset (tileLayerElevation env) (drawZOf data i)) j Hj)
    as (P0 & P1 & P2).
  destruct (waterUvBlock_lookup data i (dimOr1 (width img)) (dimOr1 (height img))
              (_tileAnimX this) (_tileAnimY this) j Hj) as (U0 & U1).
  replace (ni * 18 + j * 3 + 1) with (ni * 18 + (j * 3 + 1)) by lia.
  replace (ni * 18 + j * 3 + 2) with (ni * 18 + (j * 3 + 2)) by lia.
  replace (ni * 12 + j * 2 + 1) with (ni * 12 + (j * 2 + 1)) by lia.
  rewrite !(lookup_flat_map_blocks 18 _ _ ni _ i) by (done || lia).
  rewrite !(lookup_flat_map_blocks 12 _ _ ni _ i) by (done || lia).
  split; [exact P0|]. split; [exact P1|]. split; [exact P2|].
  split; [exact U0 | exact U1].
Qed.

Lemma water_mesh_vertices_witness :
  _needsRebuild twoWaterRects = true ∧ waterShader waterEnv = Some sampleWater
  ∧ _extractThreeTexture (bitmapAt (_bitmaps twoWaterRects) 0) = Some sampleTexture
  ∧ image sampleTexture = Some (mkImage 64 64 7)
  ∧ waterRectsOf sampleWater (setOf (_rectData twoWaterRects) 0) false (-1) !! 0 = Some 1
  ∧ 1 < 6
  ∧ ∃ m a, mesh_get (WaterKey 0 false (-1)) (_meshes (_flush waterEnv twoWaterRects)) = Some m
      ∧ uv m = Some a ∧ a !! 2 = Some 1%float ∧ a !! 3 = Some 1%float.
Proof.
  assert (H1 : _needsRebuild twoWaterRects = true) by reflexivity.
  assert (H2 : waterShader waterEnv = Some sampleWater) by reflexivity.
  assert (H3 : _extractThreeTexture (bitmapAt (_bitmaps twoWaterRects) 0)
               = Some sampleTexture) by reflexivity.
  assert (H4 : image sampleTexture = Some (mkImage 64 64 7)) by reflexivity.
  assert (H5 : waterRectsOf sampleWater (setOf (_rectData twoWaterRects) 0) false (-1) !! 0
               = Some 1) by (vm_compute; reflexivity).
  assert (H6 : 1 < 6) by lia.
  split; [exact H1|]. split; [exact H2|]. split; [exact H3|]. split; [exact H4|].
  split; [exact H5|]. split; [exact H6|].
  destruct (water_mesh_vertices waterEnv sampleWater twoWaterRects sampleTexture
              (mkImage 64 64 7) false (-1) 0 1 1 H1 H2 H3 H4 H5 H6)
    as (m & a & Hm & _ & Ha & _ & _ & _ & U0 & U1).
  cbn [Nat.mul Nat.add] in U0, U1.
  exists m, a. split; [exact Hm|]. split; [exact Ha|].
  split; [rewrite U0; vm_compute; reflexivity | rewrite U1; vm_compute; reflexivity].
Defined.

(** ** Water without a texture *)

Lemma buildWater_no_texture env ax ay this (h : list (Z * bool)) :
  onlyZero h →
  (∀ tex, _extractThreeTexture (bitmapAt (_bitmaps this) 0) = Some tex → image tex = None) →
  foldl (buildWaterOfSet env ax ay) this h = this.
Proof.
  intros Hz Hno. induction h as [|e h IH]; [done|]. cbn [foldl].
  assert (He : buildWaterOfSet env ax ay this e = this).
  { unfold buildWaterOfSet. rewrite (Hz (fst e)) by (by left).
    destruct (waterShader env); [|done].
    destruct (_extractThreeTexture _) as [tex|] eqn:E; [|done].
    by rewrite (Hno tex eq_refl). }
  rewrite He. apply IH. intros k Hk. apply Hz. by right.
Qed.

(** Without the water module, or without an image for tileset 0, a rebuild
    builds no water mesh. *)
Lemma buildWater_nothing env ax ay this (h : list (Z * bool)) :
  onlyZero h →
  waterShader env = None
  ∨ (∀ tex, _extractThreeTexture (bitmapAt (_bitmaps this) 0) = Some tex → image tex = None) →
  foldl (buildWaterOfSet env ax ay) this h = this.
Proof.
  intros Hz [Hws|Hno]; [|by apply buildWater_no_texture].
  induction h as [|e h IH]; [done|]. cbn [foldl].
  assert (He : buildWaterOfSet env ax ay this e = this).
  { unfold buildWaterOfSet. by rewrite Hws. }
  rewrite He. apply IH. intros k Hk. apply Hz. by right.
Qed.

Lemma rebuild_builds_no_water env this key :
  waterShader env = None
  ∨ (∀ tex, _extractThreeTexture (bitmapAt (_bitmaps this) 0) = Some tex → image tex = None) →
  key ≠ ShadowKey →
  mesh_get key (_meshes (rebuild env this)) = hideMesh <$> mesh_get key (_meshes this).
Proof.
  intros Hno Hk. rewrite rebuild_unfold.
  destruct (classified_frame env (hidden this)) as (Hin & _ & _).
  rewrite buildWater_nothing.
  - destruct (buildUnifiedMesh_frame env
                (sortByDrawZ (c_allRects (classified env (hidden this))))
                (_tileAnimX this) (_tileAnimY this)
                (c_this (classified env (hidden this)))) as (_ & _ & ->).
    unfold classified.
    rewrite (foldl_preserves (classifySet env)
               (fun c => mesh_get key (_meshes (c_this c))))
      by (intros; by apply classifySet_meshes_other).
    cbn [c_this hidden _meshes]. apply mesh_get_hidden.
  - apply classified_onlyZero.
  - destruct Hno as [Hws|Hno]; [by left | right].
    unfold inputs in Hin. injection Hin as _ Hb1 _ _ _.
    change (_bitmaps (_buildUnifiedMesh env
              (sortByDrawZ (c_allRects (classified env (hidden this))))
              (_tileAnimX this) (_tileAnimY this)
              (c_this (classified env (hidden this)))))
      with (_bitmaps (c_this (classified env (hidden this)))).
    rewrite Hb1. exact Hno.
Qed.

Lemma hidden_not_visible (o : option Mesh) : visible <$> (hideMesh <$> o) ≠ Some true.
Proof. by destruct o. Qed.

(** X12. Water needs the texture of tileset 0.  When a [flush] rebuilds
    and tileset 0 has no texture, or one without an image, no water mesh is
    built: every mesh but the shadow mesh is the mesh that was there, hidden.
    The rects that pass the water test are kept out of the unified batch all
    the same, so they are drawn nowhere. *)
Theorem water_without_texture_is_not_drawn (env : Env) (this : Layer) :
  wfLayer this → _needsRebuild this = true →
  (∀ tex, _extractThreeTexture (bitmapAt (_bitmaps this) 0) = Some tex → image tex = None) →
  (∀ key, key ≠ ShadowKey →
     mesh_get key (_meshes (_flush env this)) = hideMesh <$> mesh_get key (_meshes this))
  ∧ (∀ key m, key ≠ ShadowKey → mesh_get key (_meshes (_flush env this)) = Some m →
       visible m = false)
  ∧ ∃ rects, _unifiedRects (_flush env this) = Some rects
      ∧ ∀ r, In r rects →
          isWaterClassified env (r_setNumber r) (setOf (_rectData this) (r_setNumber r))
            (r_index r) = false.
Proof.
  intros [Hord _] Hd Hno.
  assert (Hm : ∀ key, key ≠ ShadowKey →
            mesh_get key (_meshes (_flush env this))
            = hideMesh <$> mesh_get key (_meshes this)).
  { intros key Hk. rewrite (flush_dirty env this Hd).
    rewrite rebuild_builds_no_water; [done | right; exact Hno | done]. }
  split; [exact Hm|]. split.
  - intros key m Hk Hget. rewrite (Hm key Hk) in Hget.
    destruct (mesh_get key (_meshes this)); [|done]. by injection Hget as <-.
  - eexists. split; [by apply flush_dirty_unifiedRects|].
    intros r Hr. apply (Permutation_in _ (Permutation_sym (sortByDrawZ_perm _))) in Hr.
    apply In_flatRects in Hr as (data & Hget & _ & _ & Hw & _);
      [|by apply Obj_ordered_NoDup].
    unfold setOf. by rewrite Hget.
Qed.

Lemma water_without_texture_is_not_drawn_witness :
  wfLayer (addRect 0 0 0 0 0 32 32 (Some 1%float) None None init)
  ∧ _needsRebuild (addRect 0 0 0 0 0 32 32 (Some 1%float) None None init) = true
  ∧ ∀ key m, key ≠ ShadowKey →
      mesh_get key (_meshes (_flush waterEnv
                      (addRect 0 0 0 0 0 32 32 (Some 1%float) None None init))) = Some m →
      visible m = false.
Proof.
  assert (Hwf : wfLayer (addRect 0 0 0 0 0 32 32 (Some 1%float) None None init))
    by (apply addRect_wf; split; constructor).
  assert (Hd : _needsRebuild (addRect 0 0 0 0 0 32 32 (Some 1%float) None None init) = true)
    by reflexivity.
  assert (Hno : ∀ tex, _extractThreeTexture
                         (bitmapAt (_bitmaps (addRect 0 0 0 0 0 32 32 (Some 1%float)
                                                None None init)) 0) = Some tex →
                       image tex = None) by (intros tex [=]).
  split; [exact Hwf|]. split; [exact Hd|].
  exact (proj1 (proj2 (water_without_texture_is_not_drawn waterEnv _ Hwf Hd Hno))).
Defined.

(** ** Where the added rects are after a flush *)

Lemma filter_seq_lookup {A} (f : nat → bool) (g : A → bool) (cs : list A) :
  (∀ i c, cs !! i = Some c → f i = g c) →
  Forall2 (fun i c => cs !! i = Some c)
    (List.filter f (seq 0 (length cs))) (List.filter g cs).
Proof.
  induction cs as [|c cs IH] using rev_ind; intros H; [constructor|].
  rewrite length_app. simpl. rewrite Nat.add_1_r, seq_S, !List.filter_app. simpl.
  apply Forall2_app.
  - eapply Forall2_impl; [apply IH|].
    + intros i c' Hi. apply H. by apply lookup_app_l_Some.
    + intros i c' Hi. by apply lookup_app_l_Some.
  - assert (Hc : (cs ++ [c]) !! length cs = Some c)
      by (rewrite lookup_app_r by lia; by rewrite Nat.sub_diag).
    rewrite (H _ _ Hc). destruct (g c); constructor; [done | constructor].
Qed.

Lemma flat_map_Forall2 {A B C} (R : A → B → Prop) (F : A → list C) (G : B → list C) l1 l2 :
  Forall2 R l1 l2 → (∀ a b, R a b → F a = G b) → flat_map F l1 = flat_map G l2.
Proof.
  intros H HFG. induction H as [|a b l1 l2 Hab _ IH]; [done|].
  cbn [flat_map]. by rewrite (HFG a b Hab), IH.
Qed.

(** The rects of a water mesh are the water calls of its kind. *)
Lemma holdsCalls_water env ws rectData calls wf k :
  waterShader env = Some ws → holdsCalls rectData calls →
  Forall2 (fun i c => callsTo 0 calls !! i = Some c)
    (waterRectsOf ws (setOf rectData 0) wf k) (waterCallsOf env wf k calls).
Proof.
  intros Hws Hold. unfold waterRectsOf, waterCallsOf.
  destruct (Hold 0%Z) as [Hcnt Hrect]. cbv zeta in Hcnt, Hrect. rewrite Hcnt.
  apply filter_seq_lookup. intros i c Hi.
  destruct (Hrect i c Hi) as (_ & _ & Hax & Hay & Hk & _).
  assert (Hsn : c_setNumber c = 0%Z).
  { apply list_elem_of_lookup_2, list_elem_of_In, filter_In in Hi as [_ Hi].
    by apply Z.eqb_eq. }
  unfold callIsWater, callIsWaterfall, waterTest, animXOf, animYOf, kindOf.
  rewrite Hws, Hsn, Hax, Hay, Hk, !orZero_idem. done.
Qed.

Lemma addCalls_bitmaps calls this : _bitmaps (addCalls calls this) = _bitmaps this.
Proof.
  induction calls as [|c calls IH] using rev_ind; [done|].
  unfold addCalls in *. rewrite foldl_app. cbn [foldl]. by rewrite <- IH.
Qed.

(** C1 (as amended). For any calls of [addRect] since the last [clear],
    after [flush]: the unified batch holds, once each and tagged
    [{setNumber, index, drawZ}], exactly the added rects that are neither of
    set -1 nor water-classified, where only rects of set 0 are ever
    water-classified; its mesh holds their quads; the shadow batch holds
    exactly the quads of the rects of set -1, in call order; when tileset 0
    has a texture with an image, the water mesh of set 0 for a kind and a
    waterfall flag holds exactly the quads of the water-classified rects of
    that kind and flag, in call order; when it has none, no mesh but the
    shadow mesh is visible, so the water-classified rects are drawn nowhere;
    an empty batch is not visible, and no other mesh is visible. *)
Theorem flush_partitions_added_rects (env : Env) (this0 : Layer) (calls : list Call) :
  wfLayer this0 →
  let this' := _flush env (addCalls calls (clear this0)) in
  let quadOf elevation c :=
    List.map Num.fround
      (vertices3 (List.map Num.fround (quad (c_x c) (c_y c) (c_w c) (c_h c)))
         (zOffset elevation (c_drawZ c))) in
  ∃ rects,
    _unifiedRects this' = Some rects
    ∧ NoDup rects
    ∧ (∀ r, In r rects ↔
         ∃ c, callsTo (r_setNumber r) calls !! r_index r = Some c
           ∧ r_setNumber r ≠ (-1)%Z ∧ callIsWater env c = false
           ∧ r_drawZ r = c_drawZ c)
    ∧ (∀ c, callIsWater env c = true → c_setNumber c = 0%Z)
    ∧ (rects = [] → u_visible <$> _unifiedMesh this' ≠ Some true)
    ∧ (rects ≠ [] →
         ∃ m, _unifiedMesh this' = Some m ∧ u_visible m = true
           ∧ length (u_position m) = length rects * 18
           ∧ ∀ ri r c, rects !! ri = Some r →
               callsTo (r_setNumber r) calls !! r_index r = Some c →
               take 18 (drop (ri * 18) (u_position m)) = quadOf (elevation2D env) c)
    ∧ (callsTo (-1) calls = [] →
         visible <$> mesh_get ShadowKey (_meshes this') ≠ Some true)
    ∧ (callsTo (-1) calls ≠ [] →
         ∃ m, mesh_get ShadowKey (_meshes this') = Some m ∧ visible m = true
           ∧ position m = flat_map (quadOf (elevation2D env)) (callsTo (-1) calls))
    ∧ (∀ tex img wf k,
         _extractThreeTexture (bitmapAt (_bitmaps this0) 0) = Some tex →
         image tex = Some img →
         (waterCallsOf env wf k calls = [] →
            visible <$> mesh_get (WaterKey 0 wf k) (_meshes this') ≠ Some true)
         ∧ (waterCallsOf env wf k calls ≠ [] →
              ∃ m, mesh_get (WaterKey 0 wf k) (_meshes this') = Some m ∧ visible m = true
                ∧ isWaterfall m = wf ∧ a1Kinds m = kindsOf k
                ∧ position m
                  = flat_map (quadOf (tileLayerElevation env)) (waterCallsOf env wf k calls)))
    ∧ ((∀ tex, _extractThreeTexture (bitmapAt (_bitmaps this0) 0) = Some tex →
               image tex = None) →
       ∀ key, key ≠ ShadowKey → visible <$> mesh_get key (_meshes this') ≠ Some true)
    ∧ (∀ key, visible <$> mesh_get key (_meshes this') = Some true →
         key = ShadowKey
         ∨ ∃ wf k, key = WaterKey 0 wf k ∧ waterCallsOf env wf k calls ≠ []).
Proof.
  intros Hwf0 this' quadOf.
  destruct (flush_unified_and_shadow env this0 calls Hwf0)
    as (rects & H1 & H2 & H3 & H4 & H5 & H6 & H7 & H8).
  fold this' in H1, H5, H6, H7, H8.
  exists rects.
  split; [exact H1|]. split; [exact H2|]. split; [exact H3|]. split; [exact H4|].
  split; [exact H5|]. split; [exact H6|]. split; [exact H7|]. split; [exact H8|].
  set (this := addCalls calls (clear this0)) in *.
  destruct (addCalls_holds calls (clear this0) (clear_wf _ Hwf0) (holdsCalls_clear this0))
    as [Hwf Hold]. fold this in Hwf, Hold.
  assert (Hdirty : _needsRebuild this = true) by (by apply addCalls_dirty).
  assert (Hb : _bitmaps this = _bitmaps this0) by (unfold this; by rewrite addCalls_bitmaps).
  assert (Hflush : this' = rebuild env (fst (_ensureArrayTexture this)))
    by (by apply flush_dirty).
  assert (Hnone : ∀ key,
            waterShader env = None
            ∨ (∀ tex, _extractThreeTexture (bitmapAt (_bitmaps this0) 0) = Some tex →
                      image tex = None) →
            key ≠ ShadowKey → visible <$> mesh_get key (_meshes this') ≠ Some true).
  { intros key Hno Hk. rewrite Hflush, rebuild_builds_no_water;
      [|rewrite (proj1 (proj2 (ensure_rebuild_inputs this))), Hb; exact Hno|done].
    apply hidden_not_visible. }
  assert (Hwater : ∀ tex img wf k,
            _extractThreeTexture (bitmapAt (_bitmaps this0) 0) = Some tex →
            image tex = Some img →
            (waterCallsOf env wf k calls = [] →
               visible <$> mesh_get (WaterKey 0 wf k) (_meshes this') ≠ Some true)
            ∧ (waterCallsOf env wf k calls ≠ [] →
                 ∃ m, mesh_get (WaterKey 0 wf k) (_meshes this') = Some m ∧ visible m = true
                   ∧ isWaterfall m = wf ∧ a1Kinds m = kindsOf k
                   ∧ position m
                     = flat_map (quadOf (tileLayerElevation env))
                         (waterCallsOf env wf k calls))).
  { intros tex img wf k Htex Himg.
    destruct (waterShader env) as [ws|] eqn:Hws.
    - rewrite <- Hb in Htex.
      pose proof (flush_water_mesh env ws this tex img wf k Hdirty Hws Htex Himg) as Hm.
      fold this' in Hm.
      pose proof (holdsCalls_water env ws (_rectData this) calls wf k Hws Hold) as Hsel.
      split.
      + intros Hnil. rewrite Hnil in Hsel. apply Forall2_nil_inv_r in Hsel.
        rewrite Hsel in Hm. rewrite Hm. apply hidden_not_visible.
      + intros Hne.
        destruct (waterRectsOf ws (setOf (_rectData this) 0) wf k) as [|i sel] eqn:E.
        { by apply Forall2_nil_inv_l in Hsel. }
        eexists. split; [exact Hm|]. cbn [waterMeshOf visible isWaterfall a1Kinds position].
        split; [done|]. split; [done|]. split; [done|].
        apply (flat_map_Forall2 _ _ _ _ _ Hsel). intros j c Hj.
        destruct (holdsCalls_rect env (_rectData this) calls _ _ c
                    (zOffset (tileLayerElevation env) (c_drawZ c)) Hold Hj)
          as (_ & _ & Hdz & _ & Hpos).
        rewrite Hdz. unfold quadOf. by rewrite Hpos.
    - split.
      + intros _. apply Hnone; [by left | done].
      + intros Hne. exfalso. apply Hne. unfold waterCallsOf. apply filter_none.
        intros c _. unfold callIsWater. rewrite Hws. by rewrite andb_false_r. }
  split; [exact Hwater|].
  split; [intros Hno key Hk; apply Hnone; [by right | done]|].
  intros key Hv.
  destruct key as [|sn wf k]; [by left | right].
  destruct (Z.eqb_spec sn 0) as [->|Hsn].
  - exists wf, k. split; [done|].
    destruct (_extractThreeTexture (bitmapAt (_bitmaps this0) 0)) as [tex|] eqn:Htex.
    + destruct (image tex) as [img|] eqn:Himg.
      * intros Hnil. by apply (proj1 (Hwater tex img wf k eq_refl Himg) Hnil).
      * exfalso. apply (Hnone (WaterKey 0 wf k)); [right|done|done].
        intros tex' [= <-]. exact Himg.
    + exfalso. apply (Hnone (WaterKey 0 wf k)); [right|done|done]. intros tex' [=].
  - exfalso. revert Hv. rewrite Hflush, rebuild_meshes_other; [|done|by apply Z.eqb_neq].
    apply hidden_not_visible.
Qed.

Lemma flush_partitions_added_rects_witness :
  wfLayer boundLayer
  ∧ ∃ rects m,
      _unifiedRects (_flush waterEnv (addCalls mixedCalls (clear boundLayer))) = Some rects
      ∧ NoDup rects
      ∧ (∀ r, In r rects ↔
           ∃ c, callsTo (r_setNumber r) mixedCalls !! r_index r = Some c
             ∧ r_setNumber r ≠ (-1)%Z ∧ callIsWater waterEnv c = false
             ∧ r_drawZ r = c_drawZ c)
      ∧ waterCallsOf waterEnv false (-1) mixedCalls
        = [mkCall 0 0 0 64 0 32 32 (Some 1%float) None None 0]
      ∧ mesh_get (WaterKey 0 false (-1))
          (_meshes (_flush waterEnv (addCalls mixedCalls (clear boundLayer)))) = Some m
      ∧ visible m = true
      ∧ position m
        = List.map Num.fround
            (vertices3 (List.map Num.fround (quad 64 0 32 32)) (zOffset false 0)).
Proof.
  assert (Hwf : wfLayer boundLayer).
  { apply (run_wf (OpSetBitmaps [Some sampleBitmap]) init). split; constructor. }
  assert (Hw : waterCallsOf waterEnv false (-1) mixedCalls
               = [mkCall 0 0 0 64 0 32 32 (Some 1%float) None None 0])
    by (vm_compute; reflexivity).
  split; [exact Hwf|].
  destruct (flush_partitions_added_rects waterEnv boundLayer mixedCalls Hwf)
    as (rects & H1 & H2 & H3 & _ & _ & _ & _ & _ & H9 & _).
  destruct (H9 sampleTexture (mkImage 64 64 7) false (-1)%Z eq_refl eq_refl) as [_ H9'].
  destruct (H9' ltac:(by rewrite Hw)) as (m & Hm & Hv & _ & _ & Hp).
  exists rects, m. split; [exact H1|]. split; [exact H2|]. split; [exact H3|].
  split; [exact Hw|]. split; [exact Hm|]. split; [exact Hv|].
  rewrite Hp, Hw. cbn [flat_map c_x c_y c_w c_h c_drawZ tileLayerElevation waterEnv].
  by rewrite app_nil_r.
Defined.

(** C1, as stated, fails: a rect of set 1 on which the water module's
    verdict is "water" is not excluded from the unified batch. *)
Lemma water_verdict_ignored_in_set_one :
  waterVerdict waterEnv (setOf (_rectData waterSignedInSetOne) 1) 0 = true
  ∧ _unifiedRects (_flush waterEnv waterSignedInSetOne) = Some [mkUnifiedRect 1 0 0].
Proof. split; vm_compute; reflexivity. Qed.

(** ** The texture of the water meshes *)

Lemma extract_touchBitmap id (b : option Bitmap) :
  _extractThreeTexture (touchBitmap id <$> b) = touchTexture id <$> _extractThreeTexture b.
Proof. destruct b as [[[t1|] [t2|] [t3|]]|]; reflexivity. Qed.

Lemma bitmapAt_touchBitmaps id bitmaps sn :
  bitmapAt (touchBitmaps id bitmaps) sn = touchBitmap id <$> bitmapAt bitmaps sn.
Proof.
  unfold bitmapAt, touchBitmaps. destruct (sn <? 0)%Z; [done|].
  rewrite list_lookup_fmap. by destruct (bitmaps !! Z.to_nat sn) as [[b|]|].
Qed.

Lemma touchTexture_self tex : touchTexture (tex_id tex) tex = setNearest tex.
Proof. unfold touchTexture. by rewrite Nat.eqb_refl. Qed.

(** The texture of tileset 0 after [makeNearest]. *)
Lemma makeNearest_texture tex this :
  _extractThreeTexture (bitmapAt (_bitmaps this) 0) = Some tex →
  _extractThreeTexture (bitmapAt (_bitmaps (makeNearest tex this)) 0) = Some (nearestOf tex).
Proof.
  intros Htex. unfold makeNearest, nearestOf. destruct (nearestFilter tex); [done|].
  cbn [with_bitmaps _bitmaps].
  by rewrite bitmapAt_touchBitmaps, extract_touchBitmap, Htex, <- touchTexture_self.
Qed.

Lemma rebuild_arrayTexture env this : _arrayTexture (rebuild env this) = _arrayTexture this.
Proof.
  assert (marks (rebuild env this)
          = (false, _tileAnimX this, _tileAnimY this, _arrayTexture this)) as H.
  { rewrite rebuild_unfold.
    rewrite (foldl_preserves _ marks) by (intros; apply buildWaterOfSet_frame).
    destruct (buildUnifiedMesh_frame env
                (sortByDrawZ (c_allRects (classified env (hidden this))))
                (_tileAnimX this) (_tileAnimY this)
                (c_this (classified env (hidden this)))) as (_ & -> & _).
    by destruct (classified_frame env (hidden this)) as (_ & -> & _). }
  unfold marks in H. by inversion H.
Qed.

(** The bitmaps after a rebuild that builds water meshes. *)
Lemma rebuild_bitmaps env ws this tex img ci :
  waterShader env = Some ws →
  _extractThreeTexture (bitmapAt (_bitmaps this) 0) = Some tex → image tex = Some img →
  ci < count (setOf (_rectData this) 0) → waterTest ws (setOf (_rectData this) 0) ci = true →
  _bitmaps (rebuild env this) = _bitmaps (makeNearest tex this).
Proof.
  intros Hws Htex Himg Hci Hw. rewrite rebuild_unfold.
  destruct (classify_hasWater env (mkClassified (hidden this) [] [])
              (_rectData (hidden this)) (or_introl eq_refl)) as (Hh & _ & Hnone).
  cbv zeta in Hh, Hnone. fold (classified env (hidden this)) in Hh, Hnone.
  destruct (classified_frame env (hidden this)) as (Hin & _ & _).
  set (c := classified env (hidden this)) in *. clearbody c.
  set (this2 := _buildUnifiedMesh env (sortByDrawZ (c_allRects c))
                  (_tileAnimX this) (_tileAnimY this) (c_this c)).
  assert (Hb2 : _bitmaps this2 = _bitmaps this).
  { unfold inputs in Hin. by injection Hin. }
  clearbody this2.
  destruct Hh as [Hh|Hh].
  - exfalso. unfold setOf in Hci, Hw.
    destruct (Obj.get 0%Z (_rectData this)) as [d|] eqn:Eg; simpl in Hci, Hw; [|lia].
    apply Obj_get_Some_In in Eg.
    pose proof (Hnone Hh d ci Eg Hci) as Hf.
    unfold isWaterClassified in Hf. rewrite Hws in Hf. cbn in Hf. congruence.
  - rewrite Hh. cbn [foldl]. unfold buildWaterOfSet. cbn [fst]. rewrite Hws, Hb2, Htex, Himg.
    destruct (buildWaterMesh_frame env ws 0 (rectSetOf this2 0) (nearestOf tex)
                (dimOr1 (width img)) (dimOr1 (height img)) (_tileAnimX this)
                (_tileAnimY this) (makeNearest tex this2)) as (H1 & _).
    unfold inputs in H1.
    assert (Hb : _bitmaps (_buildWaterMesh env ws 0 (rectSetOf this2 0) (nearestOf tex)
                   (dimOr1 (width img)) (dimOr1 (height img)) (_tileAnimX this)
                   (_tileAnimY this) (makeNearest tex this2))
                 = _bitmaps (makeNearest tex this2)) by congruence.
    rewrite Hb. unfold makeNearest. destruct (nearestFilter tex); [done|].
    cbn [with_bitmaps _bitmaps]. by rewrite Hb2.
Qed.

(** X25. The texture of the water meshes.  A [flush] that rebuilds and
    builds a water mesh leaves the texture of tileset 0 with nearest
    filtering.  A texture that had it already is left alone, and the next
    scan copies nothing.  Otherwise the texture is marked for upload, which
    raises its version by one in every bitmap that holds it, so the next scan
    finds tileset 0 stale: it copies the picture into layer 0 again and marks
    the array texture for upload. *)
Theorem water_build_makes_texture_nearest (env : Env) (ws : WaterShader) (this : Layer)
    (tex : Texture) (img : Image) (ci : nat) :
  _needsRebuild this = true → waterShader env = Some ws →
  (∀ t, _arrayTexture this = Some t → wfArrayTexture t) →
  _extractThreeTexture (bitmapAt (_bitmaps this) 0) = Some tex → image tex = Some img →
  ci < count (setOf (_rectData this) 0) → waterTest ws (setOf (_rectData this) 0) ci = true →
  let this' := _flush env this in
  _extractThreeTexture (bitmapAt (_bitmaps this') 0) = Some (nearestOf tex)
  ∧ nearestFilter (nearestOf tex) = true
  ∧ image (nearestOf tex) = Some img
  ∧ (nearestFilter tex = true →
       _bitmaps this' = _bitmaps this ∧ snd (_ensureArrayTexture this') = [])
  ∧ (nearestFilter tex = false →
       _bitmaps this' = touchBitmaps (tex_id tex) (_bitmaps this)
       ∧ version (nearestOf tex) = (version tex + 1)%Z
       ∧ (width img ≠ 0%Z → height img ≠ 0%Z →
            In (0, pixels img) (snd (_ensureArrayTexture this'))
            ∧ needsUpdate (scannedTexture this') = true)).
Proof.
  intros Hd Hws Hwf Htex Himg Hci Hw this'.
  assert (Hflush : this' = rebuild env (fst (_ensureArrayTexture this)))
    by (by apply flush_dirty).
  destruct (ensure_rebuild_inputs this) as (Hr1 & Hb1 & _).
  assert (Hb : _bitmaps this' = _bitmaps (makeNearest tex this)).
  { rewrite Hflush.
    rewrite (rebuild_bitmaps env ws (fst (_ensureArrayTexture this)) tex img ci);
      try done.
    unfold makeNearest. by destruct (nearestFilter tex). }
  assert (Ha : _arrayTexture this' = Some (scannedTexture this)).
  { by rewrite Hflush, rebuild_arrayTexture. }
  destruct (ensureArrayTexture_upToDate this Hwf) as [Hwf1 Hup].
  split; [rewrite Hb; by apply makeNearest_texture|].
  split; [unfold nearestOf; by destruct (nearestFilter tex) eqn:E|].
  split; [by rewrite nearestOf_image|].
  split.
  - intros Hn. unfold makeNearest in Hb. rewrite Hn in Hb. split; [exact Hb|].
    unfold _ensureArrayTexture. cbn [snd]. rewrite Ha, Hb. cbn [default].
    unfold scanLayers.
    rewrite (scanLayers_upToDate (_bitmaps this) (scannedTexture this));
      [reflexivity | exact Hup | reflexivity |].
    intros i Hi. apply in_seq in Hi. lia.
  - intros Hn. unfold makeNearest in Hb. rewrite Hn in Hb. cbn [with_bitmaps _bitmaps] in Hb.
    split; [exact Hb|].
    split; [unfold nearestOf; by rewrite Hn|].
    intros Hwd Hht.
    destruct (scanLayers_prefix (_bitmaps this') (scannedTexture this) Hwf1)
      as (Hcop & _ & _ & _ & _ & Hupd).
    assert (Hbmp : ∃ bmp, _bitmaps this !! 0 = Some (Some bmp)
                          ∧ _extractThreeTexture (Some bmp) = Some tex).
    { unfold bitmapAt in Htex. cbn [Z.ltb Z.compare] in Htex.
      change (Z.to_nat 0) with 0 in Htex.
      destruct (_bitmaps this !! 0) as [[bmp|]|]; [by exists bmp | done | done]. }
    destruct Hbmp as (bmp & Hb0 & Hx).
    assert (Hin : In (0, pixels img)
                    (s_copies (scanLayers (_bitmaps this') (scannedTexture this)))).
    { apply Hcop. split; [unfold TILESET_LAYER_COUNT; lia|].
      exists (setNearest tex), img. split; [|split; [done|split; [done|]]].
      - exists (touchBitmap (tex_id tex) bmp), img.
        split; [rewrite Hb; unfold touchBitmaps; by rewrite list_lookup_fmap, Hb0|].
        split; [|done].
        change (Some (touchBitmap (tex_id tex) bmp))
          with (touchBitmap (tex_id tex) <$> Some bmp).
        by rewrite extract_touchBitmap, Hx, <- touchTexture_self.
      - intros [_ Hv].
        assert (Hrec : recorded (scannedTexture this) 0 (version tex)).
        { apply Hup; [unfold TILESET_LAYER_COUNT; lia|]. by exists bmp, img. }
        destruct Hrec as [_ Hv']. rewrite Hv' in Hv. cbn in Hv. injection Hv. lia. }
    assert (Hc : snd (_ensureArrayTexture this')
                 = s_copies (scanLayers (_bitmaps this') (scannedTexture this))).
    { unfold _ensureArrayTexture. cbn [snd]. by rewrite Ha. }
    split; [by rewrite Hc|].
    change (scannedTexture this')
      with (markUpdated (scanLayers (_bitmaps this')
                           (default newArrayTexture (_arrayTexture this')))).
    rewrite Ha. cbn [default id]. unfold markUpdated.
    assert (Hu : s_updated (scanLayers (_bitmaps this') (scannedTexture this)) = true).
    { apply Hupd. intros Hnil. by rewrite Hnil in Hin. }
    by rewrite Hu.
Qed.

Lemma water_build_makes_texture_nearest_witness :
  _needsRebuild twoWaterRects = true ∧ waterShader waterEnv = Some sampleWater
  ∧ (∀ t, _arrayTexture twoWaterRects = Some t → wfArrayTexture t)
  ∧ _extractThreeTexture (bitmapAt (_bitmaps twoWaterRects) 0) = Some sampleTexture
  ∧ image sampleTexture = Some (mkImage 64 64 7)
  ∧ 0 < count (setOf (_rectData twoWaterRects) 0)
  ∧ waterTest sampleWater (setOf (_rectData twoWaterRects) 0) 0 = true
  ∧ _extractThreeTexture (bitmapAt (_bitmaps (_flush waterEnv twoWaterRects)) 0)
    = Some (mkTexture (Some (mkImage 64 64 7)) 2 true 0)
  ∧ In (0, 7) (snd (_ensureArrayTexture (_flush waterEnv twoWaterRects))).
Proof.
  assert (H1 : _needsRebuild twoWaterRects = true) by reflexivity.
  assert (H2 : waterShader waterEnv = Some sampleWater) by reflexivity.
  assert (H3 : ∀ t, _arrayTexture twoWaterRects = Some t → wfArrayTexture t)
    by (intros t [=]).
  assert (H4 : _extractThreeTexture (bitmapAt (_bitmaps twoWaterRects) 0)
               = Some sampleTexture) by reflexivity.
  assert (H5 : image sampleTexture = Some (mkImage 64 64 7)) by reflexivity.
  assert (H6 : 0 < count (setOf (_rectData twoWaterRects) 0))
    by (vm_compute; lia).
  assert (H7 : waterTest sampleWater (setOf (_rectData twoWaterRects) 0) 0 = true)
    by (vm_compute; reflexivity).
  split; [exact H1|]. split; [exact H2|]. split; [exact H3|]. split; [exact H4|].
  split; [exact H5|]. split; [exact H6|]. split; [exact H7|].
  destruct (water_build_makes_texture_nearest waterEnv sampleWater twoWaterRects
              sampleTexture (mkImage 64 64 7) 0 H1 H2 H3 H4 H5 H6 H7)
    as (Hx & _ & _ & _ & Hf).
  split; [exact Hx|].
  destruct (Hf eq_refl) as (_ & _ & Hc).
  exact (proj1 (Hc ltac:(cbn; lia) ltac:(cbn; lia))).
Defined.

(** ** The fast path on the water meshes of a kind *)

Lemma fastPathSet_fold_other env ax ay (rd : list (Z * RectSet)) ms :
  ¬ In 0%Z (List.map fst rd) → foldl (fastPathSet env ax ay) ms rd = ms.
Proof.
  revert ms. induction rd as [|[sn d] rd IH]; intros ms Hni; [done|].
  cbn [foldl]. cbn [List.map fst In] in Hni.
  assert (Hs : fastPathSet env ax ay ms (sn, d) = ms).
  { unfold fastPathSet. cbn [fst]. destruct (Z.eqb_spec sn 0) as [->|]; [tauto | done]. }
  rewrite Hs. apply IH. tauto.
Qed.

Lemma fastPathSet_fold env ax ay (rd : list (Z * RectSet)) ms data :
  NoDup (List.map fst rd) → Obj.get 0%Z rd = Some data →
  foldl (fastPathSet env ax ay) ms rd = fastPathSet env ax ay ms (0%Z, data).
Proof.
  revert ms. induction rd as [|[sn d] rd IH]; intros ms Hnd Hget; [done|].
  cbn [List.map fst] in Hnd. apply NoDup_cons in Hnd as [Hni Hnd].
  cbn [foldl]. cbn [Obj.get] in Hget.
  destruct (Z.eqb_spec 0 sn) as [<-|Hne].
  - injection Hget as ->. apply fastPathSet_fold_other.
    intros H. by apply Hni, list_elem_of_In.
  - rewrite IH by done. f_equal.
    unfold fastPathSet. cbn [fst]. by destruct (Z.eqb_spec sn 0) as [->|].
Qed.

(** The rects the fast path writes into a mesh tagged with kind [k], when
    kind [k] is enabled: the water rects of that kind. *)
Lemma fastPathRects_kind ws data (m : Mesh) (k : Z) :
  a1Kinds m = [k] → isKindEnabled ws k = true →
  fastPathRects ws data m = waterRectsOf ws data (isWaterfall m) k.
Proof.
  intros Hk Hen. unfold fastPathRects, waterRectsOf, waterTest. rewrite Hk.
  apply filter_ext. intros i. cbn [length Nat.ltb Nat.leb andb negb existsb].
  rewrite orb_false_r, negb_involutive.
  destruct (Z.eqb_spec (kindOf data i) k) as [->|Hne].
  - rewrite Hen, orb_true_r. by destruct (isWaterRect ws _ _), (Bool.eqb _ _).
  - by rewrite !andb_false_r.
Qed.

(** The fast path on a water mesh as a rebuild left it. *)
Lemma fastPathMesh_built env ws data tex img ax0 ay0 ax ay wf k z t :
  image tex = Some img → isKindEnabled ws k = true → (0 ≤ k)%Z →
  snd (fastPathMesh ws data ax ay t
         (waterMeshOf env data tex (dimOr1 (width img)) (dimOr1 (height img)) ax0 ay0
            (waterRectsOf ws data wf k) wf (kindsOf k) z))
  = waterMeshOf env data tex (dimOr1 (width img)) (dimOr1 (height img)) ax ay
      (waterRectsOf ws data wf k) wf (kindsOf k) z.
Proof.
  intros Himg Hen Hk.
  assert (Hks : kindsOf k = [k]).
  { unfold kindsOf. by destruct (Z.leb_spec 0 k); [|lia]. }
  unfold fastPathMesh.
  set (m0 := waterMeshOf env data tex (dimOr1 (width img)) (dimOr1 (height img)) ax0 ay0
               (waterRectsOf ws data wf k) wf (kindsOf k) z).
  assert (Hsel : fastPathRects ws data m0 = waterRectsOf ws data wf k).
  { apply (fastPathRects_kind ws data m0 k); [exact Hks | exact Hen]. }
  rewrite Hsel. subst m0.
  cbn [waterMeshOf uv material_map aUvBounds position normal visible isWaterMesh
       isWaterfall a1Kinds maxDrawZ]. 
  rewrite Himg. cbn [fst snd]. unfold waterMeshOf. f_equal.
  - f_equal. apply stores_perRect; [intros; apply waterUvBlock_length|].
    apply flat_map_length_blocks. intros. by rewrite length_map, waterUvBlock_length.
  - f_equal. apply stores_perRect; [intros; apply waterBoundsBlock_length|].
    apply flat_map_length_blocks. intros. by rewrite length_map, waterBoundsBlock_length.
Qed.

Lemma fastPathMeshes_key ws data ax ay t (ms : list (MeshKey * Mesh)) key m m' :
  hasWaterPrefix 0 key = true → mesh_get key ms = Some m →
  (∀ t', snd (fastPathMesh ws data ax ay t' m) = m') →
  mesh_get key (fastPathMeshes ws 0 data ax ay t ms) = Some m'.
Proof.
  intros Hp Hget Hm'. revert t. unfold mesh_get in *.
  induction ms as [|[k0 m0] ms IH]; intros t; [done|].
  cbn [fastPathMeshes]. cbn [List.find fst snd] in Hget.
  destruct (MeshKey_eqb key k0) eqn:E.
  - apply MeshKey_eqb_eq in E as <-. rewrite Hp. cbn [List.find fst snd].
    rewrite MeshKey_eqb_refl. cbn in Hget |- *. injection Hget as ->. by rewrite Hm'.
  - destruct (hasWaterPrefix 0 k0); cbn [List.find fst snd]; rewrite E; by apply IH.
Qed.

Lemma flush_moved_meshes env built ax ay :
  _needsRebuild built = false →
  Num.strict_ne ax (_lastTileAnimX built) || Num.strict_ne ay (_lastTileAnimY built) = true →
  _meshes (_flush env (setAnimationOffset ax ay built))
  = _meshes (_updateAnimUVs env ax ay built).
Proof.
  intros Hn Hmoved. unfold _flush.
  change (_needsRebuild (fst (_ensureArrayTexture (setAnimationOffset ax ay built))))
    with (_needsRebuild built).
  change (_lastTileAnimX (setAnimationOffset ax ay built)) with (_lastTileAnimX built).
  change (_lastTileAnimY (setAnimationOffset ax ay built)) with (_lastTileAnimY built).
  change (_tileAnimX (setAnimationOffset ax ay built)) with ax.
  change (_tileAnimY (setAnimationOffset ax ay built)) with ay.
  rewrite Hn, Hmoved. reflexivity.
Qed.

(** X13. On the water meshes of a kind the fast path is a full rebuild.
    After a [flush] that rebuilt, moving the animation phase and flushing
    again (the fast path) leaves under the key of a kind [k >= 0] that has
    water rects the very mesh, UVs and UV bounds included, that moving the
    phase first and rebuilding in full would have built. *)
Theorem flush_fast_path_water_kind (env : Env) (ws : WaterShader) (this : Layer)
    (tex : Texture) (img : Image) (wf : bool) (k : Z) (ax ay : float) :
  wfLayer this → _needsRebuild this = true → waterShader env = Some ws →
  _extractThreeTexture (bitmapAt (_bitmaps this) 0) = Some tex → image tex = Some img →
  Num.strict_ne ax (_tileAnimX this) || Num.strict_ne ay (_tileAnimY this) = true →
  (0 ≤ k)%Z → waterRectsOf ws (setOf (_rectData this) 0) wf k ≠ [] →
  mesh_get (WaterKey 0 wf k)
    (_meshes (_flush env (setAnimationOffset ax ay (_flush env this))))
  = mesh_get (WaterKey 0 wf k) (_meshes (_flush env (setAnimationOffset ax ay this))).
Proof.
  intros [Hord _] Hd Hws Htex Himg Hmoved Hk Hsel.
  set (data := setOf (_rectData this) 0) in *.
  (* a water rect of kind [k] *)
  destruct (waterRectsOf ws data wf k) as [|i sel'] eqn:Esel; [done|]. clear Hsel.
  assert (Hi : In i (waterRectsOf ws data wf k)) by (rewrite Esel; by left).
  unfold waterRectsOf in Hi. apply filter_In in Hi as [Hi Hc].
  apply in_seq in Hi. apply andb_true_iff in Hc as [Hc Hki].
  apply andb_true_iff in Hc as [Hw _]. apply Z.eqb_eq in Hki.
  assert (Hen : isKindEnabled ws k = true).
  { unfold waterTest in Hw. apply andb_true_iff in Hw as [_ Hw]. rewrite Hki in Hw.
    destruct (Z.ltb_spec k 0); [lia | done]. }
  assert (Hex : existsb (waterTest ws data) (seq 0 (count data)) = true).
  { apply existsb_exists. exists i. split; [apply in_seq; lia | done]. }
  assert (Hget : Obj.get 0%Z (_rectData this) = Some data).
  { unfold data, setOf in *. destruct (Obj.get 0%Z (_rectData this)); [done|].
    cbn in Hi. lia. }
  (* the rebuild at the new phase *)
  pose proof (flush_water_mesh env ws (setAnimationOffset ax ay this) tex img wf k
                Hd Hws Htex Himg) as Hfull.
  change (_rectData (setAnimationOffset ax ay this)) with (_rectData this) in Hfull.
  change (_meshes (setAnimationOffset ax ay this)) with (_meshes this) in Hfull.
  change (_tileAnimX (setAnimationOffset ax ay this)) with ax in Hfull.
  change (_tileAnimY (setAnimationOffset ax ay this)) with ay in Hfull.
  fold data in Hfull. rewrite Esel in Hfull. rewrite <- Esel in Hfull.
  rewrite Hfull. clear Hfull.
  (* the rebuild at the old phase, then the fast path *)
  pose proof (flush_water_mesh env ws this tex img wf k Hd Hws Htex Himg) as Hold.
  fold data in Hold. rewrite Esel in Hold. rewrite <- Esel in Hold.
  pose proof (flush_rectData env this) as Hrd.
  assert (Hmarks : _needsRebuild (_flush env this) = false
                   ∧ _lastTileAnimX (_flush env this) = _tileAnimX this
                   ∧ _lastTileAnimY (_flush env this) = _tileAnimY this).
  { rewrite (flush_dirty env this Hd).
    exact (rebuild_marks env (fst (_ensureArrayTexture this))). }
  destruct Hmarks as (Hn & Hlx & Hly).
  set (built := _flush env this) in *. clearbody built.
  rewrite <- Hlx, <- Hly in Hmoved.
  rewrite (flush_moved_meshes env built ax ay Hn Hmoved).
  unfold _updateAnimUVs. cbn [_meshes]. rewrite Hrd.
  rewrite (fastPathSet_fold env ax ay (_rectData this) (_meshes built) data
             (Obj_ordered_NoDup _ Hord) Hget).
  unfold fastPathSet. cbn [fst snd Z.eqb negb]. rewrite Hws, Hex.
  destruct (Nat.eqb_spec (count data) 0) as [H0|_]; [lia|]. cbn [negb].
  apply (fastPathMeshes_key ws data ax ay _ _ (WaterKey 0 wf k) _ _ eq_refl Hold).
  intros t'. apply fastPathMesh_built; [by rewrite nearestOf_image|done|done].
Qed.

Lemma flush_fast_path_water_kind_witness :
  wfLayer twoWaterRects ∧ _needsRebuild twoWaterRects = true
  ∧ waterShader waterEnv = Some sampleWater
  ∧ _extractThreeTexture (bitmapAt (_bitmaps twoWaterRects) 0) = Some sampleTexture
  ∧ image sampleTexture = Some (mkImage 64 64 7)
  ∧ Num.strict_ne 16 (_tileAnimX twoWaterRects)
    || Num.strict_ne 0 (_tileAnimY twoWaterRects) = true
  ∧ (0 ≤ 3)%Z
  ∧ waterRectsOf sampleWater (setOf (_rectData twoWaterRects) 0) false 3 ≠ []
  ∧ mesh_get (WaterKey 0 false 3)
      (_meshes (_flush waterEnv (setAnimationOffset 16 0 (_flush waterEnv twoWaterRects))))
    = mesh_get (WaterKey 0 false 3)
        (_meshes (_flush waterEnv (setAnimationOffset 16 0 twoWaterRects))).
Proof.
  assert (H0 : wfLayer twoWaterRects).
  { unfold twoWaterRects. do 2 apply addRect_wf. split; constructor. }
  assert (H1 : _needsRebuild twoWaterRects = true) by reflexivity.
  assert (H2 : waterShader waterEnv = Some sampleWater) by reflexivity.
  assert (H3 : _extractThreeTexture (bitmapAt (_bitmaps twoWaterRects) 0)
               = Some sampleTexture) by reflexivity.
  assert (H4 : image sampleTexture = Some (mkImage 64 64 7)) by reflexivity.
  assert (H5 : Num.strict_ne 16 (_tileAnimX twoWaterRects)
               || Num.strict_ne 0 (_tileAnimY twoWaterRects) = true) by reflexivity.
  assert (H6 : (0 ≤ 3)%Z) by lia.
  assert (H7 : waterRectsOf sampleWater (setOf (_rectData twoWaterRects) 0) false 3 ≠ [])
    by (vm_compute; discriminate).
  split; [exact H0|]. split; [exact H1|]. split; [exact H2|]. split; [exact H3|].
  split; [exact H4|]. split; [exact H5|]. split; [exact H6|]. split; [exact H7|].
  exact (flush_fast_path_water_kind waterEnv sampleWater twoWaterRects sampleTexture
           (mkImage 64 64 7) false 3 16 0 H0 H1 H2 H3 H4 H5 H6 H7).
Defined.

(** ** The sizes of the attribute arrays *)

Lemma Forall_mesh_set (P : MeshKey * Mesh → Prop) k m ms :
  P (k, m) → List.Forall P ms → List.Forall P (mesh_set k m ms).
Proof.
  intros Hm. induction 1 as [|[k' m'] ms Hx Hall IH]; cbn [mesh_set].
  - by constructor.
  - destruct (MeshKey_eqb k k'); by constructor.
Qed.

Lemma mesh_get_Forall (P : MeshKey * Mesh → Prop) k m ms :
  List.Forall P ms → mesh_get k ms = Some m → P (k, m).
Proof.
  unfold mesh_get. induction 1 as [|[k' m'] ms Hx Hall IH]; cbn [List.find fst snd]; [done|].
  destruct (MeshKey_eqb k k') eqn:E; [|exact IH].
  apply MeshKey_eqb_eq in E as ->. by intros [= <-].
Qed.

Lemma buildShadowMesh_sized env data this :
  List.Forall meshSized (_meshes this) →
  List.Forall meshSized (_meshes (_buildShadowMesh env data this)).
Proof.
  intros H. unfold _buildShadowMesh. cbn [_meshes]. apply Forall_mesh_set; [|exact H].
  exists (count data). cbn [fst snd].
  assert (Hlen : length (shadowPositions env data) = count data * 18).
  { unfold shadowPositions. rewrite stores_length, make_length. lia. }
  destruct (mesh_get ShadowKey (_meshes this)) as [m|] eqn:E; cbn [position normal uv aUvBounds].
  - split; [exact Hlen|]. by destruct (mesh_get_Forall _ _ _ _ H E) as (n & _ & Hs).
  - by split.
Qed.

Lemma buildWaterTypeMesh_sized env sn wf k idx data tex tw th ax ay wf' ks this :
  List.Forall meshSized (_meshes this) →
  List.Forall meshSized
    (_meshes (_buildWaterTypeMesh env sn (WaterKey sn wf k) idx data tex tw th ax ay
                wf' ks this)).
Proof.
  intros H. unfold _buildWaterTypeMesh. cbn [_meshes]. apply Forall_mesh_set; [|exact H].
  exists (length idx). cbn [fst snd position normal uv aUvBounds fmap option_fmap option_map].
  rewrite !stores_length, !make_length.
  replace (length idx * 6 * 3) with (length idx * 18) by lia.
  replace (length idx * 6 * 2) with (length idx * 12) by lia.
  replace (length idx * 6 * 4) with (length idx * 24) by lia.
  done.
Qed.

Lemma foldl_inv {A B} (P : A → Prop) (f : A → B → A) (l : list B) (a : A) :
  (∀ a x, P a → P (f a x)) → P a → P (foldl f a l).
Proof.
  intros H. revert a. induction l as [|x l IH]; intros a Ha; [done|].
  cbn [foldl]. by apply IH, H.
Qed.

Lemma buildWaterOfSet_sized env ax ay this entry :
  List.Forall meshSized (_meshes this) →
  List.Forall meshSized (_meshes (buildWaterOfSet env ax ay this entry)).
Proof.
  intros H. unfold buildWaterOfSet.
  destruct (waterShader env) as [ws|]; [|done].
  destruct (_extractThreeTexture _) as [wTex|]; [|done].
  destruct (image wTex) as [img|]; [|done].
  unfold _buildWaterMesh.
  apply (foldl_inv (fun s => List.Forall meshSized (_meshes s)));
    [|by rewrite (proj2 (proj2 (proj2 (makeNearest_frame wTex this))))].
  intros a [[wf k] g] Ha. cbn [fst snd]. destruct (0 <? _); [|done].
  by apply buildWaterTypeMesh_sized.
Qed.

Lemma classifySet_sized env acc entry :
  List.Forall meshSized (_meshes (c_this acc)) →
  List.Forall meshSized (_meshes (c_this (classifySet env acc entry))).
Proof.
  intros H. unfold classifySet. destruct (count (snd entry) =? 0); [done|].
  destruct (fst entry =? -1)%Z; [|done]. cbn [c_this]. by apply buildShadowMesh_sized.
Qed.

Lemma hideMesh_sized kv : meshSized kv → meshSized (fst kv, hideMesh (snd kv)).
Proof. intros (n & H1 & H2). exists n. destruct kv as [[|sn wf k] m]; done. Qed.

Lemma buildUnifiedMesh_sized env rects ax ay this :
  (∀ m, _unifiedMesh this = Some m → unifiedSized m) →
  ∀ m, _unifiedMesh (_buildUnifiedMesh env rects ax ay this) = Some m → unifiedSized m.
Proof.
  intros H m. unfold _buildUnifiedMesh. cbn [_unifiedMesh].
  destruct (length rects =? 0).
  - destruct (_unifiedMesh this) as [m0|]; [|done]. intros [= <-].
    destruct (H m0 eq_refl) as (n & Hs). by exists n.
  - intros [= <-]. exists (length rects).
    cbn [u_position u_normal u_uv u_aTextureLayer].
    rewrite !stores_length, !make_length. repeat split; lia.
Qed.

Lemma rebuild_sized env this : meshesSized this → meshesSized (rebuild env this).
Proof.
  intros [Hm Hu]. rewrite rebuild_unfold.
  assert (Hh : meshesSized (hidden this)).
  { split; cbn [hidden _meshes _unifiedMesh].
    - apply List.Forall_forall. intros kv Hin.
      apply in_map_iff in Hin as (kv0 & <- & Hin). apply hideMesh_sized.
      rewrite List.Forall_forall in Hm. by apply Hm.
    - intros m. destruct (_unifiedMesh this) as [m0|]; [|done]. intros [= <-].
      destruct (Hu m0 eq_refl) as (n & Hs). by exists n. }
  destruct Hh as [Hhm Hhu].
  destruct (classified_frame env (hidden this)) as (_ & _ & Hcu).
  assert (Hcm : List.Forall meshSized (_meshes (c_this (classified env (hidden this))))).
  { unfold classified.
    apply (foldl_inv (fun c => List.Forall meshSized (_meshes (c_this c)))); [|exact Hhm].
    intros a x. apply classifySet_sized. }
  unfold unified in Hcu. injection Hcu as Hcu _.
  set (c := classified env (hidden this)) in *. clearbody c.
  set (this2 := _buildUnifiedMesh env (sortByDrawZ (c_allRects c))
                  (_tileAnimX this) (_tileAnimY this) (c_this c)).
  assert (H2 : meshesSized this2).
  { split; [exact Hcm|]. apply buildUnifiedMesh_sized. by rewrite Hcu. }
  clearbody this2.
  apply (foldl_inv meshesSized); [|exact H2].
  intros a x [Ha1 Ha2]. split; [by apply buildWaterOfSet_sized|].
  destruct (buildWaterOfSet_frame env (_tileAnimX this) (_tileAnimY this) a x)
    as (_ & _ & Hu').
  unfold unified in Hu'. injection Hu' as -> _. exact Ha2.
Qed.

Lemma updateAnimUVs_sized env ax ay this :
  meshesSized this → meshesSized (_updateAnimUVs env ax ay this).
Proof.
  intros [Hm Hu]. pose proof (updateAnimUVs_meshFrames env ax ay this) as Hf.
  unfold meshFrames in Hf.
  assert (Hfm := f_equal fst Hf). assert (Hfu := f_equal snd Hf). cbn [fst snd] in Hfm, Hfu.
  clear Hf.
  set (this' := _updateAnimUVs env ax ay this) in *. clearbody this'.
  split.
  - assert (Hgen : ∀ ms ms' : list (MeshKey * Mesh),
              List.map (fun kv => (fst kv, meshFrame (snd kv))) ms'
              = List.map (fun kv => (fst kv, meshFrame (snd kv))) ms →
              List.Forall meshSized ms → List.Forall meshSized ms').
    { clear. intros ms. induction ms as [|[k m] ms IH]; intros [|[k' m'] ms'] Heq Hall;
        try done. cbn [List.map fst snd] in Heq.
      assert (Hk : k' = k) by congruence.
      assert (Hfr : meshFrame m' = meshFrame m) by congruence.
      assert (Htl : List.map (fun kv => (fst kv, meshFrame (snd kv))) ms'
                    = List.map (fun kv => (fst kv, meshFrame (snd kv))) ms) by congruence.
      clear Heq. subst k'.
      apply Forall_cons in Hall as [(n & H1 & H2) Hall].
      constructor; [|by apply IH].
      unfold meshFrame in Hfr.
      assert (Hp : position m' = position m) by congruence.
      assert (Hn : normal m' = normal m) by congruence.
      assert (Hluv : length <$> uv m' = length <$> uv m) by congruence.
      assert (Hlb : length <$> aUvBounds m' = length <$> aUvBounds m) by congruence.
      exists n. cbn [fst snd] in *. rewrite Hp, Hn. split; [done|].
      destruct k; [|by rewrite Hluv, Hlb].
      destruct H2 as (-> & Huv & Hb). rewrite Huv in Hluv. rewrite Hb in Hlb.
      split; [done|]. by destruct (uv m'), (aUvBounds m'). }
    by apply (Hgen (_meshes this)).
  - intros m Hm'. rewrite Hm' in Hfu.
    destruct (_unifiedMesh this) as [m0|]; [|done]. cbn in Hfu.
    unfold unifiedFrame in Hfu.
    assert (Hp : u_position m = u_position m0) by congruence.
    assert (Hno : u_normal m = u_normal m0) by congruence.
    assert (Hl : u_aTextureLayer m = u_aTextureLayer m0) by congruence.
    assert (Hlen : length (u_uv m) = length (u_uv m0)) by congruence.
    destruct (Hu m0 eq_refl) as (n & H1 & H2 & H3 & H4).
    exists n. by rewrite Hp, Hno, Hl, Hlen.
Qed.

Lemma run_sized op this : meshesSized this → meshesSized (run op this).
Proof.
  intros H. destruct op; cbn [run]; try exact H.
  unfold _flush. destruct (negb _ && _).
  - by apply updateAnimUVs_sized.
  - destruct (negb _); [exact H|]. by apply rebuild_sized.
Qed.

(** X14. In every state the operations can reach the attribute arrays of a
    mesh agree on the number of quads: a water mesh has 18 position and 18
    normal components, 12 UV components and 24 UV-bound components per quad,
    the shadow mesh has 18 position components per quad and no other
    attribute, and the unified mesh has 18 position, 18 normal, 12 UV and 6
    texture-layer components per quad. *)
Theorem attribute_arrays_agree (this : Layer) :
  reachable this →
  (∀ key m, mesh_get key (_meshes this) = Some m → meshSized (key, m))
  ∧ (∀ m, _unifiedMesh this = Some m → unifiedSized m).
Proof.
  intros Hr.
  assert (H : meshesSized this).
  { induction Hr as [|op this Hr IH]; [by split | by apply run_sized]. }
  destruct H as [Hm Hu]. split; [|exact Hu].
  intros key m Hget. by apply (mesh_get_Forall _ _ _ _ Hm Hget).
Qed.

Lemma attribute_arrays_agree_witness :
  reachable (run (OpFlush plainEnv) oneTile)
  ∧ ∀ m, _unifiedMesh (run (OpFlush plainEnv) oneTile) = Some m → unifiedSized m.
Proof.
  assert (Hr : reachable (run (OpFlush plainEnv) oneTile)).
  { apply reach_run. apply (reach_run (OpAddRect 0 0 0 32 32 32 32 None None None)).
    apply reach_init. }
  split; [exact Hr|]. exact (proj2 (attribute_arrays_agree _ Hr)).
Defined.

(** ** The top draw layer of the unified mesh *)

Lemma foldl_max_spec {A} (f : A → Z) (l : list A) (m0 : Z) :
  let m := foldl (fun m a => if (m <? f a)%Z then f a else m) m0 l in
  (m0 ≤ m)%Z ∧ (∀ a, In a l → (f a ≤ m)%Z) ∧ (m = m0 ∨ ∃ a, In a l ∧ f a = m).
Proof.
  revert m0. induction l as [|x l IH]; intros m0; cbn [foldl].
  - split; [lia|]. split; [by intros a []|by left].
  - cbv zeta in IH. destruct (IH (if (m0 <? f x)%Z then f x else m0)) as (H1 & H2 & H3).
    destruct (Z.ltb_spec m0 (f x)) as [Hlt|Hge].
    + split; [lia|]. split.
      * intros a [<-|Ha]; [done|by apply H2].
      * right. destruct H3 as [->|(a & Ha & <-)]; [exists x|exists a]; cbn; auto.
    + split; [lia|]. split.
      * intros a [<-|Ha]; [lia|by apply H2].
      * destruct H3 as [->|(a & Ha & <-)]; [by left|right; exists a; cbn; auto].
Qed.

(** X23. [userData.maxDrawZ] of the unified mesh.  After a [flush] that
    rebuilds with a unified batch that is not empty, the unified mesh is
    visible and its [maxDrawZ] is the highest draw layer of the rects of the
    batch, or 0 when none of them is above layer 0. *)
Theorem unified_maxDrawZ_is_the_top_layer (env : Env) (this : Layer)
    (rects : list UnifiedRect) :
  wfLayer this → _needsRebuild this = true →
  _unifiedRects (_flush env this) = Some rects → rects ≠ [] →
  ∃ m, _unifiedMesh (_flush env this) = Some m
    ∧ u_visible m = true
    ∧ (0 ≤ u_maxDrawZ m)%Z
    ∧ (∀ r, In r rects → (r_drawZ r ≤ u_maxDrawZ m)%Z)
    ∧ (u_maxDrawZ m = 0%Z ∨ ∃ r, In r rects ∧ r_drawZ r = u_maxDrawZ m).
Proof.
  intros Hwf Hd Hrects Hne.
  rewrite flush_dirty_unifiedRects in Hrects by done. injection Hrects as <-.
  rewrite (flush_dirty_unifiedMesh env this Hd Hne).
  eexists. split; [done|]. split; [done|]. cbn [u_maxDrawZ unifiedMeshOf].
  set (rects := sortByDrawZ _) in *.
  assert (Hz : ∀ r, In r rects →
             drawZOf (setOf (_rectData this) (r_setNumber r)) (r_index r) = r_drawZ r).
  { intros r Hr. subst rects.
    apply (Permutation_in _ (Permutation_sym (sortByDrawZ_perm _))) in Hr.
    apply In_flatRects in Hr as (data & Hget & _ & _ & _ & Hz);
      [|apply Obj_ordered_NoDup, Hwf].
    unfold setOf. by rewrite Hget. }
  destruct (foldl_max_spec
              (fun r => drawZOf (setOf (_rectData this) (r_setNumber r)) (r_index r))
              rects 0%Z) as (H1 & H2 & H3).
  split; [exact H1|]. split.
  - intros r Hr. rewrite <- (Hz r Hr). by apply H2.
  - destruct H3 as [H3|(r & Hr & H3)]; [by left|right].
    exists r. split; [done|]. by rewrite <- (Hz r Hr).
Qed.

Lemma unified_maxDrawZ_is_the_top_layer_witness :
  wfLayer twoSets ∧ _needsRebuild twoSets = true
  ∧ ∃ m, _unifiedMesh (_flush plainEnv twoSets) = Some m
      ∧ u_visible m = true
      ∧ (0 ≤ u_maxDrawZ m)%Z
      ∧ (∀ r, In r [mkUnifiedRect 2 1 0; mkUnifiedRect 0 0 1; mkUnifiedRect 0 1 1;
                    mkUnifiedRect 2 0 1] → (r_drawZ r ≤ u_maxDrawZ m)%Z)
      ∧ (u_maxDrawZ m = 0%Z
         ∨ ∃ r, In r [mkUnifiedRect 2 1 0; mkUnifiedRect 0 0 1; mkUnifiedRect 0 1 1;
                      mkUnifiedRect 2 0 1] ∧ r_drawZ r = u_maxDrawZ m).
Proof.
  assert (Hwf : wfLayer twoSets).
  { unfold twoSets, addCalls. cbn [foldl]. repeat apply addCall_wf. split; constructor. }
  assert (Hd : _needsRebuild twoSets = true) by reflexivity.
  assert (Hs : _unifiedRects (_flush plainEnv twoSets)
               = Some [mkUnifiedRect 2 1 0; mkUnifiedRect 0 0 1; mkUnifiedRect 0 1 1;
                       mkUnifiedRect 2 0 1]) by (vm_compute; reflexivity).
  split; [exact Hwf|]. split; [exact Hd|].
  exact (unified_maxDrawZ_is_the_top_layer plainEnv twoSets _ Hwf Hd Hs
           ltac:(discriminate)).
Defined.
(** ** The layer tree: links *)

Lemma indexOf_Some (child : nat) (l : list nat) (i : nat) :
  Scene.indexOf child l = Some i →
  l !! i = Some child ∧ ∀ j, j < i → l !! j ≠ Some child.
Proof.
  revert i. induction l as [|c l IH]; intros i; [done|]. cbn [Scene.indexOf].
  destruct (Nat.eqb_spec child c) as [->|Hne].
  - intros [= <-]. split; [done|]. intros j Hj. lia.
  - destruct (Scene.indexOf child l) as [k|]; [|done]. intros [= <-].
    destruct (IH k eq_refl) as [Hk Hmin]. split; [done|].
    intros [|j] Hj; cbn; [congruence|]. apply Hmin. lia.
Qed.

Lemma indexOf_None (child : nat) (l : list nat) :
  Scene.indexOf child l = None ↔ child ∉ l.
Proof.
  induction l as [|c l IH]; cbn [Scene.indexOf].
  - split; [intros _; apply not_elem_of_nil|done].
  - destruct (Nat.eqb_spec child c) as [->|Hne].
    + split; [done|]. intros H. destruct H. left.
    + rewrite not_elem_of_cons. destruct (Scene.indexOf child l); cbn.
      * split; [done|]. intros [_ H]. by apply IH in H.
      * split; [|done]. intros _. split; [done|]. by apply IH.
Qed.

Lemma indexOf_snoc (child : nat) (l : list nat) :
  child ∉ l → Scene.indexOf child (l ++ [child]) = Some (length l).
Proof.
  induction l as [|c l IH]; cbn [Scene.indexOf app length]; intros Hni.
  - by rewrite Nat.eqb_refl.
  - apply not_elem_of_cons in Hni as [Hne Hni].
    destruct (Nat.eqb_spec child c); [done|]. by rewrite IH.
Qed.

Lemma elem_of_delete_other (x : nat) (i : nat) (l : list nat) :
  x ∈ l → l !! i ≠ Some x → x ∈ delete i l.
Proof.
  intros Hx Hi. apply list_elem_of_lookup in Hx as [j Hj].
  destruct (decide (j < i)) as [Hlt|Hge].
  - apply list_elem_of_lookup. exists j. by rewrite list_lookup_delete_lt.
  - assert (j ≠ i) by congruence. destruct j as [|j]; [lia|].
    apply list_elem_of_lookup. exists j. rewrite list_lookup_delete_ge by lia. done.
Qed.

Lemma elem_of_spliceIn (x c : nat) (index : Z) (l : list nat) :
  x ∈ Scene.spliceIn index c l ↔ x = c ∨ x ∈ l.
Proof.
  unfold Scene.spliceIn. set (k := Scene.spliceStart index (length l)).
  rewrite elem_of_app, elem_of_cons.
  rewrite <- (take_drop k l) at 3. rewrite elem_of_app. tauto.
Qed.

Lemma links_lookup (s : list Scene.Node) (i : nat) (n : Scene.Node) :
  s !! i = Some n →
  Scene.links s !! i = Some (Scene.parent n, Scene.children n, Scene.isRectLayer n).
Proof. intros H. unfold Scene.links. by rewrite list_lookup_fmap, H. Qed.

Lemma links_lookup_inv (s : list Scene.Node) (i : nat) p l b :
  Scene.links s !! i = Some (p, l, b) →
  ∃ n, s !! i = Some n ∧ Scene.parent n = p ∧ Scene.children n = l
       ∧ Scene.isRectLayer n = b.
Proof.
  unfold Scene.links. rewrite list_lookup_fmap. destruct (s !! i) as [n|]; [|done].
  intros [= <- <- <-]. by exists n.
Qed.

Lemma links_length (s s' : list Scene.Node) :
  Scene.links s' = Scene.links s → length s' = length s.
Proof.
  intros H. apply (f_equal length) in H. unfold Scene.links in H.
  by rewrite !length_fmap in H.
Qed.

Lemma owns_length (s s' : list Scene.Node) :
  Scene.owns s' = Scene.owns s → length s' = length s.
Proof.
  intros H. apply (f_equal length) in H. unfold Scene.owns in H.
  by rewrite !length_fmap in H.
Qed.

Lemma owns_lookup (s s' : list Scene.Node) (i : nat) (n : Scene.Node) :
  Scene.owns s' = Scene.owns s → s !! i = Some n →
  ∃ n', s' !! i = Some n' ∧ Scene.own n' = Scene.own n.
Proof.
  intros Heq Hi. apply (f_equal (fun l => l !! i)) in Heq. unfold Scene.owns in Heq.
  rewrite !list_lookup_fmap, Hi in Heq. destruct (s' !! i) as [n'|]; [|done].
  injection Heq as Heq. by exists n'.
Qed.

Lemma rectsReachable_owns (s s' : list Scene.Node) :
  Scene.owns s' = Scene.owns s → Scene.rectsReachable s → Scene.rectsReachable s'.
Proof.
  intros Heq Hrr r n l Hr Hown.
  destruct (owns_lookup s' s r n (eq_sym Heq) Hr) as (n0 & Hr0 & Hown0).
  apply (Hrr r n0 l Hr0). congruence.
Qed.

Lemma linked_links (s s' : list Scene.Node) :
  Scene.links s' = Scene.links s → Scene.linked s → Scene.linked s'.
Proof.
  intros Heq Hl c n p Hc Hp. apply links_lookup in Hc. rewrite Heq in Hc.
  apply links_lookup_inv in Hc as (n0 & Hc0 & Hp0 & _).
  destruct (Hl c n0 p Hc0) as (pn & Hpn & Hin); [congruence|].
  apply links_lookup in Hpn. rewrite <- Heq in Hpn.
  apply links_lookup_inv in Hpn as (pn' & Hpn' & _ & Hch & _).
  exists pn'. split; [done|]. by rewrite Hch.
Qed.

Lemma closed_links (s s' : list Scene.Node) :
  Scene.links s' = Scene.links s → Scene.closed s → Scene.closed s'.
Proof.
  intros Heq Hc p pn c Hp Hin. rewrite (links_length _ _ Heq).
  apply links_lookup in Hp. rewrite Heq in Hp.
  apply links_lookup_inv in Hp as (pn0 & Hp0 & _ & Hch & _).
  apply (Hc p pn0 c Hp0). by rewrite Hch.
Qed.

Lemma leaves_links (s s' : list Scene.Node) :
  Scene.links s' = Scene.links s → Scene.leaves s → Scene.leaves s'.
Proof.
  intros Heq Hlv r n Hr Hrect. apply links_lookup in Hr. rewrite Heq in Hr.
  apply links_lookup_inv in Hr as (n0 & Hr0 & _ & Hch & Hb).
  rewrite <- Hch. apply (Hlv r n0 Hr0). congruence.
Qed.

Lemma links_insert (s : list Scene.Node) (i : nat) (t t' : Scene.Node) :
  s !! i = Some t → Scene.parent t' = Scene.parent t →
  Scene.children t' = Scene.children t →
  Scene.isRectLayer t' = Scene.isRectLayer t →
  Scene.links (<[i := t']> s) = Scene.links s.
Proof.
  intros Hi Hp Hc Hb. unfold Scene.links. rewrite list_fmap_insert.
  apply list_insert_id. rewrite list_lookup_fmap, Hi. cbn. by rewrite Hp, Hc, Hb.
Qed.

Lemma links_alter (f : Scene.Node → Scene.Node) (s : list Scene.Node) (i : nat) :
  (∀ n, Scene.parent (f n) = Scene.parent n) →
  (∀ n, Scene.children (f n) = Scene.children n) →
  (∀ n, Scene.isRectLayer (f n) = Scene.isRectLayer n) →
  Scene.links (alter f i s) = Scene.links s.
Proof.
  intros Hp Hc Hb. apply list_eq. intros j. unfold Scene.links.
  rewrite !list_lookup_fmap, list_lookup_alter. case_decide; [subst j|done].
  destruct (s !! i) as [n|]; [|done]. cbn. by rewrite Hp, Hc, Hb.
Qed.

Lemma owns_alter (f : Scene.Node → Scene.Node) (s : list Scene.Node) (i : nat) :
  (∀ n, Scene.own (f n) = Scene.own n) →
  Scene.owns (alter f i s) = Scene.owns s.
Proof.
  intros Hb. apply list_eq. intros j. unfold Scene.owns.
  rewrite !list_lookup_fmap, list_lookup_alter. case_decide; [subst j|done].
  destruct (s !! i) as [n|]; [|done]. cbn. by rewrite Hb.
Qed.

Lemma clear_links (fuel : nat) (this : nat) (s s' : list Scene.Node) :
  Scene.clear fuel this s = Scene.Ok s' → Scene.links s' = Scene.links s.
Proof.
  revert this. induction fuel as [|fuel IH]; intros this; [done|].
  cbn [Scene.clear]. destruct (s !! this) as [t|] eqn:Ht; [|done].
  destruct (Scene.own t) as [l| |zf] eqn:Hown.
  - intros [= <-]. apply (links_insert _ _ t); try done.
    unfold Scene.isRectLayer. by rewrite Hown.
  - destruct (Scene.children t) as [|c ?]; [done|]. apply IH.
  - apply IH.
Qed.

Lemma setBitmaps_links (fuel : nat) (this : nat) bitmaps (s s' : list Scene.Node) :
  Scene.setBitmaps fuel this bitmaps s = Scene.Ok s' → Scene.links s' = Scene.links s.
Proof.
  revert this. induction fuel as [|fuel IH]; intros this; [done|].
  cbn [Scene.setBitmaps]. destruct (s !! this) as [t|] eqn:Ht; [|done].
  destruct (Scene.own t) as [l| |zf] eqn:Hown; [| |done].
  - intros [= <-]. apply (links_insert _ _ t); try done.
    unfold Scene.isRectLayer. by rewrite Hown.
  - destruct (Scene.children t) as [|c ?]; [done|]. apply IH.
Qed.

Lemma syncTransform_links (env : Env) (n : Scene.Node) :
  Scene.parent (Scene.syncTransform env n) = Scene.parent n
  ∧ Scene.children (Scene.syncTransform env n) = Scene.children n
  ∧ Scene.isRectLayer (Scene.syncTransform env n) = Scene.isRectLayer n.
Proof.
  unfold Scene.syncTransform, Scene.isRectLayer. by destruct (Scene.own n) eqn:Hown; cbn;
    rewrite ?Hown.
Qed.

Lemma foldl_bind_links {A} (f : list Scene.Node → A → Scene.Result (list Scene.Node))
    (l : list A) (r : Scene.Result (list Scene.Node)) (s0 s' : list Scene.Node) :
  (∀ s s1 a, f s a = Scene.Ok s1 → Scene.links s1 = Scene.links s) →
  (∀ s, r = Scene.Ok s → Scene.links s = Scene.links s0) →
  foldl (fun acc a => Scene.bind acc (fun s => f s a)) r l = Scene.Ok s' →
  Scene.links s' = Scene.links s0.
Proof.
  intros Hf. revert r. induction l as [|a l IH]; intros r Hr; cbn [foldl].
  - apply Hr.
  - apply IH. intros s Hs. destruct r as [s1| |]; [|done|done]. cbn in Hs.
    rewrite (Hf _ _ _ Hs). by apply Hr.
Qed.

Lemma updateTransform_links (fuel : nat) (env : Env) (this : nat)
    (parentAlpha : option float) (s s' : list Scene.Node) :
  Scene.updateTransform fuel env this parentAlpha s = Scene.Ok s' →
  Scene.links s' = Scene.links s.
Proof.
  revert this parentAlpha s s'. induction fuel as [|fuel IH];
    intros this parentAlpha s s'; [done|].
  cbn [Scene.updateTransform]. destruct (s !! this) as [t|] eqn:Ht; [|done].
  set (t1 := Scene.syncTransform env _).
  assert (Hs1 : Scene.links (<[this := t1]> s) = Scene.links s).
  { apply (links_insert _ _ t); [done|..]; subst t1.
    - by rewrite (proj1 (syncTransform_links _ _)).
    - by rewrite (proj1 (proj2 (syncTransform_links _ _))).
    - by rewrite (proj2 (proj2 (syncTransform_links _ _))). }
  assert (Hloop : foldl (fun acc child =>
             Scene.bind acc (fun s' => match s' !! this with
               | Some t' => Scene.updateTransform fuel env child
                              (Some (Scene.worldAlpha t')) s'
               | None => Scene.Throws end))
            (Scene.Ok (<[this := t1]> s)) (Scene.children t) = Scene.Ok s' →
          Scene.links s' = Scene.links s).
  { intros H. rewrite <- Hs1.
    apply (foldl_bind_links
             (fun s' child => match s' !! this with
                | Some t' => Scene.updateTransform fuel env child
                               (Some (Scene.worldAlpha t')) s'
                | None => Scene.Throws end)
             (Scene.children t) (Scene.Ok (<[this := t1]> s)) (<[this := t1]> s) s') in H;
      [done| |].
    - intros s2 s3 a. destruct (s2 !! this); [|done]. apply IH.
    - by intros ? [= <-]. }
  destruct (Scene.own t) as [l| |zf]; [|done|done].
  intros [= <-]. done.
Qed.

(** ** The layer tree: child management keeps the links *)

Lemma lookup_alter2 (f g : Scene.Node → Scene.Node) (i j q : nat) (s : list Scene.Node) :
  alter f i (alter g j s) !! q
  = (if decide (i = q) then f else id) <$> ((if decide (j = q) then g else id) <$> s !! q).
Proof.
  rewrite list_lookup_alter. destruct (decide (i = q)) as [->|Hi].
  - rewrite list_lookup_alter. destruct (decide (j = q)) as [->|Hj]; [done|].
    by destruct (s !! q).
  - rewrite list_lookup_alter. destruct (decide (j = q)) as [->|Hj];
      by destruct (s !! q).
Qed.

Lemma detach_length (this child : nat) (t : Scene.Node) (s : list Scene.Node) :
  length (Scene.detach this child t s) = length s.
Proof.
  unfold Scene.detach. destruct (Scene.indexOf _ _); [|done].
  by rewrite !length_alter.
Qed.

Lemma detach_linked (this child : nat) (t : Scene.Node) (s : list Scene.Node) :
  s !! this = Some t → Scene.linked s → Scene.linked (Scene.detach this child t s).
Proof.
  intros Ht Hl. unfold Scene.detach.
  destruct (Scene.indexOf child (Scene.children t)) as [idx|] eqn:Hidx; [|done].
  apply indexOf_Some in Hidx as [Hidx _].
  intros c n p Hc Hp. rewrite lookup_alter2 in Hc.
  destruct (s !! c) as [n0|] eqn:Hc0; [|done].
  destruct (decide (child = c)) as [->|Hcc].
  { destruct (decide (this = c)); cbn in Hc; injection Hc as <-; done. }
  assert (Hp0 : Scene.parent n0 = Some p).
  { destruct (decide (this = c)); cbn in Hc; injection Hc as <-; done. }
  destruct (Hl c n0 p Hc0 Hp0) as (pn & Hpn & Hin).
  rewrite lookup_alter2, Hpn.
  destruct (decide (this = p)) as [->|Htp].
  - assert (pn = t) by congruence. subst pn.
    eexists. split; [done|].
    assert (c ∈ delete idx (Scene.children t)).
    { apply elem_of_delete_other; [done|]. congruence. }
    by destruct (decide (child = p)).
  - eexists. split; [done|]. by destruct (decide (child = p)).
Qed.

Lemma detach_closed (this child : nat) (t : Scene.Node) (s : list Scene.Node) :
  s !! this = Some t → Scene.closed s → Scene.closed (Scene.detach this child t s).
Proof.
  intros Ht Hcl p pn c Hp Hin. rewrite detach_length. revert Hp Hin.
  unfold Scene.detach.
  destruct (Scene.indexOf child (Scene.children t)) as [idx|] eqn:Hidx; [|apply Hcl].
  rewrite lookup_alter2. destruct (s !! p) as [pn0|] eqn:Hp0; [|done].
  intros Hp Hin. apply (Hcl p pn0 c Hp0).
  destruct (decide (this = p)) as [->|Htp].
  - assert (pn0 = t) by congruence. subst pn0.
    assert (c ∈ delete idx (Scene.children t)).
    { destruct (decide (child = p)); cbn in Hp; injection Hp as <-; done. }
    by eapply list_elem_of_delete_inv.
  - destruct (decide (child = p)); cbn in Hp; injection Hp as <-; done.
Qed.

Lemma detach_owns (this child : nat) (t : Scene.Node) (s : list Scene.Node) :
  Scene.owns (Scene.detach this child t s) = Scene.owns s.
Proof.
  unfold Scene.detach. destruct (Scene.indexOf _ _); [|done].
  by rewrite !owns_alter.
Qed.

Lemma detach_leaves (this child : nat) (t : Scene.Node) (s : list Scene.Node) :
  s !! this = Some t → Scene.leaves s → Scene.leaves (Scene.detach this child t s).
Proof.
  intros Ht Hlv. unfold Scene.detach.
  destruct (Scene.indexOf child (Scene.children t)) as [idx|] eqn:Hidx; [|done].
  intros r n Hr Hrect. rewrite lookup_alter2 in Hr.
  destruct (s !! r) as [n0|] eqn:Hr0; [|done]. cbn in Hr.
  destruct (decide (this = r)) as [->|Hne].
  - assert (n0 = t) by congruence. subst n0.
    assert (Scene.children t = []) as Hnil.
    { apply (Hlv r t Ht).
      destruct (decide (child = r)); cbn in Hr; injection Hr as <-; done. }
    by rewrite Hnil in Hidx.
  - assert (Scene.children n = Scene.children n0 ∧ Scene.isRectLayer n0 = true) as [-> ?].
    { destruct (decide (child = r)); cbn in Hr; injection Hr as <-; done. }
    by apply (Hlv r n0).
Qed.

Lemma detach_inv (this child : nat) (t : Scene.Node) (s : list Scene.Node) :
  s !! this = Some t → Scene.wellLinked s → Scene.wellLinked (Scene.detach this child t s).
Proof.
  intros Ht (Hl & Hcl & Hlv).
  split; [by apply detach_linked|]. split; [by apply detach_closed|by apply detach_leaves].
Qed.

Lemma removeChild_inv (this child : nat) (s s' : list Scene.Node) :
  Scene.removeChild this child s = Scene.Ok s' →
  Scene.owns s' = Scene.owns s ∧ (Scene.wellLinked s → Scene.wellLinked s').
Proof.
  unfold Scene.removeChild. destruct (s !! this) as [t|] eqn:Ht; [|done].
  pose proof (detach_owns this child t s) as Hc.
  pose proof (detach_inv this child t s Ht) as Hd.
  destruct (Scene.own t); intros [= <-]; done.
Qed.

Lemma leaveParent_inv (child : nat) (c : Scene.Node) (s s' : list Scene.Node) :
  Scene.leaveParent child c s = Scene.Ok s' →
  Scene.owns s' = Scene.owns s ∧ (Scene.wellLinked s → Scene.wellLinked s').
Proof.
  unfold Scene.leaveParent. destruct (Scene.parent c); [apply removeChild_inv|].
  by intros [= <-].
Qed.

(** Taking [child] in: [f] adds it to the children of [this]. *)
Lemma attach_inv (f : Scene.Node → Scene.Node) (this child : nat) (s : list Scene.Node)
    (t : Scene.Node) :
  (∀ n, Scene.parent (f n) = Scene.parent n) →
  (∀ n, Scene.own (f n) = Scene.own n) →
  (∀ n x, x ∈ Scene.children (f n) ↔ x = child ∨ x ∈ Scene.children n) →
  s !! this = Some t → Scene.isRectLayer t = false → child < length s →
  let s' := alter f this (alter (Scene.with_parent (Some this)) child s) in
  Scene.owns s' = Scene.owns s ∧ (Scene.wellLinked s → Scene.wellLinked s').
Proof.
  intros Hfp Hfb Hfc Ht Hnr Hchild s'.
  split; [subst s'; by rewrite !owns_alter|].
  intros (Hl & Hcl & Hlv). split; [|split].
  - intros c n p Hc Hp. subst s'. rewrite lookup_alter2 in Hc.
    destruct (s !! c) as [n0|] eqn:Hc0; [|done]. cbn in Hc.
    destruct (decide (child = c)) as [->|Hcc].
    + assert (p = this).
      { destruct (decide (this = c)); cbn in Hc; injection Hc as <-;
          rewrite ?Hfp in Hp; cbn in Hp; congruence. }
      subst p. rewrite lookup_alter2, Ht. rewrite decide_True by done.
      eexists. split; [done|]. apply Hfc. by left.
    + assert (Hp0 : Scene.parent n0 = Some p).
      { destruct (decide (this = c)); cbn in Hc; injection Hc as <-;
          rewrite ?Hfp in Hp; done. }
      destruct (Hl c n0 p Hc0 Hp0) as (pn & Hpn & Hin).
      rewrite lookup_alter2, Hpn. eexists. split; [done|].
      destruct (decide (this = p)), (decide (child = p)); cbn;
        rewrite ?Hfc; cbn; auto.
  - intros p pn c Hp Hin. subst s'. rewrite !length_alter.
    rewrite lookup_alter2 in Hp. destruct (s !! p) as [pn0|] eqn:Hp0; [|done].
    cbn in Hp.
    assert (Hc : c = child ∨ c ∈ Scene.children pn0).
    { destruct (decide (this = p)), (decide (child = p)); cbn in Hp;
        injection Hp as <-; rewrite ?Hfc in Hin; cbn in Hin; tauto. }
    destruct Hc as [->|Hc]; [done|]. by apply (Hcl p pn0).
  - intros r n Hr Hrect. subst s'. rewrite lookup_alter2 in Hr.
    destruct (s !! r) as [n0|] eqn:Hr0; [|done]. cbn in Hr.
    destruct (decide (this = r)) as [->|Hne].
    + assert (n0 = t) by congruence. subst n0.
      destruct (decide (child = r)); cbn in Hr; injection Hr as <-;
        unfold Scene.isRectLayer in *; rewrite Hfb in Hrect; cbn in Hrect; congruence.
    + assert (Scene.children n = Scene.children n0 ∧ Scene.isRectLayer n0 = true) as [-> ?].
      { destruct (decide (child = r)); cbn in Hr; injection Hr as <-; done. }
      by apply (Hlv r n0).
Qed.

Lemma push_children (child : nat) (n : Scene.Node) (x : nat) :
  x ∈ Scene.children (Scene.push child n) ↔ x = child ∨ x ∈ Scene.children n.
Proof. cbn. rewrite elem_of_app, list_elem_of_singleton. tauto. Qed.

Lemma addChild_inv (this child : nat) (s s' : list Scene.Node) :
  Scene.addChild this child s = Scene.Ok s' →
  Scene.owns s' = Scene.owns s ∧ (Scene.wellLinked s → Scene.wellLinked s').
Proof.
  unfold Scene.addChild. destruct (s !! this) as [t|] eqn:Ht; [|done].
  destruct (s !! child) as [c|] eqn:Hc.
  2:{ destruct (Scene.own t); [|done|done]. by intros [= <-]. }
  apply lookup_lt_Some in Hc as Hchild.
  assert (Hrect : Scene.isRectLayer t = match Scene.own t with
                                        | Scene.RectLayer _ => true | _ => false end)
    by done.
  destruct (Scene.own t) as [l| |zf].
  - by intros [= <-].
  - intros [= <-]. by apply (attach_inv _ _ _ _ t); [| |apply push_children|..].
  - destruct (Scene.leaveParent child c s) as [s1| |] eqn:Hleave; [|done|done].
    cbn [Scene.bind]. intros [= <-].
    apply leaveParent_inv in Hleave as (Hcls & Hwl).
    destruct (owns_lookup s s1 this t Hcls Ht) as (t1 & Ht1 & Hb1).
    destruct (attach_inv (Scene.push child) this child s1 t1) as (Hcls' & Hwl');
      [done|done|apply push_children|done| | |].
    { unfold Scene.isRectLayer in *. by rewrite Hb1. }
    { by rewrite (owns_length _ _ Hcls). }
    split; [congruence|auto].
Qed.

Lemma addChildAt_inv (this child : nat) (index : Z) (s s' : list Scene.Node) :
  Scene.addChildAt this child index s = Scene.Ok s' →
  Scene.owns s' = Scene.owns s ∧ (Scene.wellLinked s → Scene.wellLinked s').
Proof.
  unfold Scene.addChildAt. destruct (s !! this) as [t|] eqn:Ht; [|done].
  destruct (s !! child) as [c|] eqn:Hc; [|done].
  apply lookup_lt_Some in Hc as Hchild.
  assert (Hrect : Scene.isRectLayer t = match Scene.own t with
                                        | Scene.RectLayer _ => true | _ => false end)
    by done.
  destruct (Scene.own t) as [l| |zf]; [done|done|].
  destruct (Scene.leaveParent child c s) as [s1| |] eqn:Hleave; [|done|done].
  cbn [Scene.bind]. intros [= <-].
  apply leaveParent_inv in Hleave as (Hcls & Hwl).
  destruct (owns_lookup s s1 this t Hcls Ht) as (t1 & Ht1 & Hb1).
  destruct (attach_inv
              (fun n => Scene.with_children
                          (Scene.spliceIn index child (Scene.children n)) n)
              this child s1 t1) as (Hcls' & Hwl');
    [done|done|intros; apply elem_of_spliceIn|done| | |].
  { unfold Scene.isRectLayer in *. by rewrite Hb1. }
  { by rewrite (owns_length _ _ Hcls). }
  split; [congruence|auto].
Qed.

Lemma lookup_unparent (l : list nat) (s : list Scene.Node) (q : nat) :
  foldl (fun s' c => alter (Scene.with_parent None) c s') s l !! q
  = (if decide (q ∈ l) then Scene.with_parent None else id) <$> s !! q.
Proof.
  revert s. induction l as [|c l IH]; intros s; cbn [foldl].
  - rewrite decide_False by apply not_elem_of_nil. by destruct (s !! q).
  - rewrite IH, list_lookup_alter.
    destruct (decide (c = q)) as [->|Hne].
    + rewrite (decide_True (P := q ∈ q :: l)) by left.
      destruct (s !! q); [|done]. by destruct (decide (q ∈ l)).
    + destruct (decide (q ∈ l)) as [Hin|Hni].
      * by rewrite decide_True by by right.
      * rewrite decide_False; [done|]. rewrite not_elem_of_cons. split; [congruence|done].
Qed.

Lemma length_unparent (l : list nat) (s : list Scene.Node) :
  length (foldl (fun s' c => alter (Scene.with_parent None) c s') s l) = length s.
Proof.
  revert s. induction l as [|c l IH]; intros s; cbn [foldl]; [done|].
  by rewrite IH, length_alter.
Qed.

Lemma removeChildren_inv (this : nat) (s s' : list Scene.Node) (removed : list nat) :
  Scene.removeChildren this s = Scene.Ok (removed, s') →
  Scene.owns s' = Scene.owns s ∧ (Scene.wellLinked s → Scene.wellLinked s').
Proof.
  unfold Scene.removeChildren. destruct (s !! this) as [t|] eqn:Ht; [|done].
  assert (Hgen :
    let s1 := alter (Scene.with_children []) this
                (foldl (fun s' c => alter (Scene.with_parent None) c s') s
                   (Scene.children t)) in
    Scene.owns s1 = Scene.owns s ∧ (Scene.wellLinked s → Scene.wellLinked s1)).
  { intros s1. subst s1.
    assert (Hlook : ∀ q,
      alter (Scene.with_children []) this
        (foldl (fun s' c => alter (Scene.with_parent None) c s') s (Scene.children t)) !! q
      = (if decide (this = q) then Scene.with_children [] else id)
          <$> ((if decide (q ∈ Scene.children t) then Scene.with_parent None else id)
                 <$> s !! q)).
    { intros q. rewrite list_lookup_alter.
      destruct (decide (this = q)) as [->|Hne]; rewrite lookup_unparent; [done|].
      by destruct (s !! q). }
    split.
    { apply list_eq. intros q. unfold Scene.owns. rewrite !list_lookup_fmap, Hlook.
      destruct (s !! q) as [n|]; [|done]. cbn.
      by destruct (decide (this = q)), (decide (q ∈ Scene.children t)). }
    intros (Hl & Hcl & Hlv). split; [|split].
    - intros c n p Hc Hp. rewrite Hlook in Hc.
      destruct (s !! c) as [n0|] eqn:Hc0; [|done]. cbn in Hc.
      destruct (decide (c ∈ Scene.children t)) as [Hin|Hni].
      { destruct (decide (this = c)); cbn in Hc; injection Hc as <-; done. }
      assert (Hp0 : Scene.parent n0 = Some p).
      { destruct (decide (this = c)); cbn in Hc; injection Hc as <-; done. }
      destruct (Hl c n0 p Hc0 Hp0) as (pn & Hpn & Hin).
      assert (this ≠ p) by (intros ->; congruence).
      rewrite Hlook, Hpn. rewrite (decide_False (P := this = p)) by done.
      eexists. split; [done|]. by destruct (decide (p ∈ Scene.children t)).
    - intros p pn c Hp Hin. rewrite length_alter, length_unparent.
      rewrite Hlook in Hp. destruct (s !! p) as [pn0|] eqn:Hp0; [|done]. cbn in Hp.
      apply (Hcl p pn0 c Hp0).
      destruct (decide (this = p)), (decide (p ∈ Scene.children t)); cbn in Hp;
        injection Hp as <-; cbn in Hin; try done; by apply elem_of_nil in Hin.
    - intros r n Hr Hrect. rewrite Hlook in Hr.
      destruct (s !! r) as [n0|] eqn:Hr0; [|done]. cbn in Hr.
      destruct (decide (this = r)), (decide (r ∈ Scene.children t)); cbn in Hr;
        injection Hr as <-; cbn in *; try done; by apply (Hlv r n0). }
  destruct (Scene.own t); intros [= <- <-]; done.
Qed.

Lemma setChildIndex_inv (this child : nat) (index : Z) (s s' : list Scene.Node) :
  Scene.setChildIndex this child index s = Scene.Ok s' →
  Scene.owns s' = Scene.owns s ∧ (Scene.wellLinked s → Scene.wellLinked s').
Proof.
  unfold Scene.setChildIndex. destruct (s !! this) as [t|] eqn:Ht; [|done].
  assert (Hrect : Scene.isRectLayer t = match Scene.own t with
                                        | Scene.RectLayer _ => true | _ => false end)
    by done.
  destruct (Scene.own t) as [l| |zf]; [done|done|].
  destruct (Scene.indexOf child (Scene.children t)) as [cur|] eqn:Hcur;
    intros [= <-]; [|done].
  apply indexOf_Some in Hcur as [Hcur _].
  assert (Hmem : ∀ x, x ∈ Scene.spliceIn index child (delete cur (Scene.children t))
                      ↔ x ∈ Scene.children t).
  { intros x. rewrite elem_of_spliceIn. split.
    - intros [->|Hx]; [by eapply list_elem_of_lookup_2|by eapply list_elem_of_delete_inv].
    - intros Hx. destruct (decide (x = child)) as [->|Hne]; [by left|right].
      apply elem_of_delete_other; [done|congruence]. }
  split; [by rewrite owns_alter|]. intros (Hl & Hcl & Hlv). split; [|split].
  - intros c n p Hc Hp. rewrite list_lookup_alter in Hc.
    assert (∃ n0, s !! c = Some n0 ∧ Scene.parent n0 = Some p) as (n0 & Hc0 & Hp0).
    { destruct (decide (this = c)) as [->|Hne]; [|by exists n].
      rewrite Ht in Hc. injection Hc as <-. by exists t. }
    destruct (Hl c n0 p Hc0 Hp0) as (pn & Hpn & Hin).
    rewrite list_lookup_alter. destruct (decide (this = p)) as [->|Hne].
    + rewrite Ht. eexists. split; [done|]. cbn. apply Hmem. congruence.
    + by exists pn.
  - intros p pn c Hp Hin. rewrite length_alter. rewrite list_lookup_alter in Hp.
    destruct (decide (this = p)) as [->|Hne]; [|by apply (Hcl p pn)].
    rewrite Ht in Hp. injection Hp as <-. apply (Hcl p t c Ht). by apply Hmem.
  - intros r n Hr Hb. rewrite list_lookup_alter in Hr.
    destruct (decide (this = r)) as [->|Hne]; [|by apply (Hlv r n)].
    rewrite Ht in Hr. injection Hr as <-. unfold Scene.isRectLayer in *. cbn in Hb.
    congruence.
Qed.

(** ** The layer tree: the stores the calls build *)

Lemma append_inv (s extra : list Scene.Node) :
  Scene.wellLinked s →
  (∀ i n p, extra !! i = Some n → Scene.parent n = Some p →
     ∃ pn, (s ++ extra) !! p = Some pn ∧ length s + i ∈ Scene.children pn) →
  (∀ i n c, extra !! i = Some n → c ∈ Scene.children n → c < length s + length extra) →
  (∀ i n, extra !! i = Some n → Scene.isRectLayer n = true → Scene.children n = []) →
  Scene.wellLinked (s ++ extra).
Proof.
  intros (Hl & Hcl & Hlv) Hex1 Hex2 Hex3. split; [|split].
  - intros c n p Hc Hp. apply lookup_app_Some in Hc as [Hc|[Hge Hc]].
    + destruct (Hl c n p Hc Hp) as (pn & Hpn & Hin). exists pn.
      split; [by apply lookup_app_l_Some|done].
    + destruct (Hex1 _ n p Hc Hp) as (pn & Hpn & Hin). exists pn. split; [done|].
      by replace c with (length s + (c - length s)) by lia.
  - intros p pn c Hp Hin. rewrite length_app.
    apply lookup_app_Some in Hp as [Hp|[Hge Hp]].
    + specialize (Hcl p pn c Hp Hin). lia.
    + by apply (Hex2 _ pn c Hp).
  - intros r n Hr Hb. apply lookup_app_Some in Hr as [Hr|[Hge Hr]].
    + by apply (Hlv r n).
    + by apply (Hex3 _ n Hr).
Qed.

Lemma single_inv (s : list Scene.Node) (zIndex : float) (o : Scene.Own) :
  Scene.wellLinked s → Scene.wellLinked (s ++ [Scene.newNode zIndex o]).
Proof.
  intros Hwl. apply append_inv; [done|..].
  - by intros [|i] n p; cbn; [intros [= <-]|].
  - intros [|i] n c; cbn; [|done]. intros [= <-]. cbn. by intros H%elem_of_nil.
  - by intros [|i] n; cbn; [intros [= <-]|].
Qed.

Lemma composite_inv (s pre : list Scene.Node) :
  Scene.wellLinked (s ++ pre) →
  Scene.wellLinked (s ++ pre ++ Scene.compositeNodes (length s + length pre)).
Proof.
  intros Hwl. rewrite app_assoc. apply append_inv; [done|..]; rewrite ?length_app.
  - intros [|[|i]] n p; cbn; try done.
    + by intros [= <-].
    + intros [= <-] [= <-]. eexists. split.
      * rewrite lookup_app_r by (rewrite length_app; lia).
        rewrite length_app, Nat.sub_diag. done.
      * cbn. rewrite Nat.add_1_r. apply list_elem_of_singleton. done.
  - intros [|[|i]] n c; cbn; try done.
    + intros [= <-]. cbn. rewrite list_elem_of_singleton. lia.
    + intros [= <-]. cbn. by intros H%elem_of_nil.
  - intros [|[|i]] n; cbn; try done.
    + by intros [= <-].
    + by intros [= <-].
Qed.

Lemma links_inv (s s' : list Scene.Node) :
  Scene.links s' = Scene.links s → Scene.wellLinked s → Scene.wellLinked s'.
Proof.
  intros Heq (Hl & Hcl & Hlv).
  split; [by apply (linked_links s)|].
  split; [by apply (closed_links s)|by apply (leaves_links s)].
Qed.

Lemma step_inv (c : Scene.Step) (s s' : list Scene.Node) :
  Scene.step c s = Scene.Ok s' → Scene.wellLinked s → Scene.wellLinked s'.
Proof.
  destruct c; cbn [Scene.step].
  - intros [= <-] Hwl. by apply single_inv.
  - intros [= <-] Hwl. cbn.
    pose proof (composite_inv s []) as H1.
    cbn in H1. rewrite app_nil_r, Nat.add_0_r in H1. auto.
  - unfold Scene.newZLayer.
    destruct (Scene.addChild _ _ _) as [s1| |] eqn:Hadd; [|done|done].
    cbn. intros [= <-] Hwl.
    apply addChild_inv in Hadd as (_ & Hwl1). apply Hwl1.
    set (zn := Scene.newNode _ _) in *.
    pose proof (composite_inv s [zn] (single_inv s _ _ Hwl)) as H1.
    cbn [length app] in H1. by rewrite Nat.add_1_r in H1.
  - intros H Hwl. apply addChild_inv in H as (_ & ?). auto.
  - intros H Hwl. apply addChildAt_inv in H as (_ & ?). auto.
  - intros H Hwl. apply removeChild_inv in H as (_ & ?). auto.
  - destruct (Scene.removeChildren this s) as [[removed s1]| |] eqn:H; [|done|done].
    cbn. intros [= <-] Hwl. apply removeChildren_inv in H as (_ & ?). auto.
  - intros H Hwl. apply setChildIndex_inv in H as (_ & ?). auto.
  - destruct (s !! this) as [t|]; [|done]. intros [= <-].
    apply links_inv, links_alter; intros n; destruct f; cbn; try done;
      unfold Scene.isRectLayer; destruct (Scene.own n) eqn:Hown; cbn; by rewrite ?Hown.
  - unfold Scene.onRectLayer. destruct (s !! this) as [t|] eqn:Ht; [|done].
    destruct (Scene.own t) eqn:Hown; [|done|done]. intros [= <-].
    apply links_inv, (links_insert _ _ t); try done.
    unfold Scene.isRectLayer. by rewrite Hown.
  - intros H%clear_links. by apply links_inv.
  - intros H%setBitmaps_links. by apply links_inv.
  - intros H%updateTransform_links. by apply links_inv.
Qed.

(** A z layer on its own is a store the calls build. *)
Lemma freshZLayer_built : Scene.built Scene.freshZLayer.
Proof.
  apply (Scene.built_step (Scene.NewZLayer None) []); [constructor|reflexivity].
Qed.

Lemma built_wellLinked (s : list Scene.Node) : Scene.built s → Scene.wellLinked s.
Proof.
  induction 1 as [|c s s' _ IH Hstep].
  - split; [by intros c n p Hc|]. split; [by intros p pn c Hp|by intros r n Hr].
  - by apply (step_inv c s).
Qed.

(** X15. The tree stays linked.  In every store that the constructors,
    [addChild], [addChildAt], [removeChild], [removeChildren],
    [setChildIndex], the property setters, the methods of the rect layer,
    [clear], [setBitmaps] and [updateTransform] can build, an object that has
    a parent is among that parent's [children], every child is an object of
    the store, and a rect layer has no children. *)
Theorem parent_lists_its_child (s : list Scene.Node) :
  Scene.built s →
  (∀ c n p, s !! c = Some n → Scene.parent n = Some p →
     ∃ pn, s !! p = Some pn ∧ c ∈ Scene.children pn)
  ∧ (∀ p pn c, s !! p = Some pn → c ∈ Scene.children pn → is_Some (s !! c))
  ∧ (∀ r n l, s !! r = Some n → Scene.own n = Scene.RectLayer l → Scene.children n = []).
Proof.
  intros (Hl & Hcl & Hlv)%built_wellLinked. split; [exact Hl|]. split.
  - intros p pn c Hp Hin. apply lookup_lt_is_Some_2. by apply (Hcl p pn).
  - intros r n l Hr Hown. apply (Hlv r n Hr). unfold Scene.isRectLayer. by rewrite Hown.
Qed.

Lemma parent_lists_its_child_witness :
  Scene.built Scene.freshZLayer
  ∧ ∀ c n p, Scene.freshZLayer !! c = Some n → Scene.parent n = Some p →
      ∃ pn, Scene.freshZLayer !! p = Some pn ∧ c ∈ Scene.children pn.
Proof.
  split; [exact freshZLayer_built|].
  exact (proj1 (parent_lists_its_child Scene.freshZLayer freshZLayer_built)).
Defined.

(** ** The layer tree: what [addChild] does *)

Lemma without_lookup (child : nat) (l : list nat) :
  child ∈ l → ∃ idx, Scene.indexOf child l = Some idx
                     ∧ Scene.without child l = delete idx l.
Proof.
  intros Hin. unfold Scene.without.
  destruct (Scene.indexOf child l) as [idx|] eqn:Hidx; [by exists idx|].
  by apply indexOf_None in Hidx.
Qed.

Lemma node_eta (n : Scene.Node) :
  Scene.with_parent (Scene.parent n) (Scene.with_children (Scene.children n) n) = n.
Proof. by destruct n. Qed.

Ltac node_cases n :=
  repeat case_decide; try congruence; destruct n;
  unfold Scene.push, Scene.with_parent, Scene.with_children; cbn;
  rewrite ?app_nil_r.

(** X16. What [addChild] does to the tree.  On a z layer or a composite
    layer, [addChild(child)] returns, makes the receiver the parent of
    [child] and appends [child] to the receiver's children.  The z layer
    first takes [child] out of the children of its old parent (its first
    occurrence there, which may be in the receiver itself); the composite
    layer does not, so the old parent goes on listing the child.  Nothing
    else changes in any object. *)
Theorem addChild_moves_or_shares (s : list Scene.Node) (this child : nat)
    (t c : Scene.Node) :
  Scene.built s → s !! this = Some t → s !! child = Some c →
  Scene.isRectLayer t = false →
  ∃ s', Scene.addChild this child s = Scene.Ok s'
    ∧ length s' = length s
    ∧ ∀ q n, s !! q = Some n →
        s' !! q
        = Some (Scene.with_parent
                  (if decide (q = child) then Some this else Scene.parent n)
                  (Scene.with_children
                     ((if decide (Scene.isZLayer t = true ∧ Scene.parent c = Some q)
                       then Scene.without child (Scene.children n)
                       else Scene.children n)
                      ++ (if decide (q = this) then [child] else []))
                     n)).
Proof.
  intros (Hl & Hcl & Hlv)%built_wellLinked Ht Hc Hnr.
  unfold Scene.addChild. rewrite Ht, Hc.
  unfold Scene.isRectLayer in Hnr. unfold Scene.isZLayer.
  destruct (Scene.own t) as [l| |zf] eqn:Hown; [done| |].
  - eexists. split; [done|]. split; [by rewrite !length_alter|].
    intros q n Hq. rewrite lookup_alter2, Hq. cbn.
    rewrite (decide_False (P := _ ∧ _)) by (by intros [? _]).
    by node_cases n.
  - unfold Scene.leaveParent. destruct (Scene.parent c) as [p|] eqn:Hp.
    + destruct (Hl child c p Hc Hp) as (pn & Hpn & Hin).
      unfold Scene.removeChild. rewrite Hpn.
      assert (Hpr : Scene.isRectLayer pn = false).
      { destruct (Scene.isRectLayer pn) eqn:Hb; [|done].
        rewrite (Hlv p pn Hpn Hb) in Hin. by apply elem_of_nil in Hin. }
      destruct (without_lookup child _ Hin) as (idx & Hidx & Hw).
      assert (Hrm : match Scene.own pn with
                    | Scene.RectLayer _ => Scene.Ok s
                    | _ => Scene.Ok (Scene.detach p child pn s)
                    end = Scene.Ok (Scene.detach p child pn s)).
      { unfold Scene.isRectLayer in Hpr. by destruct (Scene.own pn). }
      rewrite Hrm. cbn [Scene.bind]. unfold Scene.detach. rewrite Hidx.
      eexists. split; [done|]. split; [by rewrite !length_alter|].
      intros q n Hq. rewrite lookup_alter2, lookup_alter2, Hq. cbn.
      destruct (decide (p = q)) as [->|Hne0].
      * assert (n = pn) by congruence. subst n.
        rewrite (decide_True (P := _ ∧ _)) by done. rewrite Hw.
        by node_cases pn.
      * rewrite (decide_False (P := _ ∧ _)) by (intros [_ ?]; congruence).
        by node_cases n.
    + cbn [Scene.bind]. eexists. split; [done|]. split; [by rewrite !length_alter|].
      intros q n Hq. rewrite lookup_alter2, Hq. cbn.
      rewrite (decide_False (P := _ ∧ _)) by (by intros [_ ?]).
      by node_cases n.
Qed.

Lemma twoZLayers_built : Scene.built twoZLayers.
Proof.
  apply (Scene.built_step (Scene.NewZLayer None) Scene.freshZLayer);
    [apply freshZLayer_built|reflexivity].
Qed.

Lemma addChild_moves_or_shares_witness :
  Scene.built twoZLayers
  ∧ ∃ s', Scene.addChild 3 1 twoZLayers = Scene.Ok s'
      ∧ length s' = length twoZLayers
      ∧ ∀ q n, twoZLayers !! q = Some n →
          s' !! q
          = Some (Scene.with_parent
                    (if decide (q = 1) then Some 3 else Scene.parent n)
                    (Scene.with_children
                       ((if decide (true = true ∧ Some 0 = Some q)
                         then Scene.without 1 (Scene.children n)
                         else Scene.children n)
                        ++ (if decide (q = 3) then [1] else []))
                       n)).
Proof.
  split; [exact twoZLayers_built|].
  exact (addChild_moves_or_shares twoZLayers 3 1 _ _ twoZLayers_built
           eq_refl eq_refl eq_refl).
Defined.

(** ** The layer tree: the order of the children *)

Lemma indexOf_middle (child : nat) (l1 l2 : list nat) :
  child ∉ l1 → Scene.indexOf child (l1 ++ child :: l2) = Some (length l1).
Proof.
  induction l1 as [|c l1 IH]; cbn [Scene.indexOf app length]; intros Hni.
  - by rewrite Nat.eqb_refl.
  - apply not_elem_of_cons in Hni as [Hne Hni].
    destruct (Nat.eqb_spec child c); [done|]. by rewrite IH.
Qed.

Lemma filter_others_delete (child : nat) (l : list nat) (i : nat) :
  l !! i = Some child →
  filter (fun x => x ≠ child) (delete i l) = filter (fun x => x ≠ child) l.
Proof.
  intros Hi. rewrite delete_take_drop.
  rewrite <- (take_drop_middle l i child Hi) at 3.
  rewrite !filter_app, filter_cons. by rewrite decide_False by (by intros ?).
Qed.

Lemma filter_others_spliceIn (child : nat) (index : Z) (l : list nat) :
  filter (fun x => x ≠ child) (Scene.spliceIn index child l)
  = filter (fun x => x ≠ child) l.
Proof.
  unfold Scene.spliceIn. set (k := Scene.spliceStart _ _).
  rewrite filter_app, filter_cons. rewrite decide_False by (by intros ?).
  by rewrite <- filter_app, take_drop.
Qed.

(** X17. [setChildIndex] moves one child and keeps the others in order.  For
    a child of a z layer, [setChildIndex(child, index)] takes the child's
    first occurrence out and puts it at position [index], clamped to the last
    position; a negative [index] counts back from the last position and is
    clamped to 0.  The children are the same as before, up to order, the
    other children keep their relative order, no other object changes, and
    when the child occurred once [getChildIndex] then answers that
    position. *)
Theorem setChildIndex_places_the_child (s : list Scene.Node) (this child : nat)
    (index : Z) (t : Scene.Node) (zf : Scene.ZFields) :
  s !! this = Some t → Scene.own t = Scene.ZLayer zf → child ∈ Scene.children t →
  let last := (Z.of_nat (length (Scene.children t)) - 1)%Z in
  let k := Z.to_nat (if (index <? 0)%Z then Z.max (last + index) 0
                     else Z.min index last) in
  ∃ s' l', Scene.setChildIndex this child index s = Scene.Ok s'
    ∧ s' !! this = Some (Scene.with_children l' t)
    ∧ (∀ q, q ≠ this → s' !! q = s !! q)
    ∧ l' !! k = Some child
    ∧ l' ≡ₚ Scene.children t
    ∧ filter (fun x => x ≠ child) l' = filter (fun x => x ≠ child) (Scene.children t)
    ∧ (NoDup (Scene.children t) →
         Scene.getChildIndex this child s' = Scene.Ok (Z.of_nat k)).
Proof.
  intros Ht Hown Hin last k. unfold Scene.setChildIndex. rewrite Ht, Hown.
  destruct (Scene.indexOf child (Scene.children t)) as [cur|] eqn:Hcur.
  2:{ by apply indexOf_None in Hcur. }
  apply indexOf_Some in Hcur as [Hcur _].
  set (l := Scene.children t) in *. set (l0 := delete cur l).
  assert (Hlen : length l = S (length l0)).
  { subst l0. rewrite length_delete by done. apply lookup_lt_Some in Hcur. lia. }
  assert (Hk : Scene.spliceStart index (length l0) = k).
  { unfold Scene.spliceStart. subst k last. rewrite Hlen.
    replace (Z.of_nat (S (length l0)) - 1)%Z with (Z.of_nat (length l0)) by lia.
    by destruct (index <? 0)%Z. }
  assert (Hkle : k ≤ length l0).
  { rewrite <- Hk. unfold Scene.spliceStart. destruct (index <? 0)%Z eqn:Hneg; lia. }
  exists (alter (Scene.with_children (Scene.spliceIn index child l0)) this s),
         (Scene.spliceIn index child l0).
  split; [done|]. split; [by rewrite list_lookup_alter_eq, Ht|].
  split; [by intros q Hq; rewrite list_lookup_alter_ne|].
  assert (Hsp : Scene.spliceIn index child l0 = take k l0 ++ child :: drop k l0).
  { unfold Scene.spliceIn. by rewrite Hk. }
  split; [|split; [|split]].
  - rewrite Hsp. apply list_lookup_middle. by rewrite length_take_le.
  - rewrite Hsp. rewrite <- Permutation_middle, take_drop.
    symmetry. by apply delete_Permutation.
  - rewrite filter_others_spliceIn. by apply filter_others_delete.
  - intros Hnd. unfold Scene.getChildIndex.
    rewrite list_lookup_alter_eq, Ht. cbn. rewrite Hown. do 2 f_equal.
    assert (Hni : child ∉ l0).
    { rewrite (delete_Permutation l cur child Hcur) in Hnd.
      by apply NoDup_cons in Hnd as [? _]. }
    rewrite Hsp, indexOf_middle.
    + by rewrite length_take_le.
    + intros H. apply Hni. by apply (subseteq_take k l0).
Qed.

Lemma setChildIndex_places_the_child_witness :
  ∃ s' l', Scene.setChildIndex 0 4 0 threeChildren = Scene.Ok s'
    ∧ s' !! 0 = Some (Scene.with_children l' (default (Scene.newNode 0 Scene.CompositeLayer)
                                                   (threeChildren !! 0)))
    ∧ (∀ q, q ≠ 0 → s' !! q = threeChildren !! q)
    ∧ l' !! 0 = Some 4
    ∧ l' ≡ₚ [1; 3; 4]
    ∧ filter (fun x => x ≠ 4) l' = filter (fun x => x ≠ 4) [1; 3; 4]
    ∧ (NoDup [1; 3; 4] → Scene.getChildIndex 0 4 s' = Scene.Ok 0%Z).
Proof.
  exact (setChildIndex_places_the_child threeChildren 0 4 0 _ _ eq_refl eq_refl
           (list_elem_of_lookup_2 [1; 3; 4] 2 4 eq_refl)).
Defined.

Lemma delete_snoc (l : list nat) (x : nat) : delete (length l) (l ++ [x]) = l.
Proof. induction l as [|y l IH]; [done|]. cbn. f_equal. apply IH. Qed.

(** X18. [removeChild] undoes [addChild].  For a z layer or a composite
    layer and a child that has no parent and is not yet among the receiver's
    children, [addChild(child)] followed by [removeChild(child)] leaves every
    object as it was. *)
Theorem removeChild_undoes_addChild (s : list Scene.Node) (this child : nat)
    (t c : Scene.Node) :
  s !! this = Some t → Scene.isRectLayer t = false →
  s !! child = Some c → Scene.parent c = None → child ∉ Scene.children t →
  ∃ s1, Scene.addChild this child s = Scene.Ok s1
        ∧ Scene.removeChild this child s1 = Scene.Ok s.
Proof.
  intros Ht Hnr Hc Hp Hni.
  exists (alter (Scene.push child) this (alter (Scene.with_parent (Some this)) child s)).
  split.
  { unfold Scene.addChild, Scene.leaveParent. rewrite Ht, Hc, Hp.
    unfold Scene.isRectLayer in Hnr. by destruct (Scene.own t). }
  unfold Scene.removeChild. rewrite lookup_alter2, Ht. cbn [fmap option_fmap option_map].
  rewrite decide_True by done.
  set (t1 := Scene.push child _).
  assert (Hown : Scene.own t1 = Scene.own t) by (subst t1; by case_decide).
  assert (Hch : Scene.children t1 = Scene.children t ++ [child])
    by (subst t1; by case_decide).
  assert (Hrm : match Scene.own t1 with
                | Scene.RectLayer _ =>
                    Scene.Ok (alter (Scene.push child) this
                                (alter (Scene.with_parent (Some this)) child s))
                | _ => Scene.Ok (Scene.detach this child t1
                                   (alter (Scene.push child) this
                                      (alter (Scene.with_parent (Some this)) child s)))
                end
                = Scene.Ok (Scene.detach this child t1
                                   (alter (Scene.push child) this
                                      (alter (Scene.with_parent (Some this)) child s)))).
  { rewrite Hown. unfold Scene.isRectLayer in Hnr. by destruct (Scene.own t). }
  rewrite Hrm. f_equal. unfold Scene.detach.
  rewrite Hch, (indexOf_snoc _ _ Hni), delete_snoc.
  apply list_eq. intros q. rewrite !lookup_alter2.
  destruct (s !! q) as [n|] eqn:Hq; [|done]. cbn. f_equal.
  destruct (decide (child = q)) as [->|Hne1], (decide (this = q)) as [->|Hne2]; cbn.
  - assert (n = t) by congruence. assert (n = c) by congruence. subst.
    destruct c; cbn in *; by subst.
  - assert (n = c) by congruence. subst. destruct c; cbn in *; by subst.
  - assert (n = t) by congruence. subst. by destruct t.
  - done.
Qed.

Lemma removeChild_undoes_addChild_witness :
  ∃ s1, Scene.addChild 1 0 (snd (Scene.newCompositeLayer (snd (Scene.newRectLayer []))))
        = Scene.Ok s1
        ∧ Scene.removeChild 1 0 s1
          = Scene.Ok (snd (Scene.newCompositeLayer (snd (Scene.newRectLayer [])))).
Proof.
  refine (removeChild_undoes_addChild
            (snd (Scene.newCompositeLayer (snd (Scene.newRectLayer [])))) 1 0 _ _
            eq_refl eq_refl eq_refl eq_refl _).
  cbn. apply not_elem_of_cons. split; [done|apply not_elem_of_nil].
Defined.

(** ** The layer tree: from the z layer down to the rect layer *)

Lemma tower_distinct (s : list Scene.Node) (z c r : nat) (zn cn rn : Scene.Node)
    (l : Layer) :
  Scene.isTower s z c r zn cn rn l → z ≠ c ∧ z ≠ r ∧ c ≠ r.
Proof.
  intros (Hz & Hc & Hr & (zf & Hzo & _) & _ & Hco & _ & Hro).
  repeat split; intros ->; congruence.
Qed.

Lemma syncTransform_world (env : Env) (n : Scene.Node) :
  Scene.worldAlpha (Scene.syncTransform env n) = Scene.worldAlpha n
  ∧ Scene.worldVisible (Scene.syncTransform env n) = Scene.worldVisible n.
Proof. unfold Scene.syncTransform. by destruct (Scene.own n). Qed.

(** X19. [updateTransform] on a z layer reaches the rect layer.  For a z
    layer whose only child is its composite layer, whose only child is the
    rect layer, [updateTransform(parentAlpha)] returns; it runs [_flush] on
    the rect layer, and the world alpha of each of the three is its own alpha
    times the world alpha of the one above ([parentAlpha], or 1, above the z
    layer).  [worldVisible] is each object's own [_visible]: a hidden parent
    does not clear it.  Parents and children stay as they are and no other
    object changes. *)
Theorem updateTransform_flushes_the_rect_layer (env : Env) (s : list Scene.Node)
    (z c r : nat) (zn cn rn : Scene.Node) (l : Layer) (parentAlpha : option float)
    (fuel : nat) :
  Scene.isTower s z c r zn cn rn l → 3 ≤ fuel →
  let a := default 1%float parentAlpha in
  ∃ s' zn' cn' rn',
    Scene.updateTransform fuel env z parentAlpha s = Scene.Ok s'
    ∧ s' !! z = Some zn' ∧ s' !! c = Some cn' ∧ s' !! r = Some rn'
    ∧ Scene.own rn' = Scene.RectLayer (_flush env l)
    ∧ Scene.worldAlpha zn' = (Scene._alpha zn * a)%float
    ∧ Scene.worldAlpha cn' = (Scene._alpha cn * (Scene._alpha zn * a))%float
    ∧ Scene.worldAlpha rn'
      = (Scene._alpha rn * (Scene._alpha cn * (Scene._alpha zn * a)))%float
    ∧ Scene.worldVisible zn' = Scene._visible zn
    ∧ Scene.worldVisible cn' = Scene._visible cn
    ∧ Scene.worldVisible rn' = Scene._visible rn
    ∧ Scene.links s' = Scene.links s
    ∧ ∀ q, q ≠ z → q ≠ c → q ≠ r → s' !! q = s !! q.
Proof.
  intros Htower Hfuel a.
  destruct (tower_distinct _ _ _ _ _ _ _ _ Htower) as (Hzc & Hzr & Hcr).
  destruct Htower as (Hz & Hc & Hr & (zf & Hzo & Hzc') & Hzch & Hco & Hcch & Hro).
  destruct fuel as [|[|[|fuel]]]; [lia|lia|lia|].
  set (zn' := Scene.syncTransform env
                (Scene.with_world (Scene._alpha zn * a) (Scene._visible zn) zn)).
  set (cn' := Scene.syncTransform env
                (Scene.with_world (Scene._alpha cn * (Scene._alpha zn * a))
                   (Scene._visible cn) cn)).
  set (rn' := Scene.syncTransform env
                (Scene.with_world
                   (Scene._alpha rn * (Scene._alpha cn * (Scene._alpha zn * a)))
                   (Scene._visible rn) rn)).
  set (s1 := <[z := zn']> s). set (s2 := <[c := cn']> s1). set (s3 := <[r := rn']> s2).
  assert (Hlz : z < length s) by by eapply lookup_lt_Some.
  assert (Hlc : c < length s) by by eapply lookup_lt_Some.
  assert (Hlr : r < length s) by by eapply lookup_lt_Some.
  assert (H1z : s1 !! z = Some zn') by by apply list_lookup_insert_eq.
  assert (H1c : s1 !! c = Some cn) by by (subst s1; rewrite list_lookup_insert_ne).
  assert (H2c : s2 !! c = Some cn').
  { subst s2 s1. apply list_lookup_insert_eq. by rewrite length_insert. }
  assert (H2r : s2 !! r = Some rn).
  { subst s2 s1. by rewrite !list_lookup_insert_ne. }
  assert (Hwz : Scene.worldAlpha zn' = (Scene._alpha zn * a)%float).
  { subst zn'. by rewrite (proj1 (syncTransform_world _ _)). }
  assert (Hwc : Scene.worldAlpha cn' = (Scene._alpha cn * (Scene._alpha zn * a))%float).
  { subst cn'. by rewrite (proj1 (syncTransform_world _ _)). }
  assert (Hrun_r : Scene.updateTransform (S fuel) env r (Some (Scene.worldAlpha cn')) s2
                   = Scene.Ok s3).
  { cbn [Scene.updateTransform]. rewrite H2r, Hro, Hwc. done. }
  assert (Hrun_c : Scene.updateTransform (S (S fuel)) env c (Some (Scene.worldAlpha zn')) s1
                   = Scene.Ok s3).
  { cbn [Scene.updateTransform]. rewrite H1c, Hco, Hcch, Hwz. cbn [foldl Scene.bind default].
    change (match s2 !! c with
            | Some t' => Scene.updateTransform (S fuel) env r (Some (Scene.worldAlpha t')) s2
            | None => Scene.Throws
            end = Scene.Ok s3).
    by rewrite H2c. }
  assert (Hrun : Scene.updateTransform (S (S (S fuel))) env z parentAlpha s = Scene.Ok s3).
  { cbn [Scene.updateTransform]. rewrite Hz, Hzo, Hzch. cbn [foldl Scene.bind].
    change (match s1 !! z with
            | Some t' =>
                Scene.updateTransform (S (S fuel)) env c (Some (Scene.worldAlpha t')) s1
            | None => Scene.Throws
            end = Scene.Ok s3).
    by rewrite H1z. }
  exists s3, zn', cn', rn'. split; [exact Hrun|].
  split; [by subst s3 s2; rewrite !list_lookup_insert_ne|].
  split; [by subst s3; rewrite list_lookup_insert_ne|].
  split; [subst s3 s2 s1; apply list_lookup_insert_eq; by rewrite !length_insert|].
  split; [subst rn'; unfold Scene.syncTransform; cbn; by rewrite Hro|].
  split; [done|]. split; [done|].
  split; [subst rn'; by rewrite (proj1 (syncTransform_world _ _))|].
  split; [subst zn'; by rewrite (proj2 (syncTransform_world _ _))|].
  split; [subst cn'; by rewrite (proj2 (syncTransform_world _ _))|].
  split; [subst rn'; by rewrite (proj2 (syncTransform_world _ _))|].
  split; [by apply (updateTransform_links _ _ _ _ _ _ Hrun)|].
  intros q Hq1 Hq2 Hq3. subst s3 s2 s1. by rewrite !list_lookup_insert_ne.
Qed.

Lemma freshZLayer_tower :
  Scene.isTower Scene.freshZLayer 0 1 2
    (default (Scene.newNode 0 Scene.CompositeLayer) (Scene.freshZLayer !! 0))
    (default (Scene.newNode 0 Scene.CompositeLayer) (Scene.freshZLayer !! 1))
    (default (Scene.newNode 0 Scene.CompositeLayer) (Scene.freshZLayer !! 2))
    init.
Proof. repeat split. by eexists. Qed.

Lemma updateTransform_flushes_the_rect_layer_witness :
  ∃ s' zn' cn' rn',
    Scene.updateTransform 3 plainEnv 0 None Scene.freshZLayer = Scene.Ok s'
    ∧ s' !! 0 = Some zn' ∧ s' !! 1 = Some cn' ∧ s' !! 2 = Some rn'
    ∧ Scene.own rn' = Scene.RectLayer (_flush plainEnv init)
    ∧ Scene.worldAlpha zn' = (1 * 1)%float
    ∧ Scene.worldAlpha cn' = (1 * (1 * 1))%float
    ∧ Scene.worldAlpha rn' = (1 * (1 * (1 * 1)))%float
    ∧ Scene.worldVisible zn' = true
    ∧ Scene.worldVisible cn' = true
    ∧ Scene.worldVisible rn' = true
    ∧ Scene.links s' = Scene.links Scene.freshZLayer
    ∧ ∀ q, q ≠ 0 → q ≠ 1 → q ≠ 2 → s' !! q = Scene.freshZLayer !! q.
Proof.
  exact (updateTransform_flushes_the_rect_layer plainEnv Scene.freshZLayer 0 1 2 _ _ _
           init None 3 freshZLayer_tower (le_n 3)).
Defined.

(** X20. [clear] and [setBitmaps] reach the rect layer.  For a z layer
    over its composite layer over the rect layer, [clear()] on the z layer or
    on the composite layer is [clear()] on the rect layer, and
    [setBitmaps(bitmaps)] on the composite layer is [setBitmaps(bitmaps)] on
    the rect layer; no other object changes.  The z layer has no
    [setBitmaps]: the call throws. *)
Theorem clear_and_setBitmaps_reach_the_rect_layer (s : list Scene.Node)
    (z c r : nat) (zn cn rn : Scene.Node) (l : Layer)
    (bitmaps : list (option Bitmap)) (fuel : nat) :
  Scene.isTower s z c r zn cn rn l →
  Scene.clear (3 + fuel) z s
  = Scene.Ok (<[r := Scene.with_own (Scene.RectLayer (clear l)) rn]> s)
  ∧ Scene.clear (2 + fuel) c s
    = Scene.Ok (<[r := Scene.with_own (Scene.RectLayer (clear l)) rn]> s)
  ∧ Scene.setBitmaps (2 + fuel) c bitmaps s
    = Scene.Ok (<[r := Scene.with_own (Scene.RectLayer (setBitmaps bitmaps l)) rn]> s)
  ∧ Scene.setBitmaps (1 + fuel) z bitmaps s = Scene.Throws.
Proof.
  intros (Hz & Hc & Hr & (zf & Hzo & Hzc) & Hzch & Hco & Hcch & Hro).
  repeat split; cbn [Nat.add Scene.clear Scene.setBitmaps];
    rewrite ?Hz, ?Hzo, ?Hzc, ?Hc, ?Hco, ?Hcch, ?Hr, ?Hro; done.
Qed.

Lemma clear_and_setBitmaps_reach_the_rect_layer_witness :
  Scene.clear 3 0 Scene.freshZLayer
  = Scene.Ok (<[2 := Scene.with_own (Scene.RectLayer (clear init))
                       (default (Scene.newNode 0 Scene.CompositeLayer)
                          (Scene.freshZLayer !! 2))]> Scene.freshZLayer)
  ∧ Scene.setBitmaps 1 0 [] Scene.freshZLayer = Scene.Throws.
Proof.
  pose proof (clear_and_setBitmaps_reach_the_rect_layer Scene.freshZLayer 0 1 2 _ _ _
                init [] 0 freshZLayer_tower) as H.
  exact (conj (proj1 H) (proj2 (proj2 (proj2 H)))).
Defined.

(** X21. An emptied composite layer cannot be cleared.  After
    [removeChildren()] on the composite layer of a z layer, [clear()] on the z
    layer or on the composite layer and [setBitmaps] on the composite layer
    throw: they call a method of [children[0]], which is [undefined]. *)
Theorem clear_throws_on_emptied_composite (s s1 : list Scene.Node) (z c : nat)
    (zn cn : Scene.Node) (zf : Scene.ZFields) (removed : list nat)
    (bitmaps : list (option Bitmap)) (fuel : nat) :
  s !! z = Some zn → Scene.own zn = Scene.ZLayer zf → Scene._compositeLayer zf = c →
  s !! c = Some cn → Scene.own cn = Scene.CompositeLayer →
  Scene.removeChildren c s = Scene.Ok (removed, s1) →
  removed = Scene.children cn
  ∧ Scene.clear (2 + fuel) z s1 = Scene.Throws
  ∧ Scene.clear (1 + fuel) c s1 = Scene.Throws
  ∧ Scene.setBitmaps (1 + fuel) c bitmaps s1 = Scene.Throws.
Proof.
  intros Hz Hzo Hzc Hc Hco. unfold Scene.removeChildren. rewrite Hc, Hco.
  intros [= <- <-]. split; [done|].
  assert (Hzc' : z ≠ c) by (intros ->; congruence).
  set (s0 := foldl _ _ _).
  assert (∃ cn0, s0 !! c = Some cn0 ∧ Scene.own cn0 = Scene.CompositeLayer)
    as (cn0 & H0c & H0co).
  { subst s0. rewrite lookup_unparent, Hc. eexists. split; [done|]. by case_decide. }
  assert (∃ zn0, s0 !! z = Some zn0 ∧ Scene.own zn0 = Scene.ZLayer zf)
    as (zn0 & H0z & H0zo).
  { subst s0. rewrite lookup_unparent, Hz. eexists. split; [done|]. by case_decide. }
  assert (H1c : alter (Scene.with_children []) c s0 !! c
                = Some (Scene.with_children [] cn0))
    by by rewrite list_lookup_alter_eq, H0c.
  assert (H1z : alter (Scene.with_children []) c s0 !! z = Some zn0)
    by by rewrite list_lookup_alter_ne.
  repeat split; cbn [Nat.add Scene.clear Scene.setBitmaps];
    rewrite ?H1z, ?H0zo, ?Hzc, ?H1c; cbn; rewrite ?H0co; done.
Qed.

Lemma clear_throws_on_emptied_composite_witness :
  ∃ s1, Scene.removeChildren 1 Scene.freshZLayer = Scene.Ok ([2], s1)
        ∧ Scene.clear 2 0 s1 = Scene.Throws.
Proof.
  eexists. split; [reflexivity|].
  exact (proj1 (proj2 (clear_throws_on_emptied_composite Scene.freshZLayer _ 0 1 _ _ _ _
                         [] 0 eq_refl eq_refl eq_refl eq_refl eq_refl eq_refl))).
Defined.

(** ** The layer tree: the rect layers inside *)

Lemma rectsReachable_insert (s : list Scene.Node) (i : nat) (t t' : Scene.Node) :
  s !! i = Some t →
  (∀ l', Scene.own t' = Scene.RectLayer l' →
     ∃ l, Scene.own t = Scene.RectLayer l ∧ (reachable l → reachable l')) →
  Scene.rectsReachable s → Scene.rectsReachable (<[i := t']> s).
Proof.
  intros Hi Ht' Hrr r n l Hr Hown.
  destruct (decide (i = r)) as [->|Hne].
  - rewrite list_lookup_insert_eq in Hr by by eapply lookup_lt_Some.
    injection Hr as <-. destruct (Ht' l Hown) as (l0 & Hown0 & Hreach).
    apply Hreach. by apply (Hrr r t l0).
  - rewrite list_lookup_insert_ne in Hr by done. by apply (Hrr r n l).
Qed.

Lemma clear_rectsReachable (fuel : nat) (this : nat) (s s' : list Scene.Node) :
  Scene.clear fuel this s = Scene.Ok s' →
  Scene.rectsReachable s → Scene.rectsReachable s'.
Proof.
  revert this. induction fuel as [|fuel IH]; intros this; [done|].
  cbn [Scene.clear]. destruct (s !! this) as [t|] eqn:Ht; [|done].
  destruct (Scene.own t) as [l| |zf] eqn:Hown.
  - intros [= <-]. apply (rectsReachable_insert _ _ t); [done|].
    intros l' [= <-]. exists l. split; [done|]. apply (reach_run OpClear).
  - destruct (Scene.children t) as [|c ?]; [done|]. apply IH.
  - apply IH.
Qed.

Lemma setBitmaps_rectsReachable (fuel : nat) (this : nat) bitmaps
    (s s' : list Scene.Node) :
  Scene.setBitmaps fuel this bitmaps s = Scene.Ok s' →
  Scene.rectsReachable s → Scene.rectsReachable s'.
Proof.
  revert this. induction fuel as [|fuel IH]; intros this; [done|].
  cbn [Scene.setBitmaps]. destruct (s !! this) as [t|] eqn:Ht; [|done].
  destruct (Scene.own t) as [l| |zf] eqn:Hown; [| |done].
  - intros [= <-]. apply (rectsReachable_insert _ _ t); [done|].
    intros l' [= <-]. exists l. split; [done|]. apply (reach_run (OpSetBitmaps bitmaps)).
  - destruct (Scene.children t) as [|c ?]; [done|]. apply IH.
Qed.

Lemma foldl_bind_inv {A} (P : list Scene.Node → Prop)
    (f : list Scene.Node → A → Scene.Result (list Scene.Node))
    (l : list A) (r : Scene.Result (list Scene.Node)) (s' : list Scene.Node) :
  (∀ s s1 a, f s a = Scene.Ok s1 → P s → P s1) →
  (∀ s, r = Scene.Ok s → P s) →
  foldl (fun acc a => Scene.bind acc (fun s => f s a)) r l = Scene.Ok s' → P s'.
Proof.
  intros Hf. revert r. induction l as [|a l IH]; intros r Hr; cbn [foldl].
  - apply Hr.
  - apply IH. intros s Hs. destruct r as [s1| |]; [|done|done]. cbn in Hs.
    apply (Hf _ _ _ Hs). by apply Hr.
Qed.

Lemma updateTransform_rectsReachable (fuel : nat) (env : Env) (this : nat)
    (parentAlpha : option float) (s s' : list Scene.Node) :
  Scene.updateTransform fuel env this parentAlpha s = Scene.Ok s' →
  Scene.rectsReachable s → Scene.rectsReachable s'.
Proof.
  revert this parentAlpha s s'. induction fuel as [|fuel IH];
    intros this parentAlpha s s'; [done|].
  cbn [Scene.updateTransform]. destruct (s !! this) as [t|] eqn:Ht; [|done].
  set (t1 := Scene.syncTransform env _). intros Hrun Hrr.
  assert (Hs1 : Scene.rectsReachable (<[this := t1]> s)).
  { apply (rectsReachable_insert _ _ t); [done| |done].
    subst t1. unfold Scene.syncTransform. cbn [Scene.own Scene.with_world].
    destruct (Scene.own t) as [l| |zf] eqn:Hown; cbn; rewrite ?Hown; [|done|done].
    intros l' [= <-]. exists l. split; [done|]. apply (reach_run (OpFlush env)). }
  assert (Hloop : foldl (fun acc child =>
             Scene.bind acc (fun s' => match s' !! this with
               | Some t' => Scene.updateTransform fuel env child
                              (Some (Scene.worldAlpha t')) s'
               | None => Scene.Throws end))
            (Scene.Ok (<[this := t1]> s)) (Scene.children t) = Scene.Ok s' →
          Scene.rectsReachable s').
  { apply (foldl_bind_inv Scene.rectsReachable
             (fun s' child => match s' !! this with
                | Some t' => Scene.updateTransform fuel env child
                               (Some (Scene.worldAlpha t')) s'
                | None => Scene.Throws end)).
    - intros s2 s3 a. destruct (s2 !! this); [|done]. apply IH.
    - by intros ? [= <-]. }
  destruct (Scene.own t) as [l| |zf]; [|by apply Hloop|by apply Hloop].
  by injection Hrun as <-.
Qed.

Lemma append_rectsReachable (s extra : list Scene.Node) :
  (∀ i n l, extra !! i = Some n → Scene.own n = Scene.RectLayer l → l = init) →
  Scene.rectsReachable s → Scene.rectsReachable (s ++ extra).
Proof.
  intros Hex Hrr r n l Hr Hown. apply lookup_app_Some in Hr as [Hr|[_ Hr]].
  - by apply (Hrr r n l).
  - rewrite (Hex _ n l Hr Hown). constructor.
Qed.

Lemma step_rectsReachable (c : Scene.Step) (s s' : list Scene.Node) :
  Scene.step c s = Scene.Ok s' → Scene.rectsReachable s → Scene.rectsReachable s'.
Proof.
  destruct c; cbn [Scene.step].
  - intros [= <-]. apply append_rectsReachable.
    intros [|i] n l; cbn; [|done]. by intros [= <-] [= <-].
  - intros [= <-]. apply append_rectsReachable.
    intros [|[|i]] n l; cbn; try done; by intros [= <-] [= <-].
  - unfold Scene.newZLayer.
    destruct (Scene.addChild _ _ _) as [s1| |] eqn:Hadd; [|done|done].
    cbn. intros [= <-] Hrr. apply addChild_inv in Hadd as (Hown & _).
    apply (rectsReachable_owns _ _ Hown). apply append_rectsReachable; [|done].
    intros [|[|[|i]]] n l; cbn; try done; by intros [= <-] [= <-].
  - intros H. apply addChild_inv in H as (Hown & _). by apply rectsReachable_owns.
  - intros H. apply addChildAt_inv in H as (Hown & _). by apply rectsReachable_owns.
  - intros H. apply removeChild_inv in H as (Hown & _). by apply rectsReachable_owns.
  - destruct (Scene.removeChildren this s) as [[removed s1]| |] eqn:H; [|done|done].
    cbn. intros [= <-]. apply removeChildren_inv in H as (Hown & _).
    by apply rectsReachable_owns.
  - intros H. apply setChildIndex_inv in H as (Hown & _). by apply rectsReachable_owns.
  - destruct (s !! this) as [t|] eqn:Ht; [|done]. intros [= <-] Hrr r n l Hr Hown.
    rewrite list_lookup_alter in Hr. destruct (decide (this = r)) as [->|Hne].
    + rewrite Ht in Hr. injection Hr as <-. apply (Hrr r t l Ht).
      destruct f; cbn in Hown; try done.
      destruct (Scene.own t) eqn:Hown'; cbn in Hown; congruence.
    + by apply (Hrr r n l).
  - unfold Scene.onRectLayer. destruct (s !! this) as [t|] eqn:Ht; [|done].
    destruct (Scene.own t) eqn:Hown; [|done|done]. intros [= <-].
    apply (rectsReachable_insert _ _ t); [done|].
    intros l' [= <-]. eexists. split; [done|]. apply reach_run.
  - apply clear_rectsReachable.
  - apply setBitmaps_rectsReachable.
  - apply updateTransform_rectsReachable.
Qed.

(** X22. Inside the tree the rect layer is only driven through its own
    operations.  In every store the calls can build, whatever was called on
    the z layers and composite layers above it ([clear], [setBitmaps],
    [updateTransform], the child management), the state of a rect layer is
    one that [addRect], [clear], [setBitmaps], the draw-layer and phase
    assignments and [flush] reach from a new layer: what holds in every
    reachable state of the layer holds for it. *)
Theorem rect_layers_stay_reachable (s : list Scene.Node) (r : nat) (n : Scene.Node)
    (l : Layer) :
  Scene.built s → s !! r = Some n → Scene.own n = Scene.RectLayer l → reachable l.
Proof.
  intros Hb. revert r n l. change (Scene.rectsReachable s).
  induction Hb as [|c s s' _ IH Hstep]; [by intros r n l Hr|].
  by apply (step_rectsReachable c s).
Qed.

Lemma usedZLayer_built : Scene.built usedZLayer.
Proof.
  apply (Scene.built_step (Scene.UpdateTransform 3 plainEnv 0 None)
           (<[2 := Scene.with_own (Scene.RectLayer (clear init))
                     (Scene.with_parent (Some 1) (Scene.newNode 0 (Scene.RectLayer init)))]>
              Scene.freshZLayer)).
  - apply (Scene.built_step (Scene.Clear 3 0) Scene.freshZLayer);
      [apply freshZLayer_built|reflexivity].
  - reflexivity.
Qed.

Lemma rect_layers_stay_reachable_witness :
  Scene.built usedZLayer ∧ reachable (_flush plainEnv (clear init)).
Proof.
  split; [exact usedZLayer_built|].
  exact (rect_layers_stay_reachable usedZLayer 2 _ _ usedZLayer_built eq_refl eq_refl).
Defined.
